(** * The Crystal Router of hipBone's gather-scatter library

    A shallow embedding of [libs/ogs/ogsCrystalRouter.cpp]: the schedule
    construction ([ogsCrystalRouter_t::ogsCrystalRouter_t]), the buffer
    manager ([AllocBuffer]) and the exchange executor ([Start], [Finish]).

    Conventions.
    - [int], [dlong] and [hlong] values are integers of [Z].  Every value
      the constructor computes is a count of nodes or of ranks, so that it
      stays far below the width of the C++ types; [size_t] arithmetic, which
      is unsigned and wraps, is written with its modulus ([size_mul]).
    - A C++ array is a list, read with [zget] and written with [zset] at an
      index of [Z].  An access out of range is undefined in the source; the
      set-up, where the index comes from the caller's input, checks it and
      returns [None]; elsewhere the indices are shown to be in range.
    - One process is modelled: what it receives from its partners comes from
      an oracle of messages, and the theorems assume of a message only that
      some process running the same code has sent it. *)

From Stdlib Require Import ZArith Lia List Permutation Sorted ZifyBool.
From stdpp Require Import base list numbers.

Local Open Scope Z_scope.

(** [lia] is to reason about [quot], [div] and [mod] by constants. *)
Ltac Zify.zify_post_hook ::= Z.to_euclidean_division_equations.

(** ** Control structures *)

Section Loops.
Context {St : Type}.

(** [while (cond) body], with fuel: [None] when the fuel runs out. *)
Fixpoint while (cond : St → bool) (body : St → St) (fuel : nat) (s : St)
  : option St :=
  if cond s then
    match fuel with
    | O => None
    | S fuel' => while cond body fuel' (body s)
    end
  else Some s.

(** [for (i = lo; i < hi; ++i) body] *)
Definition forZ (lo hi : Z) (body : Z → St → St) (s : St) : St :=
  fold_left (λ s i, body (lo + Z.of_nat i) s) (seq 0 (Z.to_nat (hi - lo))) s.

(** [for (i = hi; i > lo; --i) body] *)
Definition forZdown (hi lo : Z) (body : Z → St → St) (s : St) : St :=
  fold_left (λ s i, body (hi - Z.of_nat i) s) (seq 0 (Z.to_nat (hi - lo))) s.
End Loops.

(** ** Arrays *)

Definition zget {A} (d : A) (l : list A) (i : Z) : A :=
  if i <? 0 then d else nth (Z.to_nat i) l d.

Definition zset {A} (l : list A) (i : Z) (v : A) : list A :=
  if i <? 0 then l else <[Z.to_nat i := v]> l.

Definition zlen {A} (l : list A) : Z := Z.of_nat (length l).

(** [calloc(n)]: [n] zeros *)
Definition calloc (n : Z) : list Z := repeat 0 (Z.to_nat n).

(** ** Node descriptors ([parallelNode_t], declared in ogs/ogsUtils.hpp) *)

Record parallelNode_t := mkNode {
  localId : Z;
  newId : Z;
  sign : Z;
  baseId : Z;
  rank : Z
}.

Definition node0 : parallelNode_t := mkNode 0 0 0 0 0.

Definition setLocalId (v : Z) (a : parallelNode_t) : parallelNode_t :=
  mkNode v (newId a) (sign a) (baseId a) (rank a).
Definition setNewId (v : Z) (a : parallelNode_t) : parallelNode_t :=
  mkNode (localId a) v (sign a) (baseId a) (rank a).
Definition setSign (v : Z) (a : parallelNode_t) : parallelNode_t :=
  mkNode (localId a) (newId a) v (baseId a) (rank a).
Definition setBaseId (v : Z) (a : parallelNode_t) : parallelNode_t :=
  mkNode (localId a) (newId a) (sign a) v (rank a).

Definition absBase (a : parallelNode_t) : Z := Z.abs (baseId a).

(** The three comparators given to [std::sort]. *)
Definition ltNewId (a b : parallelNode_t) : bool := newId a <? newId b.

Definition ltBaseId (a b : parallelNode_t) : bool :=
  if absBase a <? absBase b then true
  else if absBase a >? absBase b then false
  else newId a >? newId b.

(** [std::sort] is not stable: what is known of it is that it returns a
    permutation of its input in which no element is followed by a smaller
    one. *)
Definition sortedBy (lt : parallelNode_t → parallelNode_t → bool)
    (l : list parallelNode_t) : Prop :=
  ∀ i j a b, (i < j)%nat → l !! i = Some a → l !! j = Some b → lt b a = false.

Class StdSort := {
  std_sort : (parallelNode_t → parallelNode_t → bool) →
             list parallelNode_t → list parallelNode_t;
  std_sort_perm : ∀ lt l, Permutation (std_sort lt l) l;
  std_sort_sorted : ∀ l, sortedBy ltNewId (std_sort ltNewId l) ∧
                         sortedBy ltBaseId (std_sort ltBaseId l)
}.

(** ** The fold of the hypercube (lines 207-221 and 263-281, 679-686) *)

Definition np_half (np : Z) : Z := (np + 1) `quot` 2.
Definition r_half (np np_offset : Z) : Z := np_half np + np_offset.
Definition is_lo (comm_rank np np_offset : Z) : bool :=
  comm_rank <? r_half np np_offset.

(** "Shrink the size of the hypercube" *)
Definition shrink (comm_rank : Z) (w : Z * Z) : Z * Z :=
  let '(np, np_offset) := w in
  if is_lo comm_rank np np_offset then (np_half np, np_offset)
  else (np - np_half np, r_half np np_offset).

(** "first count how many levels we need" *)
Definition countLevels (size comm_rank : Z) : option Z :=
  '(_, Nlevels) ← while (λ '(w, _), 1 <? fst w)
                         (λ '(w, Nlevels), (shrink comm_rank w, Nlevels + 1))
                         (Z.to_nat size) ((size, 0), 0);
  Some Nlevels.

Definition mirror (comm_rank np np_offset : Z) : Z :=
  np - 1 - (comm_rank - np_offset) + np_offset.

Definition levelPartner (comm_rank np np_offset : Z) : Z :=
  let partner := mirror comm_rank np np_offset in
  if partner =? comm_rank then r_half np np_offset else partner.

Definition levelNmsg (comm_rank np np_offset : Z) : Z :=
  let partner := mirror comm_rank np np_offset in
  let Nmsg := 1 in
  let Nmsg := if partner =? comm_rank then 0 else Nmsg in
  if negb (Z.land np 1 =? 0) && (comm_rank =? r_half np np_offset) then 2
  else Nmsg.

(** ** Schedules *)

(** The sparse reduction operator ([ogsOperator_t], declared in
    ogs/ogsOperator.hpp).  The constructor gives both directions of an
    operator the same arrays ([rowStartsN = rowStartsT],
    [colIdsN = colIdsT]), so that one copy of each is kept. *)
Inductive Kind := Unsigned | Signed.

Record ogsOperator_t := mkOperator {
  kind : Kind;
  NrowsN : Z;
  NrowsT : Z;
  Ncols : Z;
  nnzN : Z;
  nnzT : Z;
  rowStartsT : list Z;
  colIdsT : list Z
}.

(** One fold round ([crLevel], declared in ogs/ogsExchange.hpp) *)
Record crLevel := mkLevel {
  Nmsg : Z;
  partner : Z;
  Nsend : Z;
  Nrecv0 : Z;
  Nrecv1 : Z;
  recvOffset : Z;
  sendIds : list Z;
  gather : ogsOperator_t
}.

(** What one process sends to its partner in a round, in the order of the
    four [MPI_Isend] calls: the number of descriptors, the number of halo
    entries of the transposed and of the forward schedule, and the
    descriptors. *)
Record crMessage := mkMessage {
  msg_Nsend : Z;
  msg_NentriesT : Z;
  msg_NentriesN : Z;
  msg_nodes : list parallelNode_t
}.

Definition msg0 : crMessage := mkMessage 0 0 0 [].

Definition level0 : crLevel :=
  mkLevel 0 0 0 0 0 0 [] (mkOperator Unsigned 0 0 0 0 0 [] []).

(** [MPI_Irecv(buf, count, ...)] fills [count] entries of the buffer: those
    of the message, and nothing past its end. *)
Definition recvNodes (count : Z) (l : list parallelNode_t) : list parallelNode_t :=
  take (Z.to_nat count) (l ++ repeat node0 (Z.to_nat count)).

(** ** Set-up of the node list (lines 231-256) *)

Definition selfNode (comm_rank NhaloP n : Z) : parallelNode_t :=
  mkNode 0 n (if n <? NhaloP then 2 else -2) 0 comm_rank.

(** Lines 242-250.  [nodes[newId]] is read and written at an index taken
    from the caller's descriptors: outside of the rows just initialised the
    access is undefined, and the model has no result. *)
Definition markBaseId (NhaloP Nhalo : Z) (sharedNodes : list parallelNode_t)
    (n : Z) (nodes : option (list parallelNode_t)) : option (list parallelNode_t) :=
  nodes ← nodes;
  let s := zget node0 sharedNodes n in
  let newId_ := newId s in
  if (0 <=? newId_) && (newId_ <? Nhalo) then
    if baseId (zget node0 nodes newId_) =? 0 then
      if newId_ <? NhaloP then
        Some (zset nodes newId_ (setBaseId (Z.abs (baseId s)) (zget node0 nodes newId_)))
      else
        Some (zset nodes newId_ (setBaseId (- Z.abs (baseId s)) (zget node0 nodes newId_)))
    else Some nodes
  else None.

Definition initNodes `{StdSort} (comm_rank NhaloP Nhalo Nshared : Z)
    (sharedNodes : list parallelNode_t) : option (list parallelNode_t) :=
  let N := Nshared + Nhalo in
  let nodes := repeat node0 (Z.to_nat N) in
  let nodes := forZ 0 Nhalo (λ n nodes, zset nodes n (selfNode comm_rank NhaloP n)) nodes in
  nodes ← forZ 0 Nshared (markBaseId NhaloP Nhalo sharedNodes) (Some nodes);
  let nodes := forZ Nhalo N (λ n nodes, zset nodes n (zget node0 sharedNodes (n - Nhalo))) nodes in
  Some (std_sort ltNewId nodes).

(** ** One round of the fold (lines 263-687) *)

(** "count lo/hi nodes" (lines 283-290) *)
Definition countLoHi (r_half N : Z) (nodes : list parallelNode_t) : Z * Z :=
  forZ 0 N (λ n '(Nlo, Nhi),
    if rank (zget node0 nodes n) <? r_half then (Nlo + 1, Nhi) else (Nlo, Nhi + 1))
    (0, 0).

(** "split node list in two" (lines 314-320) *)
Definition splitLoHi (r_half N : Z) (nodes : list parallelNode_t)
    : list parallelNode_t * list parallelNode_t :=
  forZ 0 N (λ n '(loNodes, hiNodes),
    if rank (zget node0 nodes n) <? r_half
    then (loNodes ++ [zget node0 nodes n], hiNodes)
    else (loNodes, hiNodes ++ [zget node0 nodes n]))
    ([], []).

(** The test that opens a group of descriptors: [n == first] or
    [abs(nodes[n].baseId) != abs(nodes[n-1].baseId)]. *)
Definition groupStart (nodes : list parallelNode_t) (first n : Z) : bool :=
  (n =? first) || negb (absBase (zget node0 nodes n) =? absBase (zget node0 nodes (n - 1))).

(** The test that closes one: [n == N-1] or
    [abs(nodes[n].baseId) != abs(nodes[n+1].baseId)]. *)
Definition groupEnd (nodes : list parallelNode_t) (N n : Z) : bool :=
  (n =? N - 1) || negb (absBase (zget node0 nodes n) =? absBase (zget node0 nodes (n + 1))).

(** "count how many entries from the halo buffer we're sending"
    (lines 333-340) *)
Definition countEntriesSend (Nsend_ : Z) (sendNodes : list parallelNode_t) : Z * Z :=
  forZ 0 Nsend_ (λ n '(NentriesSendN, NentriesSendT),
    if groupStart sendNodes 0 n then
      ((if 0 <? sign (zget node0 sendNodes n) then NentriesSendN + 1 else NentriesSendN),
       NentriesSendT + 1)
    else (NentriesSendN, NentriesSendT))
    (0, 0).

(** Lines 346-356: the send lists are filled, and the [newId] of every
    descriptor sent is wiped. *)
Definition fillSendIds (Nsend_ : Z) (sendNodes : list parallelNode_t)
    : list Z * list Z * list parallelNode_t :=
  forZ 0 Nsend_ (λ n '(sendIdsN, sendIdsT, sendNodes),
    let '(sendIdsN, sendIdsT) :=
      if groupStart sendNodes 0 n then
        ((if 0 <? sign (zget node0 sendNodes n)
          then sendIdsN ++ [newId (zget node0 sendNodes n)] else sendIdsN),
         sendIdsT ++ [newId (zget node0 sendNodes n)])
      else (sendIdsN, sendIdsT) in
    (sendIdsN, sendIdsT, zset sendNodes n (setNewId (-1) (zget node0 sendNodes n))))
    ([], [], sendNodes).

(** The inner loops that look for a positive sign and [break]: the first
    positive sign of [nodes[start..end)]. *)
Definition findPositive (nodes : list parallelNode_t) (start end_ : Z) : option Z :=
  forZ start end_ (λ i found,
    match found with
    | Some s => Some s
    | None => let s := sign (zget node0 nodes i) in
              if 0 <? s then Some s else None
    end) None.

(** "find how many positive ids there will be in the extended halo"
    (lines 430-453); the result is [(start, NhaloExtN, NhaloExtT)]. *)
Definition countExt (Nhalo N : Z) (nodes : list parallelNode_t) : Z * Z * Z :=
  forZ 0 N (λ n '(start, NhaloExtN, NhaloExtT),
    if groupEnd nodes N n then
      let end_ := n + 1 in
      let id := newId (zget node0 nodes start) in
      if (Nhalo <=? id) || (id =? -1) then
        (end_,
         (if findPositive nodes start end_ is Some _ then NhaloExtN + 1 else NhaloExtN),
         NhaloExtT + 1)
      else (end_, NhaloExtN, NhaloExtT)
    else (start, NhaloExtN, NhaloExtT))
    (0, 0, 0).

(** "fill newIds of new entries if possible, or give them an index"
    (lines 460-497) *)
Record assignState := mkAssign {
  as_start : Z;
  as_NhaloExtN : Z;
  as_NhaloExtT : Z;
  as_nodes : list parallelNode_t;
  as_indexMap : list Z
}.

Definition assignGroup (Nhalo n : Z) (st : assignState) : assignState :=
  let '(mkAssign start NhaloExtN NhaloExtT nodes indexMap) := st in
  let end_ := n + 1 in
  let id := newId (zget node0 nodes start) in
  let '(id, NhaloExtN, NhaloExtT, indexMap) :=
    if (Nhalo <=? id) || (id =? -1) then
      let sign_ := match findPositive nodes start end_ with
                   | Some s => s
                   | None => -2
                   end in
      let '(id, NhaloExtN, NhaloExtT) :=
        if 0 <? sign_ then (NhaloExtN, NhaloExtN + 1, NhaloExtT)
        else (NhaloExtT, NhaloExtN, NhaloExtT + 1) in
      (id, NhaloExtN, NhaloExtT,
       zset indexMap (id - Nhalo) (newId (zget node0 nodes start)))
    else (id, NhaloExtN, NhaloExtT, indexMap) in
  let nodes := forZ start end_ (λ i nodes,
                 zset nodes i (setNewId id (zget node0 nodes i))) nodes in
  mkAssign end_ NhaloExtN NhaloExtT nodes indexMap.

Definition assignExt (Nhalo N : Z) (nodes : list parallelNode_t)
    (countN countT : Z) : assignState :=
  let indexMap := calloc countT in
  forZ 0 N (λ n st, if groupEnd (as_nodes st) N n then assignGroup Nhalo n st else st)
    (mkAssign 0 Nhalo (Nhalo + countN) nodes indexMap).

(** Modelled from the spec: [permute], declared in ogs/ogsUtils.hpp, is
    not part of the file; [localId] is the "stable position used to restore
    original order after a sort", so that [permute] puts every descriptor
    back at the position its [localId] names. *)
Definition permute (N : Z) (nodes : list parallelNode_t) : list parallelNode_t :=
  forZ 0 N (λ n out, zset out (localId (zget node0 nodes n)) (zget node0 nodes n)) nodes.

(** *** The reduction operators of a round (lines 502-652) *)

(** [a[i]++] *)
Definition incr (a : list Z) (i : Z) : list Z := zset a i (zget 0 a i + 1).

(** [colIds[rowStarts[id]++] = v] *)
Definition putCol (g : list Z * list Z) (id v : Z) : list Z * list Z :=
  let '(rowStarts, colIds) := g in
  (incr rowStarts id, zset colIds (zget 0 rowStarts id) v).

(** "gatherT the existing halo" (line 525, and lines 528-531 for the
    forward operator): [rowStarts[n+1] = 1]. *)
Definition countHalo (rows : Z) (rowStarts : list Z) : list Z :=
  forZ 0 rows (λ n rowStarts, zset rowStarts (n + 1) 1) rowStarts.

(** "look through the nodes we still have for extended halo nodes"
    (lines 534-542) *)
Definition countLocal (Nhalo offset : Z) (nodes : list parallelNode_t)
    (rs : list Z * list Z) : list Z * list Z :=
  forZ 0 offset (λ n '(rowStartsN, rowStartsT),
    if groupStart nodes 0 n then
      let id := newId (zget node0 nodes n) in
      if Nhalo <=? newId (zget node0 nodes n) then
        ((if 0 <? sign (zget node0 nodes n) then incr rowStartsN (id + 1) else rowStartsN),
         incr rowStartsT (id + 1))
      else (rowStartsN, rowStartsT)
    else (rowStartsN, rowStartsT)) rs.

(** "look through first (second) message for nodes to gather"
    (lines 545-559) *)
Definition countRecv (first last : Z) (nodes : list parallelNode_t)
    (rs : list Z * list Z) : list Z * list Z :=
  forZ first last (λ n '(rowStartsN, rowStartsT),
    if groupStart nodes first n then
      let id := newId (zget node0 nodes n) in
      ((if 0 <? sign (zget node0 nodes n) then incr rowStartsN (id + 1) else rowStartsN),
       incr rowStartsT (id + 1))
    else (rowStartsN, rowStartsT)) rs.

(** Lines 561-564: [rowStarts[i+1] += rowStarts[i]] *)
Definition prefixSum (rows : Z) (rs : list Z * list Z) : list Z * list Z :=
  forZ 0 rows (λ i '(rowStartsN, rowStartsT),
    let rowStartsT := zset rowStartsT (i + 1) (zget 0 rowStartsT (i + 1) + zget 0 rowStartsT i) in
    let rowStartsN := zset rowStartsN (i + 1) (zget 0 rowStartsN (i + 1) + zget 0 rowStartsN i) in
    (rowStartsN, rowStartsT)) rs.

(** Lines 579-591: [colIds[rowStarts[n]++] = n] *)
Definition fillHalo (rows : Z) (g : list Z * list Z) : list Z * list Z :=
  forZ 0 rows (λ n g, putCol g n n) g.

(** Lines 594-604 *)
Definition fillLocal (Nhalo offset : Z) (nodes : list parallelNode_t)
    (indexMap : list Z) (gs : (list Z * list Z) * (list Z * list Z))
    : (list Z * list Z) * (list Z * list Z) :=
  forZ 0 offset (λ n '(gN, gT),
    if groupStart nodes 0 n then
      let id := newId (zget node0 nodes n) in
      if Nhalo <=? newId (zget node0 nodes n) then
        ((if 0 <? sign (zget node0 nodes n)
          then putCol gN id (zget 0 indexMap (id - Nhalo)) else gN),
         putCol gT id (zget 0 indexMap (id - Nhalo)))
      else (gN, gT)
    else (gN, gT)) gs.

(** Lines 611-629; the state carries the two running column numbers
    [NentriesRecvN] and [NentriesRecvT]. *)
Definition fillRecv (first last : Z) (nodes : list parallelNode_t)
    (gs : (list Z * list Z) * (list Z * list Z) * Z * Z)
    : (list Z * list Z) * (list Z * list Z) * Z * Z :=
  forZ first last (λ n '(gN, gT, NentriesRecvN, NentriesRecvT),
    if groupStart nodes first n then
      let id := newId (zget node0 nodes n) in
      let '(gN, NentriesRecvN) :=
        if 0 <? sign (zget node0 nodes n)
        then (putCol gN id NentriesRecvN, NentriesRecvN + 1)
        else (gN, NentriesRecvN) in
      (gN, putCol gT id NentriesRecvT, NentriesRecvN, NentriesRecvT + 1)
    else (gN, gT, NentriesRecvN, NentriesRecvT)) gs.

(** "reset row starts" (lines 632-637) *)
Definition resetRowStarts (rows : Z) (rs : list Z * list Z) : list Z * list Z :=
  let '(rowStartsN, rowStartsT) :=
    forZdown rows 0 (λ i '(rowStartsN, rowStartsT),
      let rowStartsT := zset rowStartsT i (zget 0 rowStartsT (i - 1)) in
      let rowStartsN := zset rowStartsN i (zget 0 rowStartsN (i - 1)) in
      (rowStartsN, rowStartsT)) rs in
  (zset rowStartsN 0 0, zset rowStartsT 0 0).

(** The two operators of a round.  [first] tells the first round
    ([np == size]); [recvOffsetN], [recvOffsetT] are the level's receive
    offsets and [NcolsN], [NcolsT] the column counts of lines 510-516. *)
Definition buildGather (first : bool) (NhaloP Nhalo NhaloExtN NhaloExtT : Z)
    (offset Nrecv0_ N : Z) (nodes : list parallelNode_t) (indexMap : list Z)
    (recvOffsetN recvOffsetT NcolsN NcolsT : Z) : ogsOperator_t * ogsOperator_t :=
  let rowStartsT := calloc (NhaloExtT + 1) in
  let rowStartsN := calloc (NhaloExtT + 1) in
  let rowStartsT := countHalo Nhalo rowStartsT in
  let rowStartsN := if first then countHalo NhaloP rowStartsN
                    else countHalo Nhalo rowStartsN in
  let rs := countLocal Nhalo offset nodes (rowStartsN, rowStartsT) in
  let rs := countRecv offset (offset + Nrecv0_) nodes rs in
  let rs := countRecv (offset + Nrecv0_) N nodes rs in
  let '(rowStartsN, rowStartsT) := prefixSum NhaloExtT rs in
  let nnzT_ := zget 0 rowStartsT NhaloExtT in
  let colIdsT_ := calloc nnzT_ in
  let nnzN_ := zget 0 rowStartsN NhaloExtN in
  let colIdsN_ := calloc nnzN_ in
  let gT := fillHalo Nhalo (rowStartsT, colIdsT_) in
  let gN := if first then fillHalo NhaloP (rowStartsN, colIdsN_)
            else fillHalo Nhalo (rowStartsN, colIdsN_) in
  let gs := fillLocal Nhalo offset nodes indexMap (gN, gT) in
  let gs := fillRecv offset (offset + Nrecv0_) nodes (gs, recvOffsetN, recvOffsetT) in
  let '(gN, gT, _, _) := fillRecv (offset + Nrecv0_) N nodes gs in
  let '(rowStartsN, rowStartsT) := resetRowStarts NhaloExtT (fst gN, fst gT) in
  (mkOperator Unsigned NhaloExtN NhaloExtN NcolsN nnzN_ nnzN_ rowStartsN (snd gN),
   mkOperator Unsigned NhaloExtT NhaloExtT NcolsT nnzT_ nnzT_ rowStartsT (snd gT)).

(** *** Sign propagation (lines 660-677) *)

Definition propagateGroup (start end_ : Z) (nodes : list parallelNode_t)
    : list parallelNode_t :=
  match findPositive nodes start end_ with
  | Some sign_ =>
      forZ start end_ (λ j nodes, zset nodes j (setSign sign_ (zget node0 nodes j))) nodes
  | None => nodes
  end.

Definition propagateSign (N : Z) (nodes : list parallelNode_t) : list parallelNode_t :=
  snd (forZ 0 N (λ n '(start, nodes),
         if groupEnd nodes N n then (n + 1, propagateGroup start (n + 1) nodes)
         else (start, nodes))
       (0, nodes)).

(** *** The round *)

(** The local variables of the constructor that live across rounds *)
Record buildState := mkBuild {
  b_np : Z;
  b_np_offset : Z;
  b_Nlevels : Z;
  b_N : Z;
  b_nodes : list parallelNode_t;
  b_haloBuf_size : Z;
  b_NhaloExtT : Z;
  b_NhaloExtN : Z;
  b_levelsN : list crLevel;
  b_levelsT : list crLevel
}.

(** What a round computes before it receives anything (lines 264-292 and
    310-356): the pairing, the half of the list that stays ([s_keep], whose
    length is the [offset] of line 329), and the half that leaves. *)
Record sendPart := mkSend {
  s_partner : Z;
  s_Nmsg : Z;
  s_Nsend : Z;
  s_keep : list parallelNode_t;
  s_sendNodes : list parallelNode_t;
  s_NentriesSendN : Z;
  s_NentriesSendT : Z;
  s_sendIdsN : list Z;
  s_sendIdsT : list Z
}.

Definition levelSend (comm_rank : Z) (st : buildState) : sendPart :=
  let np := b_np st in
  let np_offset := b_np_offset st in
  let r_half_ := r_half np np_offset in
  let is_lo_ := is_lo comm_rank np np_offset in
  let '(Nlo, Nhi) := countLoHi r_half_ (b_N st) (b_nodes st) in
  let Nsend_ := if is_lo_ then Nhi else Nlo in
  let '(loNodes, hiNodes) := splitLoHi r_half_ (b_N st) (b_nodes st) in
  let keep := if is_lo_ then loNodes else hiNodes in
  let sendNodes := if is_lo_ then hiNodes else loNodes in
  let '(NentriesSendN, NentriesSendT) := countEntriesSend Nsend_ sendNodes in
  let '(sendIdsN, sendIdsT, sendNodes) := fillSendIds Nsend_ sendNodes in
  mkSend (levelPartner comm_rank np np_offset) (levelNmsg comm_rank np np_offset)
         Nsend_ keep sendNodes NentriesSendN NentriesSendT sendIdsN sendIdsT.

(** The four messages a process posts in a round *)
Definition outMessage (comm_rank : Z) (st : buildState) : crMessage :=
  let sp := levelSend comm_rank st in
  mkMessage (s_Nsend sp) (s_NentriesSendT sp) (s_NentriesSendN sp)
            (take (Z.to_nat (s_Nsend sp)) (s_sendNodes sp)).

(** "record the current order" (line 418) *)
Definition recordOrder (N : Z) (nodes : list parallelNode_t) : list parallelNode_t :=
  forZ 0 N (λ n nodes, zset nodes n (setLocalId n (zget node0 nodes n))) nodes.

(** Lines 417-500: the list is sorted by group, the groups are given their
    ids in the extended halo, and the first order is restored.  The result
    carries the new [NhaloExtN] and [NhaloExtT], the list and [indexMap]. *)
Definition renumber `{StdSort} (Nhalo N : Z) (nodes : list parallelNode_t)
    : assignState :=
  let nodes := recordOrder N nodes in
  let nodes := std_sort ltBaseId nodes in
  let '(_, countN, countT) := countExt Nhalo N nodes in
  let a := assignExt Nhalo N nodes countN countT in
  mkAssign (as_start a) (as_NhaloExtN a) (as_NhaloExtT a)
           (permute N (as_nodes a)) (as_indexMap a).

(** What a round receives: [m0] is what the partner has sent and [m1] what
    rank [r_half-1] has; each is read only when the matching [MPI_Irecv] is
    posted ([Nmsg > 0], [Nmsg == 2]). *)
Definition recvCount (Nmsg_ : Z) (m : crMessage * crMessage)
    (field : crMessage → Z) : Z * Z :=
  (if 0 <? Nmsg_ then field (fst m) else 0, if Nmsg_ =? 2 then field (snd m) else 0).

(** The body of the loop of lines 263-687 *)
Definition levelRound `{StdSort} (comm_rank size NhaloP Nhalo : Z)
    (m : crMessage * crMessage) (st : buildState) : buildState :=
  let np := b_np st in
  let sp := levelSend comm_rank st in
  let Nmsg_ := s_Nmsg sp in
  let '(Nrecv0_, Nrecv1_) := recvCount Nmsg_ m msg_Nsend in
  let Nrecv := Nrecv0_ + Nrecv1_ in
  let offset := zlen (s_keep sp) in
  let N := offset + Nrecv in
  let '(NentriesRecvT0, NentriesRecvT1) := recvCount Nmsg_ m msg_NentriesT in
  let '(NentriesRecvN0, NentriesRecvN1) := recvCount Nmsg_ m msg_NentriesN in
  let recvOffsetT := b_NhaloExtT st in
  let recvOffsetN := b_NhaloExtN st in
  let buf_size := b_NhaloExtT st + NentriesRecvT0 + NentriesRecvT1 in
  let haloBuf_size := if buf_size >? b_haloBuf_size st then buf_size
                      else b_haloBuf_size st in
  let nodes := s_keep sp ++ recvNodes Nrecv0_ (msg_nodes (fst m))
                         ++ recvNodes Nrecv1_ (msg_nodes (snd m)) in
  let a := renumber Nhalo N nodes in
  let '(gatherN, gatherT) :=
    buildGather (np =? size) NhaloP Nhalo (as_NhaloExtN a) (as_NhaloExtT a)
      offset Nrecv0_ N (as_nodes a) (as_indexMap a) recvOffsetN recvOffsetT
      (recvOffsetN + NentriesRecvN0 + NentriesRecvN1)
      (recvOffsetT + NentriesRecvT0 + NentriesRecvT1) in
  let nodes := std_sort ltNewId (as_nodes a) in
  let nodes := propagateSign N nodes in
  let '(np', np_offset') := shrink comm_rank (np, b_np_offset st) in
  mkBuild np' np_offset' (b_Nlevels st + 1) N nodes haloBuf_size
    (as_NhaloExtT a) (as_NhaloExtN a)
    (b_levelsN st ++ [mkLevel Nmsg_ (s_partner sp) (s_NentriesSendN sp)
                        NentriesRecvN0 NentriesRecvN1 recvOffsetN (s_sendIdsN sp) gatherN])
    (b_levelsT st ++ [mkLevel Nmsg_ (s_partner sp) (s_NentriesSendT sp)
                        NentriesRecvT0 NentriesRecvT1 recvOffsetT (s_sendIdsT sp) gatherT]).

(** The loop: the messages of round [l] come from [oracle l]. *)
Definition buildLevels `{StdSort} (comm_rank size NhaloP Nhalo : Z)
    (oracle : Z → crMessage * crMessage) (fuel : nat) (st : buildState)
    : option buildState :=
  while (λ st, 1 <? b_np st)
        (λ st, levelRound comm_rank size NhaloP Nhalo (oracle (b_Nlevels st)) st)
        fuel st.

(** The scratch ceilings (lines 690-697) *)
Definition scratchMax (Nlevels_ : Z) (levelsT_ : list crLevel) : Z * Z :=
  forZ 0 Nlevels_ (λ k '(NsendMax, NrecvMax),
    let lv := zget level0 levelsT_ k in
    let Nsend_ := Nsend lv in
    let NsendMax := if Nsend_ >? NsendMax then Nsend_ else NsendMax in
    let Nrecv := recvOffset lv + Nrecv0 lv + Nrecv1 lv in
    let NrecvMax := if Nrecv >? NrecvMax then Nrecv else NrecvMax in
    (NsendMax, NrecvMax))
    (0, 0).

(** ** The exchange object *)

(** Modelled from the spec: the enumerations of ogs.hpp are not part of the
    file.  The element type is "one of a fixed small set (e.g., 32/64-bit
    integer/float)", the operator "one of {add, min, max, multiply, ...}"
    and the direction one of "{forward, transposed}". *)
Inductive Type_ := Float | Double | Int32 | Int64.
Inductive Op := Add | Mul | Max | Min.
Inductive Transpose := NoTrans | Trans.

Definition Sizeof (type : Type_) : Z :=
  match type with
  | Float => 4
  | Double => 8
  | Int32 => 4
  | Int64 => 8
  end.

Definition Transpose_eqb (a b : Transpose) : bool :=
  match a, b with
  | NoTrans, NoTrans | Trans, Trans => true
  | _, _ => false
  end.

(** [size_t] is unsigned, of 64 bits: a product of sizes wraps. *)
Definition size_max : Z := 2 ^ 64.
Definition size_mul (a b : Z) : Z := ((a `mod` size_max) * (b `mod` size_max)) `mod` size_max.

Definition byte := Byte.byte.

(** A fresh allocation of [n] bytes.  Its contents are not specified by the
    source; the model fills it with zeros. *)
Definition malloc (n : Z) : list byte := repeat Byte.x00 (Z.to_nat n).

(** A copy of [n] bytes from the start of [src] over the start of [dst];
    no result when either region is shorter than [n]. *)
Definition memcpy (n : Z) (src dst : list byte) : option (list byte) :=
  if (n <=? zlen src) && (n <=? zlen dst)
  then Some (take (Z.to_nat n) src ++ drop (Z.to_nat n) dst)
  else None.

(** [n] bytes of [data] written into [dst] from byte [off] on *)
Definition memwrite (off n : Z) (data dst : list byte) : option (list byte) :=
  if (0 <=? off) && (0 <=? n) && (off + n <=? zlen dst) && (n <=? zlen data)
  then Some (take (Z.to_nat off) dst ++ take (Z.to_nat n) data
                                     ++ drop (Z.to_nat (off + n)) dst)
  else None.

(** The scratch space.  [buf] and [o_buf] hold the two halves of the halo
    buffer on the host and on the device; [haloBuf], [recvBuf], [o_haloBuf]
    and [o_recvBuf], pointers in the source, tell which half they point
    to. *)
Record crBuffers := mkBuffers {
  sendBuf : list byte;
  o_sendBuf : list byte;
  buf : list (list byte);
  o_buf : list (list byte);
  haloBuf : Z;
  recvBuf : Z;
  o_haloBuf : Z;
  o_recvBuf : Z;
  buf_id : Z
}.

Module cr.
Record t := mk {
  rank : Z;
  size : Z;
  gpu_aware : bool;
  NhaloP : Z;
  Nhalo : Z;
  Nlevels : Z;
  levelsN : list crLevel;
  levelsT : list crLevel;
  NsendMax : Z;
  NrecvMax : Z;
  buffers : crBuffers
}.

Definition with_buffers (b : crBuffers) (x : t) : t :=
  mk (rank x) (size x) (gpu_aware x) (NhaloP x) (Nhalo x) (Nlevels x)
     (levelsN x) (levelsT x) (NsendMax x) (NrecvMax x) b.
End cr.

(** The buffers of an object before its first allocation: every
    [occa::memory] is empty and has size 0. *)
Definition noBuffers : crBuffers := mkBuffers [] [] [[]; []] [[]; []] 0 0 0 0 0.

(** *** AllocBuffer (lines 703-721) *)

Definition AllocBuffer (Nbytes : Z) (x : cr.t) : cr.t :=
  let b := cr.buffers x in
  let b :=
    if zlen (o_sendBuf b) <? size_mul (cr.NsendMax x) Nbytes then
      mkBuffers (malloc (size_mul (cr.NsendMax x) Nbytes))
                (malloc (size_mul (cr.NsendMax x) Nbytes))
                (buf b) (o_buf b) (haloBuf b) (recvBuf b) (o_haloBuf b) (o_recvBuf b)
                (buf_id b)
    else b in
  let b :=
    if zlen (zget [] (o_buf b) 0) <? size_mul (cr.NrecvMax x) Nbytes then
      mkBuffers (sendBuf b) (o_sendBuf b)
                [malloc (size_mul (cr.NrecvMax x) Nbytes);
                 malloc (size_mul (cr.NrecvMax x) Nbytes)]
                [malloc (size_mul (cr.NrecvMax x) Nbytes);
                 malloc (size_mul (cr.NrecvMax x) Nbytes)]
                0 1 0 1 0
    else b in
  cr.with_buffers b x.

(** *** The constructor (lines 193-701) *)

Definition construct `{StdSort} (comm_rank size : Z) (gpu_aware : bool)
    (Dfloat : Type_) (Nshared : Z) (sharedNodes : list parallelNode_t)
    (gatherHalo : ogsOperator_t) (oracle : Z → crMessage * crMessage)
    : option cr.t :=
  let NhaloP := NrowsN gatherHalo in
  let Nhalo := NrowsT gatherHalo in
  _ ← countLevels size comm_rank;
  nodes ← initNodes comm_rank NhaloP Nhalo Nshared sharedNodes;
  st ← buildLevels comm_rank size NhaloP Nhalo oracle (Z.to_nat size)
         (mkBuild size 0 0 (Nshared + Nhalo) nodes Nhalo Nhalo Nhalo [] []);
  let '(NsendMax, NrecvMax) := scratchMax (b_Nlevels st) (b_levelsT st) in
  Some (AllocBuffer (Sizeof Dfloat)
          (cr.mk comm_rank size gpu_aware NhaloP Nhalo (b_Nlevels st)
                 (b_levelsN st) (b_levelsT st) NsendMax NrecvMax noBuffers)).

(** *** Start and Finish (lines 35-156) *)

(** What an invocation does to the outside, in order *)
Inductive event :=
| EvCopyToHost (bytes : Z)
| EvCopyToDevice (bytes : Z)
| EvSync
| EvIrecv (source tag count : Z)
| EvExtract (Nsend_ : Z) (ids : list Z)
| EvIsend (dest tag count : Z)
| EvWaitall (count : Z)
| EvGather (g : ogsOperator_t).

Definition setHalf (bufs : list (list byte)) (which : Z) (v : list byte)
    : list (list byte) := zset bufs which v.

Section Exchange.
(** The collaborators of the executor, which are not part of the file:
    the Gather engine ([ogsOperator_t::Gather], which returns what it
    leaves in its destination), the extraction of the send buffer
    ([extract] and [extractKernel], likewise) and the transport, of which
    [arrives l i] is what the [i]-th receive of level [l] delivers. *)
Context (Gather : ogsOperator_t → list byte → list byte → Z → Type_ → Op →
                  Transpose → list byte).
Context (extract : Z → Z → Type_ → list Z → list byte → list byte → list byte).
Context (arrives : Z → Z → list byte).

Definition Start (k : Z) (type : Type_) (op : Op) (trans : Transpose)
    (host : bool) (x : cr.t) : option (cr.t * list event) :=
  let b := cr.buffers x in
  let N := if Transpose_eqb trans NoTrans then cr.NhaloP x else cr.Nhalo x in
  if negb (N =? 0) then
    if negb (cr.gpu_aware x) && negb host then
      let Nbytes := size_mul k (Sizeof type) in
      h ← memcpy (size_mul N Nbytes) (zget [] (o_buf b) (o_haloBuf b))
                 (zget [] (buf b) (haloBuf b));
      Some (cr.with_buffers
              (mkBuffers (sendBuf b) (o_sendBuf b) (setHalf (buf b) (haloBuf b) h)
                 (o_buf b) (haloBuf b) (recvBuf b) (o_haloBuf b) (o_recvBuf b)
                 (buf_id b)) x,
            [EvCopyToHost (size_mul N Nbytes)])
    else Some (x, [])
  else Some (x, []).

(** One level of the loop of lines 89-144.  The send buffer is assembled
    when the loop reaches it, and what the receives deliver is in place
    when [MPI_Waitall] returns. *)
Definition finishLevel (k : Z) (type : Type_) (op : Op) (host : bool)
    (comm_rank : Z) (gpu : bool) (l : Z) (lv : crLevel)
    (s : option (crBuffers * list event)) : option (crBuffers * list event) :=
  '(b, tr) ← s;
  let Nbytes := size_mul k (Sizeof type) in
  let device := gpu && negb host in
  let recvAt := size_mul (recvOffset lv) Nbytes in
  let tr := tr ++ (if 0 <? Nmsg lv
                   then [EvIrecv (partner lv) (partner lv) (k * Nrecv0 lv)] else [])
               ++ (if Nmsg lv =? 2
                   then [EvIrecv (comm_rank - 1) (comm_rank - 1) (k * Nrecv1 lv)] else []) in
  (* assemble send buffer *)
  let '(b, tr) :=
    if gpu then
      if negb (Nsend lv =? 0) then
        (mkBuffers (sendBuf b)
           (extract (Nsend lv) k type (sendIds lv)
                    (zget [] (o_buf b) (o_haloBuf b)) (o_sendBuf b))
           (buf b) (o_buf b) (haloBuf b) (recvBuf b) (o_haloBuf b) (o_recvBuf b)
           (buf_id b),
         tr ++ [EvExtract (Nsend lv) (sendIds lv); EvSync])
      else (b, tr)
    else
      (mkBuffers
         (extract (Nsend lv) k type (sendIds lv)
                  (zget [] (buf b) (haloBuf b)) (sendBuf b))
         (o_sendBuf b)
         (buf b) (o_buf b) (haloBuf b) (recvBuf b) (o_haloBuf b) (o_recvBuf b)
         (buf_id b),
       tr ++ [EvExtract (Nsend lv) (sendIds lv)]) in
  (* post send, wait *)
  let tr := tr ++ [EvIsend (partner lv) comm_rank (k * Nsend lv);
                   EvWaitall (Nmsg lv + 1)] in
  let target := if device then zget [] (o_buf b) (o_haloBuf b)
                else zget [] (buf b) (haloBuf b) in
  target ← (if 0 <? Nmsg lv
            then memwrite recvAt (size_mul (Nrecv0 lv) Nbytes) (arrives l 0) target
            else Some target);
  target ← (if Nmsg lv =? 2
            then memwrite (recvAt + size_mul (Nrecv0 lv) Nbytes)
                          (size_mul (Nrecv1 lv) Nbytes) (arrives l 1) target
            else Some target);
  let hostBufs := if device then buf b else setHalf (buf b) (haloBuf b) target in
  let devBufs := if device then setHalf (o_buf b) (o_haloBuf b) target else o_buf b in
  (* rotate buffers *)
  let o_recvBuf_ := (buf_id b + 0) `mod` 2 in
  let o_haloBuf_ := (buf_id b + 1) `mod` 2 in
  let recvBuf_ := (buf_id b + 0) `mod` 2 in
  let haloBuf_ := (buf_id b + 1) `mod` 2 in
  let buf_id_ := (buf_id b + 1) `mod` 2 in
  (* gather the received values into the halo buffer *)
  if gpu then
    Some (mkBuffers (sendBuf b) (o_sendBuf b) hostBufs
            (setHalf devBufs o_haloBuf_
               (Gather (gather lv) (zget [] devBufs o_haloBuf_)
                       (zget [] devBufs o_recvBuf_) k type op Trans))
            haloBuf_ recvBuf_ o_haloBuf_ o_recvBuf_ buf_id_,
          tr ++ [EvGather (gather lv)])
  else
    Some (mkBuffers (sendBuf b) (o_sendBuf b)
            (setHalf hostBufs haloBuf_
               (Gather (gather lv) (zget [] hostBufs haloBuf_)
                       (zget [] hostBufs recvBuf_) k type op Trans))
            devBufs
            haloBuf_ recvBuf_ o_haloBuf_ o_recvBuf_ buf_id_,
          tr ++ [EvGather (gather lv)]).

Definition Finish (k : Z) (type : Type_) (op : Op) (trans : Transpose)
    (host : bool) (x : cr.t) : option (cr.t * list event) :=
  let Nbytes := size_mul k (Sizeof type) in
  let N := if Transpose_eqb trans NoTrans then cr.NhaloP x else cr.Nhalo x in
  let tr := if negb (N =? 0) && negb (cr.gpu_aware x) && negb host
            then [EvSync] else [] in
  let levels := if Transpose_eqb trans NoTrans then cr.levelsN x else cr.levelsT x in
  '(b, tr) ← forZ 0 (cr.Nlevels x)
               (λ l s, finishLevel k type op host (cr.rank x) (cr.gpu_aware x) l
                         (zget level0 levels l) s)
               (Some (cr.buffers x, tr));
  let N := if Transpose_eqb trans Trans then cr.NhaloP x else cr.Nhalo x in
  if negb (N =? 0) then
    if negb (cr.gpu_aware x) && negb host then
      d ← memcpy (size_mul N Nbytes) (zget [] (buf b) (haloBuf b))
                 (zget [] (o_buf b) (o_haloBuf b));
      Some (cr.with_buffers
              (mkBuffers (sendBuf b) (o_sendBuf b) (buf b)
                 (setHalf (o_buf b) (o_haloBuf b) d)
                 (haloBuf b) (recvBuf b) (o_haloBuf b) (o_recvBuf b) (buf_id b)) x,
            tr ++ [EvCopyToDevice (size_mul N Nbytes); EvSync])
    else Some (cr.with_buffers b x, tr)
  else Some (cr.with_buffers b x, tr).

(** A paired invocation *)
Definition exchange (k : Z) (type : Type_) (op : Op) (trans : Transpose)
    (host : bool) (x : cr.t) : option (cr.t * list event) :=
  '(x, tr1) ← Start k type op trans host x;
  '(x, tr2) ← Finish k type op trans host x;
  Some (x, tr1 ++ tr2).
End Exchange.

(** ** Definitions of the specification *)

(** The windows [(np, np_offset)] a process goes through, one per round *)
Fixpoint foldWindows (fuel : nat) (comm_rank : Z) (w : Z * Z) : list (Z * Z) :=
  match fuel with
  | O => []
  | S fuel' => if 1 <? fst w then w :: foldWindows fuel' comm_rank (shrink comm_rank w)
               else []
  end.

Definition inWindow (comm_rank : Z) (w : Z * Z) : Prop :=
  1 ≤ fst w ∧ snd w ≤ comm_rank < snd w + fst w.

Definition pairing (lv : crLevel) : Z * Z := (partner lv, Nmsg lv).

Definition windowPairing (comm_rank : Z) (w : Z * Z) : Z * Z :=
  (levelPartner comm_rank (fst w) (snd w), levelNmsg comm_rank (fst w) (snd w)).

(** An instance of [std::sort], to run the model: insertion sort *)
Fixpoint insertBy (lt : parallelNode_t → parallelNode_t → bool)
    (a : parallelNode_t) (l : list parallelNode_t) : list parallelNode_t :=
  match l with
  | [] => [a]
  | b :: l' => if lt a b then a :: b :: l' else b :: insertBy lt a l'
  end.

Definition insertionSort (lt : parallelNode_t → parallelNode_t → bool)
    (l : list parallelNode_t) : list parallelNode_t :=
  foldr (insertBy lt) [] l.

(** A sequence of calls of [AllocBuffer] *)
Definition allocAll (sizes : list Z) (x : cr.t) : cr.t :=
  fold_left (λ x Nbytes, AllocBuffer Nbytes x) sizes x.

(** Capacities: the size of the send buffer and of the two halves of the
    halo buffer, on the device and on the host *)
Definition capSend (x : cr.t) : Z := zlen (o_sendBuf (cr.buffers x)).
Definition capHalo (x : cr.t) (half : Z) : Z := zlen (zget [] (o_buf (cr.buffers x)) half).
Definition capSendHost (x : cr.t) : Z := zlen (sendBuf (cr.buffers x)).
Definition capHaloHost (x : cr.t) (half : Z) : Z := zlen (zget [] (buf (cr.buffers x)) half).

(** The buffers an object can have: the host mirrors the device, and the
    two halves of the halo buffer have one size. *)
Definition buffersOk (x : cr.t) : Prop :=
  capSendHost x = capSend x ∧
  capHalo x 1 = capHalo x 0 ∧
  capHaloHost x 0 = capHalo x 0 ∧
  capHaloHost x 1 = capHalo x 0.

(** A size whose footprints are sizes too *)
Definition fitsSize (x : cr.t) (Nbytes : Z) : Prop :=
  0 ≤ Nbytes ∧ cr.NsendMax x * Nbytes < size_max ∧ cr.NrecvMax x * Nbytes < size_max.

(** What is read off a trace *)
Definition gathersOf (tr : list event) : list ogsOperator_t :=
  omap (λ e, match e with EvGather g => Some g | _ => None end) tr.

Definition copiesOf (tr : list event) : list event :=
  omap (λ e, match e with
             | EvCopyToHost _ | EvCopyToDevice _ => Some e
             | _ => None
             end) tr.

(** Whether an invocation goes through the host: [!gpu_aware && !host] *)
Definition staged (x : cr.t) (host : bool) : bool := negb (cr.gpu_aware x) && negb host.

(** The rows that enter an exchange and the rows that leave it *)
Definition extentIn (x : cr.t) (trans : Transpose) : Z :=
  match trans with NoTrans => cr.NhaloP x | Trans => cr.Nhalo x end.
Definition extentOut (x : cr.t) (trans : Transpose) : Z :=
  match trans with NoTrans => cr.Nhalo x | Trans => cr.NhaloP x end.
Definition levelsOf (x : cr.t) (trans : Transpose) : list crLevel :=
  match trans with NoTrans => cr.levelsN x | Trans => cr.levelsT x end.

(** The levels the loop of [Finish] reads: [levels[0]], ..., [levels[Nlevels-1]] *)
Definition driven (Nlevels_ : Z) (levels : list crLevel) : list crLevel :=
  (λ l, zget level0 levels (Z.of_nat l)) <$> seq 0 (Z.to_nat Nlevels_).

(** An object to run the buffer manager on: one level, 3 entries to send
    and 5 to receive at most *)
Definition router0 : cr.t := cr.mk 0 2 false 1 2 1 [level0] [level0] 3 5 noBuffers.

Abbreviation nodeAt := (zget node0).

(** [a..b) is one of the groups the passes over the descriptors go through:
    it starts the array or follows the end of a group, it ends where a
    group ends, and no group ends inside it. *)
Definition isGroup (nodes : list parallelNode_t) (N a b : Z) : Prop :=
  0 ≤ a < b ∧ b ≤ N ∧
  (a = 0 ∨ groupEnd nodes N (a - 1) = true) ∧
  groupEnd nodes N (b - 1) = true ∧
  ∀ k, a ≤ k < b - 1 → groupEnd nodes N k = false.

(** The descriptors that share one [abs(baseId)] are next to each other. *)
Definition groupedByBase (nodes : list parallelNode_t) : Prop :=
  ∀ i j k, 0 ≤ i ≤ k → k ≤ j < zlen nodes →
    absBase (zget node0 nodes i) = absBase (zget node0 nodes j) →
    absBase (zget node0 nodes k) = absBase (zget node0 nodes i).

(** Two descriptors that differ by their sign at most *)
Definition sameButSign (a b : parallelNode_t) : Prop :=
  localId a = localId b ∧ newId a = newId b ∧ baseId a = baseId b ∧ rank a = rank b.

(** What the propagation leaves at [k], in the group [a..b) *)
Definition resolved (nodes : list parallelNode_t) (a b k : Z) : parallelNode_t :=
  match findPositive nodes a b with
  | Some s => setSign s (zget node0 nodes k)
  | None => zget node0 nodes k
  end.

(** Four descriptors in two groups, to run the propagation on *)
Definition nodes4 : list parallelNode_t :=
  [mkNode 0 0 (-2) (-7) 1; mkNode 1 0 2 7 0; mkNode 2 1 (-2) (-9) 1; mkNode 3 1 (-2) 9 2].

(** Collaborators to run the executor with: a Gather engine and an
    extraction that leave their destination as it is, and a transport that
    delivers nothing. *)
Definition gatherKeep (g : ogsOperator_t) (dst src : list byte) (k : Z)
    (type : Type_) (op : Op) (trans : Transpose) : list byte := dst.
Definition extractKeep (Nsend_ k : Z) (type : Type_) (ids : list Z)
    (halo send : list byte) : list byte := send.
Definition noArrivals (l i : Z) : list byte := [].

(** The halo operator of a process without halo, and a transport of the
    constructor that delivers empty messages *)
Definition gatherHalo0 : ogsOperator_t := mkOperator Unsigned 0 0 0 0 0 [] [].
Definition noMessages (l : Z) : crMessage * crMessage := (msg0, msg0).

(** Whether the descriptors of a process are grouped as they should be:
    every one has a group id, and those of one local id have one
    [abs(baseId)]. *)
Definition consistentGroups (sharedNodes : list parallelNode_t) : bool :=
  forallb (λ a, negb (baseId a =? 0) &&
                forallb (λ b, implb (newId a =? newId b) (absBase a =? absBase b))
                        sharedNodes)
          sharedNodes.

(** The group id the set-up leaves in row [n] of the halo: that of the
    first descriptor of the row that has one, signed by ownership. *)
Definition rowBase (NhaloP : Z) (sharedNodes : list parallelNode_t) (n : Z) : Z :=
  match List.find (λ s, (newId s =? n) && negb (baseId s =? 0)) sharedNodes with
  | Some s => if n <? NhaloP then Z.abs (baseId s) else - Z.abs (baseId s)
  | None => 0
  end.

Definition haloRows (comm_rank NhaloP Nhalo : Z) (sharedNodes : list parallelNode_t)
    : list parallelNode_t :=
  (λ n, setBaseId (rowBase NhaloP sharedNodes n) (selfNode comm_rank NhaloP n))
    <$> seqZ 0 Nhalo.

(** Two descriptors of row 0 that name two groups *)
Definition twoGroups : list parallelNode_t := [mkNode 0 0 2 5 1; mkNode 0 0 2 7 1].
Definition gatherHalo1 : ogsOperator_t := mkOperator Unsigned 1 1 0 0 0 [] [].

(** A message some process has sent: what [outMessage] yields, from any
    state of any rank *)
Definition sentMessage (m : crMessage) : Prop :=
  ∃ comm_rank st, m = outMessage comm_rank st.

Definition sentMessages (oracle : Z → crMessage * crMessage) : Prop :=
  ∀ l, sentMessage (fst (oracle l)) ∧ sentMessage (snd (oracle l)).

(** The receive footprint of a level: what the halo buffer holds when its
    messages have arrived *)
Definition recvFootprint (lv : crLevel) : Z := recvOffset lv + Nrecv0 lv + Nrecv1 lv.

(** Row [n] of an operator holds column [c]. *)
Definition rowHas (g : ogsOperator_t) (n c : Z) : Prop :=
  ∃ j, zget 0 (rowStartsT g) n ≤ j < zget 0 (rowStartsT g) (n + 1) ∧
       0 ≤ j < zlen (colIdsT g) ∧
       zget 0 (colIdsT g) j = c.

(** Two descriptors that differ by their [newId] at most *)
Definition sameButNewId (a b : parallelNode_t) : Prop :=
  localId a = localId b ∧ sign a = sign b ∧ baseId a = baseId b ∧ rank a = rank b.

(** The ids of a descriptor are rows of the operators of the round: of the
    transposed one, and of the forward one when the sign is positive. *)
Definition idInRange (NhaloExtN NhaloExtT : Z) (a : parallelNode_t) : Prop :=
  0 ≤ newId a < NhaloExtT ∧ (0 < sign a → newId a < NhaloExtN).

(** *** Rows and columns of an operator under construction *)

(** The number of entries of row [i] among the rows [p] entries go to *)
Definition occ (p : list Z) (i : Z) : Z := Z.of_nat (count_occ Z.eq_dec p i).

(** The rows of the entries a loop over [lo..hi) makes: entry [n] is made
    when [c n] holds, and goes to row [r n]. *)
Definition evRows (c : Z → bool) (r : Z → Z) (lo hi : Z) : list Z :=
  forZ lo hi (λ n acc, if c n then acc ++ [r n] else acc) [].

(** The row counts, once the entries [p] are counted: [rowStarts[i+1]] is
    the number of entries of row [i]. *)
Definition countInv (R : Z) (p : list Z) (rowStarts : list Z) : Prop :=
  zlen rowStarts = R + 1 ∧ zget 0 rowStarts 0 = 0 ∧
  ∀ i, 0 ≤ i < R → zget 0 rowStarts (i + 1) = occ p i.

(** The row starts of the entries [all] *)
Definition startsOk (R : Z) (all : list Z) (starts : list Z) : Prop :=
  zlen starts = R + 1 ∧ zget 0 starts 0 = 0 ∧
  ∀ i, 0 ≤ i < R → zget 0 starts (i + 1) = zget 0 starts i + occ all i.

(** The operator while it is filled: the entries [p] are in place, the
    running row starts are past them, and the rows below [idRows] that have
    an entry have their own number as first column. *)
Definition fillInv (R idRows : Z) (starts : list Z) (p : list Z)
    (g : list Z * list Z) : Prop :=
  zlen (fst g) = R + 1 ∧
  (∀ i, 0 ≤ i < R → zget 0 (fst g) i = zget 0 starts i + occ p i) ∧
  zget 0 (fst g) R = zget 0 starts R ∧
  ∀ n, 0 ≤ n < idRows → 1 ≤ occ p n →
       0 ≤ zget 0 starts n < zlen (snd g) ∧ zget 0 (snd g) (zget 0 starts n) = n.

(** The entries the loops of lines 534-559 and 594-629 make: one for the
    first descriptor of a group, in the rows of the extended halo for the
    descriptors kept, in any row for those received; the forward operator
    takes the entries of positive sign only. *)
Definition rowOf (nodes : list parallelNode_t) (n : Z) : Z := newId (nodeAt nodes n).
Definition positive (nodes : list parallelNode_t) (n : Z) : bool :=
  0 <? sign (nodeAt nodes n).
Definition localEntry (Nhalo : Z) (nodes : list parallelNode_t) (n : Z) : bool :=
  groupStart nodes 0 n && (Nhalo <=? newId (nodeAt nodes n)).
Definition recvEntry (first : Z) (nodes : list parallelNode_t) (n : Z) : bool :=
  groupStart nodes first n.

Definition entriesT (Nhalo offset Nrecv0_ N : Z) (nodes : list parallelNode_t) : list Z :=
  ((seqZ 0 Nhalo
    ++ evRows (localEntry Nhalo nodes) (rowOf nodes) 0 offset)
    ++ evRows (recvEntry offset nodes) (rowOf nodes) offset (offset + Nrecv0_))
    ++ evRows (recvEntry (offset + Nrecv0_) nodes) (rowOf nodes) (offset + Nrecv0_) N.

Definition entriesN (idRows Nhalo offset Nrecv0_ N : Z) (nodes : list parallelNode_t)
    : list Z :=
  ((seqZ 0 idRows
    ++ evRows (λ n, localEntry Nhalo nodes n && positive nodes n) (rowOf nodes) 0 offset)
    ++ evRows (λ n, recvEntry offset nodes n && positive nodes n) (rowOf nodes)
              offset (offset + Nrecv0_))
    ++ evRows (λ n, recvEntry (offset + Nrecv0_) nodes n && positive nodes n)
              (rowOf nodes) (offset + Nrecv0_) N.

(** The entries a fill invariant speaks of *)
Definition prefixOf {R idRows st p g} (_ : fillInv R idRows st p g) : list Z := p.

(** *** What the rounds of the constructor keep *)

(** Level [l] of the two schedules: the forward one sends and receives no
    more than the transposed one, and the operators hold the identity
    columns of the halo rows. *)
Definition levelOk (NhaloP Nhalo l : Z) (lN lT : crLevel) : Prop :=
  Nsend lN ≤ Nsend lT ∧ recvFootprint lN ≤ recvFootprint lT ∧
  (∀ n, 0 ≤ n < Nhalo → rowHas (gather lT) n n) ∧
  (∀ n, 0 ≤ n < (if l =? 0 then NhaloP else Nhalo) → rowHas (gather lN) n n).

(** The local variables of the constructor between two rounds *)
Definition roundInv (comm_rank size NhaloP Nhalo : Z) (st : buildState) : Prop :=
  inWindow comm_rank (b_np st, b_np_offset st) ∧
  b_np st ≤ size ∧ 0 ≤ b_Nlevels st ∧ (b_np st = size ↔ b_Nlevels st = 0) ∧
  b_N st = zlen (b_nodes st) ∧
  Nhalo ≤ b_NhaloExtN st ≤ b_NhaloExtT st ∧
  Forall (λ a, 0 ≤ newId a) (b_nodes st) ∧
  zlen (b_levelsN st) = b_Nlevels st ∧ zlen (b_levelsT st) = b_Nlevels st ∧
  ∀ l, 0 ≤ l < b_Nlevels st →
    levelOk NhaloP Nhalo l (zget level0 (b_levelsN st) l) (zget level0 (b_levelsT st) l).

(** Two processes that share one node, which rank 0 owns: the descriptors
    each hands to the constructor, the list rank 1 starts its first round
    with, and the transport that delivers to rank 0 what rank 1 sends. *)
Definition shared0 : list parallelNode_t := [mkNode 0 0 2 7 1].
Definition shared1 : list parallelNode_t := [mkNode 0 0 (-2) (-7) 0].
Definition peerState : buildState :=
  mkBuild 2 0 0 2 (insertionSort ltNewId (haloRows 1 0 1 shared1 ++ shared1)) 1 1 1 [] [].
Definition peerMessages (l : Z) : crMessage * crMessage :=
  (outMessage 1 peerState, msg0).

(** ** Further properties of the constructor and of the executor *)

(** What [std::sort] requires of a comparator: a strict weak ordering *)
Definition strictWeak (lt : parallelNode_t → parallelNode_t → bool) : Prop :=
  (∀ a, lt a a = false) ∧
  (∀ a b c, lt a b = true → lt b c = true → lt a c = true) ∧
  (∀ a b c, lt a b = false → lt b a = false → lt b c = false → lt c b = false →
            lt a c = false ∧ lt c a = false).

(** Which half of the halo buffer each of the four pointers names, and
    [buf_id] *)
Definition pointers (b : crBuffers) : Z * Z * Z * Z * Z :=
  (haloBuf b, recvBuf b, o_haloBuf b, o_recvBuf b, buf_id b).

(** The pointers after a rotation (lines 130-134), from [buf_id] *)
Definition rotate (id : Z) : Z * Z * Z * Z * Z :=
  ((id + 1) `mod` 2, (id + 0) `mod` 2, (id + 1) `mod` 2, (id + 0) `mod` 2, (id + 1) `mod` 2).

(** The requests a trace posts, and the requests its [MPI_Waitall] calls
    wait for *)
Definition posted (tr : list event) : Z :=
  zlen (omap (λ e, match e with EvIrecv _ _ _ | EvIsend _ _ _ => Some e | _ => None end) tr).
Definition awaited (tr : list event) : Z :=
  foldr Z.add 0 (omap (λ e, match e with EvWaitall n => Some n | _ => None end) tr).

(** No group of descriptors ends at [k], ..., [k'-1]: [k] and [k'] are in
    one run of equal [abs(baseId)]. *)
Definition sameRun (nodes : list parallelNode_t) (N k k' : Z) : Prop :=
  ∀ m, k ≤ m < k' → groupEnd nodes N m = false.

(** The test of lines 442 and 473: the group gets a new id *)
Definition freshId (Nhalo id : Z) : bool := (Nhalo <=? id) || (id =? -1).

(** A list to renumber, with [Nhalo = 1]: a copy of row 0 (group 7), a
    descriptor of group 7 and one of group 9 that have just arrived, and a
    descriptor of row 1 of the extended halo (group 4) *)
Definition nodes5 : list parallelNode_t :=
  [mkNode 0 0 2 7 1; mkNode 0 (-1) (-2) (-7) 0; mkNode 0 (-1) 2 9 0; mkNode 0 1 (-2) (-4) 0].

(** *** Groups and ids *)

(** In a list, [newId] names the group: two descriptors have the same
    [newId] exactly when they have the same [abs(baseId)]. *)
Definition groupIds (nodes : list parallelNode_t) : Prop :=
  ∀ a b, a ∈ nodes → b ∈ nodes → (newId a = newId b ↔ absBase a = absBase b).

(** The descriptors a caller that has grouped its halo hands over: their
    [newId] is a row of the halo, names the group, every descriptor has a
    group ([baseId != 0]) and every row of the halo has a descriptor. *)
Definition wfShared (Nhalo : Z) (sharedNodes : list parallelNode_t) : Prop :=
  Forall (λ s, 0 ≤ newId s < Nhalo ∧ baseId s ≠ 0) sharedNodes ∧
  groupIds sharedNodes ∧
  ∀ n, 0 ≤ n < Nhalo → ∃ s, s ∈ sharedNodes ∧ newId s = n.

(** The list of descriptors between two rounds: in the order of their
    [newId], which names the group and is a row of the extended halo, of
    its forward part when the sign is positive. *)
Definition nodesOk (NhaloExtN NhaloExtT : Z) (nodes : list parallelNode_t) : Prop :=
  Forall (idInRange NhaloExtN NhaloExtT) nodes ∧ groupIds nodes ∧ sortedBy ltNewId nodes.

Definition stateOk (Nhalo : Z) (st : buildState) : Prop :=
  b_N st = zlen (b_nodes st) ∧ Nhalo ≤ b_NhaloExtN st ≤ b_NhaloExtT st ∧
  nodesOk (b_NhaloExtN st) (b_NhaloExtT st) (b_nodes st).

(** A list of ids that grows strictly *)
Definition increasing (l : list Z) : Prop :=
  ∀ i j, 0 ≤ i < j → j < zlen l → zget 0 l i < zget 0 l j.

(** *** A schedule that is safe to run *)

(** The send list of a level: as long as [Nsend] says, growing, and within
    the part of the halo buffer that is filled when the level starts. *)
Definition sendOk (lv : crLevel) : Prop :=
  zlen (sendIds lv) = Nsend lv ∧ increasing (sendIds lv) ∧
  Forall (λ id, 0 ≤ id < recvOffset lv) (sendIds lv).

(** *** The columns of a gather operator *)

(** The values of the entries of row [i], in the order the entries are
    made; [rows] and [vals] are the rows and the values of the entries. *)
Fixpoint valsOf (rows vals : list Z) (i : Z) : list Z :=
  match rows, vals with
  | r :: rows, v :: vals =>
      if decide (r = i) then v :: valsOf rows vals i else valsOf rows vals i
  | _, _ => []
  end.

(** The columns of row [i] of an operator:
    [colIds[rowStarts[i] .. rowStarts[i+1])] *)
Definition rowCols (g : ogsOperator_t) (i : Z) : list Z :=
  take (Z.to_nat (zget 0 (rowStartsT g) (i + 1) - zget 0 (rowStartsT g) i))
       (drop (Z.to_nat (zget 0 (rowStartsT g) i)) (colIdsT g)).

(** An operator of [R] rows that holds the entries of rows [rows] and
    values [vals], row by row and in their order *)
Definition csrOf (R : Z) (rows vals : list Z) (g : ogsOperator_t) : Prop :=
  zget 0 (rowStartsT g) 0 = 0 ∧
  (∀ i, 0 ≤ i < R →
     zget 0 (rowStartsT g) (i + 1) = zget 0 (rowStartsT g) i + occ rows i) ∧
  zget 0 (rowStartsT g) R = zlen (colIdsT g) ∧
  ∀ i, 0 ≤ i < R → rowCols g i = valsOf rows vals i.

(** An operator while it is filled: the values [vals] of the entries of
    rows [rows] are in their cells. *)
Definition fillVals (R : Z) (starts rows vals : list Z) (g : list Z * list Z) : Prop :=
  zlen rows = zlen vals ∧
  ∀ i k, 0 ≤ i < R → 0 ≤ k < zlen (valsOf rows vals i) →
    zget 0 (snd g) (zget 0 starts i + k) = zget 0 (valsOf rows vals i) k.

(** The number of entries a loop over [lo..hi) makes *)
Definition evCount (c : Z → bool) (lo hi : Z) : Z := zlen (evRows c (λ n, n) lo hi).

(** The values of the entries of the two operators of a round, in the
    order of [entriesT] and [entriesN]: the halo rows gather themselves,
    the rows of the extended halo the row they had before ([indexMap]),
    and the entries received take the slots after [recvOffset] one by
    one. *)
Definition oldRow (Nhalo : Z) (nodes : list parallelNode_t) (indexMap : list Z) (n : Z) : Z :=
  zget 0 indexMap (rowOf nodes n - Nhalo).

Definition valuesT (Nhalo offset Nrecv0_ N : Z) (nodes : list parallelNode_t)
    (indexMap : list Z) (recvOffsetT : Z) : list Z :=
  ((seqZ 0 Nhalo
    ++ evRows (localEntry Nhalo nodes) (oldRow Nhalo nodes indexMap) 0 offset)
    ++ seqZ recvOffsetT (evCount (recvEntry offset nodes) offset (offset + Nrecv0_)))
    ++ seqZ (recvOffsetT + evCount (recvEntry offset nodes) offset (offset + Nrecv0_))
            (evCount (recvEntry (offset + Nrecv0_) nodes) (offset + Nrecv0_) N).

Definition valuesN (idRows Nhalo offset Nrecv0_ N : Z) (nodes : list parallelNode_t)
    (indexMap : list Z) (recvOffsetN : Z) : list Z :=
  ((seqZ 0 idRows
    ++ evRows (λ n, localEntry Nhalo nodes n && positive nodes n)
              (oldRow Nhalo nodes indexMap) 0 offset)
    ++ seqZ recvOffsetN
            (evCount (λ n, recvEntry offset nodes n && positive nodes n)
                     offset (offset + Nrecv0_)))
    ++ seqZ (recvOffsetN + evCount (λ n, recvEntry offset nodes n && positive nodes n)
                                   offset (offset + Nrecv0_))
            (evCount (λ n, recvEntry (offset + Nrecv0_) nodes n && positive nodes n)
                     (offset + Nrecv0_) N).

(** The two running column numbers of the loops of lines 611-629, after the
    descriptors [first..n) *)
Definition recvCounters (nodes : list parallelNode_t) (first baseN baseT n : Z)
    (s : (list Z * list Z) * (list Z * list Z) * Z * Z) : Prop :=
  snd (fst s) = baseN + evCount (λ n, recvEntry first nodes n && positive nodes n) first n ∧
  snd s = baseT + evCount (recvEntry first nodes) first n.

(** An operator that [Gather] can run on a buffer of [Ncols] entries: the
    row starts begin at 0, do not decrease, and end at [nnz], the length of
    [colIds]; and every column is an entry of the buffer. *)
Definition csrSafe (g : ogsOperator_t) : Prop :=
  NrowsT g + 1 ≤ zlen (rowStartsT g) ∧
  zget 0 (rowStartsT g) 0 = 0 ∧
  (∀ i, 0 ≤ i < NrowsT g → zget 0 (rowStartsT g) i ≤ zget 0 (rowStartsT g) (i + 1)) ∧
  zget 0 (rowStartsT g) (NrowsT g) = nnzT g ∧
  zlen (colIdsT g) = nnzT g ∧
  Forall (λ c, 0 ≤ c < Ncols g) (colIdsT g).

(** ** What the direction of an exchange selects *)

(** The events of one level of [Finish], read from the record of the
    level: the receives (from [partner], and from [rank-1] when there is a
    second message), the assembly of the send buffer from [sendIds], the
    send to [partner], the wait for the [Nmsg+1] requests and the
    operator. *)
Definition levelEvents (k comm_rank : Z) (gpu : bool) (lv : crLevel) : list event :=
  (if 0 <? Nmsg lv then [EvIrecv (partner lv) (partner lv) (k * Nrecv0 lv)] else [])
  ++ (if Nmsg lv =? 2
      then [EvIrecv (comm_rank - 1) (comm_rank - 1) (k * Nrecv1 lv)] else [])
  ++ (if gpu
      then if negb (Nsend lv =? 0) then [EvExtract (Nsend lv) (sendIds lv); EvSync] else []
      else [EvExtract (Nsend lv) (sendIds lv)])
  ++ [EvIsend (partner lv) comm_rank (k * Nsend lv); EvWaitall (Nmsg lv + 1);
      EvGather (gather lv)].

(** The bytes a level needs of a half of the halo buffer: what it holds
    when the level starts and what the level receives *)
Definition levelBytes (Nbytes : Z) (lv : crLevel) : Z :=
  size_mul (recvOffset lv) Nbytes + size_mul (Nrecv0 lv) Nbytes + size_mul (Nrecv1 lv) Nbytes.

(** A halo buffer with two halves of [cap] bytes at least, on the host and
    on the device, whose pointers name halves *)
Definition halvesFit (cap : Z) (b : crBuffers) : Prop :=
  zlen (buf b) = 2 ∧ zlen (o_buf b) = 2 ∧
  (∀ h, 0 ≤ h < 2 → cap ≤ zlen (zget [] (buf b) h) ∧ cap ≤ zlen (zget [] (o_buf b) h)) ∧
  0 ≤ haloBuf b < 2 ∧ 0 ≤ o_haloBuf b < 2.

(** What a call of [Start] that stages the first [N] rows does.  When the
    invocation does not go through the host, or there is no row, nothing
    happens; otherwise, when both halo buffers hold the rows, the first [N]
    rows of the device halo buffer are copied over those of the host halo
    buffer, by one copy, and nothing else changes. *)
Definition stages (N k : Z) (type : Type_) (host : bool) (x : cr.t)
    (r : option (cr.t * list event)) : Prop :=
  let bytes := size_mul N (size_mul k (Sizeof type)) in
  let b := cr.buffers x in
  let dev := zget [] (o_buf b) (o_haloBuf b) in
  let hst := zget [] (buf b) (haloBuf b) in
  (staged x host = false ∨ N = 0 → r = Some (x, [])) ∧
  (staged x host = true → N ≠ 0 → bytes ≤ zlen dev → bytes ≤ zlen hst →
     r = Some (cr.with_buffers
                 (mkBuffers (sendBuf b) (o_sendBuf b)
                    (setHalf (buf b) (haloBuf b)
                       (take (Z.to_nat bytes) dev ++ drop (Z.to_nat bytes) hst))
                    (o_buf b) (haloBuf b) (recvBuf b) (o_haloBuf b) (o_recvBuf b)
                    (buf_id b)) x,
               [EvCopyToHost bytes])) ∧
  (∀ x' tr, r = Some (x', tr) →
     tr = if staged x host && negb (N =? 0) then [EvCopyToHost bytes] else []).

Section Selected.
Context (Gather : ogsOperator_t → list byte → list byte → Z → Type_ → Op →
                  Transpose → list byte).
Context (extract : Z → Z → Type_ → list Z → list byte → list byte → list byte).
Context (arrives : Z → Z → list byte).

(** The loop of [Finish] over the levels [lvs], the first of which is
    level [l] *)
Fixpoint finishLevels (k : Z) (type : Type_) (op : Op) (host : bool)
    (comm_rank : Z) (gpu : bool) (l : Z) (lvs : list crLevel)
    (s : option (crBuffers * list event)) : option (crBuffers * list event) :=
  match lvs with
  | [] => s
  | lv :: lvs =>
      finishLevels k type op host comm_rank gpu (l + 1) lvs
        (finishLevel Gather extract arrives k type op host comm_rank gpu l lv s)
  end.

(** What a call of [Finish] that has [Nin] rows coming in, runs the
    schedule [levels] and copies [Nout] rows back does.  Its result is
    that of the levels [levels[0]], ..., [levels[Nlevels-1]] one after
    the other on the buffers of the object, followed by the copy of the
    first [Nout] rows of the host halo buffer to the device when the
    invocation goes through the host; its events are the events of these
    levels, in order, between the synchronisation and the copy back; and
    it returns when the halves of the halo buffer hold every level and
    the rows to copy back, the messages arrive in full and the Gather
    engine leaves the size of its destination as it is. *)
Definition drives (levels : list crLevel) (Nin Nout : Z) (k : Z) (type : Type_)
    (op : Op) (host : bool) (x : cr.t) (r : option (cr.t * list event)) : Prop :=
  let Nbytes := size_mul k (Sizeof type) in
  let run := driven (cr.Nlevels x) levels in
  let syncIn := if staged x host && negb (Nin =? 0) then [EvSync] else [] in
  let copyOut := if staged x host && negb (Nout =? 0)
                 then [EvCopyToDevice (size_mul Nout Nbytes); EvSync] else [] in
  (r = '(b, tr) ← finishLevels k type op host (cr.rank x) (cr.gpu_aware x) 0 run
                    (Some (cr.buffers x, syncIn));
       if staged x host && negb (Nout =? 0) then
         d ← memcpy (size_mul Nout Nbytes) (zget [] (buf b) (haloBuf b))
                    (zget [] (o_buf b) (o_haloBuf b));
         Some (cr.with_buffers
                 (mkBuffers (sendBuf b) (o_sendBuf b) (buf b)
                    (setHalf (o_buf b) (o_haloBuf b) d)
                    (haloBuf b) (recvBuf b) (o_haloBuf b) (o_recvBuf b) (buf_id b)) x,
               tr ++ copyOut)
       else Some (cr.with_buffers b x, tr)) ∧
  (∀ x' tr, r = Some (x', tr) →
     tr = syncIn
          ++ concat (levelEvents k (cr.rank x) (cr.gpu_aware x) <$> run)
          ++ copyOut) ∧
  (∀ cap,
     (∀ g dst src k' t o tr, zlen (Gather g dst src k' t o tr) = zlen dst) →
     halvesFit cap (cr.buffers x) →
     Forall (λ lv, levelBytes Nbytes lv ≤ cap) run →
     size_mul Nout Nbytes ≤ cap →
     (∀ l, 0 ≤ l < cr.Nlevels x →
        size_mul (Nrecv0 (zget level0 levels l)) Nbytes ≤ zlen (arrives l 0) ∧
        size_mul (Nrecv1 (zget level0 levels l)) Nbytes ≤ zlen (arrives l 1)) →
     ∃ x' tr, r = Some (x', tr)).
End Selected.

(** An object whose two schedules differ, to run the executor on: rank 1
    of 2, one row owned of a halo of two, and one level that receives one
    entry and sends row 0 in the forward direction, and receives two
    entries and sends rows 0 and 1 in the transposed one *)
Definition gatherFwd : ogsOperator_t := mkOperator Unsigned 2 2 3 2 2 [0; 1; 2] [0; 1].
Definition gatherTrn : ogsOperator_t := mkOperator Unsigned 2 2 4 2 2 [0; 1; 2] [0; 1].
Definition levelFwd : crLevel := mkLevel 1 0 1 1 0 2 [0] gatherFwd.
Definition levelTrn : crLevel := mkLevel 1 0 2 2 0 2 [0; 1] gatherTrn.
Definition router2 : cr.t := cr.mk 1 2 false 1 2 1 [levelFwd] [levelTrn] 2 4 noBuffers.

(** A transport that delivers 32 bytes *)
Definition fullArrivals (l i : Z) : list byte := malloc 32.

(** Two halves of [cap] bytes at least *)
Definition fitsHalves (cap : Z) (bufs : list (list byte)) : Prop :=
  zlen bufs = 2 ∧ ∀ h, 0 ≤ h < 2 → cap ≤ zlen (zget [] bufs h).

(** * Facts about the control structures *)


Section LoopFacts.
Context {St : Type}.
Implicit Types (body : Z → St → St) (s : St).

Lemma while_inv (cond : St → bool) (step : St → St) (I : St → Prop) (m : St → nat) :
  (∀ s, I s → cond s = true → I (step s) ∧ (m (step s) < m s)%nat) →
  ∀ fuel s, I s → (m s ≤ fuel)%nat →
    ∃ s', while cond step fuel s = Some s' ∧ I s' ∧ cond s' = false.
Proof.
  intros Hstep. induction fuel as [|fuel IH]; intros s HI Hm; simpl.
  - destruct (cond s) eqn:E; [|by eauto].
    destruct (Hstep s HI E) as [_ ?]. lia.
  - destruct (cond s) eqn:E; [|by eauto].
    destruct (Hstep s HI E) as [? ?]. apply IH; [done|lia].
Qed.

Lemma forZ_nil lo hi body s : hi ≤ lo → forZ lo hi body s = s.
Proof.
  intros H. unfold forZ. replace (Z.to_nat (hi - lo)) with 0%nat by lia. done.
Qed.

Lemma forZ_snoc lo hi body s :
  lo ≤ hi → forZ lo (hi + 1) body s = body hi (forZ lo hi body s).
Proof.
  intros H. unfold forZ.
  replace (Z.to_nat (hi + 1 - lo)) with (S (Z.to_nat (hi - lo))) by lia.
  rewrite seq_S, fold_left_app. simpl. f_equal. lia.
Qed.

Lemma forZ_cons lo hi body s :
  lo < hi → forZ lo hi body s = forZ (lo + 1) hi body (body lo s).
Proof.
  intros H. unfold forZ.
  replace (Z.to_nat (hi - lo)) with (S (Z.to_nat (hi - (lo + 1)))) by lia.
  simpl. rewrite Z.add_0_r. generalize (body lo s) as t.
  generalize (Z.to_nat (hi - (lo + 1))) as n. generalize 0%nat as k.
  intros k n. revert k. induction n as [|n IH]; intros k t; simpl; [done|].
  rewrite IH. do 2 f_equal. lia.
Qed.

(** Invariants of a [for] loop *)
Lemma forZ_ind (P : Z → St → Prop) lo hi body s :
  lo ≤ hi → P lo s →
  (∀ i t, lo ≤ i < hi → P i t → P (i + 1) (body i t)) →
  P hi (forZ lo hi body s).
Proof.
  intros Hle H0 Hstep.
  assert (∀ n : nat, lo + Z.of_nat n ≤ hi → P (lo + Z.of_nat n) (forZ lo (lo + Z.of_nat n) body s)) as H.
  { induction n as [|n IH]; intros Hn.
    - rewrite Z.add_0_r, forZ_nil by lia. done.
    - replace (lo + Z.of_nat (S n)) with (lo + Z.of_nat n + 1) by lia.
      rewrite forZ_snoc by lia. apply Hstep; [lia|]. apply IH. lia. }
  specialize (H (Z.to_nat (hi - lo))).
  replace (lo + Z.of_nat (Z.to_nat (hi - lo))) with hi in H by lia. apply H. lia.
Qed.

Lemma forZ_ext lo hi body body' s :
  (∀ i t, lo ≤ i < hi → body i t = body' i t) →
  forZ lo hi body s = forZ lo hi body' s.
Proof.
  intros H. destruct (Z.le_gt_cases lo hi) as [Hle|Hgt].
  - apply (forZ_ind (λ i t, t = forZ lo i body' s)); [done| |].
    + by rewrite forZ_nil.
    + intros i t Hi ->. rewrite forZ_snoc by lia. by apply H.
  - by rewrite !forZ_nil by lia.
Qed.

Lemma forZ_split lo mid hi body s :
  lo ≤ mid ≤ hi → forZ lo hi body s = forZ mid hi body (forZ lo mid body s).
Proof.
  intros H. symmetry.
  apply (forZ_ind (λ i t, t = forZ lo i body s) mid hi); [lia|done|].
  intros i t Hi ->. rewrite forZ_snoc by lia. done.
Qed.
End LoopFacts.

(** * Insertion sort is a [std::sort] *)


Lemma insertBy_perm lt a l : Permutation (insertBy lt a l) (a :: l).
Proof.
  induction l as [|b l IH]; simpl; [done|].
  destruct (lt a b); [done|].
  rewrite IH. apply perm_swap.
Qed.

Lemma insertionSort_perm lt l : Permutation (insertionSort lt l) l.
Proof.
  induction l as [|a l IH]; simpl; [done|].
  rewrite insertBy_perm. by constructor.
Qed.

Section InsertionSorted.
Context (lt : parallelNode_t → parallelNode_t → bool).
Hypothesis lt_asym : ∀ a b, lt a b = true → lt b a = false.
Hypothesis le_trans : ∀ a b c, lt b a = false → lt c b = false → lt c a = false.

Let le a b := lt b a = false.

Lemma insertBy_sorted a l :
  StronglySorted le l → StronglySorted le (insertBy lt a l).
Proof.
  induction 1 as [|b l Hs IH Hb]; simpl.
  - repeat constructor.
  - destruct (lt a b) eqn:E.
    + constructor; [by constructor|].
      constructor; [by apply lt_asym|].
      eapply List.Forall_impl; [|exact Hb]. intros c Hc. unfold le in *.
      eapply le_trans; [|exact Hc]. by apply lt_asym.
    + constructor; [done|].
      eapply Permutation_Forall; [symmetry; apply insertBy_perm|].
      by constructor.
Qed.

Lemma insertionSort_sorted l : StronglySorted le (insertionSort lt l).
Proof.
  induction l as [|a l IH]; simpl; [constructor|]. by apply insertBy_sorted.
Qed.

Lemma StronglySorted_sortedBy l : StronglySorted le l → sortedBy lt l.
Proof.
  induction 1 as [|a l Hs IH Ha]; intros i j x y Hij Hi Hj.
  - by rewrite lookup_nil in Hi.
  - destruct j as [|j]; [lia|]. simpl in Hj.
    destruct i as [|i]; simpl in Hi.
    + injection Hi as <-. rewrite Forall_forall in Ha.
      apply Ha, list_elem_of_In, list_elem_of_lookup. eauto.
    + eapply (IH i j); eauto. lia.
Qed.
End InsertionSorted.

Lemma ltNewId_asym a b : ltNewId a b = true → ltNewId b a = false.
Proof. unfold ltNewId. lia. Qed.
Lemma ltNewId_trans a b c :
  ltNewId b a = false → ltNewId c b = false → ltNewId c a = false.
Proof. unfold ltNewId. lia. Qed.
Lemma ltBaseId_asym a b : ltBaseId a b = true → ltBaseId b a = false.
Proof.
  unfold ltBaseId.
  repeat match goal with |- context [if ?c then _ else _] => destruct c eqn:? end; lia.
Qed.
Lemma ltBaseId_trans a b c :
  ltBaseId b a = false → ltBaseId c b = false → ltBaseId c a = false.
Proof.
  unfold ltBaseId.
  repeat match goal with |- context [if ?c then _ else _] => destruct c eqn:? end; lia.
Qed.

#[export] Instance insertionStdSort : StdSort := {|
  std_sort := insertionSort;
  std_sort_perm := insertionSort_perm;
  std_sort_sorted := λ l,
    conj (StronglySorted_sortedBy _ _ (insertionSort_sorted _ ltNewId_asym ltNewId_trans l))
         (StronglySorted_sortedBy _ _ (insertionSort_sorted _ ltBaseId_asym ltBaseId_trans l))
|}.

(** * Facts about arrays *)

Section ArrayFacts.
Context {A : Type}.
Implicit Types (l : list A) (d v : A) (i j : Z).

Lemma zlen_zset l i v : zlen (zset l i v) = zlen l.
Proof. unfold zlen, zset. destruct (i <? 0); [done|]. by rewrite length_insert. Qed.

Lemma zlen_app l1 l2 : zlen (l1 ++ l2) = zlen l1 + zlen l2.
Proof. unfold zlen. rewrite length_app. lia. Qed.

Lemma zget_zset_eq d l i v : 0 ≤ i < zlen l → zget d (zset l i v) i = v.
Proof.
  unfold zget, zset, zlen. intros Hi. destruct (i <? 0) eqn:E; [lia|].
  assert (<[Z.to_nat i:=v]> l !! Z.to_nat i = Some v) as Hl
    by (apply list_lookup_insert_eq; lia).
  by apply nth_lookup_Some with (d := d) in Hl.
Qed.

Lemma nth_lookup_eq d l1 l2 (n m : nat) :
  l1 !! n = l2 !! m → nth n l1 d = nth m l2 d.
Proof. intros H. rewrite !nth_lookup. by rewrite H. Qed.

Lemma zget_zset_ne d l i j v : i ≠ j → zget d (zset l i v) j = zget d l j.
Proof.
  unfold zget, zset. intros Hij. destruct (j <? 0) eqn:Ej; [done|].
  destruct (i <? 0) eqn:Ei; [done|].
  apply nth_lookup_eq. apply list_lookup_insert_ne. lia.
Qed.

Lemma zget_zset d l i j v :
  0 ≤ i < zlen l → zget d (zset l i v) j = if decide (j = i) then v else zget d l j.
Proof.
  intros Hi. destruct (decide (j = i)) as [->|Hne].
  - by apply zget_zset_eq.
  - by apply zget_zset_ne.
Qed.

Lemma zget_outside d l i : i < 0 ∨ zlen l ≤ i → zget d l i = d.
Proof.
  unfold zget, zlen. intros Hi. destruct (i <? 0) eqn:E; [done|].
  apply nth_overflow. lia.
Qed.

Lemma zget_lookup d l i v : 0 ≤ i → l !! Z.to_nat i = Some v → zget d l i = v.
Proof.
  unfold zget. intros Hi Hl. destruct (i <? 0) eqn:E; [lia|].
  by apply nth_lookup_Some.
Qed.

Lemma zget_In d l i : 0 ≤ i < zlen l → zget d l i ∈ l.
Proof.
  unfold zlen. intros Hi.
  destruct (lookup_lt_is_Some_2 l (Z.to_nat i)) as [v Hv]; [lia|].
  rewrite (zget_lookup d l i v) by (done || lia). by eapply list_elem_of_lookup_2.
Qed.

Lemma elem_of_zget d l v : v ∈ l → ∃ i, 0 ≤ i < zlen l ∧ zget d l i = v.
Proof.
  intros Hv. apply list_elem_of_lookup in Hv as [n Hn].
  exists (Z.of_nat n). split.
  - apply lookup_lt_Some in Hn. unfold zlen. lia.
  - apply zget_lookup; [lia|]. by rewrite Nat2Z.id.
Qed.

Lemma zget_app_l d l1 l2 i : i < zlen l1 → zget d (l1 ++ l2) i = zget d l1 i.
Proof.
  unfold zget, zlen. intros Hi. destruct (i <? 0) eqn:E; [done|].
  apply app_nth1. lia.
Qed.

Lemma zget_app_r d l1 l2 i :
  zlen l1 ≤ i → zget d (l1 ++ l2) i = zget d l2 (i - zlen l1).
Proof.
  unfold zget, zlen. intros Hi. destruct (i <? 0) eqn:E; [lia|].
  destruct (i - Z.of_nat (length l1) <? 0) eqn:E'; [lia|].
  rewrite app_nth2 by lia. f_equal. lia.
Qed.

Lemma zget_snoc d l v : zget d (l ++ [v]) (zlen l) = v.
Proof.
  rewrite zget_app_r by lia. by rewrite Z.sub_diag.
Qed.

Lemma list_eq_zget d l1 l2 :
  zlen l1 = zlen l2 → (∀ i, 0 ≤ i < zlen l1 → zget d l1 i = zget d l2 i) → l1 = l2.
Proof.
  unfold zlen. intros Hlen Hget. apply (nth_ext _ _ d d); [lia|].
  intros n Hn. specialize (Hget (Z.of_nat n) ltac:(lia)).
  unfold zget in Hget. destruct (Z.of_nat n <? 0) eqn:E; [lia|].
  by rewrite Nat2Z.id in Hget.
Qed.

Lemma zlen_nonneg' l : 0 ≤ zlen l.
Proof. unfold zlen. lia. Qed.

(** A loop that rewrites the entries of a range, each from its own old
    value *)
Lemma forZ_update d (f : Z → A → A) lo hi l :
  0 ≤ lo → hi ≤ zlen l →
  zlen (forZ lo hi (λ j l, zset l j (f j (zget d l j))) l) = zlen l ∧
  ∀ k, zget d (forZ lo hi (λ j l, zset l j (f j (zget d l j))) l) k =
       if (lo <=? k) && (k <? hi) then f k (zget d l k) else zget d l k.
Proof.
  intros Hlo Hhi. destruct (Z.le_gt_cases lo hi) as [Hle|Hgt].
  - apply (forZ_ind (λ i l', zlen l' = zlen l ∧
       ∀ k, zget d l' k = if (lo <=? k) && (k <? i) then f k (zget d l k) else zget d l k));
      [done| |].
    + split; [done|]. intros k. destruct (_ && _) eqn:E; [lia|done].
    + intros i t Hi [Hlen Hget]. split; [by rewrite zlen_zset|].
      intros k. rewrite zget_zset by lia.
      destruct (decide (k = i)) as [->|Hne].
      * rewrite Hget. destruct ((lo <=? i) && (i <? i)) eqn:E1; [lia|].
        destruct ((lo <=? i) && (i <? i + 1)) eqn:E2; [done|lia].
      * rewrite Hget. destruct ((lo <=? k) && (k <? i)) eqn:E1,
          ((lo <=? k) && (k <? i + 1)) eqn:E2; done || lia.
  - rewrite forZ_nil by lia. split; [done|]. intros k. destruct (_ && _) eqn:E; [lia|done].
Qed.
End ArrayFacts.


(** * The fold *)

Lemma np_half_div np : 0 ≤ np → np_half np = (np + 1) `div` 2.
Proof. intros. unfold np_half. apply Z.quot_div_nonneg; lia. Qed.

Lemma land_1 np : Z.land np 1 = np `mod` 2.
Proof. change 1 with (Z.ones 1) at 1. by rewrite Z.land_ones. Qed.


Lemma shrink_inWindow comm_rank w :
  1 < fst w → inWindow comm_rank w →
  inWindow comm_rank (shrink comm_rank w) ∧
  fst (shrink comm_rank w) < fst w ∧
  (fst w) `div` 2 ≤ fst (shrink comm_rank w) ≤ (fst w + 1) `div` 2 ∧
  snd w ≤ snd (shrink comm_rank w) ∧
  snd (shrink comm_rank w) + fst (shrink comm_rank w) ≤ snd w + fst w.
Proof.
  destruct w as [np off]. unfold inWindow, shrink, is_lo, r_half. simpl. intros Hnp [_ Hin].
  rewrite np_half_div by lia.
  destruct (comm_rank <? (np + 1) `div` 2 + off) eqn:E; simpl; lia.
Qed.

Lemma log2_up_half np np' :
  1 < np → 1 ≤ np' ≤ (np + 1) `div` 2 → Z.log2_up np' + 1 ≤ Z.log2_up np.
Proof.
  intros Hnp Hnp'.
  assert (0 < Z.log2_up np) by (apply Z.log2_up_pos; lia).
  cut (Z.log2_up np' ≤ Z.log2_up np - 1); [lia|].
  apply Z.log2_up_le_pow2; [lia|].
  pose proof (Z.log2_up_spec np Hnp) as [_ Hu].
  replace (Z.log2_up np) with (Z.succ (Z.log2_up np - 1)) in Hu by lia.
  rewrite Z.pow_succ_r in Hu by lia. lia.
Qed.

Lemma log2_half np np' :
  1 < np → np `div` 2 ≤ np' → Z.log2 np ≤ Z.log2 np' + 1.
Proof.
  intros Hnp Hnp'.
  assert (0 < Z.log2 np) by (apply Z.log2_pos; lia).
  cut (Z.log2 np - 1 ≤ Z.log2 np'); [lia|].
  apply Z.log2_le_pow2; [lia|].
  pose proof (Z.log2_spec np ltac:(lia)) as [Hl _].
  replace (Z.log2 np) with (Z.succ (Z.log2 np - 1)) in Hl by lia.
  rewrite Z.pow_succ_r in Hl by lia. lia.
Qed.

Lemma log2_up_ceil_half np :
  1 < np → Z.log2_up np ≤ Z.log2_up ((np + 1) `div` 2) + 1.
Proof.
  intros Hnp.
  cut (Z.log2_up np - 2 < Z.log2_up ((np + 1) `div` 2)); [lia|].
  apply Z.log2_up_lt_pow2; [lia|].
  pose proof (Z.log2_up_spec np Hnp) as [Hl _].
  assert (0 < Z.log2_up np) by (apply Z.log2_up_pos; lia).
  destruct (Z.eq_dec (Z.log2_up np) 1) as [->|].
  - simpl. lia.
  - replace (Z.pred (Z.log2_up np)) with (Z.succ (Z.log2_up np - 2)) in Hl by lia.
    rewrite Z.pow_succ_r in Hl by lia. lia.
Qed.

Lemma foldWindows_length fuel comm_rank w :
  inWindow comm_rank w → (Z.to_nat (fst w) ≤ fuel)%nat →
  Z.log2 (fst w) ≤ Z.of_nat (length (foldWindows fuel comm_rank w)) ≤ Z.log2_up (fst w).
Proof.
  revert w. induction fuel as [|fuel IH]; intros w Hw Hfuel.
  - destruct Hw. lia.
  - simpl. destruct (1 <? fst w) eqn:E.
    + destruct (shrink_inWindow comm_rank w) as (Hw' & Hlt & Hb & _); [lia|done|].
      specialize (IH _ Hw' ltac:(lia)). destruct Hw'. simpl length.
      assert (1 < fst w) as Hw1 by lia.
      assert (Z.log2_up (fst (shrink comm_rank w)) + 1 ≤ Z.log2_up (fst w))
        by (apply log2_up_half; lia).
      assert (Z.log2 (fst w) ≤ Z.log2 (fst (shrink comm_rank w)) + 1)
        by (apply log2_half; lia).
      lia.
    + destruct Hw. replace (fst w) with 1 by lia.
      rewrite Z.log2_1, Z.log2_up_1. simpl. lia.
Qed.

Lemma foldWindows_length_rank0 fuel np :
  1 ≤ np → (Z.to_nat np ≤ fuel)%nat →
  Z.of_nat (length (foldWindows fuel 0 (np, 0))) = Z.log2_up np.
Proof.
  revert np. induction fuel as [|fuel IH]; intros np Hnp Hfuel; [lia|].
  cbn [foldWindows fst]. destruct (1 <? np) eqn:E.
  - assert (shrink 0 (np, 0) = ((np + 1) `div` 2, 0)) as ->.
    { unfold shrink, is_lo, r_half. rewrite np_half_div by lia.
      destruct (0 <? (np + 1) `div` 2 + 0) eqn:E'; [done|lia]. }
    simpl length. rewrite Nat2Z.inj_succ, IH by lia.
    assert (Z.log2_up np ≤ Z.log2_up ((np + 1) `div` 2) + 1)
      by (apply log2_up_ceil_half; lia).
    assert (Z.log2_up ((np + 1) `div` 2) + 1 ≤ Z.log2_up np)
      by (apply log2_up_half; lia).
    lia.
  - replace np with 1 by lia. done.
Qed.

Lemma foldWindows_inWindow fuel comm_rank w :
  inWindow comm_rank w →
  Forall (λ w', 1 < fst w' ∧ inWindow comm_rank w') (foldWindows fuel comm_rank w).
Proof.
  revert w. induction fuel as [|fuel IH]; intros w Hw; simpl; [constructor|].
  destruct (1 <? fst w) eqn:E; [|constructor].
  constructor; [split; [lia|done]|].
  apply IH. apply shrink_inWindow; [lia|done].
Qed.

Lemma foldWindows_pow2 fuel comm_rank k off :
  0 ≤ k → inWindow comm_rank (2 ^ k, off) →
  Forall (λ w', ∃ j, 0 < j ∧ fst w' = 2 ^ j) (foldWindows fuel comm_rank (2 ^ k, off)).
Proof.
  revert k off. induction fuel as [|fuel IH]; intros k off Hk Hw;
    cbn [foldWindows fst]; [constructor|].
  destruct (1 <? 2 ^ k) eqn:E; [|constructor].
  assert (0 < k).
  { destruct (Z.eq_dec k 0) as [->|]; [simpl in E; lia|lia]. }
  constructor; [by exists k|].
  assert (2 ^ k = 2 * 2 ^ (k - 1)) as Hp.
  { rewrite <- Z.pow_succ_r by lia. f_equal. lia. }
  assert (0 < 2 ^ (k - 1)) by (apply Z.pow_pos_nonneg; lia).
  destruct (shrink_inWindow comm_rank (2 ^ k, off)) as (Hw' & _); [simpl; lia|done|].
  assert (shrink comm_rank (2 ^ k, off) =
          (2 ^ (k - 1), snd (shrink comm_rank (2 ^ k, off)))) as Hs.
  { unfold shrink, is_lo, r_half in *. rewrite np_half_div in * by lia.
    replace ((2 ^ k + 1) `div` 2) with (2 ^ (k - 1)) in * by lia.
    destruct (comm_rank <? 2 ^ (k - 1) + off); simpl; f_equal; lia. }
  rewrite Hs in Hw' |- *. apply IH; [lia|done].
Qed.

(** The pairing of a level *)
Lemma levelPartner_spec comm_rank np off :
  1 < np → off ≤ comm_rank < off + np →
  if decide (mirror comm_rank np off = comm_rank) then
    np `mod` 2 = 1 ∧ comm_rank = r_half np off - 1 ∧
    levelPartner comm_rank np off = r_half np off ∧ levelNmsg comm_rank np off = 0
  else
    levelPartner comm_rank np off = mirror comm_rank np off ∧
    off ≤ mirror comm_rank np off < off + np ∧
    levelNmsg comm_rank np off =
      (if decide (np `mod` 2 = 1 ∧ comm_rank = r_half np off) then 2 else 1).
Proof.
  intros Hnp Hin. unfold levelPartner, levelNmsg, r_half, mirror.
  rewrite np_half_div, land_1 by lia.
  destruct (decide _) as [Hm|Hm].
  - rewrite (proj2 (Z.eqb_eq _ _) Hm).
    assert (np `mod` 2 = 1) as Hodd by lia.
    rewrite Hodd. simpl.
    destruct (comm_rank =? (np + 1) `div` 2 + off) eqn:E; lia.
  - rewrite (proj2 (Z.eqb_neq _ _) Hm).
    split; [done|]. split; [lia|].
    destruct (decide _) as [[Hodd ->]|Hn].
    + rewrite Hodd, Z.eqb_refl. done.
    + destruct (np `mod` 2 =? 0) eqn:E1; simpl; [done|].
      destruct (comm_rank =? (np + 1) `div` 2 + off) eqn:E2; [|done].
      exfalso. apply Hn. lia.
Qed.

(** Splitting the pairs a definition binds with [let '(x, y) := ...] *)
Ltac split_lets :=
  repeat match goal with
         | |- context [let '(_, _) := ?p in _] => destruct p
         end.

Section RoundFacts.
Context `{StdSort}.
Variables (comm_rank size NhaloP Nhalo : Z).


Lemma levelSend_pairing st :
  s_partner (levelSend comm_rank st) = levelPartner comm_rank (b_np st) (b_np_offset st) ∧
  s_Nmsg (levelSend comm_rank st) = levelNmsg comm_rank (b_np st) (b_np_offset st).
Proof. unfold levelSend. split_lets. done. Qed.

Lemma levelRound_fold m st :
  let st' := levelRound comm_rank size NhaloP Nhalo m st in
  (b_np st', b_np_offset st') = shrink comm_rank (b_np st, b_np_offset st) ∧
  b_Nlevels st' = b_Nlevels st + 1 ∧
  ∃ lN lT, b_levelsN st' = b_levelsN st ++ [lN] ∧
           b_levelsT st' = b_levelsT st ++ [lT] ∧
           pairing lN = windowPairing comm_rank (b_np st, b_np_offset st) ∧
           pairing lT = windowPairing comm_rank (b_np st, b_np_offset st).
Proof.
  destruct (levelSend_pairing st) as [Hp Hn].
  unfold levelRound.
  split_lets. cbn [b_np b_np_offset b_Nlevels b_levelsN b_levelsT].
  split; [done|]. split; [done|].
  eexists _, _. split; [done|]. split; [done|].
  unfold pairing, windowPairing. cbn [partner Nmsg fst snd]. by rewrite Hp, Hn.
Qed.

Lemma buildLevels_windows oracle fuel st st' :
  buildLevels comm_rank size NhaloP Nhalo oracle fuel st = Some st' →
  let ws := foldWindows fuel comm_rank (b_np st, b_np_offset st) in
  b_Nlevels st' = b_Nlevels st + Z.of_nat (length ws) ∧
  pairing <$> b_levelsN st' = (pairing <$> b_levelsN st) ++ (windowPairing comm_rank <$> ws) ∧
  pairing <$> b_levelsT st' = (pairing <$> b_levelsT st) ++ (windowPairing comm_rank <$> ws).
Proof.
  unfold buildLevels. revert st. induction fuel as [|fuel IH]; intros st; cbn [while foldWindows fst].
  - destruct (1 <? b_np st); [intros [=]|]. intros [= <-]. simpl. rewrite !app_nil_r. split; [lia|done].
  - destruct (1 <? b_np st) eqn:E.
    + intros Hw. apply IH in Hw.
      destruct (levelRound_fold (oracle (b_Nlevels st)) st) as (Hs & Hl & lN & lT & HN & HT & HpN & HpT).
      rewrite Hs in Hw. destruct Hw as (Hw1 & Hw2 & Hw3).
      rewrite Hw1, Hw2, Hw3, Hl, HN, HT. rewrite !fmap_app. simpl.
      rewrite HpN, HpT, <- !app_assoc. simpl. split; [lia|done].
    + intros [= <-]. simpl. rewrite !app_nil_r. split; [lia|done].
Qed.

Lemma buildLevels_total oracle fuel st :
  inWindow comm_rank (b_np st, b_np_offset st) → (Z.to_nat (b_np st) ≤ fuel)%nat →
  ∃ st', buildLevels comm_rank size NhaloP Nhalo oracle fuel st = Some st'.
Proof.
  intros Hw Hf.
  destruct (while_inv (λ st, 1 <? b_np st)
              (λ st, levelRound comm_rank size NhaloP Nhalo (oracle (b_Nlevels st)) st)
              (λ st, inWindow comm_rank (b_np st, b_np_offset st))
              (λ st, Z.to_nat (b_np st))) with (fuel := fuel) (s := st)
    as (st' & Hst' & _); [|done|done|by eauto].
  intros s Hs Hc.
  destruct (levelRound_fold (oracle (b_Nlevels s)) s) as (Hsh & _).
  destruct (shrink_inWindow comm_rank (b_np s, b_np_offset s)) as (Hw' & Hlt & _);
    [simpl; lia|done|].
  rewrite <- Hsh in Hw', Hlt. simpl in Hlt. split; [done|].
  destruct Hw' as [? _]. simpl in *. lia.
Qed.
End RoundFacts.

(** * The levels of a constructed schedule *)

Lemma countLevels_windows size comm_rank :
  inWindow comm_rank (size, 0) →
  countLevels size comm_rank =
    Some (Z.of_nat (length (foldWindows (Z.to_nat size) comm_rank (size, 0)))).
Proof.
  intros Hw. unfold countLevels.
  assert (∀ fuel w n, inWindow comm_rank w → (Z.to_nat (fst w) ≤ fuel)%nat →
    ∃ w', while (λ '(w, _), 1 <? fst w)
                (λ '(w, Nlevels), (shrink comm_rank w, Nlevels + 1)) fuel (w, n) =
          Some (w', n + Z.of_nat (length (foldWindows fuel comm_rank w)))) as Hgen.
  { induction fuel as [|fuel IH]; intros w n Hin Hf; cbn [while foldWindows].
    - destruct Hin. destruct (1 <? fst w) eqn:E; [lia|]. exists w. simpl. do 2 f_equal. lia.
    - destruct (1 <? fst w) eqn:E.
      + destruct (shrink_inWindow comm_rank w) as (Hw' & Hlt & _); [lia|done|].
        destruct (IH (shrink comm_rank w) (n + 1) Hw') as [w' IH1]; [lia|].
        exists w'. rewrite IH1. cbn [length]. do 2 f_equal. lia.
      + exists w. simpl. do 2 f_equal. lia. }
  destruct (Hgen (Z.to_nat size) (size, 0) 0 Hw) as [w' ->]; [simpl; lia|].
  done.
Qed.

Section Constructed.
Context `{StdSort}.
Variables (comm_rank size : Z) (gpu : bool) (Dfloat : Type_) (Nshared : Z)
          (sharedNodes : list parallelNode_t) (gatherHalo : ogsOperator_t)
          (oracle : Z → crMessage * crMessage).

(** The constructor returns, and its levels are those of the fold. *)
Lemma construct_levels nodes :
  1 ≤ size → 0 ≤ comm_rank < size →
  initNodes comm_rank (NrowsN gatherHalo) (NrowsT gatherHalo) Nshared sharedNodes
    = Some nodes →
  let ws := foldWindows (Z.to_nat size) comm_rank (size, 0) in
  ∃ x, construct comm_rank size gpu Dfloat Nshared sharedNodes gatherHalo oracle = Some x ∧
       cr.Nlevels x = Z.of_nat (length ws) ∧
       pairing <$> cr.levelsN x = windowPairing comm_rank <$> ws ∧
       pairing <$> cr.levelsT x = windowPairing comm_rank <$> ws.
Proof.
  intros Hsize Hrank Hinit ws. unfold construct.
  assert (inWindow comm_rank (size, 0)) as Hw by (unfold inWindow; simpl; lia).
  rewrite countLevels_windows, Hinit by done. cbn [mbind option_bind].
  set (st0 := mkBuild size 0 0 (Nshared + NrowsT gatherHalo) nodes
                (NrowsT gatherHalo) (NrowsT gatherHalo) (NrowsT gatherHalo) [] []).
  destruct (buildLevels_total comm_rank size (NrowsN gatherHalo) (NrowsT gatherHalo)
              oracle (Z.to_nat size) st0) as [st Hst]; [done|simpl; lia|].
  rewrite Hst. cbn [mbind option_bind].
  apply buildLevels_windows in Hst as (HN & HlN & HlT). simpl in HN, HlN, HlT.
  destruct (scratchMax _ _) as [NsendMax NrecvMax].
  eexists. split; [done|].
  unfold AllocBuffer. cbn [cr.Nlevels cr.levelsN cr.levelsT cr.with_buffers]. done.
Qed.

(** C2, as amended.  For NP >= 1 processes and a rank below NP, the
    constructor returns, with the same number of levels in each of the
    two schedules; this number lies between floor(log2(NP)) and
    ceil(log2(NP)), is ceil(log2(NP)) on rank 0, and when NP is a power
    of two it is log2(NP) on every rank, every level having exactly one
    message pair (Nmsg = 1). *)
Theorem level_count nodes :
  1 ≤ size → 0 ≤ comm_rank < size →
  initNodes comm_rank (NrowsN gatherHalo) (NrowsT gatherHalo) Nshared sharedNodes
    = Some nodes →
  ∃ x, construct comm_rank size gpu Dfloat Nshared sharedNodes gatherHalo oracle = Some x ∧
       zlen (cr.levelsN x) = cr.Nlevels x ∧ zlen (cr.levelsT x) = cr.Nlevels x ∧
       Z.log2 size ≤ cr.Nlevels x ≤ Z.log2_up size ∧
       (comm_rank = 0 → cr.Nlevels x = Z.log2_up size) ∧
       (∀ k, 0 ≤ k → size = 2 ^ k →
          cr.Nlevels x = k ∧
          Forall (λ lv, Nmsg lv = 1) (cr.levelsN x) ∧
          Forall (λ lv, Nmsg lv = 1) (cr.levelsT x)).
Proof.
  intros Hsize Hrank Hinit.
  destruct (construct_levels nodes Hsize Hrank Hinit) as (x & Hx & HN & HlN & HlT).
  exists x. split; [done|].
  assert (inWindow comm_rank (size, 0)) as Hw by (unfold inWindow; simpl; lia).
  pose proof (foldWindows_length (Z.to_nat size) comm_rank (size, 0) Hw ltac:(simpl; lia))
    as Hlen. simpl in Hlen.
  assert (zlen (cr.levelsN x) = cr.Nlevels x ∧ zlen (cr.levelsT x) = cr.Nlevels x) as [? ?].
  { unfold zlen. rewrite <- (length_fmap pairing (cr.levelsN x)), HlN.
    rewrite <- (length_fmap pairing (cr.levelsT x)), HlT. rewrite !length_fmap. lia. }
  do 2 (split; [done|]). split; [lia|]. split.
  - intros ->. rewrite HN. by apply foldWindows_length_rank0.
  - intros k Hk ->.
    rewrite Z.log2_pow2, Z.log2_up_pow2 in Hlen by done. split; [lia|].
    pose proof (foldWindows_pow2 (Z.to_nat (2 ^ k)) comm_rank k 0 Hk Hw) as Hpow.
    pose proof (foldWindows_inWindow (Z.to_nat (2 ^ k)) comm_rank (2 ^ k, 0) Hw) as Hin.
    assert (Forall (λ p, snd p = 1)
              (windowPairing comm_rank <$>
                 foldWindows (Z.to_nat (2 ^ k)) comm_rank (2 ^ k, 0))) as Hone.
    { apply Forall_fmap. rewrite Forall_forall in Hpow, Hin. apply Forall_forall.
      intros [np off] Hel. destruct (Hpow _ Hel) as (j & Hj & Hnp).
      destruct (Hin _ Hel) as (Hnp1 & _ & Hoff). simpl in *.
      pose proof (levelPartner_spec comm_rank np off Hnp1 Hoff) as Hsp.
      assert (np `mod` 2 = 0) as Heven.
      { rewrite Hnp. replace j with (Z.succ (j - 1)) by lia.
        rewrite Z.pow_succ_r by lia. by rewrite Z.mul_comm, Z.mod_mul. }
      destruct (decide (mirror comm_rank np off = comm_rank)) as [Hm|Hm].
      - destruct Hsp as (Hodd & _). lia.
      - destruct Hsp as (_ & _ & ->). destruct (decide _) as [[? ?]|]; [lia|done]. }
    split.
    + rewrite <- HlN in Hone. apply Forall_fmap in Hone. done.
    + rewrite <- HlT in Hone. apply Forall_fmap in Hone. done.
Qed.

(** C3.  In every round, with its window (np, np_offset), the partner a
    rank records is its mirror np-1-(rank-np_offset)+np_offset, with
    Nmsg = 1, except that: when the mirror is the rank itself, which
    happens for np odd only and for the rank r_half-1, the partner is
    r_half and Nmsg = 0; and when np is odd the rank r_half has Nmsg = 2,
    its second message being that of rank r_half-1, whose recorded
    partner it is.  Both schedules record the same pairing. *)
Theorem partner_pairing x :
  1 ≤ size → 0 ≤ comm_rank < size →
  construct comm_rank size gpu Dfloat Nshared sharedNodes gatherHalo oracle = Some x →
  ∀ (l : nat) np np_offset,
    foldWindows (Z.to_nat size) comm_rank (size, 0) !! l = Some (np, np_offset) →
    ∃ lvN lvT,
      cr.levelsN x !! l = Some lvN ∧ cr.levelsT x !! l = Some lvT ∧
      partner lvT = partner lvN ∧ Nmsg lvT = Nmsg lvN ∧
      1 < np ∧ np_offset ≤ comm_rank < np_offset + np ∧
      (if decide (mirror comm_rank np np_offset = comm_rank) then
         np `mod` 2 = 1 ∧ comm_rank = r_half np np_offset - 1 ∧
         partner lvN = r_half np np_offset ∧ Nmsg lvN = 0
       else
         partner lvN = mirror comm_rank np np_offset ∧
         Nmsg lvN = (if decide (np `mod` 2 = 1 ∧ comm_rank = r_half np np_offset)
                     then 2 else 1)) ∧
      (np `mod` 2 = 1 → comm_rank = r_half np np_offset →
         Nmsg lvN = 2 ∧
         levelPartner (comm_rank - 1) np np_offset = comm_rank ∧
         levelNmsg (comm_rank - 1) np np_offset = 0).
Proof.
  intros Hsize Hrank Hx l np off Hl.
  destruct (initNodes comm_rank (NrowsN gatherHalo) (NrowsT gatherHalo) Nshared sharedNodes)
    as [nodes|] eqn:Hinit.
  2:{ unfold construct in Hx. rewrite Hinit in Hx.
      destruct (countLevels size comm_rank); done. }
  destruct (construct_levels nodes Hsize Hrank Hinit) as (x' & Hx' & HN & HlN & HlT).
  rewrite Hx in Hx'. injection Hx' as <-.
  assert (inWindow comm_rank (size, 0)) as Hw by (unfold inWindow; simpl; lia).
  pose proof (foldWindows_inWindow (Z.to_nat size) comm_rank (size, 0) Hw) as Hin.
  rewrite Forall_lookup in Hin. destruct (Hin l _ Hl) as (Hnp & _ & Hoff). simpl in Hnp, Hoff.
  assert ((pairing <$> cr.levelsN x) !! l = Some (windowPairing comm_rank (np, off))) as HpN
    by (rewrite HlN, list_lookup_fmap, Hl; done).
  assert ((pairing <$> cr.levelsT x) !! l = Some (windowPairing comm_rank (np, off))) as HpT
    by (rewrite HlT, list_lookup_fmap, Hl; done).
  rewrite list_lookup_fmap in HpN, HpT.
  destruct (cr.levelsN x !! l) as [lvN|]; [|done].
  destruct (cr.levelsT x !! l) as [lvT|]; [|done].
  unfold pairing, windowPairing in HpN, HpT. cbn [fst snd] in HpN, HpT.
  injection HpN as HpN HnN. injection HpT as HpT HnT.
  exists lvN, lvT. do 2 (split; [done|]).
  split; [congruence|]. split; [congruence|]. split; [done|]. split; [done|].
  pose proof (levelPartner_spec comm_rank np off Hnp Hoff) as Hsp.
  rewrite HpN, HnN. split.
  { destruct (decide (mirror comm_rank np off = comm_rank)); [done|].
    by destruct Hsp as (? & _ & ?). }
  intros Hodd Hr.
  destruct (decide (mirror comm_rank np off = comm_rank)) as [Hm|Hm].
  { destruct Hsp as (_ & ? & _). lia. }
  destruct Hsp as (_ & _ & ->). destruct (decide _) as [_|Hn]; [|by destruct Hn].
  split; [done|].
  assert (off ≤ comm_rank - 1 < off + np) as Hoff'.
  { unfold r_half in Hr. rewrite np_half_div in Hr by lia. lia. }
  pose proof (levelPartner_spec (comm_rank - 1) np off Hnp Hoff') as Hsp'.
  destruct (decide (mirror (comm_rank - 1) np off = comm_rank - 1)) as [Hm'|Hm'].
  - destruct Hsp' as (_ & _ & -> & ->). split; [congruence|done].
  - exfalso. apply Hm'. unfold mirror, r_half in *. rewrite np_half_div in Hr by lia. lia.
Qed.
End Constructed.

Lemma level_count_counterexample :
  ∃ x, construct 2 3 false Double 0 [] gatherHalo0 noMessages = Some x ∧
       cr.Nlevels x = 1 ∧ zlen (cr.levelsN x) = 1 ∧ zlen (cr.levelsT x) = 1 ∧
       cr.Nlevels x ≠ Z.log2_up 3.
Proof.
  eexists. split; [vm_compute; reflexivity|]. vm_compute. repeat split; discriminate.
Qed.

Lemma level_count_witness :
  ∃ x, construct 1 4 false Double 0 [] gatherHalo0 noMessages = Some x ∧
       cr.Nlevels x = 2 ∧ Forall (λ lv, Nmsg lv = 1) (cr.levelsN x).
Proof.
  destruct (level_count 1 4 false Double 0 [] gatherHalo0 noMessages [])
    as (x & Hx & _ & _ & _ & _ & Hpow); [lia|lia|vm_compute; reflexivity|].
  exists x. split; [exact Hx|].
  destruct (Hpow 2) as (HN & HlN & _); [lia|reflexivity|]. split; [exact HN|exact HlN].
Defined.

Lemma partner_pairing_witness :
  ∃ x lvN,
    construct 1 3 false Double 0 [] gatherHalo0 noMessages = Some x ∧
    cr.levelsN x !! 0%nat = Some lvN ∧ partner lvN = 2 ∧ Nmsg lvN = 0.
Proof.
  destruct (construct 1 3 false Double 0 [] gatherHalo0 noMessages) as [x|] eqn:E;
    [|vm_compute in E; discriminate].
  destruct (partner_pairing 1 3 false Double 0 [] gatherHalo0 noMessages x
              ltac:(lia) ltac:(lia) E 0%nat 3 0 ltac:(vm_compute; reflexivity))
    as (lvN & lvT & HlN & _ & _ & _ & _ & _ & Hp & _).
  exists x, lvN. split; [reflexivity|]. split; [exact HlN|].
  destruct (decide (mirror 1 3 0 = 1)) as [_|Hn]; [|exfalso; apply Hn; reflexivity].
  destruct Hp as (_ & _ & Hp & Hm). split; [exact Hp|exact Hm].
Defined.

(** * The set-up of the node list *)

Lemma zlen_repeat {A} (a : A) n : 0 ≤ n → zlen (repeat a (Z.to_nat n)) = n.
Proof. intros. unfold zlen. rewrite repeat_length. lia. Qed.

Lemma zget_repeat {A} (a : A) (n : nat) i : zget a (repeat a n) i = a.
Proof.
  unfold zget. destruct (i <? 0); [done|].
  destruct (decide (Z.to_nat i < n)%nat).
  - by apply nth_repeat_lt.
  - apply nth_overflow. rewrite repeat_length. lia.
Qed.

Lemma zget_take {A} (d : A) l (n : nat) i :
  0 ≤ i < Z.of_nat n → zget d (take n l) i = zget d l i.
Proof.
  unfold zget. intros Hi. destruct (i <? 0); [done|].
  rewrite !nth_lookup. rewrite lookup_take_lt by lia. done.
Qed.

Lemma find_snoc {A} (f : A → bool) l a :
  List.find f (l ++ [a]) =
    match List.find f l with
    | Some b => Some b
    | None => if f a then Some a else None
    end.
Proof.
  induction l as [|b l IH]; simpl; [done|]. destruct (f b); [done|]. apply IH.
Qed.

Lemma take_snoc_zget {A} (d : A) l i :
  0 ≤ i < zlen l → take (Z.to_nat (i + 1)) l = take (Z.to_nat i) l ++ [zget d l i].
Proof.
  unfold zlen. intros Hi.
  replace (Z.to_nat (i + 1)) with (S (Z.to_nat i)) by lia.
  destruct (lookup_lt_is_Some_2 l (Z.to_nat i)) as [v Hv]; [lia|].
  rewrite (take_S_r _ _ v) by done. f_equal. f_equal.
  symmetry. apply zget_lookup; [lia|done].
Qed.

Section Setup.
Variables (comm_rank NhaloP Nhalo : Z) (sharedNodes : list parallelNode_t).
Hypothesis Nhalo_nonneg : 0 ≤ Nhalo.
Hypothesis newId_in_halo : Forall (λ s, 0 ≤ newId s < Nhalo) sharedNodes.

Let Nshared := zlen sharedNodes.
Let N := Nshared + Nhalo.

(** The rows once [i] descriptors have been read *)
Definition rowsAfter (i : Z) (k : Z) : parallelNode_t :=
  if (0 <=? k) && (k <? Nhalo)
  then setBaseId (rowBase NhaloP (take (Z.to_nat i) sharedNodes) k)
                 (selfNode comm_rank NhaloP k)
  else node0.

Lemma markBaseId_rows i cur :
  0 ≤ i < Nshared → zlen cur = N → (∀ k, nodeAt cur k = rowsAfter i k) →
  ∃ cur', markBaseId NhaloP Nhalo sharedNodes i (Some cur) = Some cur' ∧
          zlen cur' = N ∧ ∀ k, nodeAt cur' k = rowsAfter (i + 1) k.
Proof.
  intros Hi Hlen Hcur. unfold markBaseId. cbn [mbind option_bind].
  set (s := nodeAt sharedNodes i).
  assert (0 ≤ newId s < Nhalo) as Hs.
  { rewrite Forall_forall in newId_in_halo. apply newId_in_halo.
    apply list_elem_of_In, zget_In. done. }
  destruct ((0 <=? newId s) && (newId s <? Nhalo)) eqn:E; [|lia].
  assert (∀ k, rowBase NhaloP (take (Z.to_nat (i + 1)) sharedNodes) k =
    match List.find (λ s, (newId s =? k) && negb (baseId s =? 0))
                    (take (Z.to_nat i) sharedNodes) with
    | Some s' => rowBase NhaloP (take (Z.to_nat i) sharedNodes) k
    | None => if (newId s =? k) && negb (baseId s =? 0)
              then (if k <? NhaloP then Z.abs (baseId s) else - Z.abs (baseId s))
              else 0
    end) as Hrow.
  { intros k. unfold rowBase. rewrite (take_snoc_zget node0) by done. fold s.
    rewrite find_snoc. destruct (List.find _ (take _ _)); [done|].
    cbv beta. destruct ((newId s =? k) && negb (baseId s =? 0)); reflexivity. }
  assert (nodeAt cur (newId s) =
          setBaseId (rowBase NhaloP (take (Z.to_nat i) sharedNodes) (newId s))
                    (selfNode comm_rank NhaloP (newId s))) as Hat.
  { rewrite Hcur. unfold rowsAfter. by rewrite E. }
  assert (∀ v cur', cur' = zset cur (newId s) (setBaseId v (nodeAt cur (newId s))) →
            v = rowBase NhaloP (take (Z.to_nat (i + 1)) sharedNodes) (newId s) →
            zlen cur' = N ∧ ∀ k, nodeAt cur' k = rowsAfter (i + 1) k) as Hset.
  { intros v cur' -> Hv. split; [by rewrite zlen_zset|]. intros k.
    rewrite zget_zset by lia. destruct (decide (k = newId s)) as [->|Hne].
    - unfold rowsAfter. rewrite E, Hat, <- Hv. done.
    - rewrite Hcur. unfold rowsAfter. destruct (_ && _); [|done].
      rewrite Hrow. destruct (List.find _ (take _ _)) eqn:Ef.
      + done.
      + unfold rowBase. rewrite Ef. destruct (newId s =? k) eqn:Ek; [lia|done]. }
  rewrite Hat. cbn [baseId setBaseId].
  destruct (rowBase NhaloP (take (Z.to_nat i) sharedNodes) (newId s) =? 0) eqn:E0.
  - assert (List.find (λ s0, (newId s0 =? newId s) && negb (baseId s0 =? 0))
              (take (Z.to_nat i) sharedNodes) = None) as Hnone.
    { unfold rowBase in E0. destruct (List.find _ _) as [s'|] eqn:Ef; [|done].
      apply find_some in Ef as [_ Ef]. destruct (newId s <? NhaloP); lia. }
    rewrite <- Hat.
    destruct (newId s <? NhaloP) eqn:EP; eexists; (split; [done|]);
      apply (Hset _ _ eq_refl); rewrite Hrow, Hnone, Z.eqb_refl, EP; simpl;
      destruct (baseId s =? 0) eqn:Eb; simpl; lia.
  - exists cur. split; [done|]. split; [done|]. intros k. rewrite Hcur.
    unfold rowsAfter. destruct (_ && _); [|done]. rewrite Hrow.
    destruct (List.find _ (take _ _)) eqn:Ef; [done|].
    destruct (decide (k = newId s)) as [->|Hne].
    + unfold rowBase in E0. rewrite Ef in E0. done.
    + unfold rowBase. rewrite Ef. destruct (newId s =? k) eqn:Ek; [lia|done].
Qed.

(** What the set-up returns: the rows of the halo, each with the group id
    of the first descriptor that gives it one, then the descriptors, the
    whole sorted by local id. *)
Lemma initNodes_rows `{StdSort} :
  initNodes comm_rank NhaloP Nhalo Nshared sharedNodes =
    Some (std_sort ltNewId (haloRows comm_rank NhaloP Nhalo sharedNodes ++ sharedNodes)).
Proof.
  unfold initNodes. fold N.
  assert (0 ≤ Nshared) as HNs by apply zlen_nonneg'.
  destruct (forZ_update node0 (λ n _, selfNode comm_rank NhaloP n) 0 Nhalo
              (repeat node0 (Z.to_nat N))) as [Hlen1 Hget1]; [lia|rewrite zlen_repeat; lia|].
  set (nodes1 := forZ 0 Nhalo _ _) in *.
  rewrite zlen_repeat in Hlen1 by lia.
  assert (∃ nodes2, forZ 0 Nshared (markBaseId NhaloP Nhalo sharedNodes) (Some nodes1)
                      = Some nodes2 ∧ zlen nodes2 = N ∧
                    ∀ k, nodeAt nodes2 k = rowsAfter Nshared k) as (nodes2 & -> & Hlen2 & Hget2).
  { apply (forZ_ind (λ i s, ∃ cur, s = Some cur ∧ zlen cur = N ∧
                                   ∀ k, nodeAt cur k = rowsAfter i k)); [done| |].
    - exists nodes1. split; [done|]. split; [done|]. intros k. rewrite Hget1.
      unfold rowsAfter. destruct (_ && _); [reflexivity|apply zget_repeat].
    - intros i s Hi (cur & -> & Hlen & Hcur). by apply markBaseId_rows. }
  cbn [mbind option_bind]. do 2 f_equal.
  destruct (forZ_update node0 (λ n _, nodeAt sharedNodes (n - Nhalo)) Nhalo N nodes2)
    as [Hlen3 Hget3]; [lia|lia|].
  set (nodes3 := forZ Nhalo N _ _) in *.
  assert (zlen (haloRows comm_rank NhaloP Nhalo sharedNodes) = Nhalo) as HlenR.
  { unfold haloRows, zlen. rewrite length_fmap, length_seqZ. lia. }
  apply (list_eq_zget node0).
  - rewrite zlen_app, HlenR. subst N. fold Nshared. lia.
  - rewrite Hlen3, Hlen2. intros k Hk. rewrite Hget3.
    destruct ((Nhalo <=? k) && (k <? N)) eqn:E.
    + rewrite zget_app_r by lia. by rewrite HlenR.
    + rewrite zget_app_l by lia. rewrite Hget2. unfold rowsAfter.
      destruct ((0 <=? k) && (k <? Nhalo)) eqn:E'; [|lia].
      unfold haloRows. symmetry. apply zget_lookup; [lia|].
      rewrite list_lookup_fmap, lookup_seqZ_lt by lia. simpl.
      rewrite Z2Nat.id by lia. rewrite Z.add_0_l.
      rewrite take_ge; [done|]. unfold Nshared, zlen. lia.
Qed.
End Setup.

(** C8, as amended.  Schedule construction does not validate group ids:
    for every list of descriptors whose local ids are rows of the halo,
    whatever their group ids, the set-up gives each row of the halo the
    group id of the first descriptor that names the row and has a non-zero
    [baseId], signed by ownership: [abs(baseId)] for a row below [NhaloP],
    [-abs(baseId)] for a row at or past [NhaloP], and 0 when no descriptor
    names the row with a non-zero [baseId] (this is [rowBase]); the list is
    these rows and the descriptors, sorted by [newId]; and construction
    returns a schedule. *)
Theorem setup_accepts_any_grouping `{StdSort} comm_rank size gpu Dfloat sharedNodes
    gatherHalo oracle :
  1 ≤ size → 0 ≤ comm_rank < size → 0 ≤ NrowsT gatherHalo →
  Forall (λ s, 0 ≤ newId s < NrowsT gatherHalo) sharedNodes →
  initNodes comm_rank (NrowsN gatherHalo) (NrowsT gatherHalo) (zlen sharedNodes) sharedNodes
    = Some (std_sort ltNewId
              (haloRows comm_rank (NrowsN gatherHalo) (NrowsT gatherHalo) sharedNodes
                 ++ sharedNodes)) ∧
  (∀ n, 0 ≤ n < NrowsT gatherHalo →
     nodeAt (haloRows comm_rank (NrowsN gatherHalo) (NrowsT gatherHalo) sharedNodes) n
     = mkNode 0 n (if n <? NrowsN gatherHalo then 2 else -2)
         (match List.find (λ s, (newId s =? n) && negb (baseId s =? 0)) sharedNodes with
          | Some s => if n <? NrowsN gatherHalo then Z.abs (baseId s) else - Z.abs (baseId s)
          | None => 0
          end)
         comm_rank) ∧
  ∃ x, construct comm_rank size gpu Dfloat (zlen sharedNodes) sharedNodes gatherHalo oracle
         = Some x.
Proof.
  intros Hsize Hrank Hhalo Hids.
  pose proof (initNodes_rows comm_rank (NrowsN gatherHalo) (NrowsT gatherHalo) sharedNodes
                Hhalo Hids) as Hinit.
  split; [exact Hinit|]. split.
  { intros n Hn. apply zget_lookup; [lia|]. unfold haloRows.
    rewrite list_lookup_fmap, lookup_seqZ_lt by lia. simpl.
    rewrite Z.add_0_l, Z2Nat.id by lia. done. }
  destruct (construct_levels comm_rank size gpu Dfloat (zlen sharedNodes) sharedNodes
              gatherHalo oracle _ Hsize Hrank Hinit) as (x & Hx & _).
  by exists x.
Qed.

Lemma setup_accepts_any_grouping_counterexample :
  consistentGroups twoGroups = false ∧
  ∃ x, construct 0 2 false Double 2 twoGroups gatherHalo1 noMessages = Some x ∧
       cr.Nlevels x = 1 ∧ zlen (cr.levelsN x) = 1 ∧ zlen (cr.levelsT x) = 1.
Proof.
  split; [reflexivity|]. eexists. split; [vm_compute; reflexivity|].
  vm_compute. repeat split.
Qed.

Lemma setup_accepts_any_grouping_witness :
  ∃ x, construct 0 2 false Double 2 twoGroups gatherHalo1 noMessages = Some x.
Proof.
  apply (setup_accepts_any_grouping 0 2 false Double twoGroups gatherHalo1 noMessages).
  - lia.
  - lia.
  - vm_compute. discriminate.
  - repeat constructor; vm_compute; discriminate.
Defined.

(** * The buffer manager *)

Lemma size_mul_small a b :
  0 ≤ a → 0 ≤ b → a * b < size_max → size_mul a b = a * b.
Proof.
  intros Ha Hb Hab. unfold size_mul.
  destruct (Z.eq_dec a 0) as [->|]; [by rewrite Z.mod_0_l|].
  destruct (Z.eq_dec b 0) as [->|].
  { rewrite (Z.mod_0_l size_max) by done. rewrite !Z.mul_0_r. done. }
  assert (a < size_max) by nia. assert (b < size_max) by nia.
  rewrite (Z.mod_small a), (Z.mod_small b), Z.mod_small; lia.
Qed.

Lemma zlen_malloc n : 0 ≤ n → zlen (malloc n) = n.
Proof. intros. unfold zlen, malloc. rewrite repeat_length. lia. Qed.

Lemma size_mul_nonneg a b : 0 ≤ size_mul a b.
Proof. unfold size_mul, size_max. lia. Qed.

(** One call: what it leaves of the capacities *)
Lemma AllocBuffer_caps Nbytes x :
  buffersOk x →
  let x' := AllocBuffer Nbytes x in
  buffersOk x' ∧
  capSend x' = Z.max (capSend x) (size_mul (cr.NsendMax x) Nbytes) ∧
  capHalo x' 0 = Z.max (capHalo x 0) (size_mul (cr.NrecvMax x) Nbytes) ∧
  cr.NsendMax x' = cr.NsendMax x ∧ cr.NrecvMax x' = cr.NrecvMax x.
Proof.
  unfold buffersOk, capSend, capHalo, capSendHost, capHaloHost, AllocBuffer.
  destruct x as [? ? ? ? ? ? ? ? NsendMax NrecvMax b]. cbn [cr.buffers cr.NsendMax cr.NrecvMax cr.with_buffers].
  pose proof (size_mul_nonneg NsendMax Nbytes).
  pose proof (size_mul_nonneg NrecvMax Nbytes).
  intros (H1 & H2 & H3 & H4).
  destruct (zlen (o_sendBuf b) <? _) eqn:E1; cbn [o_buf o_sendBuf sendBuf buf];
    destruct (zlen (zget [] (o_buf b) 0) <? _) eqn:E2; cbn [o_buf o_sendBuf sendBuf buf];
    unfold zget; simpl; rewrite ?zlen_malloc by done; unfold zget in *; simpl in *; lia.
Qed.

(** A call that asks for no more than there is changes nothing. *)
Lemma AllocBuffer_enough Nbytes x :
  size_mul (cr.NsendMax x) Nbytes ≤ capSend x →
  size_mul (cr.NrecvMax x) Nbytes ≤ capHalo x 0 →
  AllocBuffer Nbytes x = x.
Proof.
  unfold capSend, capHalo, AllocBuffer. intros H1 H2.
  destruct (zlen (o_sendBuf (cr.buffers x)) <? _) eqn:E1; [lia|].
  destruct (zlen (zget [] (o_buf (cr.buffers x)) 0) <? _) eqn:E2; [lia|].
  by destruct x.
Qed.

Lemma allocAll_caps sizes x :
  buffersOk x →
  let x' := allocAll sizes x in
  buffersOk x' ∧
  capSend x ≤ capSend x' ∧ capHalo x 0 ≤ capHalo x' 0 ∧
  cr.NsendMax x' = cr.NsendMax x ∧ cr.NrecvMax x' = cr.NrecvMax x ∧
  ∀ Nbytes, Nbytes ∈ sizes →
    size_mul (cr.NsendMax x) Nbytes ≤ capSend x' ∧
    size_mul (cr.NrecvMax x) Nbytes ≤ capHalo x' 0.
Proof.
  revert x. induction sizes as [|b sizes IH]; intros x Hok; simpl.
  - split; [done|]. do 4 (split; [lia|]). intros ? H. by apply elem_of_nil in H.
  - destruct (AllocBuffer_caps b x Hok) as (Hok' & Hs & Hh & Hn1 & Hn2).
    destruct (IH _ Hok') as (Hok'' & Hs' & Hh' & Hm1 & Hm2 & Hall).
    rewrite Hn1, Hn2 in *.
    split; [done|]. do 4 (split; [lia|]). intros Nbytes HN.
    apply elem_of_cons in HN as [->|HN]; [lia|]. by apply Hall.
Qed.

Lemma AllocBuffer_keeps_send Nbytes x :
  size_mul (cr.NsendMax x) Nbytes ≤ capSend x →
  sendBuf (cr.buffers (AllocBuffer Nbytes x)) = sendBuf (cr.buffers x) ∧
  o_sendBuf (cr.buffers (AllocBuffer Nbytes x)) = o_sendBuf (cr.buffers x).
Proof.
  unfold capSend, AllocBuffer. intros H1.
  destruct (zlen (o_sendBuf (cr.buffers x)) <? _) eqn:E1; [lia|].
  destruct (zlen (zget [] (o_buf (cr.buffers x)) 0) <? _); by destruct x.
Qed.

Lemma AllocBuffer_keeps_halo Nbytes x :
  size_mul (cr.NrecvMax x) Nbytes ≤ capHalo x 0 →
  let b := cr.buffers x in
  let b' := cr.buffers (AllocBuffer Nbytes x) in
  buf b' = buf b ∧ o_buf b' = o_buf b ∧ haloBuf b' = haloBuf b ∧ recvBuf b' = recvBuf b ∧
  o_haloBuf b' = o_haloBuf b ∧ o_recvBuf b' = o_recvBuf b ∧ buf_id b' = buf_id b.
Proof.
  unfold capHalo, AllocBuffer. intros H1.
  destruct (zlen (o_sendBuf (cr.buffers x)) <? _) eqn:E1; cbn [o_buf];
  destruct (zlen (zget [] (o_buf (cr.buffers x)) 0) <? _) eqn:E2; try lia; by destruct x.
Qed.

(** C7.  Buffer capacities never shrink.  Over any sequence of calls of
    AllocBuffer whose footprints are sizes, the send buffer holds NsendMax
    times every size requested so far, and each half of the halo buffer
    NrecvMax times it; no capacity is below what it was; a call the
    capacity already covers leaves the buffer as it is, contents and
    rotation included, so that asking again for a size asked before (field
    width 1, then 8, then 1) changes nothing at all. *)
Theorem AllocBuffer_never_shrinks (x : cr.t) (sizes : list Z) :
  buffersOk x → 0 ≤ cr.NsendMax x → 0 ≤ cr.NrecvMax x →
  Forall (fitsSize x) sizes →
  let x' := allocAll sizes x in
  (∀ Nbytes, Nbytes ∈ sizes →
     cr.NsendMax x * Nbytes ≤ capSend x' ∧
     cr.NrecvMax x * Nbytes ≤ capHalo x' 0 ∧
     cr.NrecvMax x * Nbytes ≤ capHalo x' 1) ∧
  (capSend x ≤ capSend x' ∧ capHalo x 0 ≤ capHalo x' 0 ∧ capHalo x 1 ≤ capHalo x' 1) ∧
  (∀ Nbytes, fitsSize x Nbytes →
     (cr.NsendMax x * Nbytes ≤ capSend x' →
        sendBuf (cr.buffers (AllocBuffer Nbytes x')) = sendBuf (cr.buffers x') ∧
        o_sendBuf (cr.buffers (AllocBuffer Nbytes x')) = o_sendBuf (cr.buffers x')) ∧
     (cr.NrecvMax x * Nbytes ≤ capHalo x' 0 →
        buf (cr.buffers (AllocBuffer Nbytes x')) = buf (cr.buffers x') ∧
        o_buf (cr.buffers (AllocBuffer Nbytes x')) = o_buf (cr.buffers x') ∧
        haloBuf (cr.buffers (AllocBuffer Nbytes x')) = haloBuf (cr.buffers x') ∧
        buf_id (cr.buffers (AllocBuffer Nbytes x')) = buf_id (cr.buffers x'))) ∧
  (∀ Nbytes, Nbytes ∈ sizes → AllocBuffer Nbytes x' = x').
Proof.
  intros Hok Hs Hr Hfit x'.
  destruct (allocAll_caps sizes x Hok) as (Hok' & Hc1 & Hc2 & Hn1 & Hn2 & Hall).
  fold x' in Hok', Hc1, Hc2, Hn1, Hn2, Hall.
  assert (∀ Nbytes, fitsSize x Nbytes →
            size_mul (cr.NsendMax x) Nbytes = cr.NsendMax x * Nbytes ∧
            size_mul (cr.NrecvMax x) Nbytes = cr.NrecvMax x * Nbytes) as Hmul.
  { intros b (? & ? & ?). split; apply size_mul_small; lia. }
  rewrite Forall_forall in Hfit.
  assert (∀ Nbytes, Nbytes ∈ sizes →
     cr.NsendMax x * Nbytes ≤ capSend x' ∧ cr.NrecvMax x * Nbytes ≤ capHalo x' 0) as Hcov.
  { intros b Hb. destruct (Hmul b) as [<- <-]; [by apply Hfit, list_elem_of_In|by apply Hall]. }
  destruct Hok as (_ & Ho & _). destruct Hok' as (_ & Ho' & _).
  split; [|split; [|split]].
  - intros b Hb. destruct (Hcov b Hb). lia.
  - lia.
  - intros b Hb. destruct (Hmul b Hb) as [E1 E2]. split; intros Hle.
    + apply AllocBuffer_keeps_send. rewrite Hn1. lia.
    + destruct (AllocBuffer_keeps_halo b x') as (? & ? & ? & _ & _ & _ & ?); [rewrite Hn2; lia|done].
  - intros b Hb. destruct (Hcov b Hb). destruct (Hmul b) as [E1 E2]; [by apply Hfit, list_elem_of_In|].
    apply AllocBuffer_enough; rewrite ?Hn1, ?Hn2; lia.
Qed.


Lemma AllocBuffer_never_shrinks_witness :
  capSend (allocAll [4; 32; 4] router0) = 96 ∧
  capHalo (allocAll [4; 32; 4] router0) 0 = 160 ∧
  AllocBuffer 4 (allocAll [4; 32; 4] router0) = allocAll [4; 32; 4] router0.
Proof.
  assert (buffersOk router0) as Hok by (vm_compute; done).
  assert (Forall (fitsSize router0) [4; 32; 4]) as Hfit
    by (repeat constructor; vm_compute; done).
  destruct (AllocBuffer_never_shrinks router0 [4; 32; 4] Hok ltac:(vm_compute; discriminate)
              ltac:(vm_compute; discriminate) Hfit) as (_ & _ & _ & Hsame).
  split; [vm_compute; reflexivity|]. split; [vm_compute; reflexivity|].
  apply Hsame. apply elem_of_cons. by left.
Defined.

(** * The executor *)

Lemma with_buffers_id x : cr.with_buffers (cr.buffers x) x = x.
Proof. by destruct x. Qed.

Lemma gathersOf_app tr1 tr2 : gathersOf (tr1 ++ tr2) = gathersOf tr1 ++ gathersOf tr2.
Proof. apply omap_app. Qed.

Lemma copiesOf_app tr1 tr2 : copiesOf (tr1 ++ tr2) = copiesOf tr1 ++ copiesOf tr2.
Proof. apply omap_app. Qed.

Lemma driven_snoc i levels :
  0 ≤ i → driven (i + 1) levels = driven i levels ++ [zget level0 levels i].
Proof.
  intros Hi. unfold driven.
  replace (Z.to_nat (i + 1)) with (S (Z.to_nat i)) by lia.
  rewrite seq_S, fmap_app. simpl. do 3 f_equal. lia.
Qed.

Lemma driven_all levels : driven (zlen levels) levels = levels.
Proof.
  unfold driven, zlen. rewrite Nat2Z.id.
  apply list_eq. intros i. rewrite list_lookup_fmap.
  destruct (decide (i < length levels)%nat) as [Hi|Hi].
  - rewrite lookup_seq_lt by done. simpl. unfold zget.
    destruct (Z.of_nat i <? 0) eqn:E; [lia|]. rewrite Nat2Z.id.
    destruct (lookup_lt_is_Some_2 levels i Hi) as [lv Hlv]. rewrite Hlv.
    f_equal. by apply nth_lookup_Some with (d := level0) in Hlv.
  - rewrite lookup_seq_ge by lia. rewrite lookup_ge_None_2 by lia. done.
Qed.

Section ExchangeFacts.
Context (Gather : ogsOperator_t → list byte → list byte → Z → Type_ → Op →
                  Transpose → list byte).
Context (extract : Z → Z → Type_ → list Z → list byte → list byte → list byte).
Context (arrives : Z → Z → list byte).

Abbreviation finish := (Finish Gather extract arrives).
Abbreviation finishLv := (finishLevel Gather extract arrives).

Lemma extentIn_eq x trans :
  (if Transpose_eqb trans NoTrans then cr.NhaloP x else cr.Nhalo x) = extentIn x trans.
Proof. by destruct trans. Qed.

Lemma extentOut_eq x trans :
  (if Transpose_eqb trans Trans then cr.NhaloP x else cr.Nhalo x) = extentOut x trans.
Proof. by destruct trans. Qed.

Lemma levelsOf_eq x trans :
  (if Transpose_eqb trans NoTrans then cr.levelsN x else cr.levelsT x) = levelsOf x trans.
Proof. by destruct trans. Qed.

(** What Start stages *)
Lemma Start_trace k type op trans host x x' tr :
  Start k type op trans host x = Some (x', tr) →
  tr = (if staged x host && negb (extentIn x trans =? 0)
        then [EvCopyToHost (size_mul (extentIn x trans) (size_mul k (Sizeof type)))]
        else []) ∧
  cr.with_buffers (cr.buffers x) x' = x.
Proof.
  unfold Start, staged. rewrite extentIn_eq.
  destruct (extentIn x trans =? 0); simpl.
  { intros [= <- <-]. rewrite andb_false_r. by rewrite with_buffers_id. }
  destruct (negb (cr.gpu_aware x) && negb host); simpl.
  - destruct (memcpy _ _ _); simpl; [|done]. intros [= <- <-]. split; [done|]. by destruct x.
  - intros [= <- <-]. by rewrite with_buffers_id.
Qed.

Lemma finishLevel_trace k type op host comm_rank gpu l lv s b' tr' :
  finishLv k type op host comm_rank gpu l lv s = Some (b', tr') →
  ∃ b tr, s = Some (b, tr) ∧
          gathersOf tr' = gathersOf tr ++ [gather lv] ∧
          copiesOf tr' = copiesOf tr.
Proof.
  unfold finishLevel. destruct s as [[b tr]|]; [|done]. cbn [mbind option_bind].
  intros Hf. exists b, tr. split; [done|].
  destruct gpu, host, (Nsend lv =? 0), (0 <? Nmsg lv), (Nmsg lv =? 2);
    cbn [negb andb] in Hf;
    repeat first
      [ progress cbn [mbind option_bind] in Hf
      | match type of Hf with
        | context [memwrite ?a ?b ?c ?d] => destruct (memwrite a b c d)
        end ];
    simplify_eq;
    rewrite ?gathersOf_app, ?copiesOf_app; simpl; rewrite ?app_nil_r; done.
Qed.

Lemma Finish_trace k type op trans host x x' tr :
  finish k type op trans host x = Some (x', tr) →
  gathersOf tr = gather <$> driven (cr.Nlevels x) (levelsOf x trans) ∧
  copiesOf tr =
    (if staged x host && negb (extentOut x trans =? 0)
     then [EvCopyToDevice (size_mul (extentOut x trans) (size_mul k (Sizeof type)))]
     else []).
Proof.
  unfold Finish, staged. rewrite extentIn_eq, extentOut_eq, levelsOf_eq.
  set (tr0 := if negb (extentIn x trans =? 0) && negb (cr.gpu_aware x) && negb host
              then [EvSync] else []).
  set (body := λ l s, finishLv k type op host (cr.rank x) (cr.gpu_aware x) l
                        (zget level0 (levelsOf x trans) l) s).
  assert (∀ b t, forZ 0 (cr.Nlevels x) body (Some (cr.buffers x, tr0)) = Some (b, t) →
            gathersOf t = gather <$> driven (cr.Nlevels x) (levelsOf x trans) ∧
            copiesOf t = []) as Hloop.
  { destruct (Z.le_gt_cases 0 (cr.Nlevels x)) as [Hle|Hgt].
    - apply (forZ_ind (λ i s, ∀ b t, s = Some (b, t) →
                gathersOf t = gather <$> driven i (levelsOf x trans) ∧ copiesOf t = []));
        [done| |].
      + intros b t [= <- <-]. subst tr0. by destruct (_ && _).
      + intros i s Hi IH b t Hs. apply finishLevel_trace in Hs as (b1 & t1 & -> & Hg & Hc).
        destruct (IH b1 t1 eq_refl) as [IHg IHc].
        rewrite Hg, Hc, IHg, driven_snoc, fmap_app by lia. done.
    - rewrite forZ_nil by lia. intros b t [= <- <-]. unfold driven.
      replace (Z.to_nat (cr.Nlevels x)) with 0%nat by lia. subst tr0. by destruct (_ && _). }
  destruct (forZ 0 (cr.Nlevels x) body (Some (cr.buffers x, tr0))) as [[b t]|];
    cbn [mbind option_bind]; [|done].
  destruct (Hloop b t eq_refl) as [Hg Hc].
  destruct (extentOut x trans =? 0); cbn [negb andb].
  { intros [= <- <-]. by rewrite andb_false_r. }
  destruct (negb (cr.gpu_aware x) && negb host); cbn [negb andb].
  - destruct (memcpy _ _ _); cbn [mbind option_bind]; [|done]. intros [= <- <-].
    rewrite gathersOf_app, copiesOf_app, Hg, Hc. simpl. by rewrite app_nil_r.
  - by intros [= <- <-].
Qed.

(** With no level, Finish is its copy back. *)
Lemma Finish_no_levels k type op trans host x :
  cr.Nlevels x = 0 →
  finish k type op trans host x =
    (let b := cr.buffers x in
     let tr := if negb (extentIn x trans =? 0) && negb (cr.gpu_aware x) && negb host
               then [EvSync] else [] in
     if negb (extentOut x trans =? 0) && staged x host then
       d ← memcpy (size_mul (extentOut x trans) (size_mul k (Sizeof type)))
                  (zget [] (buf b) (haloBuf b)) (zget [] (o_buf b) (o_haloBuf b));
       Some (cr.with_buffers
               (mkBuffers (sendBuf b) (o_sendBuf b) (buf b)
                  (setHalf (o_buf b) (o_haloBuf b) d)
                  (haloBuf b) (recvBuf b) (o_haloBuf b) (o_recvBuf b) (buf_id b)) x,
             tr ++ [EvCopyToDevice (size_mul (extentOut x trans) (size_mul k (Sizeof type)));
                    EvSync])
     else Some (x, tr)).
Proof.
  intros H0. unfold Finish, staged. rewrite extentIn_eq, extentOut_eq, H0.
  rewrite forZ_nil by lia. cbn [mbind option_bind]. rewrite with_buffers_id.
  destruct (extentOut x trans =? 0); [done|]. cbn [negb andb].
  by destruct (negb (cr.gpu_aware x) && negb host).
Qed.
End ExchangeFacts.


Lemma size_mul_0_l b : size_mul 0 b = 0.
Proof. unfold size_mul. by rewrite Z.mod_0_l. Qed.

Lemma zlen_nonneg {A} (l : list A) : 0 ≤ zlen l.
Proof. unfold zlen. lia. Qed.

(** An object with nothing to send and nothing to receive never allocates. *)
Lemma allocAll_no_scratch sizes x :
  cr.NsendMax x = 0 → cr.NrecvMax x = 0 → allocAll sizes x = x.
Proof.
  intros Hs Hr. induction sizes as [|b sizes IH]; simpl; [done|].
  rewrite AllocBuffer_enough; [done| |].
  - rewrite Hs, size_mul_0_l. apply zlen_nonneg.
  - rewrite Hr, size_mul_0_l. apply zlen_nonneg.
Qed.

(** The object a single process builds *)
Lemma construct_single `{StdSort} comm_rank gpu Dfloat Nshared sharedNodes gatherHalo oracle x :
  construct comm_rank 1 gpu Dfloat Nshared sharedNodes gatherHalo oracle = Some x →
  x = cr.mk comm_rank 1 gpu (NrowsN gatherHalo) (NrowsT gatherHalo) 0 [] [] 0 0 noBuffers.
Proof.
  unfold construct. change (countLevels 1 comm_rank) with (Some 0).
  cbn [mbind option_bind].
  destruct (initNodes _ _ _ _ _) as [nodes|]; cbn [mbind option_bind]; [|done].
  change (Z.to_nat 1) with 1%nat. unfold buildLevels. cbn [while b_np].
  change (1 <? 1) with false. cbn [mbind option_bind b_Nlevels b_levelsT b_levelsN].
  change (scratchMax 0 []) with (0, 0).
  intros [= <-]. apply (allocAll_no_scratch [_]); done.
Qed.

Section SingleProcess.
Context (Gather : ogsOperator_t → list byte → list byte → Z → Type_ → Op →
                  Transpose → list byte).
Context (extract : Z → Z → Type_ → list Z → list byte → list byte → list byte).
Context (arrives : Z → Z → list byte).

(** With no level and no buffer, an invocation that returns has changed
    nothing. *)
Lemma exchange_no_buffers k type op trans host x x' tr :
  cr.Nlevels x = 0 → cr.buffers x = noBuffers →
  exchange Gather extract arrives k type op trans host x = Some (x', tr) → x' = x.
Proof.
  intros HN Hb. unfold exchange, Start. rewrite extentIn_eq, Hb.
  assert (∀ n, memcpy n [] [] = Some [] ∨ memcpy n [] [] = None) as Hcpy.
  { intros n. unfold memcpy. destruct (_ && _); [left|by right].
    by rewrite take_nil, drop_nil. }
  assert (cr.with_buffers noBuffers x = x) as Hx by (rewrite <- Hb; apply with_buffers_id).
  assert (∀ y t, Finish Gather extract arrives k type op trans host x = Some (y, t) → y = x) as HF.
  { rewrite Finish_no_levels by done. cbn zeta. rewrite Hb.
    destruct (_ && _); [|by intros ?? [= <- _]].
    cbn [buf o_buf haloBuf o_haloBuf noBuffers]. change (zget [] [[]; []] 0) with (@nil byte).
    intros y t. destruct (Hcpy (size_mul (extentOut x trans) (size_mul k (Sizeof type)))) as [-> | ->];
      cbn [mbind option_bind]; [|done].
    by intros [= <- _]. }
  destruct (negb (extentIn x trans =? 0)); cbn [mbind option_bind].
  - destruct (negb (cr.gpu_aware x) && negb host); cbn [mbind option_bind].
    + cbn [buf o_buf haloBuf o_haloBuf noBuffers]. change (zget [] [[]; []] 0) with (@nil byte).
      destruct (Hcpy (size_mul (extentIn x trans) (size_mul k (Sizeof type)))) as [-> | ->];
        cbn [mbind option_bind]; [|done].
      change (mkBuffers _ _ _ _ _ _ _ _ _) with noBuffers. rewrite Hx.
      destruct (Finish _ _ _ _ _ _ _ _ _) as [[y t]|] eqn:E; cbn [mbind option_bind]; [|done].
      intros [= <- _]. by apply (HF y t).
    + destruct (Finish _ _ _ _ _ _ _ _ _) as [[y t]|] eqn:E; cbn [mbind option_bind]; [|done].
      intros [= <- _]. by apply (HF y t).
  - destruct (Finish _ _ _ _ _ _ _ _ _) as [[y t]|] eqn:E; cbn [mbind option_bind]; [|done].
    intros [= <- _]. by apply (HF y t).
Qed.

(** With no level, an invocation that has nothing to stage returns at
    once. *)
Lemma exchange_no_levels k type op trans host x :
  cr.Nlevels x = 0 →
  staged x host = false ∨ (cr.NhaloP x = 0 ∧ cr.Nhalo x = 0) →
  exchange Gather extract arrives k type op trans host x = Some (x, []).
Proof.
  intros HN Hst. unfold exchange, Start. rewrite extentIn_eq.
  assert (staged x host && negb (extentIn x trans =? 0) = false ∧
          negb (extentOut x trans =? 0) && staged x host = false) as [H1 H2].
  { destruct Hst as [->|[HP HH]]; [by rewrite andb_false_r|].
    destruct trans; simpl; rewrite ?HP, ?HH; simpl; by rewrite ?andb_false_r. }
  unfold staged in H1.
  assert ((if negb (extentIn x trans =? 0)
           then if negb (cr.gpu_aware x) && negb host
                then h ← memcpy (size_mul (extentIn x trans) (size_mul k (Sizeof type)))
                            (zget [] (o_buf (cr.buffers x)) (o_haloBuf (cr.buffers x)))
                            (zget [] (buf (cr.buffers x)) (haloBuf (cr.buffers x)));
                     Some (cr.with_buffers
                       (mkBuffers (sendBuf (cr.buffers x)) (o_sendBuf (cr.buffers x))
                          (setHalf (buf (cr.buffers x)) (haloBuf (cr.buffers x)) h)
                          (o_buf (cr.buffers x)) (haloBuf (cr.buffers x))
                          (recvBuf (cr.buffers x)) (o_haloBuf (cr.buffers x))
                          (o_recvBuf (cr.buffers x)) (buf_id (cr.buffers x))) x,
                       [EvCopyToHost (size_mul (extentIn x trans) (size_mul k (Sizeof type)))])
                else Some (x, [])
           else Some (x, [])) = Some (x, [])) as ->.
  { destruct (negb (extentIn x trans =? 0)); [|done].
    destruct (negb (cr.gpu_aware x) && negb host); [done|done]. }
  cbn [mbind option_bind]. rewrite Finish_no_levels by done. cbn zeta. rewrite H2.
  replace (negb (extentIn x trans =? 0) && negb (cr.gpu_aware x) && negb host) with false.
  - done.
  - rewrite <- andb_assoc, andb_comm. by rewrite H1.
Qed.
End SingleProcess.

(** C5.  A single process (NP = 1) builds no level, and a paired
    Start/Finish invocation leaves every halo-buffer value as it was, for
    every field width, element type, operator and direction and after any
    calls of AllocBuffer: an invocation that returns leaves the whole object
    as it found it, and one with nothing to stage does return. *)
Theorem single_process_identity `{StdSort} comm_rank gpu Dfloat Nshared sharedNodes
    gatherHalo oracle x :
  construct comm_rank 1 gpu Dfloat Nshared sharedNodes gatherHalo oracle = Some x →
  cr.Nlevels x = 0 ∧ cr.levelsN x = [] ∧ cr.levelsT x = [] ∧
  ∀ Gather extract arrives sizes k type op trans host,
    let x0 := allocAll sizes x in
    (∀ x' tr, exchange Gather extract arrives k type op trans host x0 = Some (x', tr) →
              x' = x0 ∧ cr.buffers x' = cr.buffers x0) ∧
    (staged x0 host = false ∨ (cr.NhaloP x = 0 ∧ cr.Nhalo x = 0) →
       exchange Gather extract arrives k type op trans host x0 = Some (x0, [])).
Proof.
  intros Hc. apply construct_single in Hc as ->. cbn [cr.Nlevels cr.levelsN cr.levelsT].
  do 3 (split; [done|]). intros ?? ? sizes k type op trans host.
  rewrite allocAll_no_scratch by done. cbn zeta. split.
  - intros x' tr Hx. apply exchange_no_buffers in Hx; [|done|done]. by subst.
  - intros Hst. by apply exchange_no_levels.
Qed.


Lemma single_process_identity_witness :
  ∃ x, construct 0 1 false Double 0 [] gatherHalo0 noMessages = Some x ∧
       cr.Nlevels x = 0 ∧
       exchange gatherKeep extractKeep noArrivals 1 Double Add NoTrans true x = Some (x, []).
Proof.
  destruct (construct 0 1 false Double 0 [] gatherHalo0 noMessages) as [x|] eqn:E;
    [|vm_compute in E; discriminate].
  exists x. split; [reflexivity|].
  destruct (single_process_identity 0 false Double 0 [] gatherHalo0 noMessages x E)
    as (HN & _ & _ & Hx).
  split; [exact HN|].
  destruct (Hx gatherKeep extractKeep noArrivals [] 1 Double Add NoTrans true) as [_ Hret].
  apply Hret. left. apply andb_false_r.
Defined.


(** ** The levels Finish runs *)

Lemma driven_cons n levels :
  0 < n →
  driven n levels = zget level0 levels 0
                    :: ((λ l, zget level0 levels (Z.of_nat l)) <$> seq 1 (Z.to_nat (n - 1))).
Proof.
  intros Hn. unfold driven.
  replace (Z.to_nat n) with (S (Z.to_nat (n - 1))) by lia. done.
Qed.

Lemma memwrite_fits off n data dst :
  0 ≤ off → 0 ≤ n → off + n ≤ zlen dst → n ≤ zlen data →
  ∃ dst', memwrite off n data dst = Some dst' ∧ zlen dst' = zlen dst.
Proof.
  intros Hoff Hn Hdst Hdata. unfold memwrite.
  destruct ((0 <=? off) && (0 <=? n) && (off + n <=? zlen dst) && (n <=? zlen data)) eqn:E;
    [|lia].
  eexists. split; [done|]. unfold zlen in *.
  rewrite !length_app, !length_take, length_drop. lia.
Qed.

Lemma zlen_setHalf (bufs : list (list byte)) h v : zlen (setHalf bufs h v) = zlen bufs.
Proof. apply zlen_zset. Qed.

Lemma zget_setHalf (bufs : list (list byte)) h v j :
  0 ≤ h < zlen bufs → zget [] (setHalf bufs h v) j = if decide (j = h) then v else zget [] bufs j.
Proof. intros Hh. unfold setHalf. by rewrite zget_zset. Qed.

Lemma fitsHalves_get cap bufs h : fitsHalves cap bufs → 0 ≤ h < 2 → cap ≤ zlen (zget [] bufs h).
Proof. intros [_ H] Hh. by apply H. Qed.

Section Selection.
Context (Gather : ogsOperator_t → list byte → list byte → Z → Type_ → Op →
                  Transpose → list byte).
Context (extract : Z → Z → Type_ → list Z → list byte → list byte → list byte).
Context (arrives : Z → Z → list byte).

Abbreviation finishLvs := (finishLevels Gather extract arrives).
Abbreviation finishOne := (finishLevel Gather extract arrives).

Lemma finishLevels_None k type op host comm_rank gpu l lvs :
  finishLvs k type op host comm_rank gpu l lvs None = None.
Proof.
  revert l. induction lvs as [|lv lvs IH]; intros l; [done|].
  cbn [finishLevels]. change (finishOne k type op host comm_rank gpu l lv None) with
    (@None (crBuffers * list event)). apply IH.
Qed.

(** The loop of lines 89-144 goes through the levels in order. *)
Lemma forZ_finishLevels k type op host comm_rank gpu levels (cnt : nat) lo s :
  forZ lo (lo + Z.of_nat cnt)
    (λ l s, finishOne k type op host comm_rank gpu l (zget level0 levels l) s) s
  = finishLvs k type op host comm_rank gpu lo
      ((λ i, zget level0 levels (lo + Z.of_nat i)) <$> seq 0 cnt) s.
Proof.
  revert lo s. induction cnt as [|cnt IH]; intros lo s.
  - by rewrite forZ_nil by lia.
  - rewrite forZ_cons by lia. cbn [seq fmap list_fmap finishLevels].
    replace (lo + Z.of_nat (S cnt)) with (lo + 1 + Z.of_nat cnt) by lia.
    rewrite IH, Z.add_0_r. f_equal. rewrite <- seq_shift, <- list_fmap_compose.
    apply list_fmap_ext. intros _ i _. simpl. f_equal. lia.
Qed.

Lemma forZ_driven k type op host comm_rank gpu levels n s :
  forZ 0 n (λ l s, finishOne k type op host comm_rank gpu l (zget level0 levels l) s) s
  = finishLvs k type op host comm_rank gpu 0 (driven n levels) s.
Proof.
  destruct (Z.le_gt_cases n 0) as [Hn|Hn].
  - rewrite forZ_nil by lia. unfold driven.
    by replace (Z.to_nat n) with 0%nat by lia.
  - replace n with (0 + Z.of_nat (Z.to_nat n)) at 1 by lia.
    rewrite forZ_finishLevels. unfold driven. done.
Qed.

(** The events of a level *)
Lemma finishLevel_events k type op host comm_rank gpu l lv s b' tr' :
  finishOne k type op host comm_rank gpu l lv s = Some (b', tr') →
  ∃ b tr, s = Some (b, tr) ∧ tr' = tr ++ levelEvents k comm_rank gpu lv.
Proof.
  unfold finishLevel, levelEvents. destruct s as [[b tr]|]; [|done].
  cbn [mbind option_bind]. intros Hf. exists b, tr. split; [done|].
  destruct gpu, host, (Nsend lv =? 0), (0 <? Nmsg lv), (Nmsg lv =? 2);
    cbn [negb andb] in Hf |- *;
    repeat first
      [ progress cbn [mbind option_bind] in Hf
      | match type of Hf with
        | context [memwrite ?a ?b ?c ?d] => destruct (memwrite a b c d)
        end ];
    simplify_eq; rewrite <- ?app_assoc; simpl; done.
Qed.

Lemma finishLevels_events k type op host comm_rank gpu lvs l b tr b' tr' :
  finishLvs k type op host comm_rank gpu l lvs (Some (b, tr)) = Some (b', tr') →
  tr' = tr ++ concat (levelEvents k comm_rank gpu <$> lvs).
Proof.
  revert l b tr. induction lvs as [|lv lvs IH]; intros l b tr; cbn [finishLevels].
  - intros [= <- <-]. simpl. by rewrite app_nil_r.
  - destruct (finishOne k type op host comm_rank gpu l lv (Some (b, tr)))
      as [[b1 tr1]|] eqn:E; [|by rewrite finishLevels_None].
    apply finishLevel_events in E as (? & ? & [= <- <-] & ->).
    intros Hr. apply IH in Hr as ->. simpl. by rewrite <- app_assoc.
Qed.

(** A level returns when the buffers hold it and its messages arrive in
    full, and leaves buffers of the same sizes. *)
Lemma finishLevel_total k type op host comm_rank gpu l lv b tr cap :
  (∀ g dst src k' t o tr, zlen (Gather g dst src k' t o tr) = zlen dst) →
  halvesFit cap b → levelBytes (size_mul k (Sizeof type)) lv ≤ cap →
  size_mul (Nrecv0 lv) (size_mul k (Sizeof type)) ≤ zlen (arrives l 0) →
  size_mul (Nrecv1 lv) (size_mul k (Sizeof type)) ≤ zlen (arrives l 1) →
  ∃ b' tr', finishOne k type op host comm_rank gpu l lv (Some (b, tr)) = Some (b', tr') ∧
            halvesFit cap b'.
Proof.
  intros HG (Hb2 & Ho2 & Hcap & Hh & Hoh) Hlv Ha0 Ha1.
  unfold levelBytes in Hlv.
  pose proof (size_mul_nonneg (recvOffset lv) (size_mul k (Sizeof type))) as H0.
  pose proof (size_mul_nonneg (Nrecv0 lv) (size_mul k (Sizeof type))) as H1.
  pose proof (size_mul_nonneg (Nrecv1 lv) (size_mul k (Sizeof type))) as H2.
  assert (Hbuf : fitsHalves cap (buf b))
    by (split; [done|]; intros h Hh'; by apply Hcap).
  assert (Hobuf : fitsHalves cap (o_buf b))
    by (split; [done|]; intros h Hh'; by apply Hcap).
  pose proof (fitsHalves_get _ _ _ Hbuf Hh) as Hc1.
  pose proof (fitsHalves_get _ _ _ Hobuf Hoh) as Hc2.
  assert (Hrot : 0 ≤ (buf_id b + 1) `mod` 2 < 2) by lia.
  unfold finishLevel. cbn [mbind option_bind].
  set (recvAt := size_mul (recvOffset lv) (size_mul k (Sizeof type))) in *.
  set (n0 := size_mul (Nrecv0 lv) (size_mul k (Sizeof type))) in *.
  set (n1 := size_mul (Nrecv1 lv) (size_mul k (Sizeof type))) in *.
  destruct gpu, host, (Nsend lv =? 0), (0 <? Nmsg lv), (Nmsg lv =? 2);
    cbn [negb andb buf o_buf haloBuf o_haloBuf recvBuf o_recvBuf buf_id sendBuf o_sendBuf
         mbind option_bind];
    repeat match goal with
           | |- context [memwrite ?a ?n ?d ?t] =>
               let t' := fresh "t" in
               let L := fresh "L" in
               destruct (memwrite_fits a n d t) as (t' & -> & L);
                 [lia|lia|lia|lia|cbn [mbind option_bind]]
           end;
    (eexists _, _; split; [reflexivity|]);
    (split; [|split; [|split; [|done]]]);
    cbn [buf o_buf haloBuf o_haloBuf];
    rewrite ?zlen_setHalf; try done;
    (intros h Hh'; split);
    repeat first
      [ lia
      | apply Hcap; lia
      | rewrite HG
      | rewrite zget_setHalf by (rewrite ?zlen_setHalf; lia); case_decide ].
Qed.

Lemma finishLevels_total k type op host comm_rank gpu cap lvs l b tr :
  (∀ g dst src k' t o tr, zlen (Gather g dst src k' t o tr) = zlen dst) →
  halvesFit cap b →
  Forall (λ lv, levelBytes (size_mul k (Sizeof type)) lv ≤ cap) lvs →
  (∀ i, 0 ≤ i < zlen lvs →
     size_mul (Nrecv0 (zget level0 lvs i)) (size_mul k (Sizeof type))
       ≤ zlen (arrives (l + i) 0) ∧
     size_mul (Nrecv1 (zget level0 lvs i)) (size_mul k (Sizeof type))
       ≤ zlen (arrives (l + i) 1)) →
  ∃ b' tr', finishLvs k type op host comm_rank gpu l lvs (Some (b, tr)) = Some (b', tr') ∧
            halvesFit cap b'.
Proof.
  intros HG. revert l b tr. induction lvs as [|lv lvs IH]; intros l b tr Hb Hlv Harr.
  - by exists b, tr.
  - apply list.Forall_cons in Hlv as [Hlv Hlvs]. cbn [finishLevels].
    destruct (finishLevel_total k type op host comm_rank gpu l lv b tr cap HG Hb Hlv)
      as (b1 & tr1 & -> & Hb1).
    + destruct (Harr 0) as [? _]; [unfold zlen; simpl; lia|].
      by rewrite Z.add_0_r in *.
    + destruct (Harr 0) as [_ ?]; [unfold zlen; simpl; lia|].
      by rewrite Z.add_0_r in *.
    + apply IH; [done|done|]. intros i Hi.
      specialize (Harr (i + 1)).
      replace (l + (i + 1)) with (l + 1 + i) in Harr by lia.
      replace (zget level0 (lv :: lvs) (i + 1)) with (zget level0 lvs i) in Harr.
      * apply Harr. unfold zlen in *. simpl. lia.
      * unfold zget. destruct (i <? 0) eqn:E1; [lia|]. destruct (i + 1 <? 0) eqn:E2; [lia|].
        replace (Z.to_nat (i + 1)) with (S (Z.to_nat i)) by lia. done.
Qed.
End Selection.

Lemma zlen_driven n levels : zlen (driven n levels) = Z.max 0 n.
Proof. unfold driven, zlen. rewrite length_fmap, length_seq. lia. Qed.

Lemma zget_driven n levels i :
  0 ≤ i < n → zget level0 (driven n levels) i = zget level0 levels i.
Proof.
  intros Hi. apply zget_lookup; [lia|]. unfold driven.
  rewrite list_lookup_fmap, lookup_seq_lt by lia. simpl. do 2 f_equal. lia.
Qed.

Lemma memcpy_fits n src dst :
  n ≤ zlen src → n ≤ zlen dst →
  memcpy n src dst = Some (take (Z.to_nat n) src ++ drop (Z.to_nat n) dst).
Proof. intros Hs Hd. unfold memcpy. destruct ((n <=? zlen src) && (n <=? zlen dst)) eqn:E; [done|lia]. Qed.

Section Direction.
Context (Gather : ogsOperator_t → list byte → list byte → Z → Type_ → Op →
                  Transpose → list byte).
Context (extract : Z → Z → Type_ → list Z → list byte → list byte → list byte).
Context (arrives : Z → Z → list byte).

Lemma Start_stages k type op trans host x :
  stages (extentIn x trans) k type host x (Start k type op trans host x).
Proof.
  unfold stages. cbv zeta. split; [|split].
  - unfold Start, staged. rewrite extentIn_eq. intros [Hs| ->].
    + destruct (negb (extentIn x trans =? 0)); [|done]. by rewrite Hs.
    + done.
  - unfold Start, staged. rewrite extentIn_eq. intros Hs HN Hd Hh.
    destruct (extentIn x trans =? 0) eqn:E; [lia|]. cbn [negb]. rewrite Hs.
    rewrite memcpy_fits by done. done.
  - intros x' tr Hr. by apply Start_trace in Hr as [-> _].
Qed.

Lemma Finish_runs k type op trans host x :
  Finish Gather extract arrives k type op trans host x =
  '(b, tr) ← finishLevels Gather extract arrives k type op host (cr.rank x) (cr.gpu_aware x)
               0 (driven (cr.Nlevels x) (levelsOf x trans))
               (Some (cr.buffers x,
                      if staged x host && negb (extentIn x trans =? 0) then [EvSync] else []));
  if staged x host && negb (extentOut x trans =? 0) then
    d ← memcpy (size_mul (extentOut x trans) (size_mul k (Sizeof type)))
               (zget [] (buf b) (haloBuf b)) (zget [] (o_buf b) (o_haloBuf b));
    Some (cr.with_buffers
            (mkBuffers (sendBuf b) (o_sendBuf b) (buf b)
               (setHalf (o_buf b) (o_haloBuf b) d)
               (haloBuf b) (recvBuf b) (o_haloBuf b) (o_recvBuf b) (buf_id b)) x,
          tr ++ (if staged x host && negb (extentOut x trans =? 0)
                 then [EvCopyToDevice (size_mul (extentOut x trans)
                                         (size_mul k (Sizeof type))); EvSync]
                 else []))
  else Some (cr.with_buffers b x, tr).
Proof.
  unfold Finish, staged. rewrite extentIn_eq, extentOut_eq, levelsOf_eq, forZ_driven.
  assert ((if negb (extentIn x trans =? 0) && negb (cr.gpu_aware x) && negb host
           then [EvSync] else [])
          = (if negb (cr.gpu_aware x) && negb host && negb (extentIn x trans =? 0)
             then [EvSync] else [])) as ->.
  { by destruct (extentIn x trans =? 0), (cr.gpu_aware x), host. }
  destruct (finishLevels _ _ _ _ _ _ _ _ _ _ _ _) as [[b tr]|]; cbn [mbind option_bind];
    [|done].
  destruct (extentOut x trans =? 0), (negb (cr.gpu_aware x) && negb host); done.
Qed.

Lemma Finish_drives k type op trans host x :
  drives Gather extract arrives (levelsOf x trans) (extentIn x trans) (extentOut x trans)
    k type op host x (Finish Gather extract arrives k type op trans host x).
Proof.
  unfold drives. cbv zeta. split; [apply Finish_runs|]. rewrite Finish_runs. split.
  - intros x' tr.
    destruct (finishLevels _ _ _ _ _ _ _ _ _ _ _ _) as [[b t]|] eqn:E;
      cbn [mbind option_bind]; [|done].
    apply finishLevels_events in E as ->.
    destruct (staged x host && negb (extentOut x trans =? 0)).
    + destruct (memcpy _ _ _); cbn [mbind option_bind]; [|done]. intros [= <- <-].
      by rewrite <- app_assoc.
    + intros [= <- <-]. by rewrite app_nil_r.
  - intros cap HG Hfit Hlv Hout Harr.
    destruct (finishLevels_total Gather extract arrives k type op host (cr.rank x)
                (cr.gpu_aware x) cap (driven (cr.Nlevels x) (levelsOf x trans)) 0
                (cr.buffers x)
                (if staged x host && negb (extentIn x trans =? 0) then [EvSync] else [])
                HG Hfit Hlv) as (b & t & -> & Hb).
    { intros i Hi. rewrite zlen_driven in Hi. rewrite zget_driven, Z.add_0_l by lia.
      apply Harr. lia. }
    cbn [mbind option_bind].
    destruct (staged x host && negb (extentOut x trans =? 0)); [|by eexists _, _].
    destruct Hb as (_ & _ & Hcap & Hh & Hoh).
    destruct (Hcap (haloBuf b) Hh) as [Hc1 _]. destruct (Hcap (o_haloBuf b) Hoh) as [_ Hc2].
    rewrite memcpy_fits by lia. cbn [mbind option_bind]. by eexists _, _.
Qed.

(** C6.  Direction selects both the schedule and the halo extents.
    [Start] stages the first NhaloP rows in the forward direction and the
    first Nhalo rows in the transposed one: when the invocation goes
    through the host and the halo buffers hold them, it copies these rows
    of the device halo buffer to the host halo buffer and returns, and
    otherwise it does nothing.  [Finish] runs the levels of levelsN in the
    forward direction and those of levelsT in the transposed one: its
    result is that of the levels of this schedule, taken in order, and
    its events are theirs, that is the receives from [partner] and
    [rank-1] of [k*Nrecv0] and [k*Nrecv1] values, the extraction of the
    [Nsend] rows [sendIds], the send, the wait for [Nmsg+1] requests and
    the operator [gather], all read from the level of the schedule
    selected; after the last level it copies back the opposite extent,
    Nhalo rows in the forward direction and NhaloP rows in the transposed
    one; and it returns when the halves of the halo buffer hold every
    level of the schedule selected and the messages arrive in full. *)
Theorem direction_selects k type op host x :
  stages (cr.NhaloP x) k type host x (Start k type op NoTrans host x) ∧
  stages (cr.Nhalo x) k type host x (Start k type op Trans host x) ∧
  drives Gather extract arrives (cr.levelsN x) (cr.NhaloP x) (cr.Nhalo x)
    k type op host x (Finish Gather extract arrives k type op NoTrans host x) ∧
  drives Gather extract arrives (cr.levelsT x) (cr.Nhalo x) (cr.NhaloP x)
    k type op host x (Finish Gather extract arrives k type op Trans host x).
Proof.
  split; [|split; [|split]].
  - apply (Start_stages k type op NoTrans).
  - apply (Start_stages k type op Trans).
  - apply (Finish_drives k type op NoTrans).
  - apply (Finish_drives k type op Trans).
Qed.
End Direction.

Ltac by_compute := vm_compute; repeat split; first [reflexivity | discriminate].

Lemma direction_selects_witness :
  let x := allocAll [8] router2 in
  (∃ x', Start 1 Double Add NoTrans false x = Some (x', [EvCopyToHost 8])) ∧
  (∃ x', Start 1 Double Add Trans false x = Some (x', [EvCopyToHost 16])) ∧
  (∃ x', Finish gatherKeep extractKeep fullArrivals 1 Double Add NoTrans false x
         = Some (x', [EvSync; EvIrecv 0 0 1; EvExtract 1 [0]; EvIsend 0 1 1; EvWaitall 2;
                      EvGather gatherFwd; EvCopyToDevice 16; EvSync])) ∧
  (∃ x', Finish gatherKeep extractKeep fullArrivals 1 Double Add Trans false x
         = Some (x', [EvSync; EvIrecv 0 0 2; EvExtract 2 [0; 1]; EvIsend 0 1 2; EvWaitall 2;
                      EvGather gatherTrn; EvCopyToDevice 8; EvSync])).
Proof.
  intros x.
  destruct (direction_selects gatherKeep extractKeep fullArrivals 1 Double Add false x)
    as ((_ & HS1 & _) & (_ & HS2 & _) & (_ & HT1 & HR1) & (_ & HT2 & HR2)).
  assert (Hfit : halvesFit 32 (cr.buffers x)).
  { split; [reflexivity|]. split; [reflexivity|]. split; [|split; by_compute].
    intros h Hh. assert (h = 0 ∨ h = 1) as [-> | ->] by lia; by_compute. }
  split; [|split; [|split]].
  - eexists. apply HS1; [reflexivity|by_compute|by_compute..].
  - eexists. apply HS2; [reflexivity|by_compute|by_compute..].
  - destruct (HR1 32) as (x' & tr & E); [done|exact Hfit| | |..].
    + repeat constructor; by_compute.
    + by_compute.
    + intros l Hl. assert (l = 0) as -> by (change (cr.Nlevels x) with 1 in Hl; lia).
      by_compute.
    + exists x'. rewrite E. f_equal. f_equal. apply HT1 in E. rewrite E. reflexivity.
  - destruct (HR2 32) as (x' & tr & E); [done|exact Hfit| | |..].
    + repeat constructor; by_compute.
    + by_compute.
    + intros l Hl. assert (l = 0) as -> by (change (cr.Nlevels x) with 1 in Hl; lia).
      by_compute.
    + exists x'. rewrite E. f_equal. f_equal. apply HT2 in E. rewrite E. reflexivity.
Defined.

(** * Groups of descriptors *)


Lemma findPositive_spec nodes a b :
  a ≤ b →
  match findPositive nodes a b with
  | Some s => 0 < s ∧ ∃ i, a ≤ i < b ∧ sign (nodeAt nodes i) = s ∧
                            ∀ j, a ≤ j < i → sign (nodeAt nodes j) ≤ 0
  | None => ∀ i, a ≤ i < b → sign (nodeAt nodes i) ≤ 0
  end.
Proof.
  intros Hab. unfold findPositive.
  apply (forZ_ind (λ n found,
    match found with
    | Some s => 0 < s ∧ ∃ i, a ≤ i < n ∧ sign (nodeAt nodes i) = s ∧
                              ∀ j, a ≤ j < i → sign (nodeAt nodes j) ≤ 0
    | None => ∀ i, a ≤ i < n → sign (nodeAt nodes i) ≤ 0
    end)); [done|intros; lia|].
  intros n [s|] Hn IH.
  - destruct IH as (Hs & i & Hi & Hsi & Hlt). split; [done|]. exists i. split; [lia|done].
  - destruct (0 <? sign (nodeAt nodes n)) eqn:E.
    + split; [lia|]. exists n. split; [lia|]. split; [done|]. intros j Hj. apply IH. lia.
    + intros i Hi. destruct (Z.eq_dec i n) as [->|]; [lia|]. apply IH. lia.
Qed.

Lemma findPositive_ext nodes nodes' a b :
  (∀ i, a ≤ i < b → sign (nodeAt nodes i) = sign (nodeAt nodes' i)) →
  findPositive nodes a b = findPositive nodes' a b.
Proof.
  intros H. unfold findPositive. apply forZ_ext. intros i [s|] Hi; [done|]. by rewrite H.
Qed.

(** A group all of whose signs are one positive sign *)
Lemma findPositive_const nodes a b s :
  a < b → 0 < s → (∀ i, a ≤ i < b → sign (nodeAt nodes i) = s) →
  findPositive nodes a b = Some s.
Proof.
  intros Hab Hs Hall. pose proof (findPositive_spec nodes a b ltac:(lia)) as Hf.
  destruct (findPositive nodes a b) as [s'|].
  - destruct Hf as (_ & i & Hi & <- & _). f_equal. by apply Hall.
  - specialize (Hf a ltac:(lia)). rewrite Hall in Hf by lia. lia.
Qed.

Lemma propagateGroup_spec nodes a b :
  0 ≤ a → b ≤ zlen nodes →
  zlen (propagateGroup a b nodes) = zlen nodes ∧
  ∀ k, nodeAt (propagateGroup a b nodes) k =
       if (a <=? k) && (k <? b) then resolved nodes a b k else nodeAt nodes k.
Proof.
  intros Ha Hb. unfold propagateGroup, resolved.
  destruct (findPositive nodes a b) as [s|].
  - apply (forZ_update node0 (λ _, setSign s)); done.
  - split; [done|]. intros k. by destruct (_ && _).
Qed.

Lemma groupEnd_ext nodes nodes' N n :
  (∀ k, absBase (nodeAt nodes k) = absBase (nodeAt nodes' k)) →
  groupEnd nodes N n = groupEnd nodes' N n.
Proof. intros H. unfold groupEnd. by rewrite !H. Qed.

Lemma isGroup_ext nodes nodes' N a b :
  (∀ k, absBase (nodeAt nodes k) = absBase (nodeAt nodes' k)) →
  isGroup nodes N a b → isGroup nodes' N a b.
Proof.
  intros H (H1 & H2 & H3 & H4 & H5).
  split; [done|]. split; [done|].
  rewrite <- !(groupEnd_ext nodes nodes') by done. split; [done|]. split; [done|].
  intros k Hk. rewrite <- (groupEnd_ext nodes nodes') by done. by apply H5.
Qed.

(** Two groups that share an index are one group. *)
Lemma isGroup_unique nodes N a b a' b' k :
  isGroup nodes N a b → isGroup nodes N a' b' → a ≤ k < b → a' ≤ k < b' →
  a = a' ∧ b = b'.
Proof.
  intros (H1 & H2 & H3 & H4 & H5) (H1' & H2' & H3' & H4' & H5') Hk Hk'.
  assert (b = b') as <-.
  { destruct (Z.lt_trichotomy b b') as [Hlt|[->|Hgt]]; [|done|].
    - rewrite H5' in H4 by lia. done.
    - rewrite H5 in H4' by lia. done. }
  split; [|done].
  destruct (Z.lt_trichotomy a a') as [Hlt|[->|Hgt]]; [|done|].
  - destruct H3' as [->|H3']; [lia|]. rewrite H5 in H3' by lia. done.
  - destruct H3 as [->|H3]; [lia|]. rewrite H5' in H3 by lia. done.
Qed.

(** Every index is in a group. *)
Lemma isGroup_exists nodes N k :
  0 ≤ k < N → ∃ a b, isGroup nodes N a b ∧ a ≤ k < b.
Proof.
  intros Hk.
  assert (∃ a, 0 ≤ a ≤ k ∧ (a = 0 ∨ groupEnd nodes N (a - 1) = true) ∧
               ∀ j, a ≤ j < k → groupEnd nodes N j = false) as (a & Ha & Ha0 & Hain).
  { assert (∀ n : nat, Z.of_nat n ≤ k →
        ∃ a, 0 ≤ a ≤ Z.of_nat n ∧ (a = 0 ∨ groupEnd nodes N (a - 1) = true) ∧
             ∀ j, a ≤ j < Z.of_nat n → groupEnd nodes N j = false) as Hind.
    { induction n as [|n IH]; intros Hn.
      - exists 0. split; [lia|]. split; [by left|]. intros; lia.
      - destruct (groupEnd nodes N (Z.of_nat n)) eqn:E.
        + exists (Z.of_nat (S n)). split; [lia|]. split; [|intros; lia].
          right. by replace (Z.of_nat (S n) - 1) with (Z.of_nat n) by lia.
        + destruct IH as (a & Ha & Ha0 & Hain); [lia|]. exists a.
          split; [lia|]. split; [done|]. intros j Hj.
          destruct (Z.eq_dec j (Z.of_nat n)) as [->|]; [done|]. apply Hain. lia. }
    destruct (Hind (Z.to_nat k)) as (a & Ha & Ha0 & Hain); [lia|].
    rewrite Z2Nat.id in * by lia. eauto. }
  assert (∃ b, k < b ≤ N ∧ groupEnd nodes N (b - 1) = true ∧
               ∀ j, k ≤ j < b - 1 → groupEnd nodes N j = false) as (b & Hb & Hb0 & Hbin).
  { assert (∀ n : nat, k + Z.of_nat n = N - 1 →
        ∃ b, k < b ≤ N ∧ groupEnd nodes N (b - 1) = true ∧
             ∀ j, k ≤ j < b - 1 → groupEnd nodes N j = false) as Hind.
    { clear a Ha Ha0 Hain. revert k Hk. intros k0 Hk0 n. revert k0 Hk0.
      induction n as [|n IH]; intros k Hk Hn.
      - exists N. split; [lia|]. split; [|intros; lia].
        unfold groupEnd. by rewrite Z.eqb_refl.
      - destruct (groupEnd nodes N k) eqn:E.
        + exists (k + 1). split; [lia|]. split; [|intros; lia].
          by replace (k + 1 - 1) with k by lia.
        + destruct (IH (k + 1)) as (b & Hb & Hb0 & Hbin); [lia|lia|].
          exists b. split; [lia|]. split; [done|]. intros j Hj.
          destruct (Z.eq_dec j k) as [->|]; [done|]. apply Hbin. lia. }
    apply (Hind (Z.to_nat (N - 1 - k))). lia. }
  exists a, b. split; [|lia].
  split; [lia|]. split; [lia|]. split; [done|]. split; [done|].
  intros j Hj. destruct (Z_lt_le_dec j k); [apply Hain|apply Hbin]; lia.
Qed.

(** Inside a group, every descriptor has the [abs(baseId)] of the first. *)
Lemma isGroup_absBase nodes N a b k :
  isGroup nodes N a b → a ≤ k < b → absBase (nodeAt nodes k) = absBase (nodeAt nodes a).
Proof.
  intros (H1 & H2 & H3 & H4 & H5) Hk.
  assert (∀ n : nat, a + Z.of_nat n < b →
            absBase (nodeAt nodes (a + Z.of_nat n)) = absBase (nodeAt nodes a)) as Hind.
  { induction n as [|n IH]; intros Hn.
    - by rewrite Z.add_0_r.
    - rewrite <- IH by lia. specialize (H5 (a + Z.of_nat n) ltac:(lia)).
      unfold groupEnd in H5. apply orb_false_elim in H5 as [_ H5].
      apply negb_false_iff, Z.eqb_eq in H5.
      replace (a + Z.of_nat (S n)) with (a + Z.of_nat n + 1) by lia. done. }
  specialize (Hind (Z.to_nat (k - a))). rewrite Z2Nat.id in Hind by lia.
  replace (a + (k - a)) with k in Hind by lia. apply Hind. lia.
Qed.

(** * Sign propagation *)

Lemma sameButSign_refl a : sameButSign a a.
Proof. done. Qed.

Lemma sameButSign_setSign s a b : sameButSign a b → sameButSign (setSign s a) b.
Proof. by intros (? & ? & ? & ?). Qed.

Lemma resolved_sameButSign nodes a b k : sameButSign (resolved nodes a b k) (nodeAt nodes k).
Proof. unfold resolved. by destruct (findPositive nodes a b). Qed.

(** The pass, group by group *)
Lemma propagateSign_groups nodes :
  let N := zlen nodes in
  let out := propagateSign N nodes in
  zlen out = N ∧
  (∀ k, sameButSign (nodeAt out k) (nodeAt nodes k)) ∧
  ∀ a b k, isGroup nodes N a b → a ≤ k < b → nodeAt out k = resolved nodes a b k.
Proof.
  intros N out. subst out. unfold propagateSign.
  set (body := λ n '(start, cur),
         if groupEnd cur N n then (n + 1, propagateGroup start (n + 1) cur)
         else (start, cur)).
  set (Inv := λ (n : Z) (st : Z * list parallelNode_t),
    0 ≤ fst st ≤ n ∧ zlen (snd st) = N ∧
    (fst st = 0 ∨ groupEnd nodes N (fst st - 1) = true) ∧
    (∀ k, fst st ≤ k < n → groupEnd nodes N k = false) ∧
    (∀ k, sameButSign (nodeAt (snd st) k) (nodeAt nodes k)) ∧
    (∀ k, fst st ≤ k → nodeAt (snd st) k = nodeAt nodes k) ∧
    (∀ a b k, isGroup nodes N a b → b ≤ fst st → a ≤ k < b →
              nodeAt (snd st) k = resolved nodes a b k)).
  assert (Inv N (forZ 0 N body (0, nodes))) as HInv.
  { apply forZ_ind; [apply zlen_nonneg'| |].
    - unfold Inv. simpl. split; [lia|]. split; [done|]. split; [by left|].
      split; [intros; lia|]. split; [done|]. split; [done|].
      intros a b k (? & _) ? ?. lia.
    - intros n [start cur] Hn (Hs & Hlen & Hs0 & Hin & Hsame & Hrest & Hdone).
      simpl in *. unfold body.
      assert (groupEnd cur N n = groupEnd nodes N n) as ->.
      { apply groupEnd_ext. intros k. destruct (Hsame k) as (_ & _ & Hb & _).
        unfold absBase. by rewrite Hb. }
      destruct (groupEnd nodes N n) eqn:E.
      + destruct (propagateGroup_spec cur start (n + 1)) as [Hlen' Hget]; [lia|lia|].
        assert (isGroup nodes N start (n + 1)) as Hg.
        { split; [lia|]. split; [lia|]. split; [done|].
          replace (n + 1 - 1) with n by lia. split; [done|]. intros k Hk. apply Hin. lia. }
        assert (findPositive cur start (n + 1) = findPositive nodes start (n + 1)) as Hfp.
        { apply findPositive_ext. intros i Hi. rewrite Hrest by lia. done. }
        assert (∀ k, start ≤ k < n + 1 → resolved cur start (n + 1) k = resolved nodes start (n + 1) k)
          as Hres.
        { intros k Hk. unfold resolved. rewrite Hfp, Hrest by lia. done. }
        unfold Inv. simpl. split; [lia|]. split; [lia|].
        replace (n + 1 - 1) with n by lia. split; [by right|].
        split; [intros; lia|]. split; [|split].
        * intros k. rewrite Hget. destruct (_ && _) eqn:Ek; [|done].
          rewrite Hres by lia. apply resolved_sameButSign.
        * intros k Hk. rewrite Hget. destruct (_ && _) eqn:Ek; [lia|]. apply Hrest. lia.
        * intros a b k Hab Hb Hk. rewrite Hget.
          destruct (Z_le_gt_dec b start) as [Hle|Hgt].
          { destruct (_ && _) eqn:Ek; [lia|]. by apply Hdone. }
          assert (start ≤ b - 1 < n + 1) as Hb1 by lia.
          destruct (isGroup_unique nodes N a b start (n + 1) (b - 1)) as [-> ->];
            [done|done|destruct Hab; lia|lia|].
          destruct (_ && _) eqn:Ek; [|lia]. apply Hres. lia.
      + unfold Inv. simpl. split; [lia|]. split; [done|]. split; [done|].
        split; [|split; [done|split; [done|]]].
        * intros k Hk. destruct (Z.eq_dec k n) as [->|]; [done|]. apply Hin. lia.
        * done. }
  destruct (forZ 0 N body (0, nodes)) as [start out] eqn:Eout.
  destruct HInv as (Hs & Hlen & Hs0 & Hin & Hsame & Hrest & Hdone). simpl in *.
  split; [done|]. split; [done|].
  intros a b k Hab Hk. apply Hdone; [done| |done].
  destruct (Z_le_gt_dec b start) as [|Hgt]; [done|].
  destruct Hab as (? & ? & _ & He & _). rewrite Hin in He by lia. done.
Qed.

Lemma sign_setSign s a : sign (setSign s a) = s.
Proof. done. Qed.

Lemma setSign_setSign s a : setSign s (setSign s a) = setSign s a.
Proof. done. Qed.

(** Running the pass again changes nothing. *)
Lemma propagateSign_idempotent nodes :
  let N := zlen nodes in
  propagateSign N (propagateSign N nodes) = propagateSign N nodes.
Proof.
  intros N.
  destruct (propagateSign_groups nodes) as (Hlen & Hsame & Hres). fold N in Hlen, Hsame, Hres.
  set (out := propagateSign N nodes) in *.
  destruct (propagateSign_groups out) as (Hlen2 & _ & Hres2). rewrite Hlen in Hlen2, Hres2.
  apply (list_eq_zget node0); [by rewrite Hlen2|].
  rewrite Hlen2. intros k Hk.
  destruct (isGroup_exists nodes N k Hk) as (a & b & Hg & Hab).
  assert (isGroup out N a b) as Hg'.
  { eapply isGroup_ext; [|exact Hg]. intros j. destruct (Hsame j) as (_ & _ & Hb & _).
    unfold absBase. by rewrite Hb. }
  rewrite (Hres2 a b k Hg' Hab). unfold resolved at 1.
  destruct (findPositive nodes a b) as [s|] eqn:E.
  - pose proof (findPositive_spec nodes a b ltac:(lia)) as Hf. rewrite E in Hf.
    destruct Hf as (Hs & _).
    assert (∀ i, a ≤ i < b → nodeAt out i = setSign s (nodeAt nodes i)) as Hout.
    { intros i Hi. rewrite (Hres a b i Hg Hi). unfold resolved. by rewrite E. }
    rewrite (findPositive_const out a b s); [|lia|done|].
    + rewrite Hout by done. done.
    + intros i Hi. by rewrite Hout.
  - assert (∀ i, a ≤ i < b → nodeAt out i = nodeAt nodes i) as Hout.
    { intros i Hi. rewrite (Hres a b i Hg Hi). unfold resolved. by rewrite E. }
    rewrite (findPositive_ext out nodes a b), E; [done|].
    intros i Hi. by rewrite Hout.
Qed.

(** In an array grouped by [abs(baseId)], the descriptors of one
    [abs(baseId)] are the descriptors of one group. *)
Lemma grouped_same_group nodes a b i j :
  groupedByBase nodes → isGroup nodes (zlen nodes) a b → a ≤ i < b →
  0 ≤ j < zlen nodes → absBase (nodeAt nodes j) = absBase (nodeAt nodes i) →
  a ≤ j < b.
Proof.
  intros Hgr (H1 & H2 & H3 & H4 & H5) Hi Hj Heq.
  destruct (Z_lt_le_dec j a) as [Hlt|Hge].
  - exfalso. destruct H3 as [->|H3]; [lia|].
    unfold groupEnd in H3. apply orb_true_iff in H3 as [H3|H3]; [lia|].
    apply negb_true_iff, Z.eqb_neq in H3. apply H3.
    replace (a - 1 + 1) with a by lia.
    rewrite (Hgr j i (a - 1)), (Hgr j i a); done || lia.
  - destruct (Z_lt_le_dec j b) as [|Hge']; [lia|]. exfalso.
    unfold groupEnd in H4. apply orb_true_iff in H4 as [H4|H4]; [lia|].
    apply negb_true_iff, Z.eqb_neq in H4. apply H4.
    replace (b - 1 + 1) with b by lia.
    rewrite (Hgr i j (b - 1)), (Hgr i j b); done || lia.
Qed.

(** C4.  After the sign-propagation pass, in every group of descriptors
    that share one abs(baseId): if a member carried a positive sign before
    the pass, every member carries one positive sign of the group after it;
    if none did, the members are unchanged.  The pass changes the signs
    only, and running it again on its own output changes nothing. *)
Theorem sign_propagation (nodes : list parallelNode_t) :
  groupedByBase nodes →
  let N := zlen nodes in
  let out := propagateSign N nodes in
  zlen out = N ∧
  (∀ k, sameButSign (nodeAt out k) (nodeAt nodes k)) ∧
  (∀ i j, 0 ≤ i < N → 0 ≤ j < N →
     absBase (nodeAt nodes j) = absBase (nodeAt nodes i) → 0 < sign (nodeAt nodes j) →
     ∃ s j', 0 < s ∧ 0 ≤ j' < N ∧
             absBase (nodeAt nodes j') = absBase (nodeAt nodes i) ∧
             sign (nodeAt nodes j') = s ∧
             ∀ k, 0 ≤ k < N → absBase (nodeAt nodes k) = absBase (nodeAt nodes i) →
                  sign (nodeAt out k) = s) ∧
  (∀ i, 0 ≤ i < N →
     (∀ j, 0 ≤ j < N → absBase (nodeAt nodes j) = absBase (nodeAt nodes i) →
           sign (nodeAt nodes j) ≤ 0) →
     nodeAt out i = nodeAt nodes i) ∧
  propagateSign N out = out.
Proof.
  intros Hgr N out.
  destruct (propagateSign_groups nodes) as (Hlen & Hsame & Hres).
  fold N in Hlen, Hsame, Hres. fold out in Hlen, Hsame, Hres.
  split; [done|]. split; [done|]. split; [|split].
  - intros i j Hi Hj Heq Hpos.
    destruct (isGroup_exists nodes N i Hi) as (a & b & Hg & Hab).
    pose proof (grouped_same_group nodes a b i j Hgr Hg Hab Hj Heq) as Hjab.
    pose proof (findPositive_spec nodes a b ltac:(lia)) as Hf.
    destruct (findPositive nodes a b) as [s|] eqn:E.
    + destruct Hf as (Hs & j' & Hj' & Hsj & _). exists s, j'.
      split; [done|]. split; [destruct Hg; lia|]. split; [|split; [done|]].
      * rewrite (isGroup_absBase nodes N a b j'), (isGroup_absBase nodes N a b i); done.
      * intros k Hk Hkeq.
        pose proof (grouped_same_group nodes a b i k Hgr Hg Hab Hk Hkeq) as Hkab.
        rewrite (Hres a b k Hg Hkab). unfold resolved. by rewrite E.
    + specialize (Hf j Hjab). lia.
  - intros i Hi Hnone.
    destruct (isGroup_exists nodes N i Hi) as (a & b & Hg & Hab).
    rewrite (Hres a b i Hg Hab). unfold resolved.
    pose proof (findPositive_spec nodes a b ltac:(lia)) as Hf.
    destruct (findPositive nodes a b) as [s|] eqn:E; [|done].
    destruct Hf as (Hs & j' & Hj' & Hsj & _). exfalso.
    assert (sign (nodeAt nodes j') ≤ 0); [|lia].
    apply Hnone; [destruct Hg; lia|].
    rewrite (isGroup_absBase nodes N a b j'), (isGroup_absBase nodes N a b i); done.
  - apply propagateSign_idempotent.
Qed.


Lemma sign_propagation_witness :
  sign <$> propagateSign 4 nodes4 = [2; 2; -2; -2] ∧
  propagateSign 4 (propagateSign 4 nodes4) = propagateSign 4 nodes4.
Proof.
  assert (groupedByBase nodes4) as Hgr.
  { intros i j k Hi Hj.
    assert (i = 0 ∨ i = 1 ∨ i = 2 ∨ i = 3) as Hi' by (change (zlen nodes4) with 4 in Hj; lia).
    assert (j = 0 ∨ j = 1 ∨ j = 2 ∨ j = 3) as Hj' by (change (zlen nodes4) with 4 in Hj; lia).
    assert (k = 0 ∨ k = 1 ∨ k = 2 ∨ k = 3) as Hk' by (change (zlen nodes4) with 4 in Hj; lia).
    destruct Hi' as [-> | [-> | [-> | ->]]], Hj' as [-> | [-> | [-> | ->]]], Hk' as [-> | [-> | [-> | ->]]];
      vm_compute; intros; congruence || lia. }
  split; [vm_compute; reflexivity|].
  apply (sign_propagation nodes4 Hgr).
Defined.

(** * What a round sends *)

Lemma countLoHi_splitLoHi r_half N nodes :
  0 ≤ N →
  zlen (fst (splitLoHi r_half N nodes)) = fst (countLoHi r_half N nodes) ∧
  zlen (snd (splitLoHi r_half N nodes)) = snd (countLoHi r_half N nodes) ∧
  fst (countLoHi r_half N nodes) + snd (countLoHi r_half N nodes) = N ∧
  (∀ a, a ∈ fst (splitLoHi r_half N nodes) ∨ a ∈ snd (splitLoHi r_half N nodes) →
        ∃ n, 0 ≤ n < N ∧ a = nodeAt nodes n).
Proof.
  intros HN. unfold splitLoHi, countLoHi.
  set (bodyC := λ n '(Nlo, Nhi),
         if rank (nodeAt nodes n) <? r_half then (Nlo + 1, Nhi) else (Nlo, Nhi + 1)).
  apply (forZ_ind (λ i s,
    zlen (fst s) = fst (forZ 0 i bodyC (0, 0)) ∧
    zlen (snd s) = snd (forZ 0 i bodyC (0, 0)) ∧
    fst (forZ 0 i bodyC (0, 0)) + snd (forZ 0 i bodyC (0, 0)) = i ∧
    (∀ a, a ∈ fst s ∨ a ∈ snd s → ∃ n, 0 ≤ n < i ∧ a = nodeAt nodes n))); [done| |].
  - rewrite forZ_nil by lia. simpl. repeat split; try done.
    intros a [Ha|Ha]; by apply elem_of_nil in Ha.
  - intros i [lo hi] Hi (H1 & H2 & H3 & H4). rewrite forZ_snoc by lia.
    destruct (forZ 0 i bodyC (0, 0)) as [Nlo Nhi]. simpl in *. unfold bodyC.
    destruct (rank (nodeAt nodes i) <? r_half); simpl; rewrite ?zlen_app;
      (split; [unfold zlen in *; simpl; lia|]); (split; [unfold zlen in *; simpl; lia|]);
      (split; [lia|]); intros a Ha; rewrite ?elem_of_app, ?list_elem_of_singleton in Ha;
      (assert (a = nodeAt nodes i ∨ (a ∈ lo ∨ a ∈ hi)) as [->|Ha'] by tauto;
       [exists i; split; [lia|done]|destruct (H4 a Ha') as (n & ? & ?); exists n; split; [lia|done]]).
Qed.

Lemma countEntriesSend_le Nsend_ sendNodes :
  0 ≤ fst (countEntriesSend Nsend_ sendNodes) ≤ snd (countEntriesSend Nsend_ sendNodes).
Proof.
  unfold countEntriesSend.
  destruct (Z.le_gt_cases 0 Nsend_).
  - apply (forZ_ind (λ _ s, 0 ≤ fst s ≤ snd s)); [done|simpl; lia|].
    intros i [a b] _ Hab. simpl in *.
    destruct (groupStart sendNodes 0 i); [|done].
    destruct (0 <? sign (nodeAt sendNodes i)); simpl; lia.
  - rewrite forZ_nil by lia. simpl. lia.
Qed.

Lemma fillSendIds_wiped Nsend_ sendNodes :
  0 ≤ Nsend_ ≤ zlen sendNodes →
  zlen (snd (fillSendIds Nsend_ sendNodes)) = zlen sendNodes ∧
  ∀ k, nodeAt (snd (fillSendIds Nsend_ sendNodes)) k =
       if (0 <=? k) && (k <? Nsend_) then setNewId (-1) (nodeAt sendNodes k)
       else nodeAt sendNodes k.
Proof.
  intros HN. unfold fillSendIds.
  apply (forZ_ind (λ i s,
    zlen (snd s) = zlen sendNodes ∧
    ∀ k, nodeAt (snd s) k =
         if (0 <=? k) && (k <? i) then setNewId (-1) (nodeAt sendNodes k)
         else nodeAt sendNodes k)); [lia| |].
  - simpl. split; [done|]. intros k. destruct (_ && _) eqn:E; [lia|done].
  - intros i [[idsN idsT] cur] Hi [Hlen Hget]. simpl in *.
    destruct (groupStart cur 0 i); simpl;
      (split; [by rewrite zlen_zset|]); intros k;
      rewrite zget_zset by lia; (destruct (decide (k = i)) as [->|Hne];
      [rewrite Hget; destruct ((0 <=? i) && (i <? i)) eqn:E1; [lia|];
       destruct ((0 <=? i) && (i <? i + 1)) eqn:E2; [done|lia]
      |rewrite Hget; destruct ((0 <=? k) && (k <? i)) eqn:E1,
         ((0 <=? k) && (k <? i + 1)) eqn:E2; done || lia]).
Qed.

(** What is known of a message that has been sent *)
Lemma sentMessage_spec m :
  sentMessage m →
  msg_Nsend m = zlen (msg_nodes m) ∧
  Forall (λ a, newId a = -1) (msg_nodes m) ∧
  0 ≤ msg_NentriesN m ≤ msg_NentriesT m.
Proof.
  intros (r & st & ->). unfold outMessage, levelSend.
  destruct (countLoHi _ _ _) as [Nlo Nhi] eqn:EC.
  destruct (splitLoHi _ _ _) as [lo hi] eqn:ES.
  set (Nsend_ := if is_lo r (b_np st) (b_np_offset st) then Nhi else Nlo).
  set (sendNodes := if is_lo r (b_np st) (b_np_offset st) then hi else lo).
  pose proof (countEntriesSend_le Nsend_ sendNodes) as Hle.
  destruct (countEntriesSend Nsend_ sendNodes) as [eN eT].
  destruct (fillSendIds Nsend_ sendNodes) as [[idsN idsT] wiped] eqn:EF.
  cbn [msg_Nsend msg_nodes msg_NentriesN msg_NentriesT s_Nsend s_sendNodes
       s_NentriesSendN s_NentriesSendT]. simpl in Hle.
  assert (0 ≤ Nsend_ ∧ (0 ≤ b_N st → Nsend_ = zlen sendNodes) ∧
          (b_N st < 0 → Nsend_ = 0 ∧ sendNodes = [])) as (HNs & Hpos & Hneg).
  { destruct (Z.le_gt_cases 0 (b_N st)) as [HN|HN].
    - destruct (countLoHi_splitLoHi (r_half (b_np st) (b_np_offset st)) (b_N st)
                  (b_nodes st) HN) as (H1 & H2 & H3 & _).
      rewrite EC in H1, H2, H3. rewrite ES in H1, H2. simpl in *. subst Nsend_ sendNodes.
      pose proof (zlen_nonneg' lo). pose proof (zlen_nonneg' hi).
      destruct (is_lo _ _ _); (split; [lia|]); (split; [lia|]); lia.
    - unfold countLoHi in EC. unfold splitLoHi in ES. rewrite forZ_nil in EC by lia. rewrite forZ_nil in ES by lia.
      injection EC as <- <-. injection ES as <- <-. subst Nsend_ sendNodes.
      destruct (is_lo _ _ _); (split; [lia|]); (split; [lia|]); done. }
  assert (Nsend_ = zlen sendNodes) as HNeq.
  { destruct (Z.le_gt_cases 0 (b_N st)); [by apply Hpos|].
    destruct Hneg as [-> ->]; [lia|done]. }
  destruct (fillSendIds_wiped Nsend_ sendNodes ltac:(lia)) as [Hlen Hget].
  rewrite EF in Hlen, Hget. simpl in Hlen, Hget.
  assert (take (Z.to_nat Nsend_) wiped = wiped) as ->.
  { apply take_ge. unfold zlen in *. lia. }
  split; [lia|]. split; [|lia].
  apply Forall_forall. intros a Ha. apply list_elem_of_In in Ha.
  apply (elem_of_zget node0) in Ha as (k & Hk & <-).
  rewrite Hget. destruct (_ && _) eqn:E; [done|lia].
Qed.

Lemma recvNodes_sent m :
  sentMessage m →
  recvNodes (msg_Nsend m) (msg_nodes m) = msg_nodes m.
Proof.
  intros Hm. apply sentMessage_spec in Hm as (-> & _). unfold recvNodes, zlen.
  rewrite Nat2Z.id. rewrite take_app_length. done.
Qed.

Lemma recvNodes_0 l : recvNodes 0 l = [].
Proof. done. Qed.

(** * The ids of the extended halo *)

Lemma sameButNewId_setNewId v a b : sameButNewId a b → sameButNewId (setNewId v a) b.
Proof. by intros (? & ? & ? & ?). Qed.

(** The counting pass never counts more positive groups than groups. *)
Lemma countExt_le Nhalo N nodes :
  let '(_, countN, countT) := countExt Nhalo N nodes in 0 ≤ countN ≤ countT.
Proof.
  unfold countExt. destruct (Z.le_gt_cases 0 N).
  - apply (forZ_ind (λ _ s, let '(_, countN, countT) := s in 0 ≤ countN ≤ countT));
      [done|lia|].
    intros i [[start cN] cT] _ Hc.
    destruct (groupEnd nodes N i); [|done].
    destruct ((Nhalo <=? newId (nodeAt nodes start)) || (newId (nodeAt nodes start) =? -1));
      [|done].
    destruct (findPositive nodes start (i + 1)); lia.
  - rewrite forZ_nil by lia. lia.
Qed.

Section Assign.
Variables (Nhalo : Z) (nodes : list parallelNode_t) (countN countT0 : Z).
Let N := zlen nodes.
Hypothesis Nhalo_nonneg : 0 ≤ Nhalo.
Hypothesis countN_nonneg : 0 ≤ countN.
Hypothesis newId_lower : ∀ k, 0 ≤ k < N → -1 ≤ newId (nodeAt nodes k).

Let body1 := λ n '(start, NhaloExtN, NhaloExtT),
  if groupEnd nodes N n then
    let end_ := n + 1 in
    let id := newId (nodeAt nodes start) in
    if (Nhalo <=? id) || (id =? -1) then
      (end_,
       (if findPositive nodes start end_ is Some _ then NhaloExtN + 1 else NhaloExtN),
       NhaloExtT + 1)
    else (end_, NhaloExtN, NhaloExtT)
  else (start, NhaloExtN, NhaloExtT).

Let body2 := λ n st, if groupEnd (as_nodes st) N n then assignGroup Nhalo n st else st.

(** The two passes, side by side, after [n] descriptors *)
Definition assignInv (n : Z) (st : assignState) : Prop :=
  let '(start, cN, cT) := forZ 0 n body1 (0, 0, 0) in
  as_start st = start ∧ 0 ≤ start ≤ n ∧
  0 ≤ cN ≤ cT ∧
  as_NhaloExtN st = Nhalo + cN ∧
  as_NhaloExtT st = Nhalo + countN + (cT - cN) ∧
  zlen (as_nodes st) = N ∧
  (∀ k, sameButNewId (nodeAt (as_nodes st) k) (nodeAt nodes k)) ∧
  (∀ k, start ≤ k → nodeAt (as_nodes st) k = nodeAt nodes k) ∧
  (∀ k, start ≤ k < n → groupEnd nodes N k = false) ∧
  (∀ k, 0 ≤ k < start →
     0 ≤ newId (nodeAt (as_nodes st) k) ∧
     (newId (nodeAt (as_nodes st) k) < Nhalo + cN ∨
      (newId (nodeAt (as_nodes st) k) < Nhalo + countN + (cT - cN) ∧
       sign (nodeAt nodes k) ≤ 0))).

Lemma assignInv_step n st :
  0 ≤ n < N → assignInv n st → assignInv (n + 1) (body2 n st).
Proof.
  intros Hn. unfold assignInv. rewrite forZ_snoc by lia.
  destruct (forZ 0 n body1 (0, 0, 0)) as [[start cN] cT].
  intros (Hst & Hs & Hc & HN & HT & Hlen & Hsame & Hrest & Hopen & Hdone).
  unfold body2.
  assert (groupEnd (as_nodes st) N n = groupEnd nodes N n) as ->.
  { apply groupEnd_ext. intros k. destruct (Hsame k) as (_ & _ & Hb & _).
    unfold absBase. by rewrite Hb. }
  unfold body1 at 1. destruct (groupEnd nodes N n) eqn:E.
  2:{ do 8 (split; [done || lia|]). split; [|intros k Hk; apply Hdone; lia].
      intros k Hk. destruct (Z.eq_dec k n) as [->|]; [done|]. apply Hopen. lia. }
  unfold assignGroup. destruct st as [start' N2 T2 cur indexMap]. simpl in *. subst start'.
  rewrite (Hrest start) by lia.
  assert (findPositive cur start (n + 1) = findPositive nodes start (n + 1)) as ->.
  { apply findPositive_ext. intros i Hi. destruct (Hsame i) as (_ & Hsg & _). done. }
  pose proof (findPositive_spec nodes start (n + 1) ltac:(lia)) as Hfp.
  set (id0 := newId (nodeAt nodes start)) in *.
  assert (-1 ≤ id0) as Hid0 by (apply newId_lower; lia).
  (* the new entries of the group *)
  assert (∀ id cur', cur' = forZ start (n + 1)
                        (λ i l, zset l i (setNewId id (nodeAt l i))) cur →
    zlen cur' = N ∧
    (∀ k, sameButNewId (nodeAt cur' k) (nodeAt nodes k)) ∧
    (∀ k, n + 1 ≤ k → nodeAt cur' k = nodeAt nodes k) ∧
    (∀ k, 0 ≤ k < start → nodeAt cur' k = nodeAt cur k) ∧
    (∀ k, start ≤ k < n + 1 → newId (nodeAt cur' k) = id)) as Hgroup.
  { intros id cur' ->.
    destruct (forZ_update node0 (λ _, setNewId id) start (n + 1) cur) as [Hl Hg]; [lia|lia|].
    split; [lia|]. split; [|split; [|split]].
    - intros k. rewrite Hg. destruct (_ && _); [|done]. by apply sameButNewId_setNewId.
    - intros k Hk. rewrite Hg. destruct (_ && _) eqn:Ek; [lia|]. apply Hrest. lia.
    - intros k Hk. rewrite Hg. destruct (_ && _) eqn:Ek; [lia|done].
    - intros k Hk. rewrite Hg. destruct (_ && _) eqn:Ek; [done|lia]. }
  destruct ((Nhalo <=? id0) || (id0 =? -1)) eqn:Ere.
  - destruct (findPositive nodes start (n + 1)) as [s|] eqn:Efp.
    + destruct Hfp as (Hs0 & _). destruct (0 <? s) eqn:Es; [|lia]. cbn [as_start as_NhaloExtN as_NhaloExtT as_nodes].
      destruct (Hgroup N2 _ eq_refl) as (Hl' & Hsame' & Hrest' & Hold & Hnew).
      do 2 (split; [done || lia|]). split; [lia|]. split; [lia|]. split; [lia|].
      split; [done|]. split; [done|]. split; [done|]. split; [intros; lia|].
      intros k Hk. destruct (Z_lt_le_dec k start) as [Hlt|Hge].
      * rewrite Hold by lia. destruct (Hdone k ltac:(lia)) as [? [?|[? ?]]].
        -- split; [done|]. left. lia.
        -- split; [done|]. right. split; [lia|done].
      * rewrite Hnew by lia. split; [lia|]. left. lia.
    + destruct (0 <? -2) eqn:Es; [lia|]. cbn [as_start as_NhaloExtN as_NhaloExtT as_nodes].
      destruct (Hgroup T2 _ eq_refl) as (Hl' & Hsame' & Hrest' & Hold & Hnew).
      do 2 (split; [done || lia|]). split; [lia|]. split; [lia|]. split; [lia|].
      split; [done|]. split; [done|]. split; [done|]. split; [intros; lia|].
      intros k Hk. destruct (Z_lt_le_dec k start) as [Hlt|Hge].
      * rewrite Hold by lia. destruct (Hdone k ltac:(lia)) as [? [?|[? ?]]].
        -- split; [done|]. left. lia.
        -- split; [done|]. right. split; [lia|done].
      * rewrite Hnew by lia. split; [lia|]. right. split; [lia|]. apply Hfp. lia.
  - cbn [as_start as_NhaloExtN as_NhaloExtT as_nodes].
    destruct (Hgroup id0 _ eq_refl) as (Hl' & Hsame' & Hrest' & Hold & Hnew).
    do 2 (split; [done || lia|]). split; [lia|]. split; [lia|]. split; [lia|].
    split; [done|]. split; [done|]. split; [done|]. split; [intros; lia|].
    intros k Hk. destruct (Z_lt_le_dec k start) as [Hlt|Hge].
    * rewrite Hold by lia. apply Hdone. lia.
    * rewrite Hnew by lia. split; [lia|]. left. lia.
Qed.

Lemma assignExt_inv : assignInv N (assignExt Nhalo N nodes countN countT0).
Proof.
  unfold assignExt. fold body2.
  apply (forZ_ind assignInv); [apply zlen_nonneg'| |].
  - unfold assignInv. rewrite forZ_nil by lia. simpl.
    do 2 (split; [done || lia|]). split; [lia|]. split; [lia|]. split; [lia|].
    split; [done|]. split; [done|]. split; [done|]. split; intros; lia.
  - intros i st Hi. by apply assignInv_step.
Qed.

(** What the two passes leave *)
Lemma assignExt_spec :
  countExt Nhalo N nodes = (N, countN, countT0) ∨
  (∃ start, countExt Nhalo N nodes = (start, countN, countT0)) →
  let a := assignExt Nhalo N nodes countN countT0 in
  zlen (as_nodes a) = N ∧
  as_NhaloExtN a = Nhalo + countN ∧ as_NhaloExtT a = Nhalo + countT0 ∧
  countN ≤ countT0 ∧
  (∀ k, sameButNewId (nodeAt (as_nodes a) k) (nodeAt nodes k)) ∧
  (∀ k, 0 ≤ k < N →
     idInRange (Nhalo + countN) (Nhalo + countT0) (nodeAt (as_nodes a) k)).
Proof.
  intros Hc a. pose proof assignExt_inv as Hinv. fold a in Hinv.
  unfold assignInv in Hinv.
  assert (∃ start, forZ 0 N body1 (0, 0, 0) = (start, countN, countT0)) as [start Hf].
  { destruct Hc as [Hc|[start Hc]]; eauto. }
  rewrite Hf in Hinv.
  destruct Hinv as (Hst & Hs & Hcc & HN & HT & Hlen & Hsame & Hrest & Hopen & Hdone).
  split; [done|]. split; [done|]. split; [lia|]. split; [lia|]. split; [done|].
  intros k Hk.
  assert (start = N) as ->.
  { destruct (Z.eq_dec start N) as [|Hne]; [done|]. exfalso.
    specialize (Hopen (N - 1) ltac:(lia)). unfold groupEnd in Hopen.
    by rewrite Z.eqb_refl in Hopen. }
  destruct (Hdone k Hk) as [H0 Hr]. destruct (Hsame k) as (_ & Hsg & _).
  unfold idInRange. rewrite Hsg. lia.
Qed.
End Assign.

(** * The restored order *)

Lemma Forall_zset {A} (P : A → Prop) l i v : Forall P l → P v → Forall P (zset l i v).
Proof. intros Hl Hv. unfold zset. destruct (i <? 0); [done|]. by apply Forall_insert. Qed.

Lemma Forall_zget {A} (P : A → Prop) d l i : Forall P l → 0 ≤ i < zlen l → P (zget d l i).
Proof.
  intros Hl Hi. rewrite Forall_forall in Hl. by apply Hl, list_elem_of_In, zget_In.
Qed.

Lemma Forall_of_zget {A} (P : A → Prop) d l :
  (∀ i, 0 ≤ i < zlen l → P (zget d l i)) → Forall P l.
Proof.
  intros H. apply Forall_forall. intros a Ha.
  apply list_elem_of_In, (elem_of_zget d) in Ha as (i & Hi & <-). by apply H.
Qed.

Lemma permute_spec (P : parallelNode_t → Prop) N nodes :
  N ≤ zlen nodes → Forall P nodes →
  zlen (permute N nodes) = zlen nodes ∧ Forall P (permute N nodes).
Proof.
  intros HN HP. unfold permute. destruct (Z.le_gt_cases 0 N).
  - apply (forZ_ind (λ _ out, zlen out = zlen nodes ∧ Forall P out)); [done|done|].
    intros i out Hi [Hlen Hout]. split; [by rewrite zlen_zset|].
    apply Forall_zset; [done|]. apply Forall_zget; [done|lia].
  - by rewrite forZ_nil by lia.
Qed.

Lemma recordOrder_spec N nodes :
  N ≤ zlen nodes →
  zlen (recordOrder N nodes) = zlen nodes ∧
  ∀ k, sameButSign (setSign 0 (setLocalId 0 (nodeAt (recordOrder N nodes) k)))
                   (setSign 0 (setLocalId 0 (nodeAt nodes k))) ∧
       sign (nodeAt (recordOrder N nodes) k) = sign (nodeAt nodes k).
Proof.
  intros HN. unfold recordOrder.
  destruct (forZ_update node0 setLocalId 0 N nodes) as [Hlen Hget]; [lia|lia|].
  split; [done|]. intros k. rewrite Hget. by destruct (_ && _).
Qed.

Section Renumber.
Context `{StdSort}.

Lemma std_sort_zlen lt l : zlen (std_sort lt l) = zlen l.
Proof. unfold zlen. by rewrite (Permutation_length (std_sort_perm lt l)). Qed.

Lemma std_sort_Forall (P : parallelNode_t → Prop) lt l :
  Forall P l → Forall P (std_sort lt l).
Proof. intros Hl. by rewrite (std_sort_perm lt l). Qed.

(** The groups get ids that are rows of the operators of the round. *)
Lemma renumber_spec Nhalo N nodes :
  0 ≤ Nhalo → N = zlen nodes → Forall (λ a, -1 ≤ newId a) nodes →
  let a := renumber Nhalo N nodes in
  zlen (as_nodes a) = N ∧
  Nhalo ≤ as_NhaloExtN a ≤ as_NhaloExtT a ∧
  Forall (idInRange (as_NhaloExtN a) (as_NhaloExtT a)) (as_nodes a).
Proof.
  intros Hhalo HN Hlow. unfold renumber.
  destruct (recordOrder_spec N nodes ltac:(lia)) as [Hlen1 Hget1].
  set (nodes2 := std_sort ltBaseId (recordOrder N nodes)).
  assert (zlen nodes2 = N) as Hlen2 by (unfold nodes2; rewrite std_sort_zlen; lia).
  assert (Forall (λ a, -1 ≤ newId a) nodes2) as Hlow2.
  { apply std_sort_Forall. apply (Forall_of_zget _ node0). intros i Hi.
    destruct (Hget1 i) as [(_ & Hn & _) _]. simpl in Hn. rewrite Hn.
    apply Forall_zget; [done|lia]. }
  pose proof (countExt_le Nhalo N nodes2) as Hc.
  destruct (countExt Nhalo N nodes2) as [[start countN] countT] eqn:EC.
  rewrite <- Hlen2 in EC.
  destruct (assignExt_spec Nhalo nodes2 countN countT Hhalo ltac:(lia))
    as (Hlen3 & HN3 & HT3 & Hle & Hsame & Hrange).
  { intros k Hk. by apply Forall_zget. }
  { right. by exists start. }
  rewrite Hlen2 in *. cbn [as_nodes as_NhaloExtN as_NhaloExtT].
  set (a := assignExt Nhalo N nodes2 countN countT) in *.
  destruct (permute_spec (idInRange (as_NhaloExtN a) (as_NhaloExtT a)) N (as_nodes a))
    as [Hlen4 Hall4]; [lia| |].
  { apply (Forall_of_zget _ node0). rewrite Hlen3, HN3, HT3. done. }
  split; [lia|]. split; [lia|done].
Qed.
End Renumber.

(** * The operators of a round *)

Lemma occ_nil i : occ [] i = 0.
Proof. done. Qed.

Lemma occ_app p q i : occ (p ++ q) i = occ p i + occ q i.
Proof. unfold occ. rewrite count_occ_app. lia. Qed.

Lemma occ_singleton r i : occ [r] i = if decide (r = i) then 1 else 0.
Proof. unfold occ. simpl. destruct (Z.eq_dec r i), (decide (r = i)); done. Qed.

Lemma occ_nonneg p i : 0 ≤ occ p i.
Proof. unfold occ. lia. Qed.

Lemma occ_seqZ rows i : 0 ≤ rows → occ (seqZ 0 rows) i = if (0 <=? i) && (i <? rows) then 1 else 0.
Proof.
  intros Hrows.
  assert (∀ n : nat, occ (seqZ 0 (Z.of_nat n)) i =
                     if (0 <=? i) && (i <? Z.of_nat n) then 1 else 0) as Hind.
  { induction n as [|n IH].
    - simpl. destruct (_ && _) eqn:E; [lia|done].
    - rewrite seqZ_S, occ_app, IH, occ_singleton.
      rewrite Z.add_0_l.
      destruct (decide (Z.of_nat n = i)), ((0 <=? i) && (i <? Z.of_nat n)) eqn:E1,
        ((0 <=? i) && (i <? Z.of_nat (S n))) eqn:E2; lia. }
  specialize (Hind (Z.to_nat rows)). by rewrite Z2Nat.id in Hind.
Qed.

Lemma evRows_nil c r lo hi : hi ≤ lo → evRows c r lo hi = [].
Proof. intros. unfold evRows. by rewrite forZ_nil. Qed.

Lemma evRows_snoc c r lo hi :
  lo ≤ hi → evRows c r lo (hi + 1) = evRows c r lo hi ++ (if c hi then [r hi] else []).
Proof.
  intros. unfold evRows. rewrite forZ_snoc by done.
  destruct (c hi); [done|by rewrite app_nil_r].
Qed.

(** What is counted so far is part of what is counted in the end. *)
Lemma occ_evRows_le c r lo n hi i :
  lo ≤ n ≤ hi → occ (evRows c r lo n) i ≤ occ (evRows c r lo hi) i.
Proof.
  intros Hn.
  apply (forZ_ind (λ k _, occ (evRows c r lo n) i ≤ occ (evRows c r lo k) i) n hi
           (λ _ x, x) tt); [lia|lia|].
  intros k _ Hk IH. rewrite evRows_snoc, occ_app by lia.
  pose proof (occ_nonneg (if c k then [r k] else []) i). lia.
Qed.

Lemma incr_spec a i :
  0 ≤ i < zlen a →
  zlen (incr a i) = zlen a ∧
  ∀ j, zget 0 (incr a i) j = if decide (j = i) then zget 0 a i + 1 else zget 0 a j.
Proof.
  intros Hi. unfold incr. split; [by rewrite zlen_zset|]. intros j. by rewrite zget_zset.
Qed.

Lemma countInv_step R p rs r :
  countInv R p rs → 0 ≤ r < R → countInv R (p ++ [r]) (incr rs (r + 1)).
Proof.
  intros (Hlen & H0 & Hocc) Hr.
  destruct (incr_spec rs (r + 1)) as [Hlen' Hget]; [lia|].
  split; [lia|]. split.
  - rewrite Hget. destruct (decide _); [lia|done].
  - intros i Hi. rewrite Hget, occ_app, occ_singleton.
    destruct (decide (i + 1 = r + 1)), (decide (r = i)); try lia; subst;
      rewrite Hocc by lia; lia.
Qed.

Lemma countInv_calloc R : 0 ≤ R → countInv R [] (calloc (R + 1)).
Proof.
  intros HR. unfold calloc. split; [rewrite zlen_repeat; lia|].
  split; [apply zget_repeat|]. intros i Hi. apply zget_repeat.
Qed.

Lemma forZ_shift {St} d lo hi (body : Z → St → St) s :
  forZ lo hi (λ n, body (n + d)) s = forZ (lo + d) (hi + d) body s.
Proof.
  destruct (Z.le_gt_cases lo hi).
  - apply (forZ_ind (λ i t, t = forZ (lo + d) (i + d) body s)); [done| |].
    + by rewrite forZ_nil by lia.
    + intros i t Hi ->. replace (i + 1 + d) with (i + d + 1) by lia.
      by rewrite forZ_snoc by lia.
  - by rewrite !forZ_nil by lia.
Qed.

Lemma countHalo_spec R rows :
  0 ≤ rows ≤ R → countInv R (seqZ 0 rows) (countHalo rows (calloc (R + 1))).
Proof.
  intros Hrows. unfold countHalo.
  destruct (forZ_update 0 (λ _ _, 1) 1 (rows + 1) (calloc (R + 1))) as [Hlen Hget];
    [lia|unfold calloc; rewrite zlen_repeat; lia|].
  assert (forZ 0 rows (λ n rs, zset rs (n + 1) 1) (calloc (R + 1)) =
          forZ 1 (rows + 1) (λ j l, zset l j 1) (calloc (R + 1))) as ->.
  { apply (forZ_shift 1 0 rows (λ j l, zset l j 1)). }
  unfold calloc in *. rewrite zlen_repeat in Hlen by lia.
  split; [done|]. split.
  - rewrite Hget. destruct (_ && _) eqn:E; [lia|apply zget_repeat].
  - intros i Hi. rewrite Hget, occ_seqZ, zget_repeat by lia.
    destruct ((1 <=? i + 1) && (i + 1 <? rows + 1)) eqn:E1,
      ((0 <=? i) && (i <? rows)) eqn:E2; lia.
Qed.

(** A loop that counts the entries of two operators at once *)
Lemma countLoop R (cN cT : Z → bool) (r : Z → Z) lo hi
    (body : Z → list Z * list Z → list Z * list Z) pN pT rs :
  lo ≤ hi →
  (∀ n s, lo ≤ n < hi →
     body n s = ((if cN n then incr (fst s) (r n + 1) else fst s),
                 (if cT n then incr (snd s) (r n + 1) else snd s))) →
  (∀ n, lo ≤ n < hi → cN n = true ∨ cT n = true → 0 ≤ r n < R) →
  countInv R pN (fst rs) → countInv R pT (snd rs) →
  countInv R (pN ++ evRows cN r lo hi) (fst (forZ lo hi body rs)) ∧
  countInv R (pT ++ evRows cT r lo hi) (snd (forZ lo hi body rs)).
Proof.
  intros Hle Hbody Hr HN HT.
  apply (forZ_ind (λ n s, countInv R (pN ++ evRows cN r lo n) (fst s) ∧
                          countInv R (pT ++ evRows cT r lo n) (snd s))); [done| |].
  - rewrite !evRows_nil, !app_nil_r by lia. done.
  - intros n s Hn [IHN IHT]. rewrite Hbody by done. rewrite !evRows_snoc by lia.
    simpl. split.
    + destruct (cN n) eqn:E; [|by rewrite app_nil_r].
      rewrite app_assoc. apply countInv_step; [done|]. apply Hr; [done|by left].
    + destruct (cT n) eqn:E; [|by rewrite app_nil_r].
      rewrite app_assoc. apply countInv_step; [done|]. apply Hr; [done|by right].
Qed.

(** The running sums of the counts are the row starts. *)
Lemma prefixSum_spec R pN pT rs :
  0 ≤ R → countInv R pN (fst rs) → countInv R pT (snd rs) →
  startsOk R pN (fst (prefixSum R rs)) ∧ startsOk R pT (snd (prefixSum R rs)).
Proof.
  intros HR HN HT. unfold prefixSum.
  set (Inv := λ (p : list Z) (n : Z) (a : list Z),
    zlen a = R + 1 ∧ zget 0 a 0 = 0 ∧
    (∀ i, 0 ≤ i < n → zget 0 a (i + 1) = zget 0 a i + occ p i) ∧
    (∀ i, n ≤ i < R → zget 0 a (i + 1) = occ p i)).
  assert (∀ p n a, 0 ≤ n < R → Inv p n a →
            Inv p (n + 1) (zset a (n + 1) (zget 0 a (n + 1) + zget 0 a n))) as Hstep.
  { intros p n a Hn (Hlen & H0 & Hlo & Hhi).
    split; [by rewrite zlen_zset|]. split; [rewrite zget_zset_ne by lia; done|]. split.
    - intros i Hi. destruct (Z.eq_dec i n) as [->|Hne].
      + rewrite zget_zset_eq by lia. rewrite zget_zset_ne by lia. rewrite Hhi by lia. lia.
      + rewrite !zget_zset_ne by lia. apply Hlo. lia.
    - intros i Hi. rewrite zget_zset_ne by lia. apply Hhi. lia. }
  cut (Inv pN R (fst (forZ 0 R (λ i '(rowStartsN, rowStartsT),
          let rowStartsT0 := zset rowStartsT (i + 1)
                               (zget 0 rowStartsT (i + 1) + zget 0 rowStartsT i) in
          let rowStartsN0 := zset rowStartsN (i + 1)
                               (zget 0 rowStartsN (i + 1) + zget 0 rowStartsN i) in
          (rowStartsN0, rowStartsT0)) rs)) ∧
       Inv pT R (snd (forZ 0 R (λ i '(rowStartsN, rowStartsT),
          let rowStartsT0 := zset rowStartsT (i + 1)
                               (zget 0 rowStartsT (i + 1) + zget 0 rowStartsT i) in
          let rowStartsN0 := zset rowStartsN (i + 1)
                               (zget 0 rowStartsN (i + 1) + zget 0 rowStartsN i) in
          (rowStartsN0, rowStartsT0)) rs))).
  { intros [(H1 & H2 & H3 & _) (H1' & H2' & H3' & _)]. split; split; done. }
  apply (forZ_ind (λ n s, Inv pN n (fst s) ∧ Inv pT n (snd s))); [done| |].
  - destruct HN as (? & ? & ?), HT as (? & ? & ?).
    split; (split; [done|]; split; [done|]; split; [intros; lia|done]).
  - intros n [a b] Hn [IHN IHT]. simpl in *. split; by apply Hstep.
Qed.

Lemma startsOk_mono R all st i j :
  startsOk R all st → 0 ≤ i ≤ j → j ≤ R → zget 0 st i ≤ zget 0 st j.
Proof.
  intros (Hlen & H0 & Hst) Hij HjR.
  assert (∀ n : nat, i + Z.of_nat n ≤ R → zget 0 st i ≤ zget 0 st (i + Z.of_nat n)) as Hind.
  { induction n as [|n IH]; intros Hn.
    - rewrite Z.add_0_r. lia.
    - replace (i + Z.of_nat (S n)) with (i + Z.of_nat n + 1) by lia.
      rewrite Hst by lia. pose proof (occ_nonneg all (i + Z.of_nat n)).
      specialize (IH ltac:(lia)). lia. }
  specialize (Hind (Z.to_nat (j - i))). replace (i + Z.of_nat (Z.to_nat (j - i))) with j in Hind by lia.
  apply Hind. lia.
Qed.

Lemma startsOk_nonneg R all st i :
  startsOk R all st → 0 ≤ i ≤ R → 0 ≤ zget 0 st i.
Proof.
  intros Hst Hi. pose proof (startsOk_mono R all st 0 i Hst ltac:(lia) ltac:(lia)).
  destruct Hst as (_ & H0 & _). lia.
Qed.

(** The rows past the last entry are empty. *)
Lemma startsOk_tail R all st k :
  startsOk R all st → 0 ≤ k ≤ R → (∀ i, k ≤ i < R → occ all i = 0) →
  zget 0 st R = zget 0 st k.
Proof.
  intros (Hlen & H0 & Hst) Hk Hocc.
  assert (∀ n : nat, k + Z.of_nat n ≤ R → zget 0 st (k + Z.of_nat n) = zget 0 st k) as Hind.
  { induction n as [|n IH]; intros Hn.
    - by rewrite Z.add_0_r.
    - replace (k + Z.of_nat (S n)) with (k + Z.of_nat n + 1) by lia.
      rewrite Hst, Hocc, IH by lia. lia. }
  specialize (Hind (Z.to_nat (R - k))). replace (k + Z.of_nat (Z.to_nat (R - k))) with R in Hind by lia.
  apply Hind. lia.
Qed.

(** One entry more *)
Lemma fillInv_step R idRows all st p g r v :
  startsOk R all st → 0 ≤ idRows ≤ R →
  (∀ n, 0 ≤ n < idRows → zget 0 st (n + 1) ≤ zlen (snd g)) →
  fillInv R idRows st p g →
  0 ≤ r < R → (∀ i, occ (p ++ [r]) i ≤ occ all i) →
  (r < idRows → occ p r = 0 → v = r) →
  fillInv R idRows st (p ++ [r]) (putCol g r v) ∧ zlen (snd (putCol g r v)) = zlen (snd g).
Proof.
  intros Hst Hid Hcol (Hlen & Hrs & HR & Hcells) Hr Hpre Hv.
  destruct g as [rs col]. simpl in *.
  destruct (incr_spec rs r) as [Hlen' Hget]; [lia|].
  split; [|by rewrite zlen_zset].
  split; [simpl; lia|]. split; [|split].
  - intros i Hi. simpl. rewrite Hget, occ_app, occ_singleton.
    destruct (decide (i = r)) as [->|Hne].
    + destruct (decide (r = r)); [|lia]. rewrite Hrs by lia. lia.
    + destruct (decide (r = i)); [lia|]. rewrite Hrs by lia. lia.
  - simpl. rewrite Hget. destruct (decide (R = r)); [lia|done].
  - intros n Hn Hocc. simpl. rewrite zlen_zset.
    assert (1 ≤ occ all n) as Han by (specialize (Hpre n); lia).
    pose proof (proj2 (proj2 Hst) n ltac:(lia)) as Hsn.
    pose proof (startsOk_nonneg R all st n Hst ltac:(lia)) as Hn0.
    specialize (Hcol n Hn).
    split; [lia|].
    rewrite Hrs by lia.
    rewrite occ_app, occ_singleton in Hocc.
    destruct (decide (r = n)) as [->|Hne].
    + destruct (Z.eq_dec (occ p n) 0) as [H0|H0].
      * rewrite H0, Z.add_0_r. rewrite zget_zset_eq by lia. apply Hv; lia.
      * pose proof (occ_nonneg p n). rewrite zget_zset_ne by lia. apply Hcells; lia.
    + rewrite zget_zset_ne; [apply Hcells; [done|lia]|].
      pose proof (occ_nonneg p r).
      assert (occ p r < occ all r) as Hroom.
      { specialize (Hpre r). rewrite occ_app, occ_singleton in Hpre.
        destruct (decide (r = r)); lia. }
      pose proof (proj2 (proj2 Hst) r ltac:(lia)) as Hsr.
      destruct (Z_lt_le_dec r n).
      * pose proof (startsOk_mono R all st (r + 1) n Hst ltac:(lia) ltac:(lia)). lia.
      * pose proof (startsOk_mono R all st (n + 1) r Hst ltac:(lia) ltac:(lia)). lia.
Qed.

Lemma fillInv_start R idRows all st col :
  startsOk R all st → fillInv R idRows st [] (st, col).
Proof.
  intros (Hlen & H0 & Hst). split; [done|]. split; [|split; [done|]].
  - intros i Hi. simpl. rewrite occ_nil. lia.
  - intros n Hn Hocc. rewrite occ_nil in Hocc. lia.
Qed.

Lemma forZdown_nil {St} hi lo (body : Z → St → St) s : hi ≤ lo → forZdown hi lo body s = s.
Proof.
  intros. unfold forZdown. by replace (Z.to_nat (hi - lo)) with 0%nat by lia.
Qed.

Lemma forZdown_snoc {St} hi lo (body : Z → St → St) s :
  lo < hi → forZdown hi lo body s = body (lo + 1) (forZdown hi (lo + 1) body s).
Proof.
  intros. unfold forZdown.
  replace (Z.to_nat (hi - lo)) with (S (Z.to_nat (hi - (lo + 1)))) by lia.
  rewrite seq_S, fold_left_app. simpl. f_equal. lia.
Qed.

Lemma forZdown_ind {St} (P : Z → St → Prop) hi lo (body : Z → St → St) s :
  lo ≤ hi → P hi s →
  (∀ i t, lo < i ≤ hi → P i t → P (i - 1) (body i t)) →
  P lo (forZdown hi lo body s).
Proof.
  intros Hle H0 Hstep.
  assert (∀ n : nat, lo ≤ hi - Z.of_nat n →
            P (hi - Z.of_nat n) (forZdown hi (hi - Z.of_nat n) body s)) as H.
  { induction n as [|n IH]; intros Hn.
    - rewrite Z.sub_0_r, forZdown_nil by lia. done.
    - rewrite forZdown_snoc by lia.
      replace (hi - Z.of_nat (S n)) with (hi - Z.of_nat n - 1) by lia.
      replace (hi - Z.of_nat n - 1 + 1) with (hi - Z.of_nat n) by lia.
      apply Hstep; [lia|]. apply IH. lia. }
  specialize (H (Z.to_nat (hi - lo))).
  replace (hi - Z.of_nat (Z.to_nat (hi - lo))) with lo in H by lia. apply H. lia.
Qed.

(** The row starts are shifted back by one row. *)
Lemma resetRowStarts_spec R rs :
  0 ≤ R → zlen (fst rs) = R + 1 → zlen (snd rs) = R + 1 →
  let rs' := resetRowStarts R rs in
  (zlen (fst rs') = R + 1 ∧ zget 0 (fst rs') 0 = 0 ∧
   ∀ i, 1 ≤ i ≤ R → zget 0 (fst rs') i = zget 0 (fst rs) (i - 1)) ∧
  (zlen (snd rs') = R + 1 ∧ zget 0 (snd rs') 0 = 0 ∧
   ∀ i, 1 ≤ i ≤ R → zget 0 (snd rs') i = zget 0 (snd rs) (i - 1)).
Proof.
  intros HR HlN HlT. unfold resetRowStarts.
  set (Inv := λ (a0 : list Z) (n : Z) (a : list Z),
    zlen a = R + 1 ∧ (∀ i, n < i ≤ R → zget 0 a i = zget 0 a0 (i - 1)) ∧
    (∀ i, i ≤ n → zget 0 a i = zget 0 a0 i)).
  assert (∀ a0 n a, 0 < n ≤ R → Inv a0 n a → Inv a0 (n - 1) (zset a n (zget 0 a (n - 1))))
    as Hstep.
  { intros a0 n a Hn (Hlen & Hhi & Hlo). split; [by rewrite zlen_zset|]. split.
    - intros i Hi. destruct (Z.eq_dec i n) as [->|Hne].
      + rewrite zget_zset_eq by lia. apply Hlo. lia.
      + rewrite zget_zset_ne by lia. apply Hhi. lia.
    - intros i Hi. rewrite zget_zset_ne by lia. apply Hlo. lia. }
  assert (Inv (fst rs) 0 (fst (forZdown R 0 (λ i '(rowStartsN, rowStartsT),
            let rowStartsT0 := zset rowStartsT i (zget 0 rowStartsT (i - 1)) in
            let rowStartsN0 := zset rowStartsN i (zget 0 rowStartsN (i - 1)) in
            (rowStartsN0, rowStartsT0)) rs)) ∧
          Inv (snd rs) 0 (snd (forZdown R 0 (λ i '(rowStartsN, rowStartsT),
            let rowStartsT0 := zset rowStartsT i (zget 0 rowStartsT (i - 1)) in
            let rowStartsN0 := zset rowStartsN i (zget 0 rowStartsN (i - 1)) in
            (rowStartsN0, rowStartsT0)) rs))) as [HN HT].
  { apply (forZdown_ind (λ n s, Inv (fst rs) n (fst s) ∧ Inv (snd rs) n (snd s))); [done| |].
    - split; (split; [done|]; split; [intros; lia|done]).
    - intros n [a b] Hn [IHN IHT]. simpl in *. split; by apply Hstep. }
  destruct (forZdown R 0 _ rs) as [a b]. simpl in *.
  destruct HN as (H1 & H2 & _), HT as (H1' & H2' & _).
  split; (split; [by rewrite zlen_zset|]; split; [by rewrite zget_zset_eq by lia|];
          intros i Hi; rewrite zget_zset_ne by lia; auto with lia).
Qed.

(** A loop that puts entries into an operator, seen through the part of its
    state that holds the operator *)
Lemma fillLoop {St} (proj : St → list Z * list Z) (c : Z → bool) (r : Z → Z) lo hi
    (body : Z → St → St) p s R idRows all st nnz :
  lo ≤ hi → startsOk R all st → 0 ≤ idRows ≤ R →
  (∀ n, 0 ≤ n < idRows → zget 0 st (n + 1) ≤ nnz) →
  (∀ n s, lo ≤ n < hi →
     ∃ v, proj (body n s) = if c n then putCol (proj s) (r n) v else proj s) →
  (∀ n, lo ≤ n < hi → c n = true → 0 ≤ r n < R) →
  (∀ i, occ (p ++ evRows c r lo hi) i ≤ occ all i) →
  (∀ n, 0 ≤ n < idRows → 1 ≤ occ p n) →
  fillInv R idRows st p (proj s) → zlen (snd (proj s)) = nnz →
  fillInv R idRows st (p ++ evRows c r lo hi) (proj (forZ lo hi body s)) ∧
  zlen (snd (proj (forZ lo hi body s))) = nnz.
Proof.
  intros Hle Hst Hid Hcol Hbody Hr Hpre Hids Hinv Hnnz.
  apply (forZ_ind (λ n t, fillInv R idRows st (p ++ evRows c r lo n) (proj t) ∧
                          zlen (snd (proj t)) = nnz)); [done| |].
  - rewrite evRows_nil, app_nil_r by lia. done.
  - intros n t Hn [IH IHnnz]. destruct (Hbody n t Hn) as [v ->].
    rewrite evRows_snoc by lia. destruct (c n) eqn:E; [|by rewrite app_nil_r].
    rewrite app_assoc.
    destruct (fillInv_step R idRows all st (p ++ evRows c r lo n) (proj t) (r n) v)
      as [Hinv' Hlen']; try done.
    + by rewrite IHnnz.
    + by apply Hr.
    + intros i. rewrite <- app_assoc.
      pose proof (occ_evRows_le c r lo (n + 1) hi i ltac:(lia)) as Hl.
      rewrite evRows_snoc, E in Hl by lia.
      specialize (Hpre i). rewrite occ_app in Hpre |- *. lia.
    + intros Hlt H0. rewrite occ_app in H0.
      pose proof (Hids (r n) ltac:(specialize (Hr n Hn E); lia)).
      pose proof (occ_nonneg (evRows c r lo n) (r n)). lia.
    + split; [done|]. by rewrite Hlen'.
Qed.

(** The rows of the halo get their own number as first column. *)
Lemma fillHalo_spec R all st rows col :
  startsOk R all st → 0 ≤ rows ≤ R →
  (∀ n, 0 ≤ n < rows → zget 0 st (n + 1) ≤ zlen col) →
  (∀ i, occ (seqZ 0 rows) i ≤ occ all i) →
  fillInv R rows st (seqZ 0 rows) (fillHalo rows (st, col)) ∧
  zlen (snd (fillHalo rows (st, col))) = zlen col.
Proof.
  intros Hst Hrows Hcol Hpre. unfold fillHalo.
  assert (∀ n, 0 ≤ n → seqZ 0 (n + 1) = seqZ 0 n ++ [n]) as Hseq.
  { intros n Hn. replace (n + 1) with (Z.of_nat (S (Z.to_nat n))) by lia.
    rewrite seqZ_S. rewrite Z2Nat.id by lia. done. }
  apply (forZ_ind (λ n g, fillInv R rows st (seqZ 0 n) g ∧ zlen (snd g) = zlen col));
    [lia| |].
  - split; [|done]. by apply (fillInv_start R rows all).
  - intros n g Hn [IH IHlen]. rewrite Hseq by lia.
    destruct (fillInv_step R rows all st (seqZ 0 n) g n n) as [Hinv' Hlen']; try done.
    + by rewrite IHlen.
    + lia.
    + intros i. rewrite <- Hseq by lia. specialize (Hpre i).
      rewrite occ_seqZ in * by lia.
      destruct ((0 <=? i) && (i <? n + 1)) eqn:E1, ((0 <=? i) && (i <? rows)) eqn:E2; lia.
    + split; [done|]. by rewrite Hlen'.
Qed.

(** ** The loops of the gather operators *)

Section Gather.
Variables (R Nhalo : Z) (nodes : list parallelNode_t).
Hypothesis rows_ok : ∀ n, 0 ≤ n < zlen nodes → 0 ≤ rowOf nodes n < R.

Lemma countLocal_spec offset pN pT rs :
  0 ≤ offset ≤ zlen nodes →
  countInv R pN (fst rs) → countInv R pT (snd rs) →
  countInv R (pN ++ evRows (λ n, localEntry Nhalo nodes n && positive nodes n)
                      (rowOf nodes) 0 offset)
             (fst (countLocal Nhalo offset nodes rs)) ∧
  countInv R (pT ++ evRows (localEntry Nhalo nodes) (rowOf nodes) 0 offset)
             (snd (countLocal Nhalo offset nodes rs)).
Proof.
  intros Hoff HN HT. unfold countLocal. apply countLoop; try done; [lia| |].
  - intros n [a b] Hn. unfold localEntry, positive, rowOf. simpl.
    destruct (groupStart nodes 0 n); [|done].
    destruct (Nhalo <=? newId (nodeAt nodes n)); [|done].
    by destruct (0 <? sign (nodeAt nodes n)).
  - intros n Hn _. apply rows_ok. lia.
Qed.

Lemma countRecv_spec first last pN pT rs :
  0 ≤ first ≤ last → last ≤ zlen nodes →
  countInv R pN (fst rs) → countInv R pT (snd rs) →
  countInv R (pN ++ evRows (λ n, recvEntry first nodes n && positive nodes n)
                      (rowOf nodes) first last)
             (fst (countRecv first last nodes rs)) ∧
  countInv R (pT ++ evRows (recvEntry first nodes) (rowOf nodes) first last)
             (snd (countRecv first last nodes rs)).
Proof.
  intros Hfl Hlast HN HT. unfold countRecv. apply countLoop; try done; [lia| |].
  - intros n [a b] Hn. unfold recvEntry, positive, rowOf. simpl.
    destruct (groupStart nodes first n); [|done].
    by destruct (0 <? sign (nodeAt nodes n)).
  - intros n Hn _. apply rows_ok. lia.
Qed.

Section Fill.
Variables (idRows : Z) (all starts : list Z) (nnz : Z).
Hypothesis starts_ok : startsOk R all starts.
Hypothesis idRows_ok : 0 ≤ idRows ≤ R.
Hypothesis cells_ok : ∀ n, 0 ≤ n < idRows → zget 0 starts (n + 1) ≤ nnz.

Lemma fillLocal_N offset indexMap p gs :
  0 ≤ offset ≤ zlen nodes →
  (∀ i, occ (p ++ evRows (λ n, localEntry Nhalo nodes n && positive nodes n)
                      (rowOf nodes) 0 offset) i ≤ occ all i) →
  (∀ n, 0 ≤ n < idRows → 1 ≤ occ p n) →
  fillInv R idRows starts p (fst gs) → zlen (snd (fst gs)) = nnz →
  fillInv R idRows starts
    (p ++ evRows (λ n, localEntry Nhalo nodes n && positive nodes n) (rowOf nodes) 0 offset)
    (fst (fillLocal Nhalo offset nodes indexMap gs)) ∧
  zlen (snd (fst (fillLocal Nhalo offset nodes indexMap gs))) = nnz.
Proof.
  intros Hoff Hpre Hids Hinv Hnnz. unfold fillLocal.
  apply (fillLoop fst) with (all := all); try done; [lia| |].
  - intros n [gN gT] Hn. unfold localEntry, positive, rowOf. simpl.
    exists (zget 0 indexMap (newId (nodeAt nodes n) - Nhalo)).
    destruct (groupStart nodes 0 n); [|done].
    destruct (Nhalo <=? newId (nodeAt nodes n)); [|done].
    by destruct (0 <? sign (nodeAt nodes n)).
  - intros n Hn _. apply rows_ok. lia.
Qed.

Lemma fillLocal_T offset indexMap p gs :
  0 ≤ offset ≤ zlen nodes →
  (∀ i, occ (p ++ evRows (localEntry Nhalo nodes) (rowOf nodes) 0 offset) i ≤ occ all i) →
  (∀ n, 0 ≤ n < idRows → 1 ≤ occ p n) →
  fillInv R idRows starts p (snd gs) → zlen (snd (snd gs)) = nnz →
  fillInv R idRows starts
    (p ++ evRows (localEntry Nhalo nodes) (rowOf nodes) 0 offset)
    (snd (fillLocal Nhalo offset nodes indexMap gs)) ∧
  zlen (snd (snd (fillLocal Nhalo offset nodes indexMap gs))) = nnz.
Proof.
  intros Hoff Hpre Hids Hinv Hnnz. unfold fillLocal.
  apply (fillLoop snd) with (all := all); try done; [lia| |].
  - intros n [gN gT] Hn. unfold localEntry, positive, rowOf. simpl.
    exists (zget 0 indexMap (newId (nodeAt nodes n) - Nhalo)).
    destruct (groupStart nodes 0 n); [|done].
    by destruct (Nhalo <=? newId (nodeAt nodes n)).
  - intros n Hn _. apply rows_ok. lia.
Qed.

Lemma fillRecv_N first last p gs :
  0 ≤ first ≤ last → last ≤ zlen nodes →
  (∀ i, occ (p ++ evRows (λ n, recvEntry first nodes n && positive nodes n)
                      (rowOf nodes) first last) i ≤ occ all i) →
  (∀ n, 0 ≤ n < idRows → 1 ≤ occ p n) →
  fillInv R idRows starts p (fst (fst (fst gs))) → zlen (snd (fst (fst (fst gs)))) = nnz →
  fillInv R idRows starts
    (p ++ evRows (λ n, recvEntry first nodes n && positive nodes n)
            (rowOf nodes) first last)
    (fst (fst (fst (fillRecv first last nodes gs)))) ∧
  zlen (snd (fst (fst (fst (fillRecv first last nodes gs))))) = nnz.
Proof.
  intros Hfl Hlast Hpre Hids Hinv Hnnz. unfold fillRecv.
  apply (fillLoop (λ s, fst (fst (fst s)))) with (all := all); try done; [lia| |].
  - intros n [[[gN gT] eN] eT] Hn. unfold recvEntry, positive, rowOf. simpl.
    exists eN.
    destruct (groupStart nodes first n); [|done].
    by destruct (0 <? sign (nodeAt nodes n)).
  - intros n Hn _. apply rows_ok. lia.
Qed.

Lemma fillRecv_T first last p gs :
  0 ≤ first ≤ last → last ≤ zlen nodes →
  (∀ i, occ (p ++ evRows (recvEntry first nodes) (rowOf nodes) first last) i
        ≤ occ all i) →
  (∀ n, 0 ≤ n < idRows → 1 ≤ occ p n) →
  fillInv R idRows starts p (snd (fst (fst gs))) → zlen (snd (snd (fst (fst gs)))) = nnz →
  fillInv R idRows starts
    (p ++ evRows (recvEntry first nodes) (rowOf nodes) first last)
    (snd (fst (fst (fillRecv first last nodes gs)))) ∧
  zlen (snd (snd (fst (fst (fillRecv first last nodes gs))))) = nnz.
Proof.
  intros Hfl Hlast Hpre Hids Hinv Hnnz. unfold fillRecv.
  apply (fillLoop (λ s, snd (fst (fst s)))) with (all := all); try done; [lia| |].
  - intros n [[[gN gT] eN] eT] Hn. unfold recvEntry, positive, rowOf. simpl.
    exists eT.
    destruct (groupStart nodes first n); [|done].
    by destruct (0 <? sign (nodeAt nodes n)).
  - intros n Hn _. apply rows_ok. lia.
Qed.
End Fill.
End Gather.

(** ** The identity rows of the gather operators *)

Lemma zlen_calloc n : 0 ≤ n → zlen (calloc n) = n.
Proof. intros. unfold calloc. by apply zlen_repeat. Qed.

(** Once every entry is in place and the row starts are reset, a row with
    an entry of its own number has it as its first column. *)
Lemma rowHas_filled R idRows all st g rs k a b c d e :
  startsOk R all st → 0 ≤ idRows ≤ R →
  fillInv R idRows st all g →
  (∀ n, 0 ≤ n < idRows → 1 ≤ occ all n) →
  zget 0 rs 0 = 0 →
  (∀ i, 1 ≤ i ≤ R → zget 0 rs i = zget 0 (fst g) (i - 1)) →
  ∀ n, 0 ≤ n < idRows → rowHas (mkOperator k a b c d e rs (snd g)) n n.
Proof.
  intros (Hlen & H0 & Hst) HR (Hg & Hrun & _ & Hid) Hocc Hrs0 Hrs n Hn.
  assert (Hsame : ∀ i, 0 ≤ i ≤ R → zget 0 rs i = zget 0 st i).
  { intros i Hi. destruct (decide (i = 0)) as [-> | Hne]; [congruence|].
    rewrite Hrs, Hrun by lia. replace i with (i - 1 + 1) at 3 by lia.
    by rewrite (Hst (i - 1)) by lia. }
  destruct (Hid n Hn (Hocc n Hn)) as [Hcell Hcol].
  exists (zget 0 st n). cbn [rowStartsT colIdsT].
  rewrite !Hsame by lia. rewrite (Hst n) by lia.
  specialize (Hocc n Hn). repeat split; lia.
Qed.

Lemma occ_le_app_l p q i : occ p i ≤ occ (p ++ q) i.
Proof. rewrite occ_app. pose proof (occ_nonneg q i). lia. Qed.

Lemma occ_seqZ_in rows q n : 0 ≤ n < rows → 1 ≤ occ (seqZ 0 rows ++ q) n.
Proof.
  intros Hn. rewrite occ_app, occ_seqZ by lia. pose proof (occ_nonneg q n).
  destruct (0 <=? n) eqn:E1, (n <? rows) eqn:E2; simpl; lia.
Qed.

Ltac apply_prefix :=
  repeat match goal with x := _ : list Z |- _ => subst x end;
  unfold entriesN, entriesT; rewrite !occ_app;
  repeat match goal with
  | |- context [occ ?q ?i] =>
      lazymatch goal with
      | H : 0 ≤ occ q i |- _ => fail
      | _ => pose proof (occ_nonneg q i)
      end
  end; lia.

Lemma buildGather_identity first NhaloP Nhalo NhaloExtN NhaloExtT offset Nrecv0_ N
    nodes indexMap recvOffsetN recvOffsetT NcolsN NcolsT :
  0 ≤ NhaloP ≤ Nhalo → Nhalo ≤ NhaloExtN ≤ NhaloExtT →
  0 ≤ offset → 0 ≤ Nrecv0_ → offset + Nrecv0_ ≤ N → N = zlen nodes →
  Forall (idInRange NhaloExtN NhaloExtT) nodes →
  let g := buildGather first NhaloP Nhalo NhaloExtN NhaloExtT offset Nrecv0_ N nodes
             indexMap recvOffsetN recvOffsetT NcolsN NcolsT in
  (∀ n, 0 ≤ n < (if first then NhaloP else Nhalo) → rowHas (fst g) n n) ∧
  (∀ n, 0 ≤ n < Nhalo → rowHas (snd g) n n).
Proof.
  intros HP HE Hoff Hr0 HN -> Hids g. subst g.
  set (idRows := if first then NhaloP else Nhalo).
  assert (HidRows : 0 ≤ idRows ≤ Nhalo) by (subst idRows; destruct first; lia).
  set (R := NhaloExtT) in *.
  assert (rows_ok : ∀ n, 0 ≤ n < zlen nodes → 0 ≤ rowOf nodes n < R).
  { intros n Hn. apply (Forall_zget _ node0 _ n) in Hids; [|done].
    destruct Hids. unfold rowOf. lia. }
  unfold buildGather. fold R.
  replace (if first then countHalo NhaloP (calloc (R + 1))
           else countHalo Nhalo (calloc (R + 1)))
    with (countHalo idRows (calloc (R + 1))) by (subst idRows; by destruct first).
  cbv zeta.
  pose proof (countHalo_spec R idRows ltac:(lia)) as cN0.
  pose proof (countHalo_spec R Nhalo ltac:(lia)) as cT0.
  set (rs0 := (countHalo idRows (calloc (R + 1)), countHalo Nhalo (calloc (R + 1)))).
  destruct (countLocal_spec R Nhalo nodes rows_ok offset _ _ rs0 ltac:(lia) cN0 cT0)
    as [cN1 cT1].
  set (rs1 := countLocal Nhalo offset nodes rs0) in *.
  destruct (countRecv_spec R nodes rows_ok offset (offset + Nrecv0_) _ _ rs1
              ltac:(lia) ltac:(lia) cN1 cT1) as [cN2 cT2].
  set (rs2 := countRecv offset (offset + Nrecv0_) nodes rs1) in *.
  destruct (countRecv_spec R nodes rows_ok (offset + Nrecv0_) (zlen nodes) _ _ rs2
              ltac:(lia) ltac:(lia) cN2 cT2) as [cN3 cT3].
  set (rs3 := countRecv (offset + Nrecv0_) (zlen nodes) nodes rs2) in *.
  destruct (prefixSum_spec R _ _ rs3 ltac:(lia) cN3 cT3) as [sN sT].
  fold (entriesN idRows Nhalo offset Nrecv0_ (zlen nodes) nodes) in sN.
  fold (entriesT Nhalo offset Nrecv0_ (zlen nodes) nodes) in sT.
  clearbody rs3. clear cN0 cT0 cN1 cT1 cN2 cT2 cN3 cT3 rs0 rs1 rs2.
  destruct (prefixSum R rs3) as [stN stT]. cbn [fst snd] in sN, sT. cbv beta iota.
  set (allN := entriesN idRows Nhalo offset Nrecv0_ (zlen nodes) nodes) in *.
  set (allT := entriesT Nhalo offset Nrecv0_ (zlen nodes) nodes) in *.
  set (nnzN := zget 0 stN NhaloExtN). set (nnzT := zget 0 stT R).
  assert (HnnzN : 0 ≤ nnzN) by (apply (startsOk_nonneg R allN); [done|lia]).
  assert (HnnzT : 0 ≤ nnzT) by (apply (startsOk_nonneg R allT); [done|lia]).
  assert (cellsN : ∀ n, 0 ≤ n < idRows → zget 0 stN (n + 1) ≤ nnzN)
    by (intros n Hn; apply (startsOk_mono R allN); [done|lia|lia]).
  assert (cellsT : ∀ n, 0 ≤ n < Nhalo → zget 0 stT (n + 1) ≤ nnzT)
    by (intros n Hn; apply (startsOk_mono R allT); [done|lia|lia]).
  replace (if first then fillHalo NhaloP (stN, calloc nnzN)
           else fillHalo Nhalo (stN, calloc nnzN))
    with (fillHalo idRows (stN, calloc nnzN)) by (subst idRows; by destruct first).
  (* the existing halo *)
  destruct (fillHalo_spec R allN stN idRows (calloc nnzN)) as [fN0 lN0];
    [done|lia|by rewrite zlen_calloc|by intro; apply_prefix|].
  destruct (fillHalo_spec R allT stT Nhalo (calloc nnzT)) as [fT0 lT0];
    [done|lia|by rewrite zlen_calloc|by intro; apply_prefix|].
  rewrite zlen_calloc in lN0, lT0 by done.
  set (gs0 := (fillHalo idRows (stN, calloc nnzN), fillHalo Nhalo (stT, calloc nnzT))).
  (* the nodes we still have *)
  destruct (fillLocal_N R Nhalo nodes rows_ok idRows allN stN nnzN sN ltac:(lia) cellsN
              offset indexMap (seqZ 0 idRows) gs0 ltac:(lia)) as [fN1 lN1];
    [by intro; apply_prefix|by intros; rewrite <- (app_nil_r (seqZ _ _)); apply occ_seqZ_in
    |done|done|].
  destruct (fillLocal_T R Nhalo nodes rows_ok Nhalo allT stT nnzT sT ltac:(lia) cellsT
              offset indexMap (seqZ 0 Nhalo) gs0 ltac:(lia)) as [fT1 lT1];
    [by intro; apply_prefix|by intros; rewrite <- (app_nil_r (seqZ _ _)); apply occ_seqZ_in
    |done|done|].
  set (gs1 := fillLocal Nhalo offset nodes indexMap gs0) in *.
  clearbody gs1. clear fN0 lN0 fT0 lT0 gs0.
  (* the first message *)
  set (gs1' := (gs1, recvOffsetN, recvOffsetT)).
  destruct (fillRecv_N R nodes rows_ok idRows allN stN nnzN sN ltac:(lia) cellsN
              offset (offset + Nrecv0_) (prefixOf fN1) gs1' ltac:(lia) ltac:(lia))
    as [fN2 lN2]; unfold prefixOf in *;
    [by intro; apply_prefix|by intros; apply occ_seqZ_in|done|done|].
  destruct (fillRecv_T R nodes rows_ok Nhalo allT stT nnzT sT ltac:(lia) cellsT
              offset (offset + Nrecv0_) (prefixOf fT1) gs1' ltac:(lia) ltac:(lia))
    as [fT2 lT2]; unfold prefixOf in *;
    [by intro; apply_prefix|by intros; apply occ_seqZ_in|done|done|].
  set (gs2 := fillRecv offset (offset + Nrecv0_) nodes gs1') in *.
  clearbody gs2. clear fN1 lN1 fT1 lT1 gs1'.
  (* the second message *)
  destruct (fillRecv_N R nodes rows_ok idRows allN stN nnzN sN ltac:(lia) cellsN
              (offset + Nrecv0_) (zlen nodes) (prefixOf fN2) gs2 ltac:(lia) ltac:(lia))
    as [fN3 lN3]; unfold prefixOf in *;
    [by intro; apply_prefix
    |by intros; rewrite <- app_assoc; apply occ_seqZ_in|done|done|].
  destruct (fillRecv_T R nodes rows_ok Nhalo allT stT nnzT sT ltac:(lia) cellsT
              (offset + Nrecv0_) (zlen nodes) (prefixOf fT2) gs2 ltac:(lia) ltac:(lia))
    as [fT3 lT3]; unfold prefixOf in *;
    [by intro; apply_prefix
    |by intros; rewrite <- app_assoc; apply occ_seqZ_in|done|done|].
  fold allN in fN3. fold allT in fT3.
  destruct (fillRecv (offset + Nrecv0_) (zlen nodes) nodes gs2) as [[[gN gT] eN] eT].
  cbn [fst snd] in fN3, fT3, lN3, lT3.
  (* the reset of the row starts *)
  pose proof (resetRowStarts_spec R (fst gN, fst gT) ltac:(lia)) as Hreset.
  cbn [fst snd] in Hreset.
  destruct Hreset as [(_ & HrN0 & HrN) (_ & HrT0 & HrT)];
    [apply fN3|apply fT3|].
  destruct (resetRowStarts R (gN.1, gT.1)) as [rsN rsT]. cbn [fst snd] in *.
  split; intros n Hn.
  - apply (rowHas_filled R idRows allN stN); try done; [lia|].
    intros; subst allN; unfold entriesN; rewrite <- !app_assoc; by apply occ_seqZ_in.
  - apply (rowHas_filled R Nhalo allT stT); try done; [lia|].
    intros; subst allT; unfold entriesT; rewrite <- !app_assoc; by apply occ_seqZ_in.
Qed.

(** ** The invariant of the rounds *)

(** What stays and what is counted for the send buffer *)
Lemma levelSend_spec (P : parallelNode_t → Prop) comm_rank st :
  b_N st = zlen (b_nodes st) → Forall P (b_nodes st) →
  let sp := levelSend comm_rank st in
  Forall P (s_keep sp) ∧ 0 ≤ s_NentriesSendN sp ≤ s_NentriesSendT sp.
Proof.
  intros HN HP. unfold levelSend.
  pose proof (zlen_nonneg' (b_nodes st)) as Hlen.
  destruct (countLoHi_splitLoHi (r_half (b_np st) (b_np_offset st)) (b_N st)
              (b_nodes st) ltac:(lia)) as (_ & _ & _ & Hin).
  destruct (countLoHi _ _ _) as [Nlo Nhi].
  destruct (splitLoHi _ _ _) as [lo hi]. cbn [fst snd] in Hin.
  match goal with |- context [countEntriesSend ?a ?b] =>
    pose proof (countEntriesSend_le a b) as Hle; destruct (countEntriesSend a b) as [eN eT]
  end.
  destruct (fillSendIds _ _) as [[idsN idsT] wiped].
  cbn [s_keep s_NentriesSendN s_NentriesSendT]. cbn [fst snd] in Hle. split; [|done].
  apply Forall_forall. intros a Ha. apply list_elem_of_In in Ha.
  destruct (Hin a) as (n & Hn & ->).
  { destruct (is_lo _ _ _); [by left|by right]. }
  apply Forall_zget; [done|lia].
Qed.

Lemma recvNodes_cond (c : bool) m :
  sentMessage m →
  recvNodes (if c then msg_Nsend m else 0) (msg_nodes m) = if c then msg_nodes m else [].
Proof. intros Hm. destruct c; [by apply recvNodes_sent|apply recvNodes_0]. Qed.

Lemma zlen_singleton {A} (a : A) : zlen [a] = 1.
Proof. done. Qed.

Section RoundInv.
Context `{StdSort}.
Variables (comm_rank size NhaloP Nhalo : Z).
Hypothesis halo_ok : 0 ≤ NhaloP ≤ Nhalo.

Lemma levelRound_inv m st :
  sentMessage (fst m) → sentMessage (snd m) →
  roundInv comm_rank size NhaloP Nhalo st → 1 < b_np st →
  roundInv comm_rank size NhaloP Nhalo (levelRound comm_rank size NhaloP Nhalo m st).
Proof.
  intros Hm0 Hm1 (Hw & Hsz & Hl0 & Hfirst & HN & Hext & Hids & HlN & HlT & Hlev) Hnp.
  destruct (sentMessage_spec _ Hm0) as (Hs0 & Hw0 & He0).
  destruct (sentMessage_spec _ Hm1) as (Hs1 & Hw1 & He1).
  destruct (levelSend_spec (λ a, 0 ≤ newId a) comm_rank st HN Hids) as [Hkeep Hsend].
  destruct (shrink_inWindow comm_rank (b_np st, b_np_offset st) Hnp Hw) as (Hw' & Hlt & _).
  unfold levelRound, recvCount.
  set (sp := levelSend comm_rank st) in *.
  cbv beta zeta iota.
  set (Nmsg_ := s_Nmsg sp).
  set (Nrecv0_ := if 0 <? Nmsg_ then msg_Nsend m.1 else 0).
  set (Nrecv1_ := if Nmsg_ =? 2 then msg_Nsend m.2 else 0).
  set (nodes := s_keep sp ++ _ ++ _).
  set (N := zlen (s_keep sp) + (Nrecv0_ + Nrecv1_)).
  assert (HNr : 0 ≤ Nrecv0_ ∧ 0 ≤ Nrecv1_).
  { pose proof (zlen_nonneg' (msg_nodes m.1)). pose proof (zlen_nonneg' (msg_nodes m.2)).
    subst Nrecv0_ Nrecv1_. destruct (0 <? Nmsg_), (Nmsg_ =? 2); lia. }
  assert (zlen nodes = N ∧ Forall (λ a, -1 ≤ newId a) nodes) as [Hlen Hlow].
  { subst nodes N Nrecv0_ Nrecv1_. rewrite !recvNodes_cond by done.
    rewrite !zlen_app, !Forall_app.
    destruct (0 <? Nmsg_), (Nmsg_ =? 2); (split; [unfold zlen in *; simpl; lia|]);
      (split; [|split]); try done;
      (eapply List.Forall_impl; [|eassumption]); cbv beta; intros; lia. }
  destruct (renumber_spec Nhalo N nodes ltac:(lia) (eq_sym Hlen) Hlow) as (HaN & HaE & HaI).
  set (a := renumber Nhalo N nodes) in *.
  pose proof (zlen_nonneg' (s_keep sp)) as Hoff.
  match goal with
  | |- context [buildGather ?f ?a1 ?a2 ?a3 ?a4 ?a5 ?a6 ?a7 ?a8 ?a9 ?b1 ?b2 ?b3 ?b4] =>
      destruct (buildGather_identity f a1 a2 a3 a4 a5 a6 a7 a8 a9 b1 b2 b3 b4
                  halo_ok HaE Hoff ltac:(lia) ltac:(lia) (eq_sym HaN) HaI) as [HgN HgT];
      destruct (buildGather f a1 a2 a3 a4 a5 a6 a7 a8 a9 b1 b2 b3 b4) as [gatherN gatherT]
  end.
  cbn [fst snd] in HgN, HgT, Hlt.
  destruct (shrink comm_rank (b_np st, b_np_offset st)) as [np' off']. cbn [fst snd] in Hlt.
  set (sorted := std_sort ltNewId (as_nodes a)).
  assert (Hsorted : zlen sorted = N) by (subst sorted; by rewrite std_sort_zlen).
  destruct (propagateSign_groups sorted) as (Hplen & Hpsame & _).
  rewrite Hsorted in Hplen, Hpsame.
  unfold roundInv.
  cbn [b_np b_np_offset b_Nlevels b_N b_nodes b_NhaloExtN b_NhaloExtT b_levelsN b_levelsT].
  rewrite !zlen_app, !zlen_singleton.
  split; [done|]. split; [lia|]. split; [lia|]. split; [lia|]. split; [done|].
  split; [done|]. split; [|split; [lia|split; [lia|]]].
  - apply (Forall_of_zget _ node0). intros i Hi. destruct (Hpsame i) as (_ & -> & _).
    assert (Hs : Forall (idInRange (as_NhaloExtN a) (as_NhaloExtT a)) sorted)
      by (by apply std_sort_Forall).
    apply (Forall_zget _ node0 _ i) in Hs; [|lia]. destruct Hs. lia.
  - intros l Hl. destruct (decide (l < b_Nlevels st)) as [Hlt'|Hge].
    + rewrite !zget_app_l by lia. apply Hlev. lia.
    + assert (l = b_Nlevels st) as -> by lia.
      rewrite <- HlN at 2. rewrite <- HlT at 2. rewrite !zget_snoc.
      unfold levelOk, recvFootprint. cbn [Nsend Nrecv0 Nrecv1 recvOffset gather].
      split; [lia|]. split; [destruct (0 <? Nmsg_), (Nmsg_ =? 2); lia|].
      split; [done|]. intros n Hn. apply HgN.
      destruct (b_np st =? size) eqn:E1, (b_Nlevels st =? 0) eqn:E2; lia.
Qed.

(** The rounds keep it to the end. *)
Lemma buildLevels_inv oracle fuel st st' :
  sentMessages oracle → roundInv comm_rank size NhaloP Nhalo st →
  buildLevels comm_rank size NhaloP Nhalo oracle fuel st = Some st' →
  roundInv comm_rank size NhaloP Nhalo st'.
Proof.
  intros Ho. unfold buildLevels. revert st.
  induction fuel as [|fuel IH]; intros st Hinv; cbn [while].
  - destruct (1 <? b_np st); [intros [=]|]. by intros [= <-].
  - destruct (1 <? b_np st) eqn:E; [|by intros [= <-]].
    apply IH. destruct (Ho (b_Nlevels st)). apply levelRound_inv; try done. lia.
Qed.
End RoundInv.

(** ** The constructed schedules *)

(** The ceilings are above every level of the schedule they are taken from. *)
Lemma scratchMax_spec Nlevels_ levelsT_ l :
  0 ≤ l < Nlevels_ →
  Nsend (zget level0 levelsT_ l) ≤ fst (scratchMax Nlevels_ levelsT_) ∧
  recvFootprint (zget level0 levelsT_ l) ≤ snd (scratchMax Nlevels_ levelsT_).
Proof.
  intros Hl. unfold scratchMax.
  assert (0 ≤ Nlevels_) as Hn by lia. revert l Hl.
  apply (forZ_ind (λ k (s : Z * Z), ∀ l, 0 ≤ l < k →
           Nsend (zget level0 levelsT_ l) ≤ fst s ∧
           recvFootprint (zget level0 levelsT_ l) ≤ snd s)); [lia|intros; lia|].
  intros k [sMax rMax] Hk IH l Hl. cbn [fst snd] in *. unfold recvFootprint in *.
  destruct (decide (l = k)) as [->|Hne].
  - split; [destruct (_ >? sMax) eqn:E; lia|destruct (_ >? rMax) eqn:E; lia].
  - destruct (IH l ltac:(lia)) as [IH1 IH2].
    split; [destruct (_ >? sMax) eqn:E; lia|destruct (_ >? rMax) eqn:E; lia].
Qed.

Lemma zlen_haloRows comm_rank NhaloP Nhalo sharedNodes :
  0 ≤ Nhalo → zlen (haloRows comm_rank NhaloP Nhalo sharedNodes) = Nhalo.
Proof. intros. unfold haloRows, zlen. rewrite length_fmap, length_seqZ. lia. Qed.

Section Schedules.
Context `{StdSort}.
Variables (comm_rank size : Z) (gpu : bool) (Dfloat : Type_)
          (sharedNodes : list parallelNode_t) (gatherHalo : ogsOperator_t)
          (oracle : Z → crMessage * crMessage).
Hypothesis size_pos : 1 ≤ size.
Hypothesis rank_ok : 0 ≤ comm_rank < size.
Hypothesis halo_ok : 0 ≤ NrowsN gatherHalo ≤ NrowsT gatherHalo.
Hypothesis newId_in_halo : Forall (λ s, 0 ≤ newId s < NrowsT gatherHalo) sharedNodes.
Hypothesis messages_sent : sentMessages oracle.

Lemma construct_inv :
  ∃ x st,
    construct comm_rank size gpu Dfloat (zlen sharedNodes) sharedNodes gatherHalo oracle
      = Some x ∧
    roundInv comm_rank size (NrowsN gatherHalo) (NrowsT gatherHalo) st ∧
    cr.Nlevels x = b_Nlevels st ∧ cr.levelsN x = b_levelsN st ∧
    cr.levelsT x = b_levelsT st ∧
    (cr.NsendMax x, cr.NrecvMax x) = scratchMax (b_Nlevels st) (b_levelsT st).
Proof.
  pose proof (initNodes_rows comm_rank (NrowsN gatherHalo) (NrowsT gatherHalo) sharedNodes
                ltac:(lia) newId_in_halo) as Hinit.
  unfold construct.
  assert (inWindow comm_rank (size, 0)) as Hw by (unfold inWindow; simpl; lia).
  rewrite countLevels_windows, Hinit by done. cbn [mbind option_bind].
  set (nodes := std_sort ltNewId _).
  set (st0 := mkBuild size 0 0 _ nodes _ _ _ [] []).
  destruct (buildLevels_total comm_rank size (NrowsN gatherHalo) (NrowsT gatherHalo)
              oracle (Z.to_nat size) st0) as [st Hst]; [done|simpl; lia|].
  rewrite Hst. cbn [mbind option_bind].
  apply buildLevels_inv in Hst; [|done|done|].
  - destruct (scratchMax _ _) as [NsendMax NrecvMax] eqn:E.
    eexists _, st. split; [done|]. split; [done|].
    unfold AllocBuffer.
    cbn [cr.Nlevels cr.levelsN cr.levelsT cr.NsendMax cr.NrecvMax cr.with_buffers]. done.
  - unfold roundInv, st0.
    cbn [b_np b_np_offset b_Nlevels b_N b_nodes b_NhaloExtN b_NhaloExtT b_levelsN
         b_levelsT].
    split; [done|]. split; [lia|]. split; [lia|]. split; [done|].
    split; [|split; [lia|split; [|split; [done|split; [done|intros; lia]]]]].
    + subst nodes. rewrite std_sort_zlen, zlen_app, zlen_haloRows; lia.
    + subst nodes. apply std_sort_Forall, Forall_app. split.
      * unfold haloRows. apply Forall_fmap, Forall_forall. intros n Hn.
        apply list_elem_of_In, elem_of_seqZ in Hn. simpl. lia.
      * eapply List.Forall_impl; [|exact newId_in_halo]. cbv beta. intros; lia.
Qed.
End Schedules.

(** C9: in every level of a constructed schedule the forward direction sends
    no more than the transposed one ([levelsN[l].Nsend <= levelsT[l].Nsend])
    and its receive footprint [recvOffset + Nrecv0 + Nrecv1] is no larger;
    hence [NsendMax] and [NrecvMax], which the constructor takes from the
    transposed schedule alone, bound the send counts and the receive
    footprints of both directions.  The constructor is given descriptors
    whose local ids are rows of the halo, and receives messages that some
    process has sent. *)
Theorem forward_within_transposed `{StdSort} comm_rank size gpu Dfloat sharedNodes
    gatherHalo oracle :
  1 ≤ size → 0 ≤ comm_rank < size → 0 ≤ NrowsN gatherHalo ≤ NrowsT gatherHalo →
  Forall (λ s, 0 ≤ newId s < NrowsT gatherHalo) sharedNodes →
  sentMessages oracle →
  ∃ x, construct comm_rank size gpu Dfloat (zlen sharedNodes) sharedNodes gatherHalo oracle
         = Some x ∧
       ∀ l, 0 ≤ l < cr.Nlevels x →
         let lvN := zget level0 (cr.levelsN x) l in
         let lvT := zget level0 (cr.levelsT x) l in
         Nsend lvN ≤ Nsend lvT ∧ recvFootprint lvN ≤ recvFootprint lvT ∧
         Nsend lvT ≤ cr.NsendMax x ∧ recvFootprint lvT ≤ cr.NrecvMax x ∧
         Nsend lvN ≤ cr.NsendMax x ∧ recvFootprint lvN ≤ cr.NrecvMax x.
Proof.
  intros Hsize Hrank Hhalo Hids Hsent.
  destruct (construct_inv comm_rank size gpu Dfloat sharedNodes gatherHalo oracle
              Hsize Hrank Hhalo Hids Hsent)
    as (x & st & Hx & Hinv & HL & HlN & HlT & Hmax).
  exists x. split; [done|]. intros l Hl lvN lvT. subst lvN lvT.
  rewrite HL in Hl. rewrite HlN, HlT.
  destruct Hinv as (_ & _ & _ & _ & _ & _ & _ & _ & _ & Hlev).
  destruct (Hlev l Hl) as (Hs & Hr & _).
  destruct (scratchMax_spec (b_Nlevels st) (b_levelsT st) l Hl) as [Hms Hmr].
  rewrite <- Hmax in Hms, Hmr. cbn [fst snd] in Hms, Hmr. lia.
Qed.

(** C10: every level's operator holds the identity columns of the halo: in
    the transposed operator each row [n] with [0 <= n < Nhalo] contains the
    column [n]; in the forward operator each row [n] with [0 <= n < NhaloP]
    does at the first level, and each row [n] with [0 <= n < Nhalo] at every
    later level. *)
Theorem identity_rows `{StdSort} comm_rank size gpu Dfloat sharedNodes gatherHalo oracle :
  1 ≤ size → 0 ≤ comm_rank < size → 0 ≤ NrowsN gatherHalo ≤ NrowsT gatherHalo →
  Forall (λ s, 0 ≤ newId s < NrowsT gatherHalo) sharedNodes →
  sentMessages oracle →
  ∃ x, construct comm_rank size gpu Dfloat (zlen sharedNodes) sharedNodes gatherHalo oracle
         = Some x ∧
       ∀ l, 0 ≤ l < cr.Nlevels x →
         (∀ n, 0 ≤ n < cr.Nhalo x → rowHas (gather (zget level0 (cr.levelsT x) l)) n n) ∧
         (l = 0 → ∀ n, 0 ≤ n < cr.NhaloP x →
                    rowHas (gather (zget level0 (cr.levelsN x) l)) n n) ∧
         (0 < l → ∀ n, 0 ≤ n < cr.Nhalo x →
                    rowHas (gather (zget level0 (cr.levelsN x) l)) n n).
Proof.
  intros Hsize Hrank Hhalo Hids Hsent.
  destruct (construct_inv comm_rank size gpu Dfloat sharedNodes gatherHalo oracle
              Hsize Hrank Hhalo Hids Hsent)
    as (x & st & Hx & Hinv & HL & HlN & HlT & Hmax).
  exists x. split; [done|]. intros l Hl.
  assert (cr.NhaloP x = NrowsN gatherHalo ∧ cr.Nhalo x = NrowsT gatherHalo) as [-> ->].
  { unfold construct in Hx.
    destruct (countLevels size comm_rank); [|done].
    destruct (initNodes _ _ _ _ _); [|done]. cbn [mbind option_bind] in Hx.
    destruct (buildLevels _ _ _ _ _ _ _); [|done]. cbn [mbind option_bind] in Hx.
    destruct (scratchMax _ _). injection Hx as <-. unfold AllocBuffer.
    by cbn [cr.NhaloP cr.Nhalo cr.with_buffers]. }
  rewrite HL in Hl. rewrite HlN, HlT.
  destruct Hinv as (_ & _ & _ & _ & _ & _ & _ & _ & _ & Hlev).
  destruct (Hlev l Hl) as (_ & _ & HT & HN).
  split; [done|]. split.
  - intros ->. exact HN.
  - intros Hpos. destruct (l =? 0) eqn:E; [lia|exact HN].
Qed.

Lemma forward_within_transposed_witness :
  ∃ x, construct 0 2 false Double (zlen shared0) shared0 gatherHalo1 peerMessages = Some x ∧
       ∀ l, 0 ≤ l < cr.Nlevels x →
         let lvN := zget level0 (cr.levelsN x) l in
         let lvT := zget level0 (cr.levelsT x) l in
         Nsend lvN ≤ Nsend lvT ∧ recvFootprint lvN ≤ recvFootprint lvT ∧
         Nsend lvT ≤ cr.NsendMax x ∧ recvFootprint lvT ≤ cr.NrecvMax x ∧
         Nsend lvN ≤ cr.NsendMax x ∧ recvFootprint lvN ≤ cr.NrecvMax x.
Proof.
  apply (forward_within_transposed 0 2 false Double shared0 gatherHalo1 peerMessages).
  - lia.
  - lia.
  - simpl. lia.
  - repeat constructor; simpl; lia.
  - intros l. split.
    + exists 1, peerState. reflexivity.
    + exists 0, (mkBuild 1 0 0 0 [] 0 0 0 [] []). reflexivity.
Defined.

Lemma identity_rows_witness :
  ∃ x, construct 0 2 false Double (zlen shared0) shared0 gatherHalo1 peerMessages = Some x ∧
       ∀ l, 0 ≤ l < cr.Nlevels x →
         (∀ n, 0 ≤ n < cr.Nhalo x → rowHas (gather (zget level0 (cr.levelsT x) l)) n n) ∧
         (l = 0 → ∀ n, 0 ≤ n < cr.NhaloP x →
                    rowHas (gather (zget level0 (cr.levelsN x) l)) n n) ∧
         (0 < l → ∀ n, 0 ≤ n < cr.Nhalo x →
                    rowHas (gather (zget level0 (cr.levelsN x) l)) n n).
Proof.
  apply (identity_rows 0 2 false Double shared0 gatherHalo1 peerMessages).
  - lia.
  - lia.
  - simpl. lia.
  - repeat constructor; simpl; lia.
  - intros l. split.
    + exists 1, peerState. reflexivity.
    + exists 0, (mkBuild 1 0 0 0 [] 0 0 0 [] []). reflexivity.
Defined.


(** ** The pairing of a round: sends and receives *)

(** X1: in a round with window (np, np_offset), np > 1, the sends and the
    receives of lines 294-302 match: rank [r] sends to [q] exactly when [q]
    posts a receive from [r], which is its first receive (from its partner,
    posted when [Nmsg > 0]) or its second (from [r_half-1], posted when
    [Nmsg == 2]).  [Nmsg] is 0, 1 or 2, and a rank with [Nmsg == 2] is
    [r_half], so that the source [rank-1] that [Finish] gives the second
    receive is the [r_half-1] of the constructor. *)
Theorem sends_match_receives np off r q :
  1 < np → off ≤ r < off + np → off ≤ q < off + np →
  (levelPartner r np off = q ↔
     (0 < levelNmsg q np off ∧ levelPartner q np off = r) ∨
     (levelNmsg q np off = 2 ∧ r = r_half np off - 1)) ∧
  0 ≤ levelNmsg q np off ≤ 2 ∧
  (levelNmsg q np off = 2 → q - 1 = r_half np off - 1).
Proof.
  intros Hnp Hr Hq.
  pose proof (levelPartner_spec r np off Hnp Hr) as Sr.
  pose proof (levelPartner_spec q np off Hnp Hq) as Sq.
  unfold r_half, mirror in *. rewrite np_half_div in * by lia.
  assert (Hfin : ∀ (A B C D E : Prop), (A → B ∨ C) → (B → A) → (C → A) → D → E →
                   (A ↔ B ∨ C) ∧ D ∧ E) by tauto.
  destruct (decide (np - 1 - (r - off) + off = r)) as [Hmr|Hmr];
    destruct (decide (np - 1 - (q - off) + off = q)) as [Hmq|Hmq].
  - destruct Sr as (Hodd & Hrr & -> & Hnr), Sq as (_ & Hqq & -> & ->).
    apply Hfin; lia.
  - destruct Sr as (Hodd & Hrr & -> & _), Sq as (-> & _ & ->).
    case_decide; apply Hfin; lia.
  - destruct Sr as (-> & _ & _), Sq as (_ & Hqq & -> & ->).
    apply Hfin; lia.
  - destruct Sr as (-> & _ & _), Sq as (-> & _ & ->).
    case_decide; apply Hfin; lia.
Qed.

Lemma sends_match_receives_witness :
  (levelPartner 1 3 0 = 2 ↔
     (0 < levelNmsg 2 3 0 ∧ levelPartner 2 3 0 = 1) ∨
     (levelNmsg 2 3 0 = 2 ∧ 1 = r_half 3 0 - 1)) ∧
  0 ≤ levelNmsg 2 3 0 ≤ 2 ∧
  (levelNmsg 2 3 0 = 2 → 2 - 1 = r_half 3 0 - 1).
Proof. apply (sends_match_receives 3 0 1 2); lia. Defined.

(** X2: the two halves of a window of np > 1 ranks are not empty, are
    disjoint and cover it; a rank goes on in the half it is in, and its
    partner is a rank of the other half. *)
Theorem halves_partition np off r :
  1 < np → off ≤ r < off + np →
  let lo := (np_half np, off) in
  let hi := (np - np_half np, r_half np off) in
  1 ≤ fst lo < np ∧ 1 ≤ fst hi < np ∧
  snd lo + fst lo = snd hi ∧ snd hi + fst hi = off + np ∧
  shrink r (np, off) = (if is_lo r np off then lo else hi) ∧
  inWindow r (shrink r (np, off)) ∧
  inWindow (levelPartner r np off) (if is_lo r np off then hi else lo).
Proof.
  intros Hnp Hr lo hi. subst lo hi.
  pose proof (levelPartner_spec r np off Hnp Hr) as Sr.
  unfold shrink, inWindow, is_lo, r_half, mirror in *. cbn [fst snd].
  rewrite np_half_div in * by lia.
  destruct (decide _) as [Hm|Hm].
  - destruct Sr as (Hodd & Hrr & -> & _).
    destruct (r <? _) eqn:E; cbn [fst snd]; repeat split; lia.
  - destruct Sr as (-> & _ & _).
    destruct (r <? _) eqn:E; cbn [fst snd]; repeat split; lia.
Qed.

Lemma halves_partition_witness :
  let lo := (np_half 5, 0) in
  let hi := (5 - np_half 5, r_half 5 0) in
  1 ≤ fst lo < 5 ∧ 1 ≤ fst hi < 5 ∧
  snd lo + fst lo = snd hi ∧ snd hi + fst hi = 0 + 5 ∧
  shrink 3 (5, 0) = (if is_lo 3 5 0 then lo else hi) ∧
  inWindow 3 (shrink 3 (5, 0)) ∧
  inWindow (levelPartner 3 5 0) (if is_lo 3 5 0 then hi else lo).
Proof. apply (halves_partition 5 0 3); lia. Defined.

(** ** The comparators of the sorts *)

(** X3: the two comparators the constructor gives to [std::sort] (lines
    252-255, 421-427 and 655-658) are strict weak orderings, as [std::sort]
    requires: irreflexive, transitive, and with a transitive
    incomparability. *)
Theorem comparators_strict_weak : strictWeak ltNewId ∧ strictWeak ltBaseId.
Proof.
  split; unfold strictWeak, ltNewId, ltBaseId, absBase.
  - repeat split; intros; lia.
  - split; [|split].
    + intros a. destruct (_ <? _) eqn:E1; [lia|]. destruct (_ >? _) eqn:E2; lia.
    + intros a b c.
      destruct (Z.abs (baseId a) <? Z.abs (baseId b)) eqn:E1,
               (Z.abs (baseId a) >? Z.abs (baseId b)) eqn:E2,
               (Z.abs (baseId b) <? Z.abs (baseId c)) eqn:E3,
               (Z.abs (baseId b) >? Z.abs (baseId c)) eqn:E4,
               (Z.abs (baseId a) <? Z.abs (baseId c)) eqn:E5,
               (Z.abs (baseId a) >? Z.abs (baseId c)) eqn:E6; lia.
    + intros a b c.
      destruct (Z.abs (baseId a) <? Z.abs (baseId b)) eqn:E1,
               (Z.abs (baseId a) >? Z.abs (baseId b)) eqn:E2,
               (Z.abs (baseId b) <? Z.abs (baseId a)) eqn:E1',
               (Z.abs (baseId b) >? Z.abs (baseId a)) eqn:E2',
               (Z.abs (baseId b) <? Z.abs (baseId c)) eqn:E3,
               (Z.abs (baseId b) >? Z.abs (baseId c)) eqn:E4,
               (Z.abs (baseId c) <? Z.abs (baseId b)) eqn:E3',
               (Z.abs (baseId c) >? Z.abs (baseId b)) eqn:E4',
               (Z.abs (baseId a) <? Z.abs (baseId c)) eqn:E5,
               (Z.abs (baseId a) >? Z.abs (baseId c)) eqn:E6,
               (Z.abs (baseId c) <? Z.abs (baseId a)) eqn:E5',
               (Z.abs (baseId c) >? Z.abs (baseId a)) eqn:E6'; lia.
Qed.

(** ** The scratch ceilings *)

(** X4: [NsendMax] and [NrecvMax] (lines 690-697) are the largest send count
    and the largest receive footprint of the transposed levels: above each
    of them, and either 0 or reached by one of them. *)
Theorem scratchMax_is_max Nlevels_ levelsT_ :
  let '(NsendMax, NrecvMax) := scratchMax Nlevels_ levelsT_ in
  (∀ l, 0 ≤ l < Nlevels_ →
     Nsend (zget level0 levelsT_ l) ≤ NsendMax ∧
     recvFootprint (zget level0 levelsT_ l) ≤ NrecvMax) ∧
  (NsendMax = 0 ∨ ∃ l, 0 ≤ l < Nlevels_ ∧ NsendMax = Nsend (zget level0 levelsT_ l)) ∧
  (NrecvMax = 0 ∨
   ∃ l, 0 ≤ l < Nlevels_ ∧ NrecvMax = recvFootprint (zget level0 levelsT_ l)).
Proof.
  destruct (scratchMax Nlevels_ levelsT_) as [sMax rMax] eqn:E.
  split.
  { intros l Hl. pose proof (scratchMax_spec Nlevels_ levelsT_ l Hl) as Hs.
    by rewrite E in Hs. }
  destruct (Z.le_gt_cases 0 Nlevels_) as [Hn|Hn].
  2:{ unfold scratchMax in E. rewrite forZ_nil in E by lia. injection E as <- <-.
      split; by left. }
  revert sMax rMax E. unfold scratchMax.
  apply (forZ_ind (λ k (s : Z * Z), ∀ sMax rMax, s = (sMax, rMax) →
           (sMax = 0 ∨ ∃ l, 0 ≤ l < k ∧ sMax = Nsend (zget level0 levelsT_ l)) ∧
           (rMax = 0 ∨ ∃ l, 0 ≤ l < k ∧ rMax = recvFootprint (zget level0 levelsT_ l))));
    [done| |].
  - intros sMax rMax [= <- <-]. split; by left.
  - intros k [s0 r0] Hk IH sMax rMax. destruct (IH s0 r0 eq_refl) as [IHs IHr].
    unfold recvFootprint in *. intros [= <- <-]. split.
    + destruct (_ >? s0) eqn:E.
      * right. exists k. split; [lia|done].
      * destruct IHs as [->|(l & Hl & ->)]; [by left|]. right. exists l. split; [lia|done].
    + destruct (_ >? r0) eqn:E.
      * right. exists k. split; [lia|done].
      * destruct IHr as [->|(l & Hl & ->)]; [by left|]. right. exists l. split; [lia|done].
Qed.


(** ** The split of the node list and the send lists *)

(** X5: the split of lines 283-320 loses and invents nothing and keeps the
    order: [loNodes] holds the descriptors of [nodes[0..N)] whose destination
    is below [r_half], in their order, [hiNodes] the others in theirs, and
    [Nlo], [Nhi] are their numbers, so that the two arrays are filled
    exactly. *)
Theorem split_is_partition r_half N nodes :
  0 ≤ N ≤ zlen nodes →
  let first := take (Z.to_nat N) nodes in
  splitLoHi r_half N nodes =
    (filter (λ a, rank a < r_half) first, filter (λ a, ¬ rank a < r_half) first) ∧
  countLoHi r_half N nodes =
    (zlen (filter (λ a, rank a < r_half) first),
     zlen (filter (λ a, ¬ rank a < r_half) first)).
Proof.
  intros HN first. subst first.
  assert (splitLoHi r_half N nodes =
            (filter (λ a, rank a < r_half) (take (Z.to_nat N) nodes),
             filter (λ a, ¬ rank a < r_half) (take (Z.to_nat N) nodes))) as Hs.
  { unfold splitLoHi.
    apply (forZ_ind (λ i s,
      s = (filter (λ a, rank a < r_half) (take (Z.to_nat i) nodes),
           filter (λ a, ¬ rank a < r_half) (take (Z.to_nat i) nodes)))); [lia|done|].
    intros i [lo hi] Hi [= -> ->].
    rewrite (take_snoc_zget node0) by lia. rewrite !list.filter_app, !list.filter_cons, !list.filter_nil.
    destruct (rank (nodeAt nodes i) <? r_half) eqn:E.
    - rewrite decide_True, decide_False by lia. by rewrite app_nil_r.
    - rewrite decide_False, decide_True by lia. by rewrite app_nil_r. }
  split; [done|].
  destruct (countLoHi_splitLoHi r_half N nodes ltac:(lia)) as (H1 & H2 & _).
  rewrite Hs in H1, H2. cbn [fst snd] in H1, H2.
  destruct (countLoHi r_half N nodes) as [Nlo Nhi]. cbn [fst snd] in *. by subst.
Qed.

Lemma split_is_partition_witness :
  let first := take (Z.to_nat 3) [mkNode 0 0 2 5 1; mkNode 0 1 2 6 0; mkNode 0 2 2 7 3] in
  splitLoHi 2 3 [mkNode 0 0 2 5 1; mkNode 0 1 2 6 0; mkNode 0 2 2 7 3] =
    (filter (λ a, rank a < 2) first, filter (λ a, ¬ rank a < 2) first) ∧
  countLoHi 2 3 [mkNode 0 0 2 5 1; mkNode 0 1 2 6 0; mkNode 0 2 2 7 3] =
    (zlen (filter (λ a, rank a < 2) first), zlen (filter (λ a, ¬ rank a < 2) first)).
Proof.
  apply (split_is_partition 2 3 [mkNode 0 0 2 5 1; mkNode 0 1 2 6 0; mkNode 0 2 2 7 3]).
  vm_compute. split; discriminate.
Defined.

Lemma zlen_evRows_snoc c (r : Z → Z) lo hi :
  lo ≤ hi →
  zlen (evRows c r lo (hi + 1)) = zlen (evRows c r lo hi) + (if c hi then 1 else 0).
Proof.
  intros. rewrite evRows_snoc by done. rewrite zlen_app. by destruct (c hi).
Qed.

(** X6: the two passes over the descriptors to send (lines 333-356) agree.
    The second writes into [sendIds] the [newId] of the first descriptor of
    every group, in order (for the forward list: of every group whose first
    descriptor has a positive sign), which are as many as the first pass has
    counted and the arrays were allocated for; the forward list is no longer
    than the transposed one, which is no longer than the descriptors are
    many; and every descriptor sent leaves with [newId = -1] and is
    otherwise unchanged. *)
Theorem send_lists_filled Nsend_ sendNodes :
  0 ≤ Nsend_ ≤ zlen sendNodes →
  let '(sendIdsN, sendIdsT, wiped) := fillSendIds Nsend_ sendNodes in
  let '(NentriesSendN, NentriesSendT) := countEntriesSend Nsend_ sendNodes in
  sendIdsT = evRows (groupStart sendNodes 0) (λ n, newId (nodeAt sendNodes n)) 0 Nsend_ ∧
  sendIdsN = evRows (λ n, groupStart sendNodes 0 n && (0 <? sign (nodeAt sendNodes n)))
                    (λ n, newId (nodeAt sendNodes n)) 0 Nsend_ ∧
  zlen sendIdsN = NentriesSendN ∧ zlen sendIdsT = NentriesSendT ∧
  0 ≤ NentriesSendN ≤ NentriesSendT ∧ NentriesSendT ≤ Nsend_ ∧
  zlen wiped = zlen sendNodes ∧
  ∀ k, nodeAt wiped k = if (0 <=? k) && (k <? Nsend_)
                        then setNewId (-1) (nodeAt sendNodes k) else nodeAt sendNodes k.
Proof.
  intros HN.
  pose proof (fillSendIds_wiped Nsend_ sendNodes HN) as [Hwl Hwg].
  pose proof (countEntriesSend_le Nsend_ sendNodes) as Hle.
  set (cT := groupStart sendNodes 0).
  set (cN := λ n, groupStart sendNodes 0 n && (0 <? sign (nodeAt sendNodes n))).
  set (r := λ n, newId (nodeAt sendNodes n)).
  assert (Hids : fst (fillSendIds Nsend_ sendNodes)
                 = (evRows cN r 0 Nsend_, evRows cT r 0 Nsend_)).
  { unfold fillSendIds.
    apply (forZ_ind (λ i s,
      fst s = (evRows cN r 0 i, evRows cT r 0 i) ∧ zlen (snd s) = zlen sendNodes ∧
      ∀ k, nodeAt (snd s) k = if (0 <=? k) && (k <? i)
                              then setNewId (-1) (nodeAt sendNodes k)
                              else nodeAt sendNodes k)); [lia| |].
    - split; [by rewrite !evRows_nil by lia|]. split; [done|]. intros k. cbn [snd].
      destruct (_ && _) eqn:E; [lia|done].
    - intros i [[idsN idsT] cur] Hi ([= -> ->] & Hlen & Hcur). cbn [fst snd] in *.
      assert (Hi0 : nodeAt cur i = nodeAt sendNodes i).
      { rewrite Hcur. destruct (_ && _) eqn:E; [lia|done]. }
      assert (Hgs : groupStart cur 0 i = groupStart sendNodes 0 i).
      { unfold groupStart, absBase. rewrite !Hcur.
        destruct ((0 <=? i) && (i <? i)) eqn:E1; [lia|].
        destruct ((0 <=? i - 1) && (i - 1 <? i)) eqn:E2; [|done]. done. }
      rewrite Hgs, Hi0, !evRows_snoc by lia. subst cN cT r. cbv beta.
      assert (Hsnd : ∀ (p : list Z * list Z),
                (let '(a, b) := p in (a, b, zset cur i (setNewId (-1) (nodeAt sendNodes i))))
                = (p, zset cur i (setNewId (-1) (nodeAt sendNodes i)))) by (by intros []).
      rewrite Hsnd. cbn [fst snd]. split; [|split].
      + destruct (groupStart sendNodes 0 i); cbn [andb];
          [destruct (0 <? sign (nodeAt sendNodes i))|]; by rewrite ?app_nil_r.
      + by rewrite zlen_zset.
      + intros k. rewrite zget_zset by lia. destruct (decide (k = i)) as [->|Hne].
        * destruct ((0 <=? i) && (i <? i + 1)) eqn:E; [done|lia].
        * rewrite Hcur. destruct ((0 <=? k) && (k <? i)) eqn:E1,
            ((0 <=? k) && (k <? i + 1)) eqn:E2; done || lia. }
  assert (countEntriesSend Nsend_ sendNodes
            = (zlen (evRows cN r 0 Nsend_), zlen (evRows cT r 0 Nsend_)) ∧
          zlen (evRows cT r 0 Nsend_) ≤ Nsend_) as [Hcnt Hmax].
  { unfold countEntriesSend.
    apply (forZ_ind (λ i s,
      s = (zlen (evRows cN r 0 i), zlen (evRows cT r 0 i)) ∧
      zlen (evRows cT r 0 i) ≤ i)); [lia| |].
    - by rewrite !evRows_nil by lia.
    - intros i [eN eT] Hi [[= -> ->] Hm]. rewrite !zlen_evRows_snoc by lia.
      subst cN cT. cbv beta.
      destruct (groupStart sendNodes 0 i); cbn [andb];
        [destruct (0 <? sign (nodeAt sendNodes i))|]; (split; [f_equal; lia|lia]). }
  destruct (fillSendIds Nsend_ sendNodes) as [[idsN idsT] wiped].
  cbn [fst snd] in *. injection Hids as -> ->.
  rewrite Hcnt in *. cbn [fst snd] in Hle. done.
Qed.

Lemma send_lists_filled_witness :
  let sendNodes := [mkNode 0 0 2 5 1; mkNode 0 0 2 5 2; mkNode 0 1 (-2) (-6) 1] in
  let '(sendIdsN, sendIdsT, wiped) := fillSendIds 3 sendNodes in
  let '(NentriesSendN, NentriesSendT) := countEntriesSend 3 sendNodes in
  sendIdsT = evRows (groupStart sendNodes 0) (λ n, newId (nodeAt sendNodes n)) 0 3 ∧
  sendIdsN = evRows (λ n, groupStart sendNodes 0 n && (0 <? sign (nodeAt sendNodes n)))
                    (λ n, newId (nodeAt sendNodes n)) 0 3 ∧
  zlen sendIdsN = NentriesSendN ∧ zlen sendIdsT = NentriesSendT ∧
  0 ≤ NentriesSendN ≤ NentriesSendT ∧ NentriesSendT ≤ 3 ∧
  zlen wiped = zlen sendNodes ∧
  ∀ k, nodeAt wiped k = if (0 <=? k) && (k <? 3)
                        then setNewId (-1) (nodeAt sendNodes k) else nodeAt sendNodes k.
Proof.
  apply (send_lists_filled 3 [mkNode 0 0 2 5 1; mkNode 0 0 2 5 2; mkNode 0 1 (-2) (-6) 1]).
  vm_compute. split; discriminate.
Defined.


(** ** The two loops over the fold *)

(** X7: the loop that counts the levels (lines 204-221) and the loop that
    builds them (lines 263-687) make the same number of rounds, so that the
    arrays [levelsN] and [levelsT], allocated after the first loop, are
    filled exactly by the second. *)
Theorem levels_allocated `{StdSort} comm_rank size gpu Dfloat sharedNodes gatherHalo oracle :
  1 ≤ size → 0 ≤ comm_rank < size → 0 ≤ NrowsT gatherHalo →
  Forall (λ s, 0 ≤ newId s < NrowsT gatherHalo) sharedNodes →
  ∃ x n,
    construct comm_rank size gpu Dfloat (zlen sharedNodes) sharedNodes gatherHalo oracle
      = Some x ∧
    countLevels size comm_rank = Some n ∧
    cr.Nlevels x = n ∧ zlen (cr.levelsN x) = n ∧ zlen (cr.levelsT x) = n.
Proof.
  intros Hsize Hrank Hhalo Hids.
  pose proof (initNodes_rows comm_rank (NrowsN gatherHalo) (NrowsT gatherHalo) sharedNodes
                Hhalo Hids) as Hinit.
  destruct (construct_levels comm_rank size gpu Dfloat (zlen sharedNodes) sharedNodes
              gatherHalo oracle _ Hsize Hrank Hinit) as (x & Hx & HL & HN & HT).
  exists x, (cr.Nlevels x). split; [done|].
  rewrite countLevels_windows, HL by (unfold inWindow; simpl; lia).
  split; [done|]. split; [done|].
  apply (f_equal length) in HN, HT. rewrite !length_fmap in HN, HT.
  unfold zlen. split; congruence.
Qed.

Lemma levels_allocated_witness :
  ∃ x n,
    construct 2 5 false Double (zlen shared0) shared0 gatherHalo1 noMessages = Some x ∧
    countLevels 5 2 = Some n ∧
    cr.Nlevels x = n ∧ zlen (cr.levelsN x) = n ∧ zlen (cr.levelsT x) = n.
Proof.
  apply (levels_allocated 2 5 false Double shared0 gatherHalo1 noMessages).
  - lia.
  - lia.
  - simpl. lia.
  - repeat constructor; simpl; lia.
Defined.


(** ** The loop of Finish *)

Lemma posted_app tr1 tr2 : posted (tr1 ++ tr2) = posted tr1 + posted tr2.
Proof. unfold posted. by rewrite omap_app, zlen_app. Qed.

Lemma awaited_app tr1 tr2 : awaited (tr1 ++ tr2) = awaited tr1 + awaited tr2.
Proof.
  unfold awaited. rewrite omap_app. induction (omap _ tr1) as [|a l IH]; simpl; lia.
Qed.

Section FinishLoop.
Context (Gather : ogsOperator_t → list byte → list byte → Z → Type_ → Op →
                  Transpose → list byte).
Context (extract : Z → Z → Type_ → list Z → list byte → list byte → list byte).
Context (arrives : Z → Z → list byte).

Lemma finishLevel_step k type op host comm_rank gpu l lv s b' tr' :
  finishLevel Gather extract arrives k type op host comm_rank gpu l lv s = Some (b', tr') →
  ∃ b tr, s = Some (b, tr) ∧ pointers b' = rotate (buf_id b) ∧
          posted tr' = posted tr + (if 0 <? Nmsg lv then 1 else 0)
                                 + (if Nmsg lv =? 2 then 1 else 0) + 1 ∧
          awaited tr' = awaited tr + (Nmsg lv + 1).
Proof.
  unfold finishLevel. destruct s as [[b tr]|]; [|done]. cbn [mbind option_bind].
  intros Hf. exists b, tr. split; [done|].
  destruct gpu, host, (Nsend lv =? 0), (0 <? Nmsg lv), (Nmsg lv =? 2);
    cbn [negb andb] in Hf;
    repeat first
      [ progress cbn [mbind option_bind] in Hf
      | match type of Hf with
        | context [memwrite ?a ?b ?c ?d] => destruct (memwrite a b c d)
        end ];
    simplify_eq;
    rewrite ?posted_app, ?awaited_app; unfold pointers, rotate; simpl;
    (split; [done|]); split; unfold posted, awaited, zlen; simpl; lia.
Qed.

(** What the loop of lines 89-144 leaves *)
Lemma Finish_loop k type op host comm_rank gpu levels n b0 tr0 b tr :
  forZ 0 n (λ l s, finishLevel Gather extract arrives k type op host comm_rank gpu l
                     (zget level0 levels l) s) (Some (b0, tr0)) = Some (b, tr) →
  pointers b = (if n <=? 0 then pointers b0
                else let id := (buf_id b0 + n) `mod` 2 in (id, 1 - id, id, 1 - id, id)) ∧
  (Forall (λ lv, 0 ≤ Nmsg lv ≤ 2) (driven n levels) →
   awaited tr - posted tr = awaited tr0 - posted tr0).
Proof.
  destruct (Z.le_gt_cases n 0) as [Hn|Hn].
  { rewrite forZ_nil by lia. intros [= <- <-].
    destruct (n <=? 0) eqn:E; [done|lia]. }
  revert b tr.
  apply (forZ_ind (λ i s, ∀ b tr, s = Some (b, tr) →
    pointers b = (if i <=? 0 then pointers b0
                  else let id := (buf_id b0 + i) `mod` 2 in (id, 1 - id, id, 1 - id, id)) ∧
    (Forall (λ lv, 0 ≤ Nmsg lv ≤ 2) (driven i levels) →
     awaited tr - posted tr = awaited tr0 - posted tr0))); [lia| |].
  - by intros b tr [= <- <-].
  - intros i s Hi IH b tr Hs.
    apply finishLevel_step in Hs as (b1 & tr1 & -> & Hp & Hpost & Hwait).
    destruct (IH b1 tr1 eq_refl) as [IHp IHc]. split.
    + destruct (i + 1 <=? 0) eqn:E; [lia|]. rewrite Hp. unfold rotate. cbv zeta.
      assert (buf_id b1 `mod` 2 = (buf_id b0 + i) `mod` 2) as Hid.
      { unfold pointers in IHp. destruct (i <=? 0) eqn:E'.
        - injection IHp as _ _ _ _ ->. f_equal. lia.
        - cbv zeta in IHp. injection IHp as _ _ _ _ ->. by rewrite Z.mod_mod. }
      assert ((buf_id b1 + 1) `mod` 2 = (buf_id b0 + (i + 1)) `mod` 2) as -> by lia.
      assert ((buf_id b1 + 0) `mod` 2 = 1 - (buf_id b0 + (i + 1)) `mod` 2) as -> by lia.
      done.
    + rewrite driven_snoc by lia. intros [Hd Hlv]%Forall_app.
      apply List.Forall_inv in Hlv. cbv beta in Hlv. specialize (IHc Hd).
      rewrite Hpost, Hwait.
      destruct (0 <? Nmsg _) eqn:E1, (Nmsg _ =? 2) eqn:E2; lia.
Qed.

(** X8: [Finish] rotates the two halves of the halo buffer once per level
    and changes nothing else of the object but the contents of the
    buffers.  After [Nlevels > 0] levels [buf_id] is the old one plus
    [Nlevels], modulo 2; [haloBuf] and [o_haloBuf] name the half [buf_id],
    [recvBuf] and [o_recvBuf] the other one.  Without levels the pointers
    are as they were. *)
Theorem Finish_rotates k type op trans host x x' tr :
  Finish Gather extract arrives k type op trans host x = Some (x', tr) →
  cr.with_buffers (cr.buffers x) x' = x ∧
  pointers (cr.buffers x') =
    (if cr.Nlevels x <=? 0 then pointers (cr.buffers x)
     else let id := (buf_id (cr.buffers x) + cr.Nlevels x) `mod` 2 in
          (id, 1 - id, id, 1 - id, id)).
Proof.
  unfold Finish.
  destruct (forZ 0 (cr.Nlevels x) _ _) as [[b t]|] eqn:Hloop;
    cbn [mbind option_bind]; [|done].
  apply Finish_loop in Hloop as [Hp _].
  destruct (negb ((if Transpose_eqb trans Trans then _ else _) =? 0));
    [destruct (negb (cr.gpu_aware x) && negb host)|].
  - destruct (memcpy _ _ _); cbn [mbind option_bind]; [|done]. intros [= <- <-].
    split; [by destruct x|exact Hp].
  - intros [= <- <-]. split; [by destruct x|exact Hp].
  - intros [= <- <-]. split; [by destruct x|exact Hp].
Qed.

(** X9: when every level has 0, 1 or 2 messages, [Finish] waits for as many
    requests as it has posted: level by level, [MPI_Waitall] is given
    [Nmsg+1] requests, the send and the [Nmsg] receives. *)
Theorem Finish_waits_for_posted k type op trans host x x' tr :
  Forall (λ lv, 0 ≤ Nmsg lv ≤ 2) (driven (cr.Nlevels x) (levelsOf x trans)) →
  Finish Gather extract arrives k type op trans host x = Some (x', tr) →
  awaited tr = posted tr.
Proof.
  intros Hlv. unfold Finish.
  replace (if Transpose_eqb trans NoTrans then cr.levelsN x else cr.levelsT x)
    with (levelsOf x trans) by (by destruct trans).
  destruct (forZ 0 (cr.Nlevels x) _ _) as [[b t]|] eqn:Hloop;
    cbn [mbind option_bind]; [|done].
  apply Finish_loop in Hloop as [_ Hc]. specialize (Hc Hlv).
  assert (awaited t = posted t) as Ht.
  { destruct (_ && _) in Hc; unfold awaited, posted, zlen in *; simpl in *; lia. }
  destruct (negb ((if Transpose_eqb trans Trans then _ else _) =? 0));
    [destruct (negb (cr.gpu_aware x) && negb host)|].
  - destruct (memcpy _ _ _); cbn [mbind option_bind]; [|done]. intros [= <- <-].
    rewrite awaited_app, posted_app, Ht. generalize (posted t). intros p.
    unfold awaited, posted, zlen. simpl. lia.
  - by intros [= <- <-].
  - by intros [= <- <-].
Qed.
End FinishLoop.

Lemma Finish_rotates_witness :
  ∃ x' tr,
    Finish gatherKeep extractKeep noArrivals 1 Double Add NoTrans false
      (allocAll [8] router0) = Some (x', tr) ∧
    pointers (cr.buffers x') = (1, 0, 1, 0, 1).
Proof.
  destruct (Finish gatherKeep extractKeep noArrivals 1 Double Add NoTrans false
              (allocAll [8] router0)) as [[x' tr]|] eqn:E; [|vm_compute in E; discriminate].
  exists x', tr. split; [reflexivity|].
  destruct (Finish_rotates gatherKeep extractKeep noArrivals 1 Double Add NoTrans false
              (allocAll [8] router0) x' tr E) as [_ ->].
  vm_compute. reflexivity.
Defined.

Lemma Finish_waits_for_posted_witness :
  ∃ x' tr,
    Finish gatherKeep extractKeep noArrivals 1 Double Add Trans false
      (allocAll [8] router0) = Some (x', tr) ∧
    awaited tr = posted tr.
Proof.
  destruct (Finish gatherKeep extractKeep noArrivals 1 Double Add Trans false
              (allocAll [8] router0)) as [[x' tr]|] eqn:E; [|vm_compute in E; discriminate].
  exists x', tr. split; [reflexivity|].
  apply (Finish_waits_for_posted gatherKeep extractKeep noArrivals 1 Double Add Trans false
           (allocAll [8] router0) x' tr); [|exact E].
  vm_compute. repeat constructor; discriminate.
Defined.


(** ** The partners of a constructed schedule *)

Lemma foldWindows_nested fuel comm_rank w lo hi :
  inWindow comm_rank w → lo ≤ snd w → snd w + fst w ≤ hi →
  Forall (λ w', 1 < fst w' ∧ inWindow comm_rank w' ∧ lo ≤ snd w' ∧ snd w' + fst w' ≤ hi)
         (foldWindows fuel comm_rank w).
Proof.
  revert w. induction fuel as [|fuel IH]; intros w Hw Hlo Hhi; simpl; [constructor|].
  destruct (1 <? fst w) eqn:E; [|constructor].
  constructor; [repeat split; try lia; apply Hw|].
  destruct (shrink_inWindow comm_rank w ltac:(lia) Hw) as (Hw' & _ & _ & H1 & H2).
  apply IH; [done|lia|lia].
Qed.

Lemma windowPairing_ok comm_rank size w :
  1 < fst w → inWindow comm_rank w → 0 ≤ snd w → snd w + fst w ≤ size →
  0 ≤ fst (windowPairing comm_rank w) < size ∧
  fst (windowPairing comm_rank w) ≠ comm_rank ∧
  0 ≤ snd (windowPairing comm_rank w) ≤ 2.
Proof.
  intros Hnp [_ Hin] Hlo Hhi. destruct w as [np off]. cbn [fst snd] in *.
  unfold windowPairing. cbn [fst snd].
  pose proof (levelPartner_spec comm_rank np off Hnp Hin) as Sp.
  unfold r_half, mirror in *. rewrite np_half_div in * by lia.
  case_decide.
  - destruct Sp as (Hodd & Hr & -> & ->). lia.
  - destruct Sp as (-> & Hm & ->). case_decide; lia.
Qed.

(** X10: every level of a constructed schedule names as partner a rank of
    the communicator other than the process itself and has 0, 1 or 2
    messages, and the forward and the transposed schedule have the same
    partner and the same number of messages level by level. *)
Theorem constructed_partners `{StdSort} comm_rank size gpu Dfloat sharedNodes gatherHalo
    oracle :
  1 ≤ size → 0 ≤ comm_rank < size → 0 ≤ NrowsT gatherHalo →
  Forall (λ s, 0 ≤ newId s < NrowsT gatherHalo) sharedNodes →
  ∃ x,
    construct comm_rank size gpu Dfloat (zlen sharedNodes) sharedNodes gatherHalo oracle
      = Some x ∧
    pairing <$> cr.levelsN x = pairing <$> cr.levelsT x ∧
    Forall (λ lv, 0 ≤ partner lv < size ∧ partner lv ≠ comm_rank ∧ 0 ≤ Nmsg lv ≤ 2)
           (cr.levelsN x ++ cr.levelsT x).
Proof.
  intros Hsize Hrank Hhalo Hids.
  pose proof (initNodes_rows comm_rank (NrowsN gatherHalo) (NrowsT gatherHalo) sharedNodes
                Hhalo Hids) as Hinit.
  destruct (construct_levels comm_rank size gpu Dfloat (zlen sharedNodes) sharedNodes
              gatherHalo oracle _ Hsize Hrank Hinit) as (x & Hx & HL & HN & HT).
  exists x. split; [done|]. split; [congruence|].
  assert (Hw : Forall (λ p : Z * Z, 0 ≤ fst p < size ∧ fst p ≠ comm_rank ∧ 0 ≤ snd p ≤ 2)
                 (windowPairing comm_rank
                    <$> foldWindows (Z.to_nat size) comm_rank (size, 0))).
  { apply Forall_fmap.
    eapply List.Forall_impl;
      [|apply (foldWindows_nested _ comm_rank (size, 0) 0 size);
        unfold inWindow; simpl; lia].
    intros w (Hnp & Hin & Hlo & Hhi). by apply windowPairing_ok. }
  apply Forall_app. split.
  - rewrite <- HN in Hw. apply Forall_fmap in Hw.
    eapply List.Forall_impl; [|exact Hw]. by intros lv.
  - rewrite <- HT in Hw. apply Forall_fmap in Hw.
    eapply List.Forall_impl; [|exact Hw]. by intros lv.
Qed.

Lemma constructed_partners_witness :
  ∃ x,
    construct 2 5 false Double (zlen shared0) shared0 gatherHalo1 noMessages = Some x ∧
    pairing <$> cr.levelsN x = pairing <$> cr.levelsT x ∧
    Forall (λ lv, 0 ≤ partner lv < 5 ∧ partner lv ≠ 2 ∧ 0 ≤ Nmsg lv ≤ 2)
           (cr.levelsN x ++ cr.levelsT x).
Proof.
  apply (constructed_partners 2 5 false Double shared0 gatherHalo1 noMessages).
  - lia.
  - lia.
  - simpl. lia.
  - repeat constructor; simpl; lia.
Defined.


(** ** The ids of the groups (lines 429-497) *)

Section AssignIds.
Variables (Nhalo : Z) (nodes : list parallelNode_t) (countN countT0 : Z).
Let N := zlen nodes.
Hypothesis Nhalo_nonneg : 0 ≤ Nhalo.
Hypothesis newId_lower : ∀ k, 0 ≤ k < N → -1 ≤ newId (nodeAt nodes k).

Let body1 := λ n '(start, NhaloExtN, NhaloExtT),
  if groupEnd nodes N n then
    let end_ := n + 1 in
    let id := newId (nodeAt nodes start) in
    if (Nhalo <=? id) || (id =? -1) then
      (end_,
       (if findPositive nodes start end_ is Some _ then NhaloExtN + 1 else NhaloExtN),
       NhaloExtT + 1)
    else (end_, NhaloExtN, NhaloExtT)
  else (start, NhaloExtN, NhaloExtT).

(** The first pass only counts up. *)
Lemma countExt_mono n n' :
  0 ≤ n ≤ n' →
  snd (fst (forZ 0 n body1 (0, 0, 0))) ≤ snd (fst (forZ 0 n' body1 (0, 0, 0))).
Proof.
  intros [Hn Hle]. set (c0 := snd (fst (forZ 0 n body1 (0, 0, 0)))).
  replace n' with (n + Z.of_nat (Z.to_nat (n' - n))) by lia.
  induction (Z.to_nat (n' - n)) as [|d IH]; [by rewrite Z.add_0_r|].
  replace (n + Z.of_nat (S d)) with (n + Z.of_nat d + 1) by lia.
  rewrite (forZ_snoc 0 (n + Z.of_nat d)) by lia.
  destruct (forZ 0 (n + Z.of_nat d) body1 (0, 0, 0)) as [[s cN] cT]. cbn [fst snd] in *.
  unfold body1. destruct (groupEnd nodes N _); [|simpl; lia].
  destruct (_ || _); [|simpl; lia].
  destruct (findPositive _ _ _); simpl; lia.
Qed.

Hypothesis counted : ∃ start, forZ 0 N body1 (0, 0, 0) = (start, countN, countT0).

Let body2 := λ n st, if groupEnd (as_nodes st) N n then assignGroup Nhalo n st else st.

(** The ids the second pass has given after [n] descriptors: one id per
    run, that of the first descriptor of the run when it is a row of the
    halo, a new one otherwise, and no new id twice. *)
Definition idsInv (n : Z) (st : assignState) : Prop :=
  let '(start, cN, cT) := forZ 0 n body1 (0, 0, 0) in
  (start = 0 ∨ groupEnd nodes N (start - 1) = true) ∧
  (∀ k k', 0 ≤ k ≤ k' → k' < start → sameRun nodes N k k' →
     newId (nodeAt (as_nodes st) k) = newId (nodeAt (as_nodes st) k')) ∧
  (∀ k, 0 ≤ k < start →
     ∃ g, 0 ≤ g ≤ k ∧ (g = 0 ∨ groupEnd nodes N (g - 1) = true) ∧ sameRun nodes N g k ∧
          if freshId Nhalo (newId (nodeAt nodes g))
          then Nhalo ≤ newId (nodeAt (as_nodes st) k)
          else newId (nodeAt (as_nodes st) k) = newId (nodeAt nodes g)) ∧
  (∀ k k', 0 ≤ k ≤ k' → k' < start → Nhalo ≤ newId (nodeAt (as_nodes st) k) →
     newId (nodeAt (as_nodes st) k) = newId (nodeAt (as_nodes st) k') →
     sameRun nodes N k k') ∧
  (∀ k, 0 ≤ k < start →
     newId (nodeAt (as_nodes st) k) < Nhalo + cN ∨
     Nhalo + countN ≤ newId (nodeAt (as_nodes st) k) < Nhalo + countN + (cT - cN)).

Lemma idsInv_step n st :
  0 ≤ n < N → assignInv Nhalo nodes countN n st → idsInv n st →
  idsInv (n + 1) (body2 n st).
Proof.
  intros Hn Hold.
  pose proof (countExt_mono (n + 1) N ltac:(lia)) as Hmono.
  destruct counted as [sN HcN]. rewrite HcN in Hmono. cbn [fst snd] in Hmono.
  revert Hold Hmono. unfold assignInv, idsInv. fold N. fold body1.
  rewrite forZ_snoc by lia.
  destruct (forZ 0 n body1 (0, 0, 0)) as [[start cN] cT].
  intros (Hst & Hs & Hc & HN & HT & Hlen & Hsame & Hrest & Hopen & Hdone) Hmono
         (He0 & He1 & He2 & He3 & He4).
  unfold body2.
  assert (groupEnd (as_nodes st) N n = groupEnd nodes N n) as ->.
  { apply groupEnd_ext. intros k. destruct (Hsame k) as (_ & _ & Hb & _).
    unfold absBase. by rewrite Hb. }
  unfold body1 at 1. unfold body1 in Hmono.
  destruct (groupEnd nodes N n) eqn:E; [|done].
  unfold assignGroup. destruct st as [start' N2 T2 cur indexMap]. simpl in *. subst start'.
  rewrite (Hrest start) by lia.
  assert (findPositive cur start (n + 1) = findPositive nodes start (n + 1)) as ->.
  { apply findPositive_ext. intros i Hi. destruct (Hsame i) as (_ & Hsg & _). done. }
  pose proof (findPositive_spec nodes start (n + 1) ltac:(lia)) as Hfp.
  set (id0 := newId (nodeAt nodes start)) in *.
  assert (-1 ≤ id0) as Hid0 by (apply newId_lower; lia).
  assert (Hgroup : ∀ id cur', cur' = forZ start (n + 1)
                        (λ i l, zset l i (setNewId id (nodeAt l i))) cur →
    (∀ k, 0 ≤ k < start → nodeAt cur' k = nodeAt cur k) ∧
    (∀ k, start ≤ k < n + 1 → newId (nodeAt cur' k) = id)).
  { intros id cur' ->.
    destruct (forZ_update node0 (λ _, setNewId id) start (n + 1) cur) as [Hl Hg]; [lia|lia|].
    split.
    - intros k Hk. rewrite Hg. destruct (_ && _) eqn:Ek; [lia|done].
    - intros k Hk. rewrite Hg. destruct (_ && _) eqn:Ek; [done|lia]. }
  assert (Hrun : ∀ k k', start ≤ k → k' < n + 1 → sameRun nodes N k k').
  { intros k k' Hk Hk' m Hm. apply Hopen. lia. }
  assert (Hcut : ∀ k k', 0 ≤ k < start → start ≤ k' → ¬ sameRun nodes N k k').
  { intros k k' Hk Hk' Hr. destruct He0 as [->|He0]; [lia|].
    rewrite (Hr (start - 1)) in He0 by lia. done. }
  (* what is left is the same for the three ways to get an id *)
  assert (Hfin : ∀ id cN' cT' cur',
    cur' = forZ start (n + 1) (λ i l, zset l i (setNewId id (nodeAt l i))) cur →
    cN ≤ cN' → cN' ≤ countN → cT - cN ≤ cT' - cN' →
    (if freshId Nhalo id0 then Nhalo ≤ id else id = id0) →
    (id < Nhalo + cN' ∨ Nhalo + countN ≤ id < Nhalo + countN + (cT' - cN')) →
    (Nhalo ≤ id → ∀ k, 0 ≤ k < start → newId (nodeAt cur k) ≠ id) →
    (n + 1 = 0 ∨ groupEnd nodes N (n + 1 - 1) = true) ∧
    (∀ k k', 0 ≤ k ≤ k' → k' < n + 1 → sameRun nodes N k k' →
       newId (nodeAt cur' k) = newId (nodeAt cur' k')) ∧
    (∀ k, 0 ≤ k < n + 1 →
       ∃ g, 0 ≤ g ≤ k ∧ (g = 0 ∨ groupEnd nodes N (g - 1) = true) ∧ sameRun nodes N g k ∧
            if freshId Nhalo (newId (nodeAt nodes g))
            then Nhalo ≤ newId (nodeAt cur' k)
            else newId (nodeAt cur' k) = newId (nodeAt nodes g)) ∧
    (∀ k k', 0 ≤ k ≤ k' → k' < n + 1 → Nhalo ≤ newId (nodeAt cur' k) →
       newId (nodeAt cur' k) = newId (nodeAt cur' k') → sameRun nodes N k k') ∧
    (∀ k, 0 ≤ k < n + 1 →
       newId (nodeAt cur' k) < Nhalo + cN' ∨
       Nhalo + countN ≤ newId (nodeAt cur' k) < Nhalo + countN + (cT' - cN'))).
  { intros id cN' cT' cur' Hcur HcN' HcN'' HcT' Hid Hrange Hnew.
    destruct (Hgroup id cur' Hcur) as [Hkeep Hset].
    split; [right; by replace (n + 1 - 1) with n by lia|]. split; [|split; [|split]].
    - intros k k' Hk Hk' Hr.
      destruct (Z_lt_le_dec k' start) as [H1|H1].
      + rewrite !Hkeep by lia. apply He1; [lia|lia|done].
      + destruct (Z_lt_le_dec k start) as [H2|H2].
        * exfalso. apply (Hcut k k'); [lia|lia|done].
        * by rewrite !Hset by lia.
    - intros k Hk. destruct (Z_lt_le_dec k start) as [H1|H1].
      + rewrite Hkeep by lia. apply He2. lia.
      + exists start. split; [lia|]. split; [done|]. split; [apply Hrun; lia|].
        rewrite Hset by lia. done.
    - intros k k' Hk Hk' Hge Heq.
      destruct (Z_lt_le_dec k' start) as [H1|H1].
      + rewrite !Hkeep in * by lia. apply He3; [lia|lia|done|done].
      + destruct (Z_lt_le_dec k start) as [H2|H2].
        * exfalso. rewrite Hkeep in * by lia. rewrite Hset in Heq by lia.
          apply (Hnew ltac:(lia) k); [lia|done].
        * apply Hrun; lia.
    - intros k Hk. destruct (Z_lt_le_dec k start) as [H1|H1].
      + rewrite Hkeep by lia. destruct (He4 k ltac:(lia)); [left|right]; lia.
      + by rewrite Hset by lia. }
  unfold freshId in Hfin. destruct ((Nhalo <=? id0) || (id0 =? -1)) eqn:Ere.
  - destruct (findPositive nodes start (n + 1)) as [s|] eqn:Efp.
    + destruct Hfp as (Hs0 & _). destruct (0 <? s) eqn:Es; [|lia].
      cbn [as_nodes fst snd] in *.
      apply (Hfin N2 (cN + 1) (cT + 1) _ eq_refl); try lia.
      intros _ k Hk Heq. destruct (He4 k Hk); lia.
    + destruct (0 <? -2) eqn:Es; [lia|]. cbn [as_nodes fst snd] in *.
      apply (Hfin T2 cN (cT + 1) _ eq_refl); try lia.
      intros _ k Hk Heq. destruct (He4 k Hk); lia.
  - cbn [as_nodes fst snd] in *.
    apply (Hfin id0 cN cT _ eq_refl); try lia.
Qed.

Lemma assignExt_idsInv :
  0 ≤ countN → idsInv N (assignExt Nhalo N nodes countN countT0).
Proof.
  intros HcN.
  assert (∀ n st, 0 ≤ n → st = forZ 0 n body2 (mkAssign 0 Nhalo (Nhalo + countN) nodes
                                                (calloc countT0)) → n ≤ N →
            assignInv Nhalo nodes countN n st ∧ idsInv n st) as Hboth.
  { intros n st Hn ->.
    apply (forZ_ind (λ i st, i ≤ N → assignInv Nhalo nodes countN i st ∧ idsInv i st));
      [done| |].
    - intros _. split.
      + unfold assignInv. rewrite forZ_nil by lia. simpl.
        do 2 (split; [done || lia|]). split; [lia|]. split; [lia|]. split; [lia|].
        split; [done|]. split; [done|]. split; [done|]. split; intros; lia.
      + unfold idsInv. rewrite forZ_nil by lia.
        split; [by left|]. repeat split; intros; lia.
    - intros i st Hi IH HiN. destruct (IH ltac:(lia)) as [IH1 IH2]. split.
      + apply (assignInv_step Nhalo nodes countN Nhalo_nonneg HcN newId_lower); [lia|done].
      + apply idsInv_step; [lia|done|done]. }
  unfold assignExt. fold N. apply (Hboth N _ (zlen_nonneg' nodes) eq_refl). lia.
Qed.

(** What the second pass leaves, for an array in which the descriptors of
    one [abs(baseId)] are next to each other *)
Lemma assignExt_ids :
  0 ≤ countN →
  let out := as_nodes (assignExt Nhalo N nodes countN countT0) in
  (∀ k k', 0 ≤ k ≤ k' → k' < N → sameRun nodes N k k' →
     newId (nodeAt out k) = newId (nodeAt out k')) ∧
  (∀ k, 0 ≤ k < N →
     ∃ g, 0 ≤ g ≤ k ∧ (g = 0 ∨ groupEnd nodes N (g - 1) = true) ∧ sameRun nodes N g k ∧
          if freshId Nhalo (newId (nodeAt nodes g))
          then Nhalo ≤ newId (nodeAt out k)
          else newId (nodeAt out k) = newId (nodeAt nodes g)) ∧
  (∀ k k', 0 ≤ k ≤ k' → k' < N → Nhalo ≤ newId (nodeAt out k) →
     newId (nodeAt out k) = newId (nodeAt out k') → sameRun nodes N k k').
Proof.
  intros HcN out. pose proof (assignExt_idsInv HcN) as Hinv.
  pose proof (assignExt_inv Nhalo nodes countN countT0 Nhalo_nonneg HcN newId_lower) as Hold.
  revert Hinv Hold. unfold idsInv, assignInv. fold N. fold body1. fold out.
  destruct (forZ 0 N body1 (0, 0, 0)) as [[start cN] cT].
  intros (He0 & He1 & He2 & He3 & He4) (_ & Hs & _ & _ & _ & _ & _ & _ & Hopen & _).
  assert (start = N) as ->.
  { destruct (Z.eq_dec start N) as [|Hne]; [done|]. exfalso.
    specialize (Hopen (N - 1) ltac:(lia)). unfold groupEnd in Hopen.
    by rewrite Z.eqb_refl in Hopen. }
  done.
Qed.
End AssignIds.


(** ** Runs of a sorted array *)

Lemma lookup_zget {A} (d : A) l i : 0 ≤ i < zlen l → l !! Z.to_nat i = Some (zget d l i).
Proof.
  intros Hi. unfold zlen in Hi.
  destruct (lookup_lt_is_Some_2 l (Z.to_nat i)) as [v Hv]; [lia|].
  rewrite Hv. f_equal. symmetry. apply zget_lookup; [lia|done].
Qed.

Lemma sortedBy_zget lt nodes p q :
  sortedBy lt nodes → 0 ≤ p < q → q < zlen nodes →
  lt (nodeAt nodes q) (nodeAt nodes p) = false.
Proof.
  intros Hs Hp Hq.
  apply (Hs (Z.to_nat p) (Z.to_nat q)); [lia|by apply lookup_zget; lia..].
Qed.

Lemma sameRun_absBase nodes N p q :
  p ≤ q → sameRun nodes N p q → absBase (nodeAt nodes q) = absBase (nodeAt nodes p).
Proof.
  intros Hpq Hr.
  replace q with (p + Z.of_nat (Z.to_nat (q - p))) in * by lia.
  induction (Z.to_nat (q - p)) as [|d IH]; [by rewrite Z.add_0_r|].
  rewrite <- IH.
  - specialize (Hr (p + Z.of_nat d) ltac:(lia)). unfold groupEnd in Hr.
    apply orb_false_elim in Hr as [_ Hr]. apply negb_false_iff, Z.eqb_eq in Hr.
    replace (p + Z.of_nat (S d)) with (p + Z.of_nat d + 1) by lia. done.
  - lia.
  - intros m Hm. apply Hr. lia.
Qed.

Section SortedRuns.
Variable nodes : list parallelNode_t.
Let N := zlen nodes.
Hypothesis sorted : sortedBy ltBaseId nodes.

Lemma sorted_absBase_le p q :
  0 ≤ p ≤ q → q < N → absBase (nodeAt nodes p) ≤ absBase (nodeAt nodes q).
Proof.
  intros Hp Hq. destruct (decide (p = q)) as [->|Hne]; [done|].
  pose proof (sortedBy_zget ltBaseId nodes p q sorted ltac:(lia) Hq) as Hlt.
  unfold ltBaseId in Hlt.
  destruct (absBase (nodeAt nodes q) <? absBase (nodeAt nodes p)) eqn:E; [done|lia].
Qed.

Lemma sorted_newId_ge p q :
  0 ≤ p ≤ q → q < N → absBase (nodeAt nodes p) = absBase (nodeAt nodes q) →
  newId (nodeAt nodes q) ≤ newId (nodeAt nodes p).
Proof.
  intros Hp Hq Heq. destruct (decide (p = q)) as [->|Hne]; [done|].
  pose proof (sortedBy_zget ltBaseId nodes p q sorted ltac:(lia) Hq) as Hlt.
  unfold ltBaseId in Hlt. rewrite Heq in Hlt.
  destruct (_ <? _) eqn:E1; [done|]. destruct (_ >? _) eqn:E2; [lia|]. lia.
Qed.

Lemma sorted_sameRun p q :
  0 ≤ p ≤ q → q < N → absBase (nodeAt nodes p) = absBase (nodeAt nodes q) →
  sameRun nodes N p q.
Proof.
  intros Hp Hq Heq m Hm. unfold groupEnd.
  pose proof (sorted_absBase_le p m ltac:(lia) ltac:(lia)).
  pose proof (sorted_absBase_le m (m + 1) ltac:(lia) ltac:(lia)).
  pose proof (sorted_absBase_le (m + 1) q ltac:(lia) ltac:(lia)).
  apply orb_false_intro; [fold N; lia|]. apply negb_false_iff, Z.eqb_eq. lia.
Qed.
End SortedRuns.

(** ** The first order, recorded and restored (lines 418 and 500) *)

Lemma recordOrder_get N nodes :
  N ≤ zlen nodes →
  zlen (recordOrder N nodes) = zlen nodes ∧
  ∀ k, nodeAt (recordOrder N nodes) k =
       if (0 <=? k) && (k <? N) then setLocalId k (nodeAt nodes k) else nodeAt nodes k.
Proof.
  intros HN. unfold recordOrder.
  destruct (forZ_update node0 setLocalId 0 N nodes) as [Hlen Hget]; [lia|lia|]. done.
Qed.

Lemma localIds_distinct nodes N i j :
  N = zlen nodes → localId <$> nodes ≡ₚ seqZ 0 N → 0 ≤ i < N → 0 ≤ j < N →
  localId (nodeAt nodes i) = localId (nodeAt nodes j) → i = j.
Proof.
  intros HN Hperm Hi Hj Heq.
  assert (NoDup (localId <$> nodes)) as Hnd by (rewrite Hperm; apply NoDup_seqZ).
  assert (Z.to_nat i = Z.to_nat j); [|lia].
  apply (proj1 (NoDup_alt _) Hnd _ _ (localId (nodeAt nodes i))).
  - rewrite list_lookup_fmap, (lookup_zget node0) by lia. done.
  - rewrite list_lookup_fmap, (lookup_zget node0) by lia. simpl. by rewrite Heq.
Qed.

Lemma localIds_range nodes N i :
  N = zlen nodes → localId <$> nodes ≡ₚ seqZ 0 N → 0 ≤ i < N →
  0 ≤ localId (nodeAt nodes i) < N.
Proof.
  intros HN Hperm Hi.
  assert (localId (nodeAt nodes i) ∈ seqZ 0 N) as Hin.
  { rewrite <- Hperm. apply list_elem_of_fmap. exists (nodeAt nodes i).
    split; [done|]. apply zget_In. lia. }
  apply elem_of_seqZ in Hin. lia.
Qed.

Lemma localIds_onto nodes N k :
  N = zlen nodes → localId <$> nodes ≡ₚ seqZ 0 N → 0 ≤ k < N →
  ∃ j, 0 ≤ j < N ∧ localId (nodeAt nodes j) = k.
Proof.
  intros HN Hperm Hk.
  assert (k ∈ localId <$> nodes) as Hin by (rewrite Hperm; apply elem_of_seqZ; lia).
  apply list_elem_of_fmap in Hin as (a & -> & Ha).
  apply (elem_of_zget node0) in Ha as (j & Hj & <-). exists j. split; [lia|done].
Qed.

Lemma permute_restores N nodes :
  N = zlen nodes → localId <$> nodes ≡ₚ seqZ 0 N →
  zlen (permute N nodes) = N ∧
  ∀ j, 0 ≤ j < N → nodeAt (permute N nodes) (localId (nodeAt nodes j)) = nodeAt nodes j.
Proof.
  intros HN Hperm. unfold permute.
  apply (forZ_ind (λ i out, zlen out = N ∧
           ∀ j, 0 ≤ j < i → nodeAt out (localId (nodeAt nodes j)) = nodeAt nodes j));
    [subst N; apply zlen_nonneg'| |].
  - split; [done|]. intros; lia.
  - intros i out Hi [Hlen IH]. split; [by rewrite zlen_zset|].
    intros j Hj. destruct (decide (j = i)) as [->|Hne].
    + apply zget_zset_eq. rewrite Hlen. by apply localIds_range.
    + rewrite zget_zset_ne; [apply IH; lia|].
      intros Heq. apply Hne. symmetry.
      apply (localIds_distinct nodes N i j); [done|done|lia|lia|done].
Qed.


(** ** The renumbering of a round (lines 417-500) *)

Lemma zget_fmap {A B} (f : A → B) (da : A) (db : B) l i :
  0 ≤ i < zlen l → zget db (f <$> l) i = f (zget da l i).
Proof.
  intros Hi. apply zget_lookup; [lia|].
  rewrite list_lookup_fmap, (lookup_zget da) by done. done.
Qed.

Lemma zlen_fmap {A B} (f : A → B) l : zlen (f <$> l) = zlen l.
Proof. unfold zlen. by rewrite length_fmap. Qed.

Lemma zlen_seqZ m n : 0 ≤ n → zlen (seqZ m n) = n.
Proof. intros. unfold zlen. rewrite length_seqZ. lia. Qed.

Lemma zget_seqZ m n i : 0 ≤ i < n → zget 0 (seqZ m n) i = m + i.
Proof.
  intros Hi. apply zget_lookup; [lia|]. rewrite lookup_seqZ. split; [lia|lia].
Qed.

Section Renumbering.
Context `{StdSort}.
Variables (Nhalo N : Z) (nodes : list parallelNode_t).
Hypothesis Nhalo_nonneg : 0 ≤ Nhalo.
Hypothesis N_len : N = zlen nodes.
Hypothesis newId_lower : Forall (λ a, -1 ≤ newId a) nodes.

Let n1 := recordOrder N nodes.
Let n2 := std_sort ltBaseId n1.
Let cN := snd (fst (countExt Nhalo N n2)).
Let cT := snd (countExt Nhalo N n2).
Let n3 := as_nodes (assignExt Nhalo N n2 cN cT).
Let out := as_nodes (renumber Nhalo N nodes).

Lemma renumber_unfold : out = permute N n3.
Proof.
  unfold out, n3, cN, cT, n2, n1, renumber.
  by destruct (countExt _ _ _) as [[s c1] c2].
Qed.

Lemma n1_get k : 0 ≤ k < N → nodeAt n1 k = setLocalId k (nodeAt nodes k).
Proof.
  intros Hk. destruct (recordOrder_get N nodes ltac:(lia)) as [_ Hg].
  unfold n1. rewrite Hg. destruct (_ && _) eqn:E; [done|lia].
Qed.

Lemma n1_len : zlen n1 = N.
Proof. destruct (recordOrder_get N nodes ltac:(lia)) as [Hl _]. unfold n1. lia. Qed.

Lemma n2_len : zlen n2 = N.
Proof. unfold n2. rewrite std_sort_zlen. apply n1_len. Qed.

Lemma n2_perm : n2 ≡ₚ n1.
Proof. apply std_sort_perm. Qed.

Lemma n2_lower k : 0 ≤ k < zlen n2 → -1 ≤ newId (nodeAt n2 k).
Proof.
  intros Hk. apply (Forall_zget (λ a, -1 ≤ newId a)); [|done].
  apply std_sort_Forall. apply (Forall_of_zget _ node0). rewrite n1_len. intros i Hi.
  rewrite n1_get by done. simpl. apply (Forall_zget (λ a, -1 ≤ newId a)); [done|lia].
Qed.

Lemma n1_localIds : localId <$> n1 = seqZ 0 N.
Proof.
  apply (list_eq_zget 0).
  - rewrite zlen_fmap, n1_len, zlen_seqZ; [done|]. subst N. apply zlen_nonneg'.
  - rewrite zlen_fmap, n1_len. intros i Hi.
    rewrite (zget_fmap _ node0), n1_get, zget_seqZ by (rewrite ?n1_len; lia). done.
Qed.

Lemma n3_spec :
  zlen n3 = N ∧ ∀ k, sameButNewId (nodeAt n3 k) (nodeAt n2 k).
Proof.
  pose proof (countExt_le Nhalo N n2) as Hc. pose proof n2_len as Hl2.
  pose proof n2_lower as Hlow2.
  unfold n3, cN, cT. destruct (countExt Nhalo N n2) as [[s c1] c2] eqn:EC. cbn [fst snd].
  rewrite <- Hl2 in *.
  destruct (assignExt_spec Nhalo n2 c1 c2 Nhalo_nonneg ltac:(lia) Hlow2)
    as (Hl & _ & _ & _ & Hs & _); [right; by exists s|]. done.
Qed.

Lemma n3_localIds : localId <$> n3 ≡ₚ seqZ 0 N.
Proof.
  destruct n3_spec as [Hl Hs].
  assert (localId <$> n3 = localId <$> n2) as ->.
  { apply (list_eq_zget 0); rewrite !zlen_fmap, ?Hl, ?n2_len; [done|]. intros i Hi.
    rewrite !(zget_fmap _ node0) by (rewrite ?Hl, ?n2_len; lia).
    by destruct (Hs i) as (-> & _). }
  rewrite <- n1_localIds. by rewrite n2_perm.
Qed.

(** Where the descriptor of position [k] is while the ids are given *)
Lemma renumber_position k :
  0 ≤ k < N →
  ∃ p, 0 ≤ p < N ∧ nodeAt n2 p = setLocalId k (nodeAt nodes k) ∧
       nodeAt out k = nodeAt n3 p.
Proof.
  intros Hk. destruct n3_spec as [Hl Hs].
  destruct (localIds_onto n3 N k (eq_sym Hl) n3_localIds Hk) as (p & Hp & Hloc).
  destruct (permute_restores N n3 (eq_sym Hl) n3_localIds) as [_ Hperm].
  exists p. split; [done|]. split.
  - assert (nodeAt n2 p ∈ n1) as Hin.
    { rewrite <- n2_perm. apply zget_In. rewrite n2_len. lia. }
    apply (elem_of_zget node0) in Hin as (k' & Hk' & Heq). rewrite n1_len in Hk'.
    rewrite n1_get in Heq by done.
    assert (k' = k) as ->.
    { destruct (Hs p) as (Hlp & _). rewrite <- Hloc, Hlp, <- Heq. done. }
    done.
  - rewrite renumber_unfold, <- Hloc. by apply Hperm.
Qed.

Lemma renumber_origin p :
  0 ≤ p < N → ∃ k, 0 ≤ k < N ∧ nodeAt n2 p = setLocalId k (nodeAt nodes k).
Proof.
  intros Hp.
  assert (nodeAt n2 p ∈ n1) as Hin.
  { rewrite <- n2_perm. apply zget_In. rewrite n2_len. lia. }
  apply (elem_of_zget node0) in Hin as (k & Hk & Heq). rewrite n1_len in Hk.
  rewrite n1_get in Heq by done. by exists k.
Qed.

Lemma n2_sorted : sortedBy ltBaseId n2.
Proof. apply std_sort_sorted. Qed.

Lemma n3_ids :
  (∀ p q, 0 ≤ p ≤ q → q < N → sameRun n2 N p q →
     newId (nodeAt n3 p) = newId (nodeAt n3 q)) ∧
  (∀ p, 0 ≤ p < N →
     ∃ g, 0 ≤ g ≤ p ∧ (g = 0 ∨ groupEnd n2 N (g - 1) = true) ∧ sameRun n2 N g p ∧
          if freshId Nhalo (newId (nodeAt n2 g))
          then Nhalo ≤ newId (nodeAt n3 p)
          else newId (nodeAt n3 p) = newId (nodeAt n2 g)) ∧
  (∀ p q, 0 ≤ p ≤ q → q < N → Nhalo ≤ newId (nodeAt n3 p) →
     newId (nodeAt n3 p) = newId (nodeAt n3 q) → sameRun n2 N p q).
Proof.
  pose proof (countExt_le Nhalo N n2) as Hc. pose proof n2_len as Hl2.
  pose proof n2_lower as Hlow2.
  unfold n3, cN, cT. destruct (countExt Nhalo N n2) as [[s c1] c2] eqn:EC. cbn [fst snd].
  rewrite <- Hl2 in *.
  apply (assignExt_ids Nhalo n2 c1 c2 Nhalo_nonneg Hlow2); [|lia].
  exists s. exact EC.
Qed.

Lemma position_order i j pi pj :
  0 ≤ pi < N → 0 ≤ pj < N →
  nodeAt n2 pi = setLocalId i (nodeAt nodes i) →
  nodeAt n2 pj = setLocalId j (nodeAt nodes j) →
  absBase (nodeAt nodes i) = absBase (nodeAt nodes j) →
  sameRun n2 N (Z.min pi pj) (Z.max pi pj).
Proof.
  intros Hi Hj Ei Ej Heq.
  assert (absBase (nodeAt n2 pi) = absBase (nodeAt n2 pj)) as Hb
    by (rewrite Ei, Ej; exact Heq).
  rewrite <- n2_len. destruct (Z.le_ge_cases pi pj).
  - rewrite Z.min_l, Z.max_r by lia.
    apply sorted_sameRun; [apply n2_sorted|lia|rewrite n2_len; lia|done].
  - rewrite Z.min_r, Z.max_l by lia.
    apply sorted_sameRun; [apply n2_sorted|lia|rewrite n2_len; lia|done].
Qed.

Lemma renumber_same_group i j :
  0 ≤ i < N → 0 ≤ j < N → absBase (nodeAt nodes i) = absBase (nodeAt nodes j) →
  newId (nodeAt out i) = newId (nodeAt out j).
Proof.
  intros Hi Hj Heq.
  destruct (renumber_position i Hi) as (pi & Hpi & Ei & ->).
  destruct (renumber_position j Hj) as (pj & Hpj & Ej & ->).
  pose proof (position_order i j pi pj Hpi Hpj Ei Ej Heq) as Hrun.
  destruct n3_ids as (H1 & _ & _). destruct (Z.le_ge_cases pi pj).
  - rewrite Z.min_l, Z.max_r in Hrun by lia. apply H1; [lia|lia|done].
  - rewrite Z.min_r, Z.max_l in Hrun by lia. symmetry. apply H1; [lia|lia|done].
Qed.

Lemma renumber_fresh_inj i j :
  0 ≤ i < N → 0 ≤ j < N → Nhalo ≤ newId (nodeAt out i) →
  newId (nodeAt out i) = newId (nodeAt out j) →
  absBase (nodeAt nodes i) = absBase (nodeAt nodes j).
Proof.
  intros Hi Hj Hge Heq.
  destruct (renumber_position i Hi) as (pi & Hpi & Ei & Eoi).
  destruct (renumber_position j Hj) as (pj & Hpj & Ej & Eoj).
  rewrite Eoi, Eoj in *. destruct n3_ids as (_ & _ & H3).
  assert (absBase (nodeAt n2 pi) = absBase (nodeAt n2 pj)) as Hb.
  { destruct (Z.le_ge_cases pi pj).
    - symmetry. apply (sameRun_absBase n2 N); [lia|]. apply H3; [lia|lia|done|done].
    - apply (sameRun_absBase n2 N); [lia|]. apply H3; [lia|lia|lia|done]. }
  by rewrite Ei, Ej in Hb.
Qed.

(** The id of a group comes from its descriptor with the largest id. *)
Lemma renumber_group_id k :
  0 ≤ k < N →
  ∃ j, 0 ≤ j < N ∧ absBase (nodeAt nodes j) = absBase (nodeAt nodes k) ∧
       (∀ m, 0 ≤ m < N → absBase (nodeAt nodes m) = absBase (nodeAt nodes k) →
             newId (nodeAt nodes m) ≤ newId (nodeAt nodes j)) ∧
       if freshId Nhalo (newId (nodeAt nodes j))
       then Nhalo ≤ newId (nodeAt out k)
       else newId (nodeAt out k) = newId (nodeAt nodes j).
Proof.
  intros Hk.
  destruct (renumber_position k Hk) as (p & Hp & Ep & ->).
  destruct n3_ids as (_ & H2 & _).
  destruct (H2 p Hp) as (g & Hg & Hstart & Hrun & Hid).
  destruct (renumber_origin g ltac:(lia)) as (j & Hj & Eg).
  pose proof (sameRun_absBase n2 N g p ltac:(lia) Hrun) as Hb.
  rewrite Ep, Eg in Hb. change (absBase (nodeAt nodes k) = absBase (nodeAt nodes j)) in Hb.
  exists j. split; [done|]. split; [done|]. split.
  - intros m Hm Hbm.
    destruct (renumber_position m Hm) as (pm & Hpm & Em & _).
    assert (absBase (nodeAt n2 pm) = absBase (nodeAt n2 g)) as Hbg.
    { rewrite Em, Eg. change (absBase (nodeAt nodes m) = absBase (nodeAt nodes j)).
      congruence. }
    assert (g ≤ pm) as Hle.
    { destruct (Z_le_gt_dec g pm) as [|Hgt]; [done|]. exfalso.
      destruct Hstart as [->|Hend]; [lia|].
      pose proof (sorted_sameRun n2 n2_sorted pm g ltac:(lia)
                    ltac:(rewrite n2_len; lia) Hbg) as Hr.
      rewrite n2_len in Hr. rewrite (Hr (g - 1)) in Hend by lia. done. }
    pose proof (sorted_newId_ge n2 n2_sorted g pm ltac:(lia)
                  ltac:(rewrite n2_len; lia) (eq_sym Hbg)) as Hn.
    by rewrite Em, Eg in Hn.
  - by rewrite Eg in Hid.
Qed.

Lemma renumber_fields k :
  0 ≤ k < N →
  localId (nodeAt out k) = k ∧ sign (nodeAt out k) = sign (nodeAt nodes k) ∧
  baseId (nodeAt out k) = baseId (nodeAt nodes k) ∧
  rank (nodeAt out k) = rank (nodeAt nodes k).
Proof.
  intros Hk. destruct (renumber_position k Hk) as (p & Hp & Ep & ->).
  destruct n3_spec as [_ Hs]. destruct (Hs p) as (H1 & H2 & H3 & H4).
  rewrite H1, H2, H3, H4, Ep. done.
Qed.
End Renumbering.

(** X11: the renumbering of a round (lines 417-500: record the order, sort
    by group, give the ids, sort back) returns the descriptors in the order
    it got them.  Position [k] holds the descriptor that was there, with its
    sign, baseId and destination rank, [localId = k], and a [newId] that is
    a row of the extended halo: below [NhaloExtT], and below [NhaloExtN]
    when the sign is positive. *)
Theorem renumber_keeps_order `{StdSort} Nhalo N nodes :
  0 ≤ Nhalo → N = zlen nodes → Forall (λ a, -1 ≤ newId a) nodes →
  let a := renumber Nhalo N nodes in
  zlen (as_nodes a) = N ∧ Nhalo ≤ as_NhaloExtN a ≤ as_NhaloExtT a ∧
  ∀ k, 0 ≤ k < N →
    localId (nodeAt (as_nodes a) k) = k ∧
    sign (nodeAt (as_nodes a) k) = sign (nodeAt nodes k) ∧
    baseId (nodeAt (as_nodes a) k) = baseId (nodeAt nodes k) ∧
    rank (nodeAt (as_nodes a) k) = rank (nodeAt nodes k) ∧
    idInRange (as_NhaloExtN a) (as_NhaloExtT a) (nodeAt (as_nodes a) k).
Proof.
  intros Hhalo HN Hlow a.
  destruct (renumber_spec Nhalo N nodes Hhalo HN Hlow) as (Hlen & Hext & Hids). fold a in Hlen, Hext, Hids.
  split; [done|]. split; [done|]. intros k Hk.
  destruct (renumber_fields Nhalo N nodes Hhalo HN Hlow k Hk) as (H1 & H2 & H3 & H4).
  do 4 (split; [done|]). apply Forall_zget; [done|lia].
Qed.

(** X12: the renumbering gives one id to a group.  Descriptors of one
    [abs(baseId)] get the same [newId]; the id comes from the descriptor of
    the group with the largest id before: when that is a row of the halo
    ([0 <= id < Nhalo]) the group gets it, otherwise (an id of the extended
    halo, or -1 for a group that has just arrived) a row of the new extended
    halo, [Nhalo] or above; and no row of the extended halo is given to two
    groups. *)
Theorem renumber_groups `{StdSort} Nhalo N nodes :
  0 ≤ Nhalo → N = zlen nodes → Forall (λ a, -1 ≤ newId a) nodes →
  let out := as_nodes (renumber Nhalo N nodes) in
  (∀ i j, 0 ≤ i < N → 0 ≤ j < N → absBase (nodeAt nodes i) = absBase (nodeAt nodes j) →
     newId (nodeAt out i) = newId (nodeAt out j)) ∧
  (∀ k, 0 ≤ k < N →
     ∃ j, 0 ≤ j < N ∧ absBase (nodeAt nodes j) = absBase (nodeAt nodes k) ∧
          (∀ m, 0 ≤ m < N → absBase (nodeAt nodes m) = absBase (nodeAt nodes k) →
                newId (nodeAt nodes m) ≤ newId (nodeAt nodes j)) ∧
          if freshId Nhalo (newId (nodeAt nodes j))
          then Nhalo ≤ newId (nodeAt out k)
          else newId (nodeAt out k) = newId (nodeAt nodes j)) ∧
  (∀ i j, 0 ≤ i < N → 0 ≤ j < N → Nhalo ≤ newId (nodeAt out i) →
     newId (nodeAt out i) = newId (nodeAt out j) →
     absBase (nodeAt nodes i) = absBase (nodeAt nodes j)).
Proof.
  intros Hhalo HN Hlow out. split; [|split].
  - intros i j Hi Hj. by apply renumber_same_group.
  - intros k Hk. by apply renumber_group_id.
  - intros i j Hi Hj. by apply renumber_fresh_inj.
Qed.

Lemma renumber_keeps_order_witness :
  let a := renumber 1 4 nodes5 in
  zlen (as_nodes a) = 4 ∧ 1 ≤ as_NhaloExtN a ≤ as_NhaloExtT a ∧
  ∀ k, 0 ≤ k < 4 →
    localId (nodeAt (as_nodes a) k) = k ∧
    sign (nodeAt (as_nodes a) k) = sign (nodeAt nodes5 k) ∧
    baseId (nodeAt (as_nodes a) k) = baseId (nodeAt nodes5 k) ∧
    rank (nodeAt (as_nodes a) k) = rank (nodeAt nodes5 k) ∧
    idInRange (as_NhaloExtN a) (as_NhaloExtT a) (nodeAt (as_nodes a) k).
Proof.
  apply (renumber_keeps_order 1 4 nodes5).
  - lia.
  - reflexivity.
  - repeat constructor; simpl; lia.
Defined.

Lemma renumber_groups_witness :
  let out := as_nodes (renumber 1 4 nodes5) in
  (∀ i j, 0 ≤ i < 4 → 0 ≤ j < 4 → absBase (nodeAt nodes5 i) = absBase (nodeAt nodes5 j) →
     newId (nodeAt out i) = newId (nodeAt out j)) ∧
  (∀ k, 0 ≤ k < 4 →
     ∃ j, 0 ≤ j < 4 ∧ absBase (nodeAt nodes5 j) = absBase (nodeAt nodes5 k) ∧
          (∀ m, 0 ≤ m < 4 → absBase (nodeAt nodes5 m) = absBase (nodeAt nodes5 k) →
                newId (nodeAt nodes5 m) ≤ newId (nodeAt nodes5 j)) ∧
          if freshId 1 (newId (nodeAt nodes5 j))
          then 1 ≤ newId (nodeAt out k)
          else newId (nodeAt out k) = newId (nodeAt nodes5 j)) ∧
  (∀ i j, 0 ≤ i < 4 → 0 ≤ j < 4 → 1 ≤ newId (nodeAt out i) →
     newId (nodeAt out i) = newId (nodeAt out j) →
     absBase (nodeAt nodes5 i) = absBase (nodeAt nodes5 j)).
Proof.
  apply (renumber_groups 1 4 nodes5).
  - lia.
  - reflexivity.
  - repeat constructor; simpl; lia.
Defined.


(** ** The list of descriptors between two rounds *)

Lemma groupIds_perm l l' : l ≡ₚ l' → groupIds l → groupIds l'.
Proof. intros Hp Hg a b Ha Hb. apply Hg; by rewrite Hp. Qed.

Lemma groupIds_zget nodes :
  groupIds nodes ↔
  ∀ i j, 0 ≤ i < zlen nodes → 0 ≤ j < zlen nodes →
    (newId (nodeAt nodes i) = newId (nodeAt nodes j) ↔
     absBase (nodeAt nodes i) = absBase (nodeAt nodes j)).
Proof.
  split.
  - intros Hg i j Hi Hj. apply Hg; by apply zget_In.
  - intros Hg a b Ha Hb.
    apply (elem_of_zget node0) in Ha as (i & Hi & <-).
    apply (elem_of_zget node0) in Hb as (j & Hj & <-). by apply Hg.
Qed.

Lemma groupIds_same nodes nodes' :
  zlen nodes' = zlen nodes →
  (∀ k, newId (nodeAt nodes' k) = newId (nodeAt nodes k) ∧
        baseId (nodeAt nodes' k) = baseId (nodeAt nodes k)) →
  groupIds nodes → groupIds nodes'.
Proof.
  intros Hlen Hsame Hg. apply groupIds_zget. rewrite Hlen. intros i j Hi Hj.
  destruct (Hsame i) as [Hi1 Hi2], (Hsame j) as [Hj1 Hj2].
  unfold absBase. rewrite Hi1, Hi2, Hj1, Hj2. by apply groupIds_zget.
Qed.

Lemma sortedBy_newId nodes :
  sortedBy ltNewId nodes ↔
  ∀ i j, 0 ≤ i ≤ j → j < zlen nodes → newId (nodeAt nodes i) ≤ newId (nodeAt nodes j).
Proof.
  split.
  - intros Hs i j Hi Hj. destruct (decide (i = j)) as [->|Hne]; [done|].
    pose proof (sortedBy_zget ltNewId nodes i j Hs ltac:(lia) Hj) as Hlt.
    unfold ltNewId in Hlt. lia.
  - intros Hs i j a b Hij Ha Hb. unfold ltNewId.
    assert (Z.of_nat j < zlen nodes) as Hj.
    { apply lookup_lt_Some in Hb. unfold zlen. lia. }
    specialize (Hs (Z.of_nat i) (Z.of_nat j) ltac:(lia) Hj).
    rewrite (zget_lookup node0 nodes (Z.of_nat i) a) in Hs by (rewrite ?Nat2Z.id; done || lia).
    rewrite (zget_lookup node0 nodes (Z.of_nat j) b) in Hs by (rewrite ?Nat2Z.id; done || lia).
    lia.
Qed.

(** Sorted by [newId], with [newId] naming the group, the descriptors of a
    group are next to each other. *)
Lemma sorted_grouped nodes : sortedBy ltNewId nodes → groupIds nodes → groupedByBase nodes.
Proof.
  intros Hs Hg i j k Hi Hj Heq.
  pose proof (proj1 (sortedBy_newId nodes) Hs) as Hle.
  pose proof (proj1 (groupIds_zget nodes) Hg) as Hz.
  apply Hz; [lia|lia|].
  apply Hz in Heq; [|lia|lia].
  pose proof (Hle i k ltac:(lia) ltac:(lia)). pose proof (Hle k j ltac:(lia) ltac:(lia)). lia.
Qed.

Lemma propagateSign_ok ExtN ExtT nodes :
  nodesOk ExtN ExtT nodes → nodesOk ExtN ExtT (propagateSign (zlen nodes) nodes).
Proof.
  intros (Hids & Hg & Hs).
  destruct (propagateSign_groups nodes) as (Hlen & Hsame & Hres).
  set (out := propagateSign (zlen nodes) nodes) in *.
  assert (Hnb : ∀ k, newId (nodeAt out k) = newId (nodeAt nodes k) ∧
                     baseId (nodeAt out k) = baseId (nodeAt nodes k)).
  { intros k. by destruct (Hsame k) as (_ & -> & -> & _). }
  split; [|split].
  - apply (Forall_of_zget _ node0). rewrite Hlen. intros k Hk.
    pose proof (Forall_zget _ node0 _ k Hids Hk) as [Hr Hp].
    destruct (Hnb k) as [Hn _]. unfold idInRange. rewrite Hn. split; [done|].
    intros Hpos.
    destruct (isGroup_exists nodes (zlen nodes) k Hk) as (a & b & Hgr & Hab).
    rewrite (Hres a b k Hgr Hab) in Hpos. unfold resolved in Hpos.
    pose proof (findPositive_spec nodes a b ltac:(lia)) as Hfp.
    destruct (findPositive nodes a b) as [s|]; [|by apply Hp].
    destruct Hfp as (_ & i & Hi & Hsi & _).
    assert (0 ≤ i < zlen nodes) as Hi' by (destruct Hgr as (? & ? & _); lia).
    pose proof (Forall_zget _ node0 _ i Hids Hi') as [_ Hpi].
    assert (newId (nodeAt nodes k) = newId (nodeAt nodes i)) as ->.
    { apply (proj1 (groupIds_zget nodes) Hg); [lia|lia|].
      rewrite (isGroup_absBase nodes _ a b k Hgr Hab).
      by rewrite (isGroup_absBase nodes _ a b i Hgr Hi). }
    apply Hpi. rewrite Hsi. rewrite sign_setSign in Hpos. done.
  - by apply (groupIds_same nodes).
  - apply sortedBy_newId. rewrite Hlen. intros i j Hi Hj.
    destruct (Hnb i) as [-> _], (Hnb j) as [-> _].
    by apply (proj1 (sortedBy_newId nodes) Hs).
Qed.

Section RenumberOk.
Context `{StdSort}.

Lemma renumber_groupIds Nhalo keep recv :
  0 ≤ Nhalo → Forall (λ a, 0 ≤ newId a) keep → groupIds keep →
  Forall (λ a, newId a = -1) recv →
  groupIds (as_nodes (renumber Nhalo (zlen (keep ++ recv)) (keep ++ recv))).
Proof.
  intros Hhalo Hk Hg Hr.
  set (nodes := keep ++ recv). set (N := zlen nodes).
  assert (Hlow : Forall (λ a, -1 ≤ newId a) nodes).
  { apply Forall_app. split; (eapply List.Forall_impl; [|eassumption]);
      cbv beta; intros; lia. }
  destruct (renumber_spec Nhalo N nodes Hhalo eq_refl Hlow) as (Hlen & Hext & Hids).
  pose proof (renumber_same_group Nhalo N nodes Hhalo eq_refl Hlow) as Hsame.
  pose proof (renumber_group_id Nhalo N nodes Hhalo eq_refl Hlow) as Hgid.
  pose proof (renumber_fresh_inj Nhalo N nodes Hhalo eq_refl Hlow) as Hinj.
  set (out := as_nodes (renumber Nhalo N nodes)) in *.
  assert (Hkept : ∀ j, 0 ≤ j < N → 0 ≤ newId (nodeAt nodes j) → nodeAt nodes j ∈ keep).
  { intros j Hj Hn. pose proof (zget_In node0 nodes j Hj) as Hin.
    apply elem_of_app in Hin as [Hin|Hin]; [done|].
    rewrite list.Forall_forall in Hr. apply Hr in Hin. lia. }
  assert (Hbase : ∀ k, 0 ≤ k < N → absBase (nodeAt out k) = absBase (nodeAt nodes k)).
  { intros k Hk'.
    destruct (renumber_fields Nhalo N nodes Hhalo eq_refl Hlow k Hk') as (_ & _ & Hb & _).
    unfold absBase, out. by rewrite Hb. }
  apply groupIds_zget. rewrite Hlen. intros i j Hi Hj. rewrite !Hbase by done.
  split; [|by apply Hsame].
  intros Heq. destruct (Z_le_gt_dec Nhalo (newId (nodeAt out i))) as [Hge|Hlt].
  { by apply Hinj. }
  destruct (Hgid i Hi) as (ji & Hji & Hbi & _ & Hidi).
  destruct (Hgid j Hj) as (jj & Hjj & Hbj & _ & Hidj).
  pose proof (Forall_zget _ node0 _ ji Hlow Hji) as Hli.
  pose proof (Forall_zget _ node0 _ jj Hlow Hjj) as Hlj.
  unfold freshId in *.
  destruct ((Nhalo <=? newId (nodeAt nodes ji)) || (newId (nodeAt nodes ji) =? -1)) eqn:Ei;
    [lia|].
  destruct ((Nhalo <=? newId (nodeAt nodes jj)) || (newId (nodeAt nodes jj) =? -1)) eqn:Ej;
    [lia|].
  rewrite <- Hbi, <- Hbj. apply Hg; [apply Hkept; lia|apply Hkept; lia|]. lia.
Qed.
End RenumberOk.


(** ** A round keeps the list in order *)

Lemma groupIds_sub l l' : (∀ a, a ∈ l' → a ∈ l) → groupIds l → groupIds l'.
Proof. intros Hs Hg a b Ha Hb. apply Hg; by apply Hs. Qed.

Section RoundOk.
Context `{StdSort}.
Variables (comm_rank size NhaloP Nhalo : Z).
Hypothesis Nhalo_nonneg : 0 ≤ Nhalo.

Lemma levelRound_stateOk m st :
  sentMessage (fst m) → sentMessage (snd m) → stateOk Nhalo st →
  let st' := levelRound comm_rank size NhaloP Nhalo m st in
  stateOk Nhalo st' ∧
  ∃ sorted, b_nodes st' = propagateSign (zlen sorted) sorted ∧
            nodesOk (b_NhaloExtN st') (b_NhaloExtT st') sorted.
Proof.
  intros Hm0 Hm1 (HN & Hext & Hids & Hg & Hs).
  destruct (sentMessage_spec _ Hm0) as (Hs0 & Hw0 & He0).
  destruct (sentMessage_spec _ Hm1) as (Hs1 & Hw1 & He1).
  destruct (levelSend_spec (λ a, 0 ≤ newId a) comm_rank st HN) as [Hkeep _].
  { eapply List.Forall_impl; [|exact Hids]. intros a [? _]. lia. }
  destruct (levelSend_spec (λ a, a ∈ b_nodes st) comm_rank st HN) as [Hsub _].
  { by apply list.Forall_forall. }
  unfold levelRound, recvCount.
  set (sp := levelSend comm_rank st) in *.
  cbv beta zeta iota.
  set (Nmsg_ := s_Nmsg sp).
  set (Nrecv0_ := if 0 <? Nmsg_ then msg_Nsend m.1 else 0).
  set (Nrecv1_ := if Nmsg_ =? 2 then msg_Nsend m.2 else 0).
  set (recv := recvNodes Nrecv0_ (msg_nodes m.1) ++ recvNodes Nrecv1_ (msg_nodes m.2)).
  set (N := zlen (s_keep sp) + (Nrecv0_ + Nrecv1_)).
  assert (zlen (s_keep sp ++ recv) = N ∧ Forall (λ a, newId a = -1) recv) as [Hlen Hrecv].
  { subst recv N Nrecv0_ Nrecv1_. rewrite !recvNodes_cond by done.
    rewrite !zlen_app, !Forall_app.
    destruct (0 <? Nmsg_), (Nmsg_ =? 2); (split; [unfold zlen in *; simpl; lia|]);
      split; done. }
  assert (Hlow : Forall (λ a, -1 ≤ newId a) (s_keep sp ++ recv)).
  { apply Forall_app. split.
    - eapply List.Forall_impl; [|exact Hkeep]. cbv beta. intros; lia.
    - eapply List.Forall_impl; [|exact Hrecv]. cbv beta. intros; lia. }
  destruct (renumber_spec Nhalo N (s_keep sp ++ recv) Nhalo_nonneg (eq_sym Hlen) Hlow)
    as (HaN & HaE & HaI).
  assert (Hga : groupIds (as_nodes (renumber Nhalo N (s_keep sp ++ recv)))).
  { rewrite <- Hlen. apply renumber_groupIds; try done.
    apply (groupIds_sub (b_nodes st)); [|done].
    rewrite list.Forall_forall in Hsub. exact Hsub. }
  set (a := renumber Nhalo N (s_keep sp ++ recv)) in *.
  destruct (buildGather _ _ _ _ _ _ _ _ _ _ _ _ _ _) as [gatherN gatherT].
  destruct (shrink comm_rank (b_np st, b_np_offset st)) as [np' off'].
  set (sorted := std_sort ltNewId (as_nodes a)).
  assert (Hsorted : zlen sorted = N) by (subst sorted; by rewrite std_sort_zlen).
  assert (Hok : nodesOk (as_NhaloExtN a) (as_NhaloExtT a) sorted).
  { split; [by apply std_sort_Forall|]. split.
    - apply (groupIds_perm (as_nodes a)); [|done]. symmetry. apply std_sort_perm.
    - apply std_sort_sorted. }
  cbv zeta. unfold stateOk. cbn [b_N b_nodes b_NhaloExtN b_NhaloExtT].
  replace (propagateSign N sorted) with (propagateSign (zlen sorted) sorted)
    by (by rewrite Hsorted).
  split.
  - split; [|split; [lia|]].
    + destruct (propagateSign_groups sorted) as (Hl & _). cbv zeta in Hl. by rewrite Hl.
    + by apply propagateSign_ok.
  - by exists sorted.
Qed.
End RoundOk.


(** ** The list the set-up leaves *)

Lemma rowBase_wf NhaloP Nhalo sharedNodes n :
  wfShared Nhalo sharedNodes → 0 ≤ n < Nhalo →
  ∃ s, s ∈ sharedNodes ∧ newId s = n ∧ Z.abs (rowBase NhaloP sharedNodes n) = absBase s.
Proof.
  intros (Hall & _ & Hrows) Hn. unfold rowBase.
  destruct (List.find _ sharedNodes) as [s|] eqn:E.
  - apply find_some in E as [Hin Hs]. exists s.
    split; [by apply list_elem_of_In|]. split; [lia|].
    unfold absBase. destruct (n <? NhaloP); lia.
  - exfalso. destruct (Hrows n Hn) as (s & Hin & Hs).
    rewrite list.Forall_forall in Hall. destruct (Hall s Hin) as [_ Hb].
    apply list_elem_of_In in Hin.
    pose proof (find_none _ _ E s Hin) as Hf. cbv beta in Hf. lia.
Qed.

Lemma haloRows_shared comm_rank NhaloP Nhalo sharedNodes e :
  wfShared Nhalo sharedNodes →
  e ∈ haloRows comm_rank NhaloP Nhalo sharedNodes ++ sharedNodes →
  0 ≤ newId e < Nhalo ∧
  ∃ s, s ∈ sharedNodes ∧ newId e = newId s ∧ absBase e = absBase s.
Proof.
  intros Hwf [He|He]%elem_of_app.
  - unfold haloRows in He. apply list_elem_of_fmap in He as (n & -> & Hn).
    apply elem_of_seqZ in Hn.
    destruct (rowBase_wf NhaloP Nhalo sharedNodes n Hwf ltac:(lia)) as (s & Hin & Hs & Hb).
    split; [simpl; lia|]. exists s. split; [done|]. split; [simpl; lia|exact Hb].
  - destruct Hwf as (Hall & _). rewrite list.Forall_forall in Hall.
    destruct (Hall e He) as [Hr _]. split; [done|]. by exists e.
Qed.

Section SetupOk.
Context `{StdSort}.

Lemma initNodes_ok comm_rank NhaloP Nhalo sharedNodes :
  0 ≤ Nhalo → wfShared Nhalo sharedNodes →
  ∃ nodes,
    initNodes comm_rank NhaloP Nhalo (zlen sharedNodes) sharedNodes = Some nodes ∧
    zlen nodes = zlen sharedNodes + Nhalo ∧ nodesOk Nhalo Nhalo nodes.
Proof.
  intros Hhalo Hwf. eexists. split.
  { apply initNodes_rows; [done|]. destruct Hwf as (Hall & _).
    eapply List.Forall_impl; [|exact Hall]. by intros s [? _]. }
  set (rows := haloRows comm_rank NhaloP Nhalo sharedNodes ++ sharedNodes).
  split; [|split; [|split]].
  - rewrite std_sort_zlen. unfold rows. rewrite zlen_app, zlen_haloRows; lia.
  - apply std_sort_Forall, list.Forall_forall. intros e He.
    destruct (haloRows_shared _ _ _ _ e Hwf He) as [Hr _]. unfold idInRange. lia.
  - apply (groupIds_perm rows); [symmetry; apply std_sort_perm|].
    intros a b Ha Hb.
    destruct (haloRows_shared _ _ _ _ a Hwf Ha) as (_ & sa & Hsa & -> & ->).
    destruct (haloRows_shared _ _ _ _ b Hwf Hb) as (_ & sb & Hsb & -> & ->).
    destruct Hwf as (_ & Hg & _). by apply Hg.
  - apply std_sort_sorted.
Qed.
End SetupOk.

(** X13: from descriptors that group the halo (every [newId] a row of the
    halo that names the group, every row with a descriptor, no [baseId] 0)
    the set-up of lines 231-256 makes a list of [Nshared + Nhalo]
    descriptors in the order of their [newId], in which [newId] names the
    group, that is two descriptors have the same [newId] exactly when they
    have the same [abs(baseId)], and in which the descriptors of a group
    are next to each other. *)
Theorem setup_grouped `{StdSort} comm_rank NhaloP Nhalo sharedNodes :
  0 ≤ Nhalo → wfShared Nhalo sharedNodes →
  ∃ nodes,
    initNodes comm_rank NhaloP Nhalo (zlen sharedNodes) sharedNodes = Some nodes ∧
    zlen nodes = zlen sharedNodes + Nhalo ∧
    sortedBy ltNewId nodes ∧ groupIds nodes ∧ groupedByBase nodes ∧
    Forall (λ a, 0 ≤ newId a < Nhalo) nodes.
Proof.
  intros Hhalo Hwf.
  destruct (initNodes_ok comm_rank NhaloP Nhalo sharedNodes Hhalo Hwf)
    as (nodes & Hinit & Hlen & Hids & Hg & Hs).
  exists nodes. do 4 (split; [done|]). split; [by apply sorted_grouped|].
  eapply List.Forall_impl; [|exact Hids]. by intros a [? _].
Qed.

(** X14: a round keeps the list in order.  From a list in the order of
    [newId], whose [newId] names the group and is a row of the extended
    halo (of its forward part when the sign is positive), and from messages
    that some process has sent, the round leaves such a list again, for the
    new extended halo; and the list the sign propagation of lines 660-677
    runs on, sorted by [newId], has the descriptors of a group next to each
    other. *)
Theorem round_keeps_groups `{StdSort} comm_rank size NhaloP Nhalo m st :
  0 ≤ Nhalo → sentMessage (fst m) → sentMessage (snd m) → stateOk Nhalo st →
  let st' := levelRound comm_rank size NhaloP Nhalo m st in
  stateOk Nhalo st' ∧ groupedByBase (b_nodes st') ∧
  ∃ sorted, b_nodes st' = propagateSign (zlen sorted) sorted ∧
            sortedBy ltNewId sorted ∧ groupIds sorted ∧ groupedByBase sorted.
Proof.
  intros Hhalo Hm0 Hm1 Hst st'.
  destruct (levelRound_stateOk comm_rank size NhaloP Nhalo Hhalo m st Hm0 Hm1 Hst)
    as [Hok (sorted & Hp & Hids & Hg & Hs)].
  fold st' in Hok, Hp. split; [done|]. split.
  - destruct Hok as (_ & _ & _ & Hg' & Hs'). by apply sorted_grouped.
  - exists sorted. do 3 (split; [done|]). by apply sorted_grouped.
Qed.

Lemma setup_grouped_witness :
  ∃ nodes,
    initNodes 0 1 1 (zlen shared0) shared0 = Some nodes ∧
    zlen nodes = zlen shared0 + 1 ∧
    sortedBy ltNewId nodes ∧ groupIds nodes ∧ groupedByBase nodes ∧
    Forall (λ a, 0 ≤ newId a < 1) nodes.
Proof.
  apply (setup_grouped (H:=insertionStdSort) 0 1 1 shared0).
  - lia.
  - split; [|split].
    + repeat constructor; simpl; lia.
    + intros a b ->%list_elem_of_singleton ->%list_elem_of_singleton. done.
    + intros n Hn. exists (mkNode 0 0 2 7 1). split; [by constructor|simpl; lia].
Defined.

Lemma round_keeps_groups_witness :
  let st' := levelRound 0 2 1 1 (peerMessages 0)
               (mkBuild 2 0 0 2 (insertionSort ltNewId (haloRows 0 1 1 shared0 ++ shared0))
                        1 1 1 [] []) in
  stateOk 1 st' ∧ groupedByBase (b_nodes st') ∧
  ∃ sorted, b_nodes st' = propagateSign (zlen sorted) sorted ∧
            sortedBy ltNewId sorted ∧ groupIds sorted ∧ groupedByBase sorted.
Proof.
  apply (round_keeps_groups (H:=insertionStdSort) 0 2 1 1 (peerMessages 0)).
  - lia.
  - exists 1, peerState. reflexivity.
  - exists 0, (mkBuild 1 0 0 0 [] 0 0 0 [] []). reflexivity.
  - split; [reflexivity|]. split; [simpl; lia|]. split; [|split].
    + repeat constructor; simpl; lia.
    + vm_compute insertionSort.
      intros a b Ha Hb.
      apply elem_of_cons in Ha as [->| ->%list_elem_of_singleton];
        apply elem_of_cons in Hb as [->| ->%list_elem_of_singleton]; by vm_compute.
    + apply (std_sort_sorted (StdSort:=insertionStdSort)).
Defined.


(** ** The send lists of a round *)

Lemma sortedBy_cons lt a l :
  sortedBy lt (a :: l) ↔ Forall (λ b, lt b a = false) l ∧ sortedBy lt l.
Proof.
  split.
  - intros Hs. split.
    + apply list.Forall_forall. intros b Hb. apply list_elem_of_lookup in Hb as [j Hj].
      apply (Hs 0%nat (S j)); [lia|done|done].
    + intros i j x y Hij Hx Hy. apply (Hs (S i) (S j)); [lia|done|done].
  - intros [Ha Hs] i j x y Hij Hx Hy. destruct j as [|j]; [lia|]. simpl in Hy.
    destruct i as [|i]; simpl in Hx.
    + injection Hx as <-. rewrite list.Forall_forall in Ha. apply Ha.
      by apply list_elem_of_lookup_2 in Hy.
    + apply (Hs i j); [lia|done|done].
Qed.

Lemma sortedBy_sublist lt l l' : l' `sublist_of` l → sortedBy lt l → sortedBy lt l'.
Proof.
  induction 1 as [|x l1 l2 Hsub IH|x l1 l2 Hsub IH]; [done| |].
  - rewrite !sortedBy_cons. intros [Hx Hs]. split; [|by apply IH].
    rewrite list.Forall_forall in Hx. apply list.Forall_forall. intros b Hb. apply Hx.
    eapply elem_of_submseteq; [exact Hb|by apply sublist_submseteq].
  - rewrite sortedBy_cons. intros [_ Hs]. by apply IH.
Qed.

Lemma splitLoHi_filter r_half N nodes :
  0 ≤ N ≤ zlen nodes →
  splitLoHi r_half N nodes =
    (filter (λ a, rank a < r_half) (take (Z.to_nat N) nodes),
     filter (λ a, ¬ rank a < r_half) (take (Z.to_nat N) nodes)).
Proof.
  intros HN. unfold splitLoHi.
  apply (forZ_ind (λ i s,
    s = (filter (λ a, rank a < r_half) (take (Z.to_nat i) nodes),
         filter (λ a, ¬ rank a < r_half) (take (Z.to_nat i) nodes)))); [lia|done|].
  intros i [lo hi] Hi [= -> ->].
  rewrite (take_snoc_zget node0) by lia.
  rewrite !list.filter_app, !list.filter_cons, !list.filter_nil.
  destruct (rank (nodeAt nodes i) <? r_half) eqn:E.
  - rewrite decide_True, decide_False by lia. by rewrite app_nil_r.
  - rewrite decide_False, decide_True by lia. by rewrite app_nil_r.
Qed.

(** Either half of the split is a part of the list, in its order. *)
Lemma splitLoHi_sublist r_half N nodes :
  N = zlen nodes →
  fst (splitLoHi r_half N nodes) `sublist_of` nodes ∧
  snd (splitLoHi r_half N nodes) `sublist_of` nodes.
Proof.
  intros ->. pose proof (zlen_nonneg' nodes).
  rewrite splitLoHi_filter by lia. cbn [fst snd].
  replace (take (Z.to_nat (zlen nodes)) nodes) with nodes
    by (symmetry; apply take_ge; unfold zlen; lia).
  split; apply sublist_filter.
Qed.

Lemma evRows_Forall (P : Z → Prop) c r lo hi :
  (∀ k, lo ≤ k < hi → c k = true → P (r k)) → Forall P (evRows c r lo hi).
Proof.
  intros HP. destruct (Z.le_gt_cases lo hi) as [Hle|Hgt]; [|by rewrite evRows_nil by lia].
  revert HP. replace hi with (lo + Z.of_nat (Z.to_nat (hi - lo))) by lia.
  induction (Z.to_nat (hi - lo)) as [|n IH]; intros HP.
  - by rewrite evRows_nil by lia.
  - replace (lo + Z.of_nat (S n)) with (lo + Z.of_nat n + 1) in * by lia.
    rewrite evRows_snoc by lia. destruct (c (lo + Z.of_nat n)) eqn:E.
    + apply Forall_app. split; [apply IH; intros; apply HP; [lia|done]|].
      apply Forall_singleton, HP; [lia|done].
    + rewrite app_nil_r. apply IH. intros. apply HP; [lia|done].
Qed.

Lemma increasing_snoc l v : increasing l → Forall (λ x, x < v) l → increasing (l ++ [v]).
Proof.
  intros Hl Hv i j Hi Hj. rewrite zlen_app, zlen_singleton in Hj.
  destruct (decide (j = zlen l)) as [->|Hne].
  - rewrite zget_snoc, zget_app_l by lia.
    apply (Forall_zget _ 0 _ i) in Hv; [done|lia].
  - rewrite !zget_app_l by lia. apply Hl; lia.
Qed.

(** The entries a loop makes grow when the rows do and a new entry is made
    only past the last row. *)
Lemma evRows_increasing c r n :
  (∀ k, 0 < k < n → r (k - 1) ≤ r k) →
  (∀ k, 0 < k < n → c k = true → r (k - 1) < r k) →
  increasing (evRows c r 0 n).
Proof.
  intros Hmono Hnew. destruct (Z.le_gt_cases 0 n) as [Hle|Hgt].
  2:{ rewrite evRows_nil by lia. intros i j Hi Hj. unfold zlen in Hj. simpl in Hj. lia. }
  cut (increasing (evRows c r 0 n) ∧ Forall (λ x, 0 < n ∧ x ≤ r (n - 1)) (evRows c r 0 n));
    [by intros []|].
  revert Hmono Hnew. replace n with (Z.of_nat (Z.to_nat n)) by lia.
  induction (Z.to_nat n) as [|m IH]; intros Hmono Hnew.
  - rewrite evRows_nil by lia. split; [|done].
    intros i j Hi Hj. unfold zlen in Hj. simpl in Hj. lia.
  - replace (Z.of_nat (S m)) with (Z.of_nat m + 1) in * by lia.
    destruct IH as [Hinc Hall]; [intros; apply Hmono; lia|intros; apply Hnew; [lia|done]|].
    rewrite evRows_snoc by lia.
    assert (Hprev : Forall (λ x, x ≤ r (Z.of_nat m)) (evRows c r 0 (Z.of_nat m))).
    { eapply List.Forall_impl; [|exact Hall]. cbv beta. intros x [Hm Hx].
      specialize (Hmono (Z.of_nat m) ltac:(lia)). lia. }
    destruct (c (Z.of_nat m)) eqn:E.
    + split.
      * apply increasing_snoc; [done|].
        eapply List.Forall_impl; [|exact Hall]. cbv beta. intros x [Hm Hx].
        specialize (Hnew (Z.of_nat m) ltac:(lia) E). lia.
      * apply Forall_app. split.
        -- eapply List.Forall_impl; [|exact Hprev]. cbv beta. intros x Hx.
           replace (Z.of_nat m + 1 - 1) with (Z.of_nat m) by lia. lia.
        -- apply Forall_singleton. replace (Z.of_nat m + 1 - 1) with (Z.of_nat m) by lia. lia.
    + rewrite app_nil_r. split; [done|].
      eapply List.Forall_impl; [|exact Hprev]. cbv beta. intros x Hx.
      replace (Z.of_nat m + 1 - 1) with (Z.of_nat m) by lia. lia.
Qed.

(** What the second pass over the descriptors to send writes *)
Lemma fillSendIds_evRows Nsend_ sendNodes :
  0 ≤ Nsend_ ≤ zlen sendNodes →
  fst (fillSendIds Nsend_ sendNodes) =
    (evRows (λ n, groupStart sendNodes 0 n && (0 <? sign (nodeAt sendNodes n)))
            (λ n, newId (nodeAt sendNodes n)) 0 Nsend_,
     evRows (groupStart sendNodes 0) (λ n, newId (nodeAt sendNodes n)) 0 Nsend_).
Proof.
  intros HN.
  set (cT := groupStart sendNodes 0).
  set (cN := λ n, groupStart sendNodes 0 n && (0 <? sign (nodeAt sendNodes n))).
  set (r := λ n, newId (nodeAt sendNodes n)).
  unfold fillSendIds.
  apply (forZ_ind (λ i s,
    fst s = (evRows cN r 0 i, evRows cT r 0 i) ∧ zlen (snd s) = zlen sendNodes ∧
    ∀ k, nodeAt (snd s) k = if (0 <=? k) && (k <? i)
                            then setNewId (-1) (nodeAt sendNodes k)
                            else nodeAt sendNodes k)); [lia| |].
  - split; [by rewrite !evRows_nil by lia|]. split; [done|]. intros k. cbn [snd].
    destruct (_ && _) eqn:E; [lia|done].
  - intros i [[idsN idsT] cur] Hi ([= -> ->] & Hlen & Hcur). cbn [fst snd] in *.
    assert (Hi0 : nodeAt cur i = nodeAt sendNodes i).
    { rewrite Hcur. destruct (_ && _) eqn:E; [lia|done]. }
    assert (Hgs : groupStart cur 0 i = groupStart sendNodes 0 i).
    { unfold groupStart, absBase. rewrite !Hcur.
      destruct ((0 <=? i) && (i <? i)) eqn:E1; [lia|].
      destruct ((0 <=? i - 1) && (i - 1 <? i)) eqn:E2; [|done]. done. }
    rewrite Hgs, Hi0, !evRows_snoc by lia. subst cN cT r. cbv beta.
    assert (Hsnd : ∀ (p : list Z * list Z),
              (let '(a, b) := p in (a, b, zset cur i (setNewId (-1) (nodeAt sendNodes i))))
              = (p, zset cur i (setNewId (-1) (nodeAt sendNodes i)))) by (by intros []).
    rewrite Hsnd. cbn [fst snd]. split; [|split].
    + destruct (groupStart sendNodes 0 i); cbn [andb];
        [destruct (0 <? sign (nodeAt sendNodes i))|]; by rewrite ?app_nil_r.
    + by rewrite zlen_zset.
    + intros k. rewrite zget_zset by lia. destruct (decide (k = i)) as [->|Hne].
      * destruct ((0 <=? i) && (i <? i + 1)) eqn:E; [done|lia].
      * rewrite Hcur. destruct ((0 <=? k) && (k <? i)) eqn:E1,
          ((0 <=? k) && (k <? i + 1)) eqn:E2; done || lia.
Qed.

(** What the first pass over the descriptors to send counts *)
Lemma countEntriesSend_evRows Nsend_ sendNodes :
  0 ≤ Nsend_ →
  countEntriesSend Nsend_ sendNodes =
    (zlen (evRows (λ n, groupStart sendNodes 0 n && (0 <? sign (nodeAt sendNodes n)))
                  (λ n, newId (nodeAt sendNodes n)) 0 Nsend_),
     zlen (evRows (groupStart sendNodes 0) (λ n, newId (nodeAt sendNodes n)) 0 Nsend_)).
Proof.
  intros HN. unfold countEntriesSend.
  apply (forZ_ind (λ i s,
    s = (zlen (evRows (λ n, groupStart sendNodes 0 n && (0 <? sign (nodeAt sendNodes n)))
                      (λ n, newId (nodeAt sendNodes n)) 0 i),
         zlen (evRows (groupStart sendNodes 0) (λ n, newId (nodeAt sendNodes n)) 0 i))));
    [lia|by rewrite !evRows_nil by lia|].
  intros i [eN eT] Hi [= -> ->]. rewrite !zlen_evRows_snoc by lia. cbv beta.
  destruct (groupStart sendNodes 0 i); cbn [andb];
    [destruct (0 <? sign (nodeAt sendNodes i))|]; f_equal; lia.
Qed.

(** The parts of a round that do not depend on what is received *)
Lemma levelSend_parts comm_rank st :
  b_N st = zlen (b_nodes st) →
  let sp := levelSend comm_rank st in
  ∃ send,
    send `sublist_of` b_nodes st ∧ s_keep sp `sublist_of` b_nodes st ∧
    s_Nsend sp = zlen send ∧
    (s_sendIdsN sp, s_sendIdsT sp, s_sendNodes sp) = fillSendIds (zlen send) send ∧
    (s_NentriesSendN sp, s_NentriesSendT sp) = countEntriesSend (zlen send) send.
Proof.
  intros HN. unfold levelSend.
  pose proof (zlen_nonneg' (b_nodes st)) as Hlen.
  destruct (countLoHi_splitLoHi (r_half (b_np st) (b_np_offset st)) (b_N st)
              (b_nodes st) ltac:(lia)) as (H1 & H2 & _).
  destruct (splitLoHi_sublist (r_half (b_np st) (b_np_offset st)) (b_N st)
              (b_nodes st) HN) as [Hlo Hhi].
  destruct (countLoHi _ _ _) as [Nlo Nhi].
  destruct (splitLoHi _ _ _) as [lo hi]. cbn [fst snd] in *.
  exists (if is_lo comm_rank (b_np st) (b_np_offset st) then hi else lo).
  replace (if is_lo comm_rank (b_np st) (b_np_offset st) then Nhi else Nlo)
    with (zlen (if is_lo comm_rank (b_np st) (b_np_offset st) then hi else lo))
    by (by destruct (is_lo _ _ _)).
  destruct (countEntriesSend _ _) as [eN eT].
  destruct (fillSendIds _ _) as [[idsN idsT] wiped].
  cbn [s_keep s_Nsend s_sendIdsN s_sendIdsT s_sendNodes s_NentriesSendN s_NentriesSendT].
  destruct (is_lo _ _ _); done.
Qed.

Lemma levelSend_ids Nhalo comm_rank st :
  stateOk Nhalo st →
  let sp := levelSend comm_rank st in
  zlen (s_sendIdsN sp) = s_NentriesSendN sp ∧ zlen (s_sendIdsT sp) = s_NentriesSendT sp ∧
  increasing (s_sendIdsN sp) ∧ increasing (s_sendIdsT sp) ∧
  Forall (λ id, 0 ≤ id < b_NhaloExtN st) (s_sendIdsN sp) ∧
  Forall (λ id, 0 ≤ id < b_NhaloExtT st) (s_sendIdsT sp).
Proof.
  intros (HN & Hext & Hids & Hg & Hs) sp.
  destruct (levelSend_parts comm_rank st HN) as (send & Hsub & _ & _ & Hfill & Hcnt).
  fold sp in Hfill, Hcnt.
  pose proof (zlen_nonneg' send) as Hlen.
  pose proof (fillSendIds_evRows (zlen send) send ltac:(lia)) as Hev.
  rewrite <- Hfill in Hev. cbn [fst] in Hev. injection Hev as HidsN HidsT.
  assert (Hsend : Forall (idInRange (b_NhaloExtN st) (b_NhaloExtT st)) send).
  { apply list.Forall_forall. intros a Ha. rewrite list.Forall_forall in Hids. apply Hids.
    eapply elem_of_submseteq; [exact Ha|by apply sublist_submseteq]. }
  assert (Hgs : groupIds send).
  { eapply groupIds_sub; [|exact Hg]. intros a Ha.
    eapply elem_of_submseteq; [exact Ha|by apply sublist_submseteq]. }
  pose proof (proj1 (sortedBy_newId send) (sortedBy_sublist _ _ _ Hsub Hs)) as Hle.
  pose proof (proj1 (groupIds_zget send) Hgs) as Hz.
  assert (Hnew : ∀ k, 0 < k < zlen send → groupStart send 0 k = true →
                      newId (nodeAt send (k - 1)) < newId (nodeAt send k)).
  { intros k Hk Hst. unfold groupStart in Hst.
    apply orb_true_iff in Hst as [Hst|Hst]; [lia|]. apply negb_true_iff, Z.eqb_neq in Hst.
    specialize (Hle (k - 1) k ltac:(lia) ltac:(lia)).
    pose proof (Hz k (k - 1) ltac:(lia) ltac:(lia)) as [Hz1 _].
    destruct (decide (newId (nodeAt send (k - 1)) = newId (nodeAt send k))) as [He|]; [|lia].
    exfalso. apply Hst, Hz1. done. }
  pose proof (countEntriesSend_evRows (zlen send) send ltac:(lia)) as Hc.
  rewrite <- Hcnt in Hc. injection Hc as HcN HcT.
  split; [by rewrite HidsN|]. split; [by rewrite HidsT|].
  split; [|split; [|split]].
  - rewrite HidsN. apply evRows_increasing.
    + intros k Hk. apply Hle; lia.
    + intros k Hk [Hst _]%andb_true_iff. by apply Hnew.
  - rewrite HidsT. apply evRows_increasing.
    + intros k Hk. apply Hle; lia.
    + intros k Hk Hst. by apply Hnew.
  - rewrite HidsN. apply evRows_Forall. intros k Hk [_ Hpos]%andb_true_iff.
    apply (Forall_zget _ node0 _ k) in Hsend; [|lia]. destruct Hsend as [? Hp].
    specialize (Hp ltac:(lia)). lia.
  - rewrite HidsT. apply evRows_Forall. intros k Hk _.
    apply (Forall_zget _ node0 _ k) in Hsend; [|lia]. destruct Hsend as [? _]. lia.
Qed.


(** ** Properties of every level of a constructed schedule *)

Section ConstructInd.
Context `{StdSort}.
Variables (comm_rank size : Z) (gpu : bool) (Dfloat : Type_)
          (sharedNodes : list parallelNode_t) (gatherHalo : ogsOperator_t)
          (oracle : Z → crMessage * crMessage).
Hypothesis size_pos : 1 ≤ size.
Hypothesis rank_ok : 0 ≤ comm_rank < size.
Hypothesis halo_ok : 0 ≤ NrowsN gatherHalo ≤ NrowsT gatherHalo.
Hypothesis shared_ok : wfShared (NrowsT gatherHalo) sharedNodes.
Hypothesis messages_sent : sentMessages oracle.

(** What holds of the local variables between two rounds *)
Definition betweenRounds (st : buildState) : Prop :=
  roundInv comm_rank size (NrowsN gatherHalo) (NrowsT gatherHalo) st ∧
  stateOk (NrowsT gatherHalo) st.

Lemma betweenRounds_step st :
  betweenRounds st → 1 < b_np st →
  betweenRounds (levelRound comm_rank size (NrowsN gatherHalo) (NrowsT gatherHalo)
                   (oracle (b_Nlevels st)) st).
Proof.
  intros [Hr Hs] Hnp. destruct (messages_sent (b_Nlevels st)) as [Hm0 Hm1]. split.
  - by apply levelRound_inv.
  - apply levelRound_stateOk; [lia|done..].
Qed.

Lemma construct_ind (I : buildState → Prop) :
  (∀ nodes, I (mkBuild size 0 0 (zlen sharedNodes + NrowsT gatherHalo) nodes
                 (NrowsT gatherHalo) (NrowsT gatherHalo) (NrowsT gatherHalo) [] [])) →
  (∀ st, betweenRounds st → I st → 1 < b_np st →
         I (levelRound comm_rank size (NrowsN gatherHalo) (NrowsT gatherHalo)
              (oracle (b_Nlevels st)) st)) →
  ∃ x st,
    construct comm_rank size gpu Dfloat (zlen sharedNodes) sharedNodes gatherHalo oracle
      = Some x ∧
    betweenRounds st ∧ I st ∧
    cr.Nlevels x = b_Nlevels st ∧ cr.levelsN x = b_levelsN st ∧
    cr.levelsT x = b_levelsT st ∧ cr.Nhalo x = NrowsT gatherHalo ∧
    cr.NhaloP x = NrowsN gatherHalo.
Proof.
  intros Hinit Hstep.
  destruct (initNodes_ok comm_rank (NrowsN gatherHalo) (NrowsT gatherHalo) sharedNodes
              ltac:(lia) shared_ok) as (nodes & Hnodes & Hlen & Hok).
  unfold construct.
  assert (inWindow comm_rank (size, 0)) as Hw by (unfold inWindow; simpl; lia).
  rewrite countLevels_windows, Hnodes by done. cbn [mbind option_bind].
  set (st0 := mkBuild size 0 0 _ nodes _ _ _ [] []).
  assert (betweenRounds st0 ∧ I st0) as Hst0.
  { split; [|apply Hinit]. split.
    - unfold roundInv, st0.
      cbn [b_np b_np_offset b_Nlevels b_N b_nodes b_NhaloExtN b_NhaloExtT b_levelsN
           b_levelsT].
      split; [done|]. split; [lia|]. split; [lia|]. split; [done|].
      split; [lia|]. split; [lia|]. split; [|split; [done|split; [done|intros; lia]]].
      destruct Hok as (Hids & _). eapply List.Forall_impl; [|exact Hids].
      intros a [? _]. lia.
    - unfold stateOk, st0. cbn [b_N b_nodes b_NhaloExtN b_NhaloExtT].
      split; [lia|]. split; [lia|done]. }
  destruct (while_inv (λ st, 1 <? b_np st)
              (λ st, levelRound comm_rank size (NrowsN gatherHalo) (NrowsT gatherHalo)
                       (oracle (b_Nlevels st)) st)
              (λ st, betweenRounds st ∧ I st)
              (λ st, Z.to_nat (b_np st))) with (fuel := Z.to_nat size) (s := st0)
    as (st & Hst & [Hb HI] & _); [|done|simpl; lia|].
  { intros s [Hb HI] Hc. split.
    - split; [apply betweenRounds_step; [done|lia]|apply Hstep; [done|done|lia]].
    - destruct (levelRound_fold comm_rank size (NrowsN gatherHalo) (NrowsT gatherHalo)
                  (oracle (b_Nlevels s)) s) as (Hsh & _).
      destruct Hb as [(Hw' & _) _].
      destruct (shrink_inWindow comm_rank (b_np s, b_np_offset s)) as (_ & Hlt & _);
        [simpl; lia|done|].
      rewrite <- Hsh in Hlt. simpl in Hlt. lia. }
  unfold buildLevels. rewrite Hst. cbn [mbind option_bind].
  destruct (scratchMax _ _) as [NsendMax NrecvMax] eqn:E.
  eexists _, st. split; [done|]. split; [done|]. split; [done|].
  unfold AllocBuffer.
  cbn [cr.Nlevels cr.levelsN cr.levelsT cr.Nhalo cr.NhaloP cr.with_buffers]. done.
Qed.

(** What every round gives its level, every level of the schedule has. *)
Lemma construct_levels_have (Q : crLevel → crLevel → Prop) :
  (∀ st m, betweenRounds st → sentMessage (fst m) → sentMessage (snd m) → 1 < b_np st →
     let st' := levelRound comm_rank size (NrowsN gatherHalo) (NrowsT gatherHalo) m st in
     Q (zget level0 (b_levelsN st') (b_Nlevels st))
       (zget level0 (b_levelsT st') (b_Nlevels st))) →
  ∃ x,
    construct comm_rank size gpu Dfloat (zlen sharedNodes) sharedNodes gatherHalo oracle
      = Some x ∧
    ∀ l, 0 ≤ l < cr.Nlevels x →
      Q (zget level0 (cr.levelsN x) l) (zget level0 (cr.levelsT x) l).
Proof.
  intros HQ.
  destruct (construct_ind (λ st, ∀ l, 0 ≤ l < b_Nlevels st →
               Q (zget level0 (b_levelsN st) l) (zget level0 (b_levelsT st) l)))
    as (x & st & Hx & _ & HI & HL & HN & HT & _).
  - intros nodes l Hl. cbn [b_Nlevels] in Hl. lia.
  - intros st Hb HI Hnp l Hl.
    destruct (messages_sent (b_Nlevels st)) as [Hm0 Hm1].
    specialize (HQ st (oracle (b_Nlevels st)) Hb Hm0 Hm1 Hnp). cbv zeta in HQ.
    destruct (levelRound_fold comm_rank size (NrowsN gatherHalo) (NrowsT gatherHalo)
                (oracle (b_Nlevels st)) st) as (_ & HL & lN & lT & HlN & HlT & _).
    rewrite HL in Hl.
    destruct Hb as [(_ & _ & _ & _ & _ & _ & _ & HzN & HzT & _) _].
    destruct (decide (l = b_Nlevels st)) as [->|Hne]; [done|].
    rewrite HlN, HlT, !zget_app_l by lia. apply HI. lia.
  - exists x. split; [done|]. rewrite HL, HN, HT. done.
Qed.
End ConstructInd.


(** ** The level a round appends *)

Lemma buildGather_dims first NhaloP Nhalo NhaloExtN NhaloExtT offset Nrecv0_ N
    nodes indexMap recvOffsetN recvOffsetT NcolsN NcolsT :
  let g := buildGather first NhaloP Nhalo NhaloExtN NhaloExtT offset Nrecv0_ N nodes
             indexMap recvOffsetN recvOffsetT NcolsN NcolsT in
  (NrowsN (fst g), NrowsT (fst g), Ncols (fst g)) = (NhaloExtN, NhaloExtN, NcolsN) ∧
  (NrowsN (snd g), NrowsT (snd g), Ncols (snd g)) = (NhaloExtT, NhaloExtT, NcolsT) ∧
  nnzN (fst g) = nnzT (fst g) ∧ nnzN (snd g) = nnzT (snd g).
Proof.
  unfold buildGather. split_lets. cbn [fst snd NrowsN NrowsT Ncols nnzN nnzT]. done.
Qed.

Section LevelOfRound.
Context `{StdSort}.
Variables (comm_rank size NhaloP Nhalo : Z).

Lemma levelRound_level m st :
  zlen (b_levelsN st) = b_Nlevels st → zlen (b_levelsT st) = b_Nlevels st →
  let st' := levelRound comm_rank size NhaloP Nhalo m st in
  let sp := levelSend comm_rank st in
  let lN := zget level0 (b_levelsN st') (b_Nlevels st) in
  let lT := zget level0 (b_levelsT st') (b_Nlevels st) in
  (sendIds lN, Nsend lN, recvOffset lN) =
    (s_sendIdsN sp, s_NentriesSendN sp, b_NhaloExtN st) ∧
  (sendIds lT, Nsend lT, recvOffset lT) =
    (s_sendIdsT sp, s_NentriesSendT sp, b_NhaloExtT st) ∧
  (NrowsN (gather lN), NrowsT (gather lN), Ncols (gather lN)) =
    (b_NhaloExtN st', b_NhaloExtN st', recvFootprint lN) ∧
  (NrowsN (gather lT), NrowsT (gather lT), Ncols (gather lT)) =
    (b_NhaloExtT st', b_NhaloExtT st', recvFootprint lT).
Proof.
  intros HzN HzT. unfold levelRound, recvCount. cbv zeta.
  match goal with
  | |- context [buildGather ?f ?a1 ?a2 ?a3 ?a4 ?a5 ?a6 ?a7 ?a8 ?a9 ?b1 ?b2 ?b3 ?b4] =>
      destruct (buildGather_dims f a1 a2 a3 a4 a5 a6 a7 a8 a9 b1 b2 b3 b4)
        as (HgN & HgT & _);
      destruct (buildGather f a1 a2 a3 a4 a5 a6 a7 a8 a9 b1 b2 b3 b4) as [gatherN gatherT]
  end.
  cbn [fst snd] in HgN, HgT.
  destruct (shrink comm_rank (b_np st, b_np_offset st)) as [np' off'].
  cbn [b_levelsN b_levelsT b_NhaloExtN b_NhaloExtT].
  generalize dependent (b_Nlevels st). intros ? <- HzT.
  rewrite zget_snoc, <- HzT, zget_snoc.
  unfold recvFootprint. cbn [sendIds Nsend recvOffset gather Nrecv0 Nrecv1].
  rewrite HgN, HgT. done.
Qed.
End LevelOfRound.

(** X15: the send lists of a constructed schedule can be run.  When the
    caller's descriptors group the halo and the messages are ones that
    processes have sent, every level of both schedules has a [sendIds] of
    [Nsend] ids that grow strictly (no row is sent twice) and lie in
    [0, recvOffset), the part of the halo buffer that is filled when the
    level starts. *)
Theorem send_lists_safe `{StdSort} comm_rank size gpu Dfloat sharedNodes gatherHalo oracle :
  1 ≤ size → 0 ≤ comm_rank < size → 0 ≤ NrowsN gatherHalo ≤ NrowsT gatherHalo →
  wfShared (NrowsT gatherHalo) sharedNodes → sentMessages oracle →
  ∃ x,
    construct comm_rank size gpu Dfloat (zlen sharedNodes) sharedNodes gatherHalo oracle
      = Some x ∧
    ∀ l, 0 ≤ l < cr.Nlevels x →
      sendOk (zget level0 (cr.levelsN x) l) ∧ sendOk (zget level0 (cr.levelsT x) l).
Proof.
  intros Hsize Hrank Hhalo Hwf Hsent.
  apply (construct_levels_have comm_rank size gpu Dfloat sharedNodes gatherHalo oracle
           Hsize Hrank Hhalo Hwf Hsent (λ lN lT, sendOk lN ∧ sendOk lT)).
  intros st m [Hr Hs] _ _ _.
  destruct Hr as (_ & _ & _ & _ & _ & _ & _ & HzN & HzT & _).
  destruct (levelRound_level comm_rank size (NrowsN gatherHalo) (NrowsT gatherHalo) m st
              HzN HzT) as (HlN & HlT & _).
  destruct (levelSend_ids (NrowsT gatherHalo) comm_rank st Hs)
    as (H1 & H2 & H3 & H4 & H5 & H6).
  cbv zeta in *. injection HlN as HN1 HN2 HN3. injection HlT as HT1 HT2 HT3.
  unfold sendOk. rewrite HN1, HN2, HN3, HT1, HT2, HT3. done.
Qed.

Lemma send_lists_safe_witness :
  ∃ x,
    construct 0 2 false Double (zlen shared0) shared0 gatherHalo1 peerMessages = Some x ∧
    ∀ l, 0 ≤ l < cr.Nlevels x →
      sendOk (zget level0 (cr.levelsN x) l) ∧ sendOk (zget level0 (cr.levelsT x) l).
Proof.
  apply (send_lists_safe (H:=insertionStdSort) 0 2 false Double shared0 gatherHalo1
           peerMessages).
  - lia.
  - lia.
  - simpl. lia.
  - split; [|split].
    + repeat constructor; simpl; lia.
    + intros a b ->%list_elem_of_singleton ->%list_elem_of_singleton. done.
    + intros n Hn. exists (mkNode 0 0 2 7 1). split; [by constructor|simpl in *; lia].
  - intros l. split.
    + exists 1, peerState. reflexivity.
    + exists 0, (mkBuild 1 0 0 0 [] 0 0 0 [] []). reflexivity.
Defined.

(** X16: the levels of a constructed schedule fit together.  The rows a
    level starts with are the halo in the first level ([recvOffset = Nhalo],
    in both directions) and the rows the operator of the level before has
    gathered in the others; the operator of a level reads exactly what the
    level holds once its messages have arrived
    ([Ncols = recvOffset + Nrecv0 + Nrecv1]); and it gathers at least the
    halo, the forward operator no more rows than the transposed one. *)
Theorem levels_chain `{StdSort} comm_rank size gpu Dfloat sharedNodes gatherHalo oracle :
  1 ≤ size → 0 ≤ comm_rank < size → 0 ≤ NrowsN gatherHalo ≤ NrowsT gatherHalo →
  wfShared (NrowsT gatherHalo) sharedNodes → sentMessages oracle →
  ∃ x,
    construct comm_rank size gpu Dfloat (zlen sharedNodes) sharedNodes gatherHalo oracle
      = Some x ∧
    ∀ l, 0 ≤ l < cr.Nlevels x →
      let lvN := zget level0 (cr.levelsN x) l in
      let lvT := zget level0 (cr.levelsT x) l in
      recvOffset lvN = (if l =? 0 then cr.Nhalo x
                        else NrowsT (gather (zget level0 (cr.levelsN x) (l - 1)))) ∧
      recvOffset lvT = (if l =? 0 then cr.Nhalo x
                        else NrowsT (gather (zget level0 (cr.levelsT x) (l - 1)))) ∧
      Ncols (gather lvN) = recvOffset lvN + Nrecv0 lvN + Nrecv1 lvN ∧
      Ncols (gather lvT) = recvOffset lvT + Nrecv0 lvT + Nrecv1 lvT ∧
      cr.Nhalo x ≤ NrowsT (gather lvN) ≤ NrowsT (gather lvT) ∧
      NrowsN (gather lvN) = NrowsT (gather lvN) ∧ NrowsN (gather lvT) = NrowsT (gather lvT).
Proof.
  intros Hsize Hrank Hhalo Hwf Hsent.
  set (rowsBefore := λ (levels : list crLevel) (l : Z),
         if l =? 0 then (NrowsT gatherHalo) else NrowsT (gather (zget level0 levels (l - 1)))).
  destruct (construct_ind comm_rank size gpu Dfloat sharedNodes gatherHalo oracle
              Hsize Hrank Hhalo Hwf Hsent
              (λ st, b_NhaloExtN st = rowsBefore (b_levelsN st) (b_Nlevels st) ∧
                     b_NhaloExtT st = rowsBefore (b_levelsT st) (b_Nlevels st) ∧
                     ∀ l, 0 ≤ l < b_Nlevels st →
                       let lvN := zget level0 (b_levelsN st) l in
                       let lvT := zget level0 (b_levelsT st) l in
                       recvOffset lvN = rowsBefore (b_levelsN st) l ∧
                       recvOffset lvT = rowsBefore (b_levelsT st) l ∧
                       Ncols (gather lvN) = recvFootprint lvN ∧
                       Ncols (gather lvT) = recvFootprint lvT ∧
                       (NrowsT gatherHalo) ≤ NrowsT (gather lvN) ≤ NrowsT (gather lvT) ∧
                       NrowsN (gather lvN) = NrowsT (gather lvN) ∧
                       NrowsN (gather lvT) = NrowsT (gather lvT)))
    as (x & st & Hx & _ & (_ & _ & HI) & HL & HN & HT & HH & _).
  - intros nodes. cbn [b_NhaloExtN b_NhaloExtT b_levelsN b_levelsT b_Nlevels].
    split; [done|]. split; [done|]. intros; lia.
  - intros st Hb (HeN & HeT & HI) Hnp.
    assert (betweenRounds comm_rank size gatherHalo
              (levelRound comm_rank size (NrowsN gatherHalo) (NrowsT gatherHalo)
                 (oracle (b_Nlevels st)) st)) as [Hr' Hs']
      by (eapply betweenRounds_step; eauto).
    destruct Hb as [Hr Hs].
    destruct Hr as (_ & _ & Hl0 & _ & _ & _ & _ & HzN & HzT & _).
    destruct (levelRound_level comm_rank size (NrowsN gatherHalo) (NrowsT gatherHalo)
                (oracle (b_Nlevels st)) st HzN HzT) as (HlN & HlT & HgN & HgT).
    destruct (levelRound_fold comm_rank size (NrowsN gatherHalo) (NrowsT gatherHalo)
                (oracle (b_Nlevels st)) st) as (_ & HL & lN & lT & HaN & HaT & _).
    set (st' := levelRound comm_rank size (NrowsN gatherHalo) (NrowsT gatherHalo)
                  (oracle (b_Nlevels st)) st) in *.
    cbv zeta in HlN, HlT, HgN, HgT.
    injection HlN as _ _ HN3. injection HlT as _ _ HT3.
    injection HgN as HgN1 HgN2 HgN3. injection HgT as HgT1 HgT2 HgT3.
    destruct Hs' as (_ & Hext' & _).
    assert (Hrows : ∀ levels v l, 0 ≤ l ≤ zlen levels →
              rowsBefore (levels ++ [v]) l = rowsBefore levels l).
    { intros levels v l Hl. unfold rowsBefore. destruct (l =? 0) eqn:E; [done|].
      by rewrite zget_app_l by lia. }
    rewrite HL. split; [|split].
    + unfold rowsBefore. destruct (b_Nlevels st + 1 =? 0) eqn:E; [lia|].
      replace (b_Nlevels st + 1 - 1) with (b_Nlevels st) by lia. done.
    + unfold rowsBefore. destruct (b_Nlevels st + 1 =? 0) eqn:E; [lia|].
      replace (b_Nlevels st + 1 - 1) with (b_Nlevels st) by lia. done.
    + intros l Hl. cbv zeta. destruct (decide (l = b_Nlevels st)) as [->|Hne].
      * rewrite HN3, HT3, HgN1, HgN2, HgN3, HgT1, HgT2, HgT3.
        rewrite HaN at 1. rewrite HaT at 1. rewrite !Hrows by lia.
        split; [done|]. split; [done|]. split; [done|]. split; [done|]. split; [lia|done].
      * specialize (HI l ltac:(lia)). cbv zeta in HI.
        rewrite HaN, HaT, !Hrows, !zget_app_l by lia. done.
  - exists x. split; [done|]. rewrite HL, HN, HT, HH. intros l Hl.
    specialize (HI l Hl). cbv zeta in HI. unfold rowsBefore, recvFootprint in HI.
    done.
Qed.

Lemma levels_chain_witness :
  ∃ x,
    construct 0 2 false Double (zlen shared0) shared0 gatherHalo1 peerMessages = Some x ∧
    ∀ l, 0 ≤ l < cr.Nlevels x →
      let lvN := zget level0 (cr.levelsN x) l in
      let lvT := zget level0 (cr.levelsT x) l in
      recvOffset lvN = (if l =? 0 then cr.Nhalo x
                        else NrowsT (gather (zget level0 (cr.levelsN x) (l - 1)))) ∧
      recvOffset lvT = (if l =? 0 then cr.Nhalo x
                        else NrowsT (gather (zget level0 (cr.levelsT x) (l - 1)))) ∧
      Ncols (gather lvN) = recvOffset lvN + Nrecv0 lvN + Nrecv1 lvN ∧
      Ncols (gather lvT) = recvOffset lvT + Nrecv0 lvT + Nrecv1 lvT ∧
      cr.Nhalo x ≤ NrowsT (gather lvN) ≤ NrowsT (gather lvT) ∧
      NrowsN (gather lvN) = NrowsT (gather lvN) ∧ NrowsN (gather lvT) = NrowsT (gather lvT).
Proof.
  apply (levels_chain (H:=insertionStdSort) 0 2 false Double shared0 gatherHalo1
           peerMessages).
  - lia.
  - lia.
  - simpl. lia.
  - split; [|split].
    + repeat constructor; simpl; lia.
    + intros a b ->%list_elem_of_singleton ->%list_elem_of_singleton. done.
    + intros n Hn. exists (mkNode 0 0 2 7 1). split; [by constructor|simpl in *; lia].
  - intros l. split.
    + exists 1, peerState. reflexivity.
    + exists 0, (mkBuild 1 0 0 0 [] 0 0 0 [] []). reflexivity.
Defined.


(** ** The columns of the gather operators *)

Lemma valsOf_snoc rows vals r v i :
  zlen rows = zlen vals →
  valsOf (rows ++ [r]) (vals ++ [v]) i =
    valsOf rows vals i ++ (if decide (r = i) then [v] else []).
Proof.
  revert vals. induction rows as [|a rows IH]; intros [|b vals] Hlen;
    unfold zlen in Hlen; simpl in Hlen; try lia.
  - simpl. by destruct (decide (r = i)).
  - simpl. rewrite IH by (unfold zlen; lia). by destruct (decide (a = i)).
Qed.

Lemma valsOf_app rows vals rows' vals' i :
  zlen rows = zlen vals →
  valsOf (rows ++ rows') (vals ++ vals') i = valsOf rows vals i ++ valsOf rows' vals' i.
Proof.
  revert vals. induction rows as [|a rows IH]; intros [|b vals] Hlen;
    unfold zlen in Hlen; simpl in Hlen; try lia; [done|].
  simpl. rewrite IH by (unfold zlen; lia). by destruct (decide (a = i)).
Qed.

Lemma zlen_valsOf rows vals i : zlen rows = zlen vals → zlen (valsOf rows vals i) = occ rows i.
Proof.
  revert vals. induction rows as [|a rows IH]; intros [|b vals] Hlen;
    unfold zlen in Hlen; simpl in Hlen; try lia; [done|].
  unfold occ. simpl. specialize (IH vals ltac:(unfold zlen; lia)). unfold occ in IH.
  destruct (decide (a = i)), (Z.eq_dec a i); try lia; unfold zlen in *; simpl; lia.
Qed.

Lemma valsOf_elem rows vals i x : x ∈ valsOf rows vals i → x ∈ vals.
Proof.
  revert vals. induction rows as [|a rows IH]; intros [|b vals]; simpl;
    try (by intros ?%elem_of_nil).
  destruct (decide (a = i)).
  - intros [->|Hx]%elem_of_cons; [by left|right; by apply IH].
  - intros Hx. right. by apply IH.
Qed.

Lemma fillVals_start R st col : fillVals R st [] [] (st, col).
Proof. split; [done|]. intros i k _ Hk. unfold zlen in Hk. simpl in Hk. lia. Qed.

(** One entry more, with its value *)
Lemma fillVals_step R all st rows vals g r v :
  startsOk R all st → zget 0 st R ≤ zlen (snd g) →
  fillInv R 0 st rows g → fillVals R st rows vals g →
  0 ≤ r < R → (∀ i, occ (rows ++ [r]) i ≤ occ all i) →
  fillVals R st (rows ++ [r]) (vals ++ [v]) (putCol g r v).
Proof.
  intros Hst Hnnz (Hlen & Hrs & _) [Hlv Hcells] Hr Hpre.
  destruct g as [rs col]. cbn [fst snd] in *.
  split; [rewrite !zlen_app, !zlen_singleton; lia|].
  intros i k Hi Hk. rewrite valsOf_snoc in Hk |- * by done. cbn [putCol snd].
  rewrite Hrs by lia.
  assert (Hroom : ∀ j, 0 ≤ j < R → zget 0 st j + occ (rows ++ [r]) j ≤ zget 0 st (j + 1)).
  { intros j Hj. specialize (Hpre j). rewrite (proj2 (proj2 Hst) j Hj). lia. }
  pose proof (Hroom r Hr) as Hroomr. rewrite occ_app, occ_singleton in Hroomr.
  destruct (decide (r = r)); [|done].
  pose proof (startsOk_nonneg R all st r Hst ltac:(lia)) as Hr0.
  pose proof (startsOk_mono R all st (r + 1) R Hst ltac:(lia) ltac:(lia)) as HrR.
  pose proof (occ_nonneg rows r) as Hor.
  rewrite <- (zlen_valsOf rows vals) in * by done.
  destruct (decide (r = i)) as [->|Hne].
  - rewrite zlen_app, zlen_singleton in Hk.
    destruct (decide (k = zlen (valsOf rows vals i))) as [->|Hk'].
    + rewrite zget_zset_eq by lia. by rewrite zget_snoc.
    + rewrite zget_zset_ne by lia. rewrite zget_app_l by lia. apply Hcells; lia.
  - rewrite app_nil_r in Hk |- *.
    pose proof (Hroom i Hi) as Hroomi. rewrite occ_app, occ_singleton in Hroomi.
    destruct (decide (r = i)); [done|].
    rewrite <- (zlen_valsOf rows vals) in Hroomi by done.
    rewrite zget_zset_ne; [by apply Hcells|].
    destruct (Z_lt_le_dec r i).
    + pose proof (startsOk_mono R all st (r + 1) i Hst ltac:(lia) ltac:(lia)). lia.
    + pose proof (startsOk_mono R all st (i + 1) r Hst ltac:(lia) ltac:(lia)). lia.
Qed.

(** A loop that puts entries into an operator, with the values it puts;
    [J] is what the loop keeps of the rest of its state. *)
Lemma fillLoopV {St} (proj : St → list Z * list Z) (J : Z → St → Prop)
    (c : Z → bool) (r v : Z → Z) lo hi (body : Z → St → St) p q s R all st nnz :
  lo ≤ hi → 0 ≤ R → startsOk R all st → zget 0 st R ≤ nnz →
  (∀ n s, lo ≤ n < hi → J n s →
     proj (body n s) = (if c n then putCol (proj s) (r n) (v n) else proj s) ∧
     J (n + 1) (body n s)) →
  (∀ n, lo ≤ n < hi → c n = true → 0 ≤ r n < R) →
  (∀ i, occ (p ++ evRows c r lo hi) i ≤ occ all i) →
  J lo s → fillInv R 0 st p (proj s) → fillVals R st p q (proj s) →
  zlen (snd (proj s)) = nnz →
  J hi (forZ lo hi body s) ∧
  fillInv R 0 st (p ++ evRows c r lo hi) (proj (forZ lo hi body s)) ∧
  fillVals R st (p ++ evRows c r lo hi) (q ++ evRows c v lo hi) (proj (forZ lo hi body s)) ∧
  zlen (snd (proj (forZ lo hi body s))) = nnz.
Proof.
  intros Hle HR Hst Hnnz Hbody Hr Hpre HJ Hinv Hvals Hlen.
  apply (forZ_ind (λ n t,
    J n t ∧ fillInv R 0 st (p ++ evRows c r lo n) (proj t) ∧
    fillVals R st (p ++ evRows c r lo n) (q ++ evRows c v lo n) (proj t) ∧
    zlen (snd (proj t)) = nnz)); [done| |].
  - rewrite !evRows_nil, !app_nil_r by lia. done.
  - intros n t Hn (IJ & IH & IV & IHnnz). destruct (Hbody n t Hn IJ) as [-> HJ'].
    split; [done|]. rewrite !evRows_snoc by lia.
    destruct (c n) eqn:E; [|by rewrite !app_nil_r].
    rewrite !app_assoc.
    assert (Hpre' : ∀ i, occ ((p ++ evRows c r lo n) ++ [r n]) i ≤ occ all i).
    { intros i. rewrite <- app_assoc.
      pose proof (occ_evRows_le c r lo (n + 1) hi i ltac:(lia)) as Hl.
      rewrite evRows_snoc, E in Hl by lia.
      specialize (Hpre i). rewrite occ_app in Hpre |- *. lia. }
    destruct (fillInv_step R 0 all st (p ++ evRows c r lo n) (proj t) (r n) (v n))
      as [Hinv' Hlen'];
      [done|lia|intros; lia|done|by apply Hr|done|specialize (Hr n Hn E); intros; lia|].
    split; [done|]. split; [|by rewrite Hlen'].
    apply (fillVals_step R all); try done; [by rewrite IHnnz|by apply Hr].
Qed.

Lemma evCount_rows c r lo hi : zlen (evRows c r lo hi) = evCount c lo hi.
Proof.
  unfold evCount. destruct (Z.le_gt_cases lo hi) as [Hle|Hgt];
    [|by rewrite !evRows_nil by lia].
  apply (forZ_ind (λ n _, zlen (evRows c r lo n) = zlen (evRows c (λ n, n) lo n)) lo hi
           (λ _ x, x) tt); [done|by rewrite !evRows_nil by lia|].
  intros n _ Hn IH. rewrite !zlen_evRows_snoc by lia. lia.
Qed.

Lemma evCount_snoc c lo hi :
  lo ≤ hi → evCount c lo (hi + 1) = evCount c lo hi + (if c hi then 1 else 0).
Proof. intros. unfold evCount. by rewrite zlen_evRows_snoc. Qed.

Lemma evCount_nonneg c lo hi : 0 ≤ evCount c lo hi.
Proof. apply zlen_nonneg'. Qed.

(** The entries received take the slots from [base] on, one by one. *)
Lemma evRows_slots c base lo hi :
  lo ≤ hi → evRows c (λ n, base + evCount c lo n) lo hi = seqZ base (evCount c lo hi).
Proof.
  intros Hle.
  apply (forZ_ind (λ n _, evRows c (λ n, base + evCount c lo n) lo n
                          = seqZ base (evCount c lo n)) lo hi (λ _ x, x) tt); [done| |].
  - unfold evCount. by rewrite !evRows_nil by lia.
  - intros n _ Hn IH. rewrite evRows_snoc, evCount_snoc, IH by lia.
    pose proof (evCount_nonneg c lo n).
    destruct (c n); [|by rewrite app_nil_r, Z.add_0_r].
    replace (evCount c lo n + 1) with (Z.of_nat (S (Z.to_nat (evCount c lo n)))) by lia.
    rewrite seqZ_S. by rewrite !Z2Nat.id by lia.
Qed.

Lemma evRows_all n : 0 ≤ n → evRows (λ _, true) (λ n, n) 0 n = seqZ 0 n.
Proof.
  intros Hn.
  apply (forZ_ind (λ n _, evRows (λ _, true) (λ n, n) 0 n = seqZ 0 n) 0 n
           (λ _ x, x) tt); [done|by rewrite evRows_nil by lia|].
  intros k _ Hk IH. rewrite evRows_snoc, IH by lia.
  replace (k + 1) with (Z.of_nat (S (Z.to_nat k))) by lia.
  rewrite seqZ_S. by rewrite !Z2Nat.id by lia.
Qed.

Section FillValues.
Variables (R Nhalo : Z) (nodes : list parallelNode_t).
Hypothesis rows_ok : ∀ n, 0 ≤ n < zlen nodes → 0 ≤ rowOf nodes n < R.
Variables (all st : list Z) (nnz : Z).
Hypothesis R_nonneg : 0 ≤ R.
Hypothesis starts_ok : startsOk R all st.
Hypothesis nnz_ok : zget 0 st R ≤ nnz.

Lemma fillHalo_vals rows col :
  0 ≤ rows ≤ R → zlen col = nnz →
  (∀ i, occ (seqZ 0 rows) i ≤ occ all i) →
  fillInv R 0 st (seqZ 0 rows) (fillHalo rows (st, col)) ∧
  fillVals R st (seqZ 0 rows) (seqZ 0 rows) (fillHalo rows (st, col)) ∧
  zlen (snd (fillHalo rows (st, col))) = nnz.
Proof.
  intros Hrows Hcol Hpre. unfold fillHalo.
  destruct (fillLoopV (λ g, g) (λ _ _, True) (λ _, true) (λ n, n) (λ n, n) 0 rows
              (λ n g, putCol g n n) [] [] (st, col) R all st nnz)
    as (_ & Hi & Hv & Hl); [lia|done|done|done| | | |done| | |done|].
  - done.
  - intros n Hn _. lia.
  - by rewrite app_nil_l, evRows_all by lia.
  - by apply (fillInv_start R 0 all).
  - apply fillVals_start.
  - rewrite !app_nil_l, !evRows_all in * by lia. done.
Qed.

Section Local.
Variables (offset : Z) (indexMap : list Z) (c : Z → bool).
Hypothesis offset_ok : 0 ≤ offset ≤ zlen nodes.

Lemma fillLocal_vals (proj : (list Z * list Z) * (list Z * list Z) → list Z * list Z)
    p q gs :
  (∀ n s, 0 ≤ n < offset →
     proj ((λ n '(gN, gT),
             if groupStart nodes 0 n then
               let id := newId (zget node0 nodes n) in
               if Nhalo <=? newId (zget node0 nodes n) then
                 ((if 0 <? sign (zget node0 nodes n)
                   then putCol gN id (zget 0 indexMap (id - Nhalo)) else gN),
                  putCol gT id (zget 0 indexMap (id - Nhalo)))
               else (gN, gT)
             else (gN, gT)) n s)
     = if c n then putCol (proj s) (rowOf nodes n) (oldRow Nhalo nodes indexMap n)
       else proj s) →
  (∀ i, occ (p ++ evRows c (rowOf nodes) 0 offset) i ≤ occ all i) →
  fillInv R 0 st p (proj gs) → fillVals R st p q (proj gs) →
  zlen (snd (proj gs)) = nnz →
  fillInv R 0 st (p ++ evRows c (rowOf nodes) 0 offset)
    (proj (fillLocal Nhalo offset nodes indexMap gs)) ∧
  fillVals R st (p ++ evRows c (rowOf nodes) 0 offset)
    (q ++ evRows c (oldRow Nhalo nodes indexMap) 0 offset)
    (proj (fillLocal Nhalo offset nodes indexMap gs)) ∧
  zlen (snd (proj (fillLocal Nhalo offset nodes indexMap gs))) = nnz.
Proof.
  intros Hbody Hpre Hinv Hvals Hlen. unfold fillLocal.
  destruct (fillLoopV proj (λ _ _, True) c (rowOf nodes) (oldRow Nhalo nodes indexMap)
              0 offset
              (λ n '(gN, gT),
                 if groupStart nodes 0 n then
                   let id := newId (zget node0 nodes n) in
                   if Nhalo <=? newId (zget node0 nodes n) then
                     ((if 0 <? sign (zget node0 nodes n)
                       then putCol gN id (zget 0 indexMap (id - Nhalo)) else gN),
                      putCol gT id (zget 0 indexMap (id - Nhalo)))
                   else (gN, gT)
                 else (gN, gT))
              p q gs R all st nnz) as (_ & Hi & Hv & Hl);
    [lia|done|done|done| | |done|done|done|done|done|done].
  - intros n s Hn _. split; [by apply Hbody|done].
  - intros n Hn _. apply rows_ok. lia.
Qed.
End Local.

Section Recv.
Variables (first last : Z) (baseN baseT : Z).
Hypothesis range_ok : 0 ≤ first ≤ last.
Hypothesis last_ok : last ≤ zlen nodes.

Lemma fillRecv_vals_T p q gs :
  (∀ i, occ (p ++ evRows (recvEntry first nodes) (rowOf nodes) first last) i
        ≤ occ all i) →
  recvCounters nodes first baseN baseT first gs →
  fillInv R 0 st p (snd (fst (fst gs))) → fillVals R st p q (snd (fst (fst gs))) →
  zlen (snd (snd (fst (fst gs)))) = nnz →
  let gs' := fillRecv first last nodes gs in
  recvCounters nodes first baseN baseT last gs' ∧
  fillInv R 0 st (p ++ evRows (recvEntry first nodes) (rowOf nodes) first last)
    (snd (fst (fst gs'))) ∧
  fillVals R st (p ++ evRows (recvEntry first nodes) (rowOf nodes) first last)
    (q ++ seqZ baseT (evCount (recvEntry first nodes) first last))
    (snd (fst (fst gs'))) ∧
  zlen (snd (snd (fst (fst gs')))) = nnz.
Proof.
  intros Hpre HJ Hinv Hvals Hlen. cbv zeta. unfold fillRecv.
  rewrite <- (evRows_slots (recvEntry first nodes) baseT first last) by lia.
  apply (fillLoopV (λ s, snd (fst (fst s))) (recvCounters nodes first baseN baseT)
           (recvEntry first nodes) (rowOf nodes)
           (λ n, baseT + evCount (recvEntry first nodes) first n)
           first last _ p q gs R all st nnz);
    [lia|done|done|done| | |done|done|done|done|done].
  - intros n [[[gN gT] eN] eT] Hn [HeN HeT]. cbn [fst snd] in *.
    unfold recvCounters. rewrite !evCount_snoc by lia.
    unfold recvEntry, positive, rowOf in *. cbv beta.
    destruct (groupStart nodes first n); cbn [andb].
    + destruct (0 <? sign (nodeAt nodes n)); cbn [fst snd]; subst eT eN;
        (split; [done|split; lia]).
    + cbn [fst snd]. split; [done|split; lia].
  - intros n Hn _. apply rows_ok. lia.
Qed.

Lemma fillRecv_vals_N p q gs :
  (∀ i, occ (p ++ evRows (λ n, recvEntry first nodes n && positive nodes n)
                      (rowOf nodes) first last) i ≤ occ all i) →
  recvCounters nodes first baseN baseT first gs →
  fillInv R 0 st p (fst (fst (fst gs))) → fillVals R st p q (fst (fst (fst gs))) →
  zlen (snd (fst (fst (fst gs)))) = nnz →
  let gs' := fillRecv first last nodes gs in
  fillInv R 0 st (p ++ evRows (λ n, recvEntry first nodes n && positive nodes n)
                          (rowOf nodes) first last) (fst (fst (fst gs'))) ∧
  fillVals R st (p ++ evRows (λ n, recvEntry first nodes n && positive nodes n)
                           (rowOf nodes) first last)
    (q ++ seqZ baseN (evCount (λ n, recvEntry first nodes n && positive nodes n)
                              first last))
    (fst (fst (fst gs'))) ∧
  zlen (snd (fst (fst (fst gs')))) = nnz.
Proof.
  intros Hpre HJ Hinv Hvals Hlen. cbv zeta. unfold fillRecv.
  rewrite <- (evRows_slots (λ n, recvEntry first nodes n && positive nodes n)
                baseN first last) by lia.
  apply (fillLoopV (λ s, fst (fst (fst s))) (recvCounters nodes first baseN baseT)
           (λ n, recvEntry first nodes n && positive nodes n) (rowOf nodes)
           (λ n, baseN + evCount (λ n, recvEntry first nodes n && positive nodes n)
                                 first n)
           first last _ p q gs R all st nnz);
    [lia|done|done|done| | |done|done|done|done|done].
  - intros n [[[gN gT] eN] eT] Hn [HeN HeT]. cbn [fst snd] in *.
    unfold recvCounters. rewrite !evCount_snoc by lia.
    unfold recvEntry, positive, rowOf in *. cbv beta.
    destruct (groupStart nodes first n); cbn [andb].
    + destruct (0 <? sign (nodeAt nodes n)); cbn [fst snd]; subst eT eN;
        (split; [done|split; lia]).
    + cbn [fst snd]. split; [done|split; lia].
  - intros n Hn _. apply rows_ok. lia.
Qed.
End Recv.
End FillValues.

Lemma zlen_take_drop {A} (l : list A) m n :
  0 ≤ m → 0 ≤ n → m + n ≤ zlen l → zlen (take (Z.to_nat n) (drop (Z.to_nat m) l)) = n.
Proof.
  intros Hm Hn Hl. unfold zlen in *. rewrite length_take, length_drop. lia.
Qed.

Lemma zget_take_drop {A} (d : A) (l : list A) m n k :
  0 ≤ m → 0 ≤ k < n →
  zget d (take (Z.to_nat n) (drop (Z.to_nat m) l)) k = zget d l (m + k).
Proof.
  intros Hm Hk. unfold zget.
  destruct (k <? 0) eqn:E1; [lia|]. destruct (m + k <? 0) eqn:E2; [lia|].
  rewrite !nth_lookup, lookup_take_lt, lookup_drop by lia.
  do 2 f_equal. lia.
Qed.

(** Once every entry is in place and the row starts are reset, the operator
    holds the entries row by row. *)
Lemma csrOf_filled R all vals st g rs k a b c d e :
  0 ≤ R → startsOk R all st →
  fillInv R 0 st all g → fillVals R st all vals g → zlen (snd g) = zget 0 st R →
  zget 0 rs 0 = 0 → (∀ i, 1 ≤ i ≤ R → zget 0 rs i = zget 0 (fst g) (i - 1)) →
  csrOf R all vals (mkOperator k a b c d e rs (snd g)).
Proof.
  intros HR Hst (Hg & Hrun & _) [Hlv Hcells] Hnnz Hrs0 Hrs.
  assert (Hsame : ∀ i, 0 ≤ i ≤ R → zget 0 rs i = zget 0 st i).
  { intros i Hi. destruct Hst as (_ & H0 & Hs).
    destruct (decide (i = 0)) as [-> | Hne]; [congruence|].
    rewrite Hrs, Hrun by lia. replace i with (i - 1 + 1) at 3 by lia.
    by rewrite (Hs (i - 1)) by lia. }
  unfold csrOf, rowCols. cbn [rowStartsT colIdsT].
  split; [done|]. split; [|split].
  - intros i Hi. rewrite !Hsame by lia. by apply Hst.
  - rewrite Hsame by lia. done.
  - intros i Hi. rewrite !Hsame by lia.
    pose proof (proj2 (proj2 Hst) i Hi) as Hnext.
    pose proof (startsOk_nonneg R all st i Hst ltac:(lia)) as Hi0.
    pose proof (startsOk_mono R all st (i + 1) R Hst ltac:(lia) ltac:(lia)) as HiR.
    pose proof (occ_nonneg all i) as Hocc.
    pose proof (zlen_valsOf all vals i Hlv) as Hlen.
    replace (zget 0 st (i + 1) - zget 0 st i) with (occ all i) by lia.
    apply (list_eq_zget 0).
    + rewrite zlen_take_drop by lia. lia.
    + intros j Hj. rewrite zlen_take_drop in Hj by lia.
      rewrite zget_take_drop by lia. apply Hcells; lia.
Qed.

Lemma occ_none p i : Forall (λ r, r ≠ i) p → occ p i = 0.
Proof.
  intros Hp. unfold occ. rewrite (proj1 (count_occ_not_In Z.eq_dec p i)); [done|].
  intros Hin. rewrite List.Forall_forall in Hp. by apply (Hp i).
Qed.


(** ** The two operators of a round, row by row *)

Lemma entriesN_tail idRows Nhalo NhaloExtN NhaloExtT offset Nrecv0_ nodes i :
  0 ≤ idRows ≤ NhaloExtN → 0 ≤ offset → 0 ≤ Nrecv0_ → offset + Nrecv0_ ≤ zlen nodes →
  Forall (idInRange NhaloExtN NhaloExtT) nodes → NhaloExtN ≤ i →
  occ (entriesN idRows Nhalo offset Nrecv0_ (zlen nodes) nodes) i = 0.
Proof.
  intros Hid Hoff Hr0 HN Hids Hi. unfold entriesN. rewrite !occ_app.
  assert (Hpos : ∀ n, 0 ≤ n < zlen nodes → positive nodes n = true → rowOf nodes n ≠ i).
  { intros n Hn Hp. apply (Forall_zget _ node0 _ n) in Hids; [|done].
    destruct Hids as [_ Hlt]. unfold positive in Hp. unfold rowOf.
    specialize (Hlt ltac:(lia)). lia. }
  rewrite occ_seqZ by lia.
  rewrite !occ_none.
  - destruct ((0 <=? i) && (i <? idRows)) eqn:E; lia.
  - apply evRows_Forall. intros n Hn [_ Hp]%andb_true_iff. apply Hpos; [lia|done].
  - apply evRows_Forall. intros n Hn [_ Hp]%andb_true_iff. apply Hpos; [lia|done].
  - apply evRows_Forall. intros n Hn [_ Hp]%andb_true_iff. apply Hpos; [lia|done].
Qed.

Lemma buildGather_rows first NhaloP Nhalo NhaloExtN NhaloExtT offset Nrecv0_ N
    nodes indexMap recvOffsetN recvOffsetT NcolsN NcolsT :
  0 ≤ NhaloP ≤ Nhalo → Nhalo ≤ NhaloExtN ≤ NhaloExtT →
  0 ≤ offset → 0 ≤ Nrecv0_ → offset + Nrecv0_ ≤ N → N = zlen nodes →
  Forall (idInRange NhaloExtN NhaloExtT) nodes →
  let g := buildGather first NhaloP Nhalo NhaloExtN NhaloExtT offset Nrecv0_ N nodes
             indexMap recvOffsetN recvOffsetT NcolsN NcolsT in
  let idRows := if first then NhaloP else Nhalo in
  csrOf NhaloExtT (entriesN idRows Nhalo offset Nrecv0_ N nodes)
        (valuesN idRows Nhalo offset Nrecv0_ N nodes indexMap recvOffsetN) (fst g) ∧
  csrOf NhaloExtT (entriesT Nhalo offset Nrecv0_ N nodes)
        (valuesT Nhalo offset Nrecv0_ N nodes indexMap recvOffsetT) (snd g) ∧
  nnzT (fst g) = zlen (colIdsT (fst g)) ∧ nnzT (snd g) = zlen (colIdsT (snd g)) ∧
  zget 0 (rowStartsT (fst g)) NhaloExtN = zlen (colIdsT (fst g)) ∧
  zlen (rowStartsT (fst g)) = NhaloExtT + 1 ∧ zlen (rowStartsT (snd g)) = NhaloExtT + 1.
Proof.
  intros HP HE Hoff Hr0 HN -> Hids g idRows. subst g.
  assert (HidRows : 0 ≤ idRows ≤ Nhalo) by (subst idRows; destruct first; lia).
  set (R := NhaloExtT) in *.
  assert (rows_ok : ∀ n, 0 ≤ n < zlen nodes → 0 ≤ rowOf nodes n < R).
  { intros n Hn. apply (Forall_zget _ node0 _ n) in Hids; [|done].
    destruct Hids. unfold rowOf. lia. }
  unfold buildGather. fold R.
  replace (if first then countHalo NhaloP (calloc (R + 1))
           else countHalo Nhalo (calloc (R + 1)))
    with (countHalo idRows (calloc (R + 1))) by (subst idRows; by destruct first).
  cbv zeta.
  pose proof (countHalo_spec R idRows ltac:(lia)) as cN0.
  pose proof (countHalo_spec R Nhalo ltac:(lia)) as cT0.
  set (rs0 := (countHalo idRows (calloc (R + 1)), countHalo Nhalo (calloc (R + 1)))).
  destruct (countLocal_spec R Nhalo nodes rows_ok offset _ _ rs0 ltac:(lia) cN0 cT0)
    as [cN1 cT1].
  set (rs1 := countLocal Nhalo offset nodes rs0) in *.
  destruct (countRecv_spec R nodes rows_ok offset (offset + Nrecv0_) _ _ rs1
              ltac:(lia) ltac:(lia) cN1 cT1) as [cN2 cT2].
  set (rs2 := countRecv offset (offset + Nrecv0_) nodes rs1) in *.
  destruct (countRecv_spec R nodes rows_ok (offset + Nrecv0_) (zlen nodes) _ _ rs2
              ltac:(lia) ltac:(lia) cN2 cT2) as [cN3 cT3].
  set (rs3 := countRecv (offset + Nrecv0_) (zlen nodes) nodes rs2) in *.
  destruct (prefixSum_spec R _ _ rs3 ltac:(lia) cN3 cT3) as [sN sT].
  fold (entriesN idRows Nhalo offset Nrecv0_ (zlen nodes) nodes) in sN.
  fold (entriesT Nhalo offset Nrecv0_ (zlen nodes) nodes) in sT.
  clearbody rs3. clear cN0 cT0 cN1 cT1 cN2 cT2 cN3 cT3 rs0 rs1 rs2.
  destruct (prefixSum R rs3) as [stN stT]. cbn [fst snd] in sN, sT. cbv beta iota.
  set (allN := entriesN idRows Nhalo offset Nrecv0_ (zlen nodes) nodes) in *.
  set (allT := entriesT Nhalo offset Nrecv0_ (zlen nodes) nodes) in *.
  set (nnzN := zget 0 stN NhaloExtN). set (nnzT := zget 0 stT R).
  assert (HnnzN : 0 ≤ nnzN) by (apply (startsOk_nonneg R allN); [done|lia]).
  assert (HnnzT : 0 ≤ nnzT) by (apply (startsOk_nonneg R allT); [done|lia]).
  assert (HtailN : zget 0 stN R = nnzN).
  { apply (startsOk_tail R allN); [done|lia|].
    intros i Hi. apply (entriesN_tail _ _ NhaloExtN R); try done; lia. }
  replace (if first then fillHalo NhaloP (stN, calloc nnzN)
           else fillHalo Nhalo (stN, calloc nnzN))
    with (fillHalo idRows (stN, calloc nnzN)) by (subst idRows; by destruct first).
  (* the existing halo *)
  destruct (fillHalo_vals R allN stN nnzN ltac:(lia) sN ltac:(lia) idRows (calloc nnzN))
    as (fN0 & vN0 & lN0); [lia|by rewrite zlen_calloc|by intro; apply_prefix|].
  destruct (fillHalo_vals R allT stT nnzT ltac:(lia) sT ltac:(lia) Nhalo (calloc nnzT))
    as (fT0 & vT0 & lT0); [lia|by rewrite zlen_calloc|by intro; apply_prefix|].
  set (gs0 := (fillHalo idRows (stN, calloc nnzN), fillHalo Nhalo (stT, calloc nnzT))).
  (* the nodes we still have *)
  destruct (fillLocal_vals R Nhalo nodes rows_ok allN stN nnzN ltac:(lia) sN ltac:(lia)
              offset indexMap (λ n, localEntry Nhalo nodes n && positive nodes n)
              ltac:(lia) fst (seqZ 0 idRows) (seqZ 0 idRows) gs0)
    as (fN1 & vN1 & lN1); [|by intro; apply_prefix|done|done|done|].
  { intros n [gN gT] Hn. unfold localEntry, positive, rowOf, oldRow. simpl.
    destruct (groupStart nodes 0 n); [|done].
    destruct (Nhalo <=? newId (nodeAt nodes n)); [|done].
    by destruct (0 <? sign (nodeAt nodes n)). }
  destruct (fillLocal_vals R Nhalo nodes rows_ok allT stT nnzT ltac:(lia) sT ltac:(lia)
              offset indexMap (localEntry Nhalo nodes)
              ltac:(lia) snd (seqZ 0 Nhalo) (seqZ 0 Nhalo) gs0)
    as (fT1 & vT1 & lT1); [|by intro; apply_prefix|done|done|done|].
  { intros n [gN gT] Hn. unfold localEntry, positive, rowOf, oldRow. simpl.
    destruct (groupStart nodes 0 n); [|done].
    by destruct (Nhalo <=? newId (nodeAt nodes n)). }
  set (gs1 := fillLocal Nhalo offset nodes indexMap gs0) in *.
  clearbody gs1. clear fN0 vN0 lN0 fT0 vT0 lT0 gs0.
  (* the first message *)
  set (gs1' := (gs1, recvOffsetN, recvOffsetT)).
  assert (HJ1 : recvCounters nodes offset recvOffsetN recvOffsetT offset gs1').
  { unfold recvCounters, evCount, gs1'. rewrite !evRows_nil by lia.
    unfold zlen. cbn. split; lia. }
  pose proof (λ Hpre, fillRecv_vals_N R nodes rows_ok allN stN nnzN ltac:(lia) sN ltac:(lia)
              offset (offset + Nrecv0_) recvOffsetN recvOffsetT ltac:(lia) ltac:(lia)
              _ _ gs1' Hpre HJ1 fN1 vN1 lN1) as HstepN.
  destruct HstepN as (fN2 & vN2 & lN2); [by intro; apply_prefix|].
  pose proof (λ Hpre, fillRecv_vals_T R nodes rows_ok allT stT nnzT ltac:(lia) sT ltac:(lia)
              offset (offset + Nrecv0_) recvOffsetN recvOffsetT ltac:(lia) ltac:(lia)
              _ _ gs1' Hpre HJ1 fT1 vT1 lT1) as HstepT.
  destruct HstepT as (HJ2 & fT2 & vT2 & lT2); [by intro; apply_prefix|].
  set (gs2 := fillRecv offset (offset + Nrecv0_) nodes gs1') in *.
  clearbody gs2. clear fN1 vN1 lN1 fT1 vT1 lT1 HJ1 gs1'.
  (* the second message *)
  set (eN1 := recvOffsetN + evCount (λ n, recvEntry offset nodes n && positive nodes n)
                                    offset (offset + Nrecv0_)) in *.
  set (eT1 := recvOffsetT + evCount (recvEntry offset nodes) offset (offset + Nrecv0_)) in *.
  assert (HJ2' : recvCounters nodes (offset + Nrecv0_) eN1 eT1 (offset + Nrecv0_) gs2).
  { destruct HJ2 as [HeN HeT]. unfold recvCounters. unfold evCount at 1 2.
    rewrite !evRows_nil by lia. unfold zlen at 1 2. cbn [length]. subst eN1 eT1. split; lia. }
  pose proof (λ Hpre, fillRecv_vals_N R nodes rows_ok allN stN nnzN ltac:(lia) sN ltac:(lia)
              (offset + Nrecv0_) (zlen nodes) eN1 eT1 ltac:(lia) ltac:(lia)
              _ _ gs2 Hpre HJ2' fN2 vN2 lN2) as HstepN.
  destruct HstepN as (fN3 & vN3 & lN3); [by intro; apply_prefix|].
  pose proof (λ Hpre, fillRecv_vals_T R nodes rows_ok allT stT nnzT ltac:(lia) sT ltac:(lia)
              (offset + Nrecv0_) (zlen nodes) eN1 eT1 ltac:(lia) ltac:(lia)
              _ _ gs2 Hpre HJ2' fT2 vT2 lT2) as HstepT.
  destruct HstepT as (_ & fT3 & vT3 & lT3); [by intro; apply_prefix|].
  fold allN in fN3, vN3. fold allT in fT3, vT3.
  subst eN1 eT1.
  fold (valuesN idRows Nhalo offset Nrecv0_ (zlen nodes) nodes indexMap recvOffsetN) in vN3.
  fold (valuesT Nhalo offset Nrecv0_ (zlen nodes) nodes indexMap recvOffsetT) in vT3.
  destruct (fillRecv (offset + Nrecv0_) (zlen nodes) nodes gs2) as [[[gN gT] eN] eT].
  cbn [fst snd] in fN3, fT3, vN3, vT3, lN3, lT3.
  (* the reset of the row starts *)
  pose proof (resetRowStarts_spec R (fst gN, fst gT) ltac:(lia)) as Hreset.
  cbn [fst snd] in Hreset.
  destruct Hreset as [(HlN & HrN0 & HrN) (HlT & HrT0 & HrT)];
    [apply fN3|apply fT3|].
  destruct (resetRowStarts R (gN.1, gT.1)) as [rsN rsT].
  cbn [fst snd nnzT colIdsT rowStartsT] in *.
  pose proof (csrOf_filled R allN _ stN gN rsN Unsigned NhaloExtN NhaloExtN NcolsN nnzN nnzN
                ltac:(lia) sN fN3 vN3 ltac:(lia) HrN0 HrN) as HcN.
  pose proof (csrOf_filled R allT _ stT gT rsT Unsigned R R NcolsT nnzT nnzT
                ltac:(lia) sT fT3 vT3 ltac:(lia) HrT0 HrT) as HcT.
  split; [done|]. split; [done|]. split; [by rewrite lN3|]. split; [by rewrite lT3|].
  split; [|done].
  rewrite lN3. unfold nnzN.
  pose proof (proj1 (proj2 sN)) as Hst0.
  destruct (decide (NhaloExtN = 0)) as [E|Hne]; [rewrite E, HrN0, Hst0; done|].
  rewrite HrN by lia. destruct fN3 as (_ & Hrun & _). rewrite Hrun by lia.
  pose proof (proj2 (proj2 sN) (NhaloExtN - 1) ltac:(lia)) as Hs.
  replace (NhaloExtN - 1 + 1) with NhaloExtN in Hs by lia. by rewrite Hs.
Qed.


(** ** The old rows of the new ids ([indexMap], lines 460-497) *)

Section IndexMap.
Variables (Nhalo : Z) (nodes : list parallelNode_t) (countN countT0 : Z).
Let N := zlen nodes.
Hypothesis Nhalo_nonneg : 0 ≤ Nhalo.
Hypothesis countN_nonneg : 0 ≤ countN.
Hypothesis newId_lower : ∀ k, 0 ≤ k < N → -1 ≤ newId (nodeAt nodes k).

Let body1 := λ n '(start, NhaloExtN, NhaloExtT),
  if groupEnd nodes N n then
    let end_ := n + 1 in
    let id := newId (nodeAt nodes start) in
    if (Nhalo <=? id) || (id =? -1) then
      (end_,
       (if findPositive nodes start end_ is Some _ then NhaloExtN + 1 else NhaloExtN),
       NhaloExtT + 1)
    else (end_, NhaloExtN, NhaloExtT)
  else (start, NhaloExtN, NhaloExtT).

(** The groups that are in the transposed extended halo only are counted
    up as well. *)
Lemma countExt_mono_diff n n' :
  0 ≤ n ≤ n' →
  snd (forZ 0 n body1 (0, 0, 0)) - snd (fst (forZ 0 n body1 (0, 0, 0)))
  ≤ snd (forZ 0 n' body1 (0, 0, 0)) - snd (fst (forZ 0 n' body1 (0, 0, 0))).
Proof.
  intros [Hn Hle].
  set (c0 := snd (forZ 0 n body1 (0, 0, 0)) - snd (fst (forZ 0 n body1 (0, 0, 0)))).
  replace n' with (n + Z.of_nat (Z.to_nat (n' - n))) by lia.
  induction (Z.to_nat (n' - n)) as [|d IH]; [by rewrite Z.add_0_r|].
  replace (n + Z.of_nat (S d)) with (n + Z.of_nat d + 1) by lia.
  rewrite (forZ_snoc 0 (n + Z.of_nat d)) by lia.
  destruct (forZ 0 (n + Z.of_nat d) body1 (0, 0, 0)) as [[s cN] cT]. cbn [fst snd] in *.
  unfold body1. destruct (groupEnd nodes N _); [|simpl; lia].
  destruct (_ || _); [|simpl; lia].
  destruct (findPositive _ _ _); simpl; lia.
Qed.

Hypothesis counted : ∃ start, forZ 0 N body1 (0, 0, 0) = (start, countN, countT0).

Let body2 := λ n st, if groupEnd (as_nodes st) N n then assignGroup Nhalo n st else st.

(** After [n] descriptors, [indexMap] holds for every new id the id the
    first descriptor of the group had. *)
Definition mapInv (n : Z) (st : assignState) : Prop :=
  let '(start, cN, cT) := forZ 0 n body1 (0, 0, 0) in
  zlen (as_indexMap st) = countT0 ∧
  ∀ k, 0 ≤ k < start → Nhalo ≤ newId (nodeAt (as_nodes st) k) →
    ∃ g, 0 ≤ g ≤ k ∧ (g = 0 ∨ groupEnd nodes N (g - 1) = true) ∧ sameRun nodes N g k ∧
         zget 0 (as_indexMap st) (newId (nodeAt (as_nodes st) k) - Nhalo)
         = newId (nodeAt nodes g).

Lemma mapInv_step n st :
  0 ≤ n < N → assignInv Nhalo nodes countN n st → idsInv Nhalo nodes countN n st →
  mapInv n st → mapInv (n + 1) (body2 n st).
Proof.
  intros Hn Hold Hids.
  pose proof (countExt_mono Nhalo nodes (n + 1) N ltac:(lia)) as Hmono.
  pose proof (countExt_mono_diff (n + 1) N ltac:(lia)) as Hdiff.
  pose proof (assignExt_inv Nhalo nodes countN countT0 Nhalo_nonneg countN_nonneg
                newId_lower) as Hend.
  destruct counted as [sN HcN]. fold N body1 in Hmono.
  unfold assignInv in Hend. fold N body1 in Hend. rewrite HcN in Hmono, Hdiff, Hend.
  cbn [fst snd] in Hmono, Hdiff.
  destruct Hend as (_ & _ & HcNT & _).
  revert Hold Hids Hmono Hdiff. unfold assignInv, idsInv, mapInv. fold N. fold body1.
  rewrite forZ_snoc by lia.
  destruct (forZ 0 n body1 (0, 0, 0)) as [[start cN] cT].
  intros (Hst & Hs & Hc & HN & HT & Hlen & Hsame & Hrest & Hopen & Hdone)
         (He0 & He1 & He2 & He3 & He4) Hmono Hdiff (Hml & Hmap).
  unfold body2.
  assert (groupEnd (as_nodes st) N n = groupEnd nodes N n) as ->.
  { apply groupEnd_ext. intros k. destruct (Hsame k) as (_ & _ & Hb & _).
    unfold absBase. by rewrite Hb. }
  unfold body1 at 1. unfold body1 in Hmono, Hdiff.
  destruct (groupEnd nodes N n) eqn:E; [|done].
  unfold assignGroup. destruct st as [start' N2 T2 cur indexMap]. simpl in *. subst start'.
  rewrite (Hrest start) in * by lia.
  assert (findPositive cur start (n + 1) = findPositive nodes start (n + 1)) as ->.
  { apply findPositive_ext. intros i Hi. destruct (Hsame i) as (_ & Hsg & _). done. }
  pose proof (findPositive_spec nodes start (n + 1) ltac:(lia)) as Hfp.
  set (id0 := newId (nodeAt nodes start)) in *.
  assert (-1 ≤ id0) as Hid0 by (apply newId_lower; lia).
  assert (Hgroup : ∀ id cur', cur' = forZ start (n + 1)
                        (λ i l, zset l i (setNewId id (nodeAt l i))) cur →
    (∀ k, 0 ≤ k < start → nodeAt cur' k = nodeAt cur k) ∧
    (∀ k, start ≤ k < n + 1 → newId (nodeAt cur' k) = id)).
  { intros id cur' ->.
    destruct (forZ_update node0 (λ _, setNewId id) start (n + 1) cur) as [Hl Hg]; [lia|lia|].
    split.
    - intros k Hk. rewrite Hg. destruct (_ && _) eqn:Ek; [lia|done].
    - intros k Hk. rewrite Hg. destruct (_ && _) eqn:Ek; [done|lia]. }
  assert (Hrun : ∀ k k', start ≤ k → k' < n + 1 → sameRun nodes N k k').
  { intros k k' Hk Hk' m Hm. apply Hopen. lia. }
  (* a new id, with its entry of the map *)
  assert (Hfin : ∀ id cur',
    cur' = forZ start (n + 1) (λ i l, zset l i (setNewId id (nodeAt l i))) cur →
    0 ≤ id - Nhalo < countT0 →
    (∀ k, 0 ≤ k < start → newId (nodeAt cur k) ≠ id) →
    zlen (zset indexMap (id - Nhalo) id0) = countT0 ∧
    ∀ k, 0 ≤ k < n + 1 → Nhalo ≤ newId (nodeAt cur' k) →
      ∃ g, 0 ≤ g ≤ k ∧ (g = 0 ∨ groupEnd nodes N (g - 1) = true) ∧ sameRun nodes N g k ∧
           zget 0 (zset indexMap (id - Nhalo) id0) (newId (nodeAt cur' k) - Nhalo)
           = newId (nodeAt nodes g)).
  { intros id cur' Hcur Hid Hnew.
    destruct (Hgroup id cur' Hcur) as [Hkeep Hset].
    split; [by rewrite zlen_zset|]. intros k Hk Hge.
    destruct (Z_lt_le_dec k start) as [H1|H1].
    - rewrite Hkeep in * by lia.
      destruct (Hmap k ltac:(lia) Hge) as (g & Hg & Hgs & Hgr & Hgv).
      exists g. do 3 (split; [done|]).
      rewrite zget_zset_ne; [done|]. specialize (Hnew k ltac:(lia)). lia.
    - exists start. split; [lia|]. split; [done|]. split; [apply Hrun; lia|].
      rewrite Hset by lia. rewrite zget_zset_eq by lia. done. }
  destruct ((Nhalo <=? id0) || (id0 =? -1)) eqn:Ere.
  - destruct (findPositive nodes start (n + 1)) as [s|] eqn:Efp.
    + destruct Hfp as (Hs0 & _). destruct (0 <? s) eqn:Es; [|lia].
      cbn [as_nodes as_indexMap fst snd] in *.
      apply (Hfin N2 _ eq_refl); [lia|].
      intros k Hk Heq. destruct (He4 k Hk); lia.
    + destruct (0 <? -2) eqn:Es; [lia|]. cbn [as_nodes as_indexMap fst snd] in *.
      apply (Hfin T2 _ eq_refl); [lia|].
      intros k Hk Heq. destruct (He4 k Hk); lia.
  - cbn [as_nodes as_indexMap fst snd] in *.
    destruct (Hgroup id0 _ eq_refl) as [Hkeep Hset].
    split; [done|]. intros k Hk Hge.
    destruct (Z_lt_le_dec k start) as [H1|H1].
    + rewrite Hkeep in * by lia. apply Hmap; [lia|done].
    + rewrite Hset in Hge by lia. lia.
Qed.

Lemma assignExt_indexMap :
  0 ≤ countT0 →
  let a := assignExt Nhalo N nodes countN countT0 in
  ∀ k, 0 ≤ k < N → Nhalo ≤ newId (nodeAt (as_nodes a) k) →
    ∃ g, 0 ≤ g ≤ k ∧ (g = 0 ∨ groupEnd nodes N (g - 1) = true) ∧ sameRun nodes N g k ∧
         zget 0 (as_indexMap a) (newId (nodeAt (as_nodes a) k) - Nhalo)
         = newId (nodeAt nodes g).
Proof.
  intros HcT.
  assert (∀ n st, 0 ≤ n → st = forZ 0 n body2 (mkAssign 0 Nhalo (Nhalo + countN) nodes
                                                (calloc countT0)) → n ≤ N →
            assignInv Nhalo nodes countN n st ∧ idsInv Nhalo nodes countN n st ∧
            mapInv n st) as Hall.
  { intros n st Hn ->.
    apply (forZ_ind (λ i st, i ≤ N → assignInv Nhalo nodes countN i st ∧
                                     idsInv Nhalo nodes countN i st ∧ mapInv i st));
      [done| |].
    - intros _. split; [|split].
      + unfold assignInv. rewrite forZ_nil by lia. simpl.
        do 2 (split; [done || lia|]). split; [lia|]. split; [lia|]. split; [lia|].
        split; [done|]. split; [done|]. split; [done|]. split; intros; lia.
      + unfold idsInv. rewrite forZ_nil by lia.
        split; [by left|]. repeat split; intros; lia.
      + unfold mapInv. rewrite forZ_nil by lia. cbn [as_indexMap].
        split; [by apply zlen_calloc|]. intros; lia.
    - intros i st Hi IH HiN. destruct (IH ltac:(lia)) as (IH1 & IH2 & IH3).
      split; [|split].
      + apply (assignInv_step Nhalo nodes countN Nhalo_nonneg countN_nonneg newId_lower);
          [lia|done].
      + eapply idsInv_step; eauto; lia.
      + apply mapInv_step; [lia|done|done|done]. }
  intros a. destruct (Hall N a (zlen_nonneg' nodes) eq_refl ltac:(lia)) as (Hold & _ & Hm).
  revert Hold Hm. unfold assignInv, mapInv. fold N. fold body1.
  destruct (forZ 0 N body1 (0, 0, 0)) as [[start cN] cT].
  intros (_ & Hs & _ & _ & _ & _ & _ & _ & Hopen & _) [_ Hm].
  assert (start = N) as ->.
  { destruct (Z.eq_dec start N) as [|Hne]; [done|]. exfalso.
    specialize (Hopen (N - 1) ltac:(lia)). unfold groupEnd in Hopen.
    by rewrite Z.eqb_refl in Hopen. }
  done.
Qed.
End IndexMap.

Section RenumberMap.
Context `{StdSort}.
Variables (Nhalo N : Z) (nodes : list parallelNode_t).
Hypothesis Nhalo_nonneg : 0 ≤ Nhalo.
Hypothesis N_len : N = zlen nodes.
Hypothesis newId_lower : Forall (λ a, -1 ≤ newId a) nodes.

(** The entry of [indexMap] for a new id is the largest id the
    descriptors of the group had. *)
Lemma renumber_indexMap k :
  0 ≤ k < N →
  let a := renumber Nhalo N nodes in
  Nhalo ≤ newId (nodeAt (as_nodes a) k) →
  ∃ j, 0 ≤ j < N ∧ absBase (nodeAt nodes j) = absBase (nodeAt nodes k) ∧
       (∀ m, 0 ≤ m < N → absBase (nodeAt nodes m) = absBase (nodeAt nodes k) →
             newId (nodeAt nodes m) ≤ newId (nodeAt nodes j)) ∧
       zget 0 (as_indexMap a) (newId (nodeAt (as_nodes a) k) - Nhalo)
       = newId (nodeAt nodes j).
Proof.
  intros Hk a.
  set (n2 := std_sort ltBaseId (recordOrder N nodes)).
  assert (Hl2 : zlen n2 = N) by (eapply n2_len; eauto).
  assert (Hlow2 : ∀ k, 0 ≤ k < zlen n2 → -1 ≤ newId (nodeAt n2 k))
    by (eapply n2_lower; eauto).
  assert (Hsorted : sortedBy ltBaseId n2) by apply n2_sorted.
  pose proof (countExt_le Nhalo N n2) as Hc.
  assert (Hpos : ∀ k, 0 ≤ k < N →
            ∃ p, 0 ≤ p < N ∧ nodeAt n2 p = setLocalId k (nodeAt nodes k) ∧
                 nodeAt (as_nodes a) k
                 = nodeAt (as_nodes (assignExt Nhalo N n2
                     (snd (fst (countExt Nhalo N n2))) (snd (countExt Nhalo N n2)))) p)
    by (intros; eapply renumber_position; eauto).
  assert (Horig : ∀ p, 0 ≤ p < N →
            ∃ k, 0 ≤ k < N ∧ nodeAt n2 p = setLocalId k (nodeAt nodes k))
    by (intros; eapply renumber_origin; eauto).
  destruct (Hpos k Hk) as (p & Hp & Ep & Eo).
  assert (as_indexMap a = as_indexMap (assignExt Nhalo N n2
            (snd (fst (countExt Nhalo N n2))) (snd (countExt Nhalo N n2)))) as Hmap.
  { unfold a, renumber. fold n2. by destruct (countExt Nhalo N n2) as [[s c1] c2]. }
  rewrite Hmap, Eo. clear Hmap Eo. intros Hge.
  destruct (countExt Nhalo N n2) as [[s c1] c2] eqn:EC. cbn [fst snd] in *.
  rewrite <- Hl2 in EC, Hge.
  destruct (assignExt_indexMap Nhalo n2 c1 c2 Nhalo_nonneg ltac:(lia) Hlow2
              ltac:(exists s; exact EC) ltac:(lia) p ltac:(lia) Hge)
    as (g & Hg & Hstart & Hrun & Hval).
  rewrite Hl2 in Hstart, Hrun, Hval.
  destruct (Horig g ltac:(lia)) as (j & Hj & Eg).
  pose proof (sameRun_absBase n2 N g p ltac:(lia) Hrun) as Hb.
  rewrite Ep, Eg in Hb. change (absBase (nodeAt nodes k) = absBase (nodeAt nodes j)) in Hb.
  exists j. split; [done|]. split; [done|]. split.
  - intros m Hm Hbm.
    destruct (Hpos m Hm) as (pm & Hpm & Em & _).
    assert (absBase (nodeAt n2 pm) = absBase (nodeAt n2 g)) as Hbg.
    { rewrite Em, Eg. change (absBase (nodeAt nodes m) = absBase (nodeAt nodes j)).
      congruence. }
    assert (g ≤ pm) as Hle.
    { destruct (Z_le_gt_dec g pm) as [|Hgt]; [done|]. exfalso.
      destruct Hstart as [->|Hend]; [lia|].
      pose proof (sorted_sameRun n2 Hsorted pm g ltac:(lia) ltac:(lia) Hbg) as Hr.
      rewrite Hl2 in Hr. rewrite (Hr (g - 1)) in Hend by lia. done. }
    pose proof (sorted_newId_ge n2 Hsorted g pm ltac:(lia) ltac:(lia) (eq_sym Hbg)) as Hn.
    by rewrite Em, Eg in Hn.
  - rewrite Hval, Eg. done.
Qed.
End RenumberMap.


(** ** The columns are entries of the buffer *)

Lemma evCount_nil c lo hi : hi ≤ lo → evCount c lo hi = 0.
Proof. intros. unfold evCount. by rewrite evRows_nil. Qed.

Lemma evCount_ext c c' lo hi :
  (∀ n, lo ≤ n < hi → c n = c' n) → evCount c lo hi = evCount c' lo hi.
Proof.
  intros Hc. destruct (Z.le_gt_cases lo hi) as [Hle|Hgt]; [|by rewrite !evCount_nil by lia].
  revert Hc. replace hi with (lo + Z.of_nat (Z.to_nat (hi - lo))) by lia.
  induction (Z.to_nat (hi - lo)) as [|d IH]; intros Hc; [by rewrite !evCount_nil by lia|].
  replace (lo + Z.of_nat (S d)) with (lo + Z.of_nat d + 1) in * by lia.
  rewrite !evCount_snoc, IH, Hc by (intros; try apply Hc; lia). done.
Qed.

Lemma evCount_shift c d lo hi :
  evCount (λ n, c (n + d)) lo hi = evCount c (lo + d) (hi + d).
Proof.
  destruct (Z.le_gt_cases lo hi) as [Hle|Hgt]; [|by rewrite !evCount_nil by lia].
  replace hi with (lo + Z.of_nat (Z.to_nat (hi - lo))) by lia.
  induction (Z.to_nat (hi - lo)) as [|k IH]; [by rewrite !evCount_nil by lia|].
  replace (lo + Z.of_nat (S k)) with (lo + Z.of_nat k + 1) by lia.
  replace (lo + Z.of_nat k + 1 + d) with (lo + Z.of_nat k + d + 1) by lia.
  rewrite !evCount_snoc, IH by lia. done.
Qed.

(** A cell of [colIds] is in a row. *)
Lemma csr_cell (rs : list Z) R j :
  0 ≤ R → zget 0 rs 0 = 0 → (∀ i, 0 ≤ i < R → zget 0 rs i ≤ zget 0 rs (i + 1)) →
  0 ≤ j < zget 0 rs R → ∃ i, 0 ≤ i < R ∧ zget 0 rs i ≤ j < zget 0 rs (i + 1).
Proof.
  intros HR H0. replace R with (Z.of_nat (Z.to_nat R)) by lia. clear HR.
  induction (Z.to_nat R) as [|n IH]; intros Hmono Hj.
  - change (Z.of_nat 0) with 0 in Hj. lia.
  - replace (Z.of_nat (S n)) with (Z.of_nat n + 1) in * by lia.
    destruct (Z_lt_le_dec j (zget 0 rs (Z.of_nat n))) as [Hlt|Hge].
    + destruct IH as (i & Hi & Hc); [intros; apply Hmono; lia|lia|].
      exists i. split; [lia|done].
    + exists (Z.of_nat n). split; [lia|lia].
Qed.

Lemma csrOf_mono R rows vals g i :
  csrOf R rows vals g → 0 ≤ i < R →
  zget 0 (rowStartsT g) i ≤ zget 0 (rowStartsT g) (i + 1).
Proof.
  intros (_ & Hs & _) Hi. rewrite Hs by done. pose proof (occ_nonneg rows i). lia.
Qed.

Lemma csrOf_mono_le R rows vals g i j :
  csrOf R rows vals g → 0 ≤ i ≤ j → j ≤ R →
  zget 0 (rowStartsT g) i ≤ zget 0 (rowStartsT g) j.
Proof.
  intros Hc Hi Hj. replace j with (i + Z.of_nat (Z.to_nat (j - i))) in * by lia.
  induction (Z.to_nat (j - i)) as [|d IH]; [rewrite Z.add_0_r; lia|].
  replace (i + Z.of_nat (S d)) with (i + Z.of_nat d + 1) in * by lia.
  pose proof (csrOf_mono R rows vals g (i + Z.of_nat d) Hc ltac:(lia)).
  specialize (IH ltac:(lia) ltac:(lia)). lia.
Qed.

(** What holds of the values of the entries holds of the columns. *)
Lemma csrOf_cols (P : Z → Prop) R rows vals g :
  0 ≤ R → csrOf R rows vals g → Forall P vals → Forall P (colIdsT g).
Proof.
  intros HR Hc HP. pose proof Hc as (H0 & Hs & Hend & Hrows).
  apply (Forall_of_zget _ 0). intros j Hj. rewrite <- Hend in Hj.
  destruct (csr_cell (rowStartsT g) R j HR H0) as (i & Hi & Hcell); [|done|].
  { intros i Hi. by apply (csrOf_mono R rows vals). }
  pose proof (csrOf_mono_le R rows vals g 0 i Hc ltac:(lia) ltac:(lia)) as Hlo.
  pose proof (csrOf_mono_le R rows vals g (i + 1) R Hc ltac:(lia) ltac:(lia)) as Hhi.
  assert (zget 0 (colIdsT g) j ∈ rowCols g i) as Hin.
  { replace j with (zget 0 (rowStartsT g) i + (j - zget 0 (rowStartsT g) i)) at 1 by lia.
    unfold rowCols.
    rewrite <- (zget_take_drop 0 (colIdsT g) (zget 0 (rowStartsT g) i)
                  (zget 0 (rowStartsT g) (i + 1) - zget 0 (rowStartsT g) i)) by lia.
    apply zget_In. rewrite zlen_take_drop by lia. lia. }
  rewrite Hrows in Hin by done. apply valsOf_elem in Hin.
  rewrite list.Forall_forall in HP. by apply HP.
Qed.

Lemma Forall_seqZ (P : Z → Prop) m n : (∀ i, m ≤ i < m + n → P i) → Forall P (seqZ m n).
Proof. intros HP. apply list.Forall_forall. intros i Hi%elem_of_seqZ. by apply HP. Qed.

(** What a message says of its descriptors: the numbers of entries are
    the numbers of groups that start in it. *)
Lemma sentMessage_counts m :
  sentMessage m →
  msg_NentriesT m = evCount (groupStart (msg_nodes m) 0) 0 (msg_Nsend m) ∧
  msg_NentriesN m = evCount (λ n, groupStart (msg_nodes m) 0 n && positive (msg_nodes m) n)
                            0 (msg_Nsend m).
Proof.
  intros (r & st & ->). unfold outMessage, levelSend.
  destruct (countLoHi _ _ _) as [Nlo Nhi] eqn:EC.
  destruct (splitLoHi _ _ _) as [lo hi] eqn:ES.
  set (Nsend_ := if is_lo r (b_np st) (b_np_offset st) then Nhi else Nlo).
  set (sendNodes := if is_lo r (b_np st) (b_np_offset st) then hi else lo).
  assert (Nsend_ = zlen sendNodes) as HNeq.
  { destruct (Z.le_gt_cases 0 (b_N st)) as [HN|HN].
    - destruct (countLoHi_splitLoHi (r_half (b_np st) (b_np_offset st)) (b_N st)
                  (b_nodes st) HN) as (H1 & H2 & H3 & _).
      rewrite EC in H1, H2, H3. rewrite ES in H1, H2. simpl in *. subst Nsend_ sendNodes.
      destruct (is_lo _ _ _); lia.
    - unfold countLoHi in EC. unfold splitLoHi in ES.
      rewrite forZ_nil in EC by lia. rewrite forZ_nil in ES by lia.
      injection EC as <- <-. injection ES as <- <-. subst Nsend_ sendNodes.
      destruct (is_lo _ _ _); done. }
  pose proof (zlen_nonneg' sendNodes) as Hlen0.
  pose proof (countEntriesSend_evRows Nsend_ sendNodes ltac:(lia)) as Hcnt.
  destruct (countEntriesSend Nsend_ sendNodes) as [eN eT].
  destruct (fillSendIds_wiped Nsend_ sendNodes ltac:(lia)) as [Hlen Hget].
  destruct (fillSendIds Nsend_ sendNodes) as [[idsN idsT] wiped] eqn:EF.
  cbn [msg_Nsend msg_nodes msg_NentriesN msg_NentriesT s_Nsend s_sendNodes
       s_NentriesSendN s_NentriesSendT]. simpl in Hlen, Hget.
  assert (take (Z.to_nat Nsend_) wiped = wiped) as ->.
  { apply take_ge. unfold zlen in *. lia. }
  injection Hcnt as -> ->. rewrite !evCount_rows.
  assert (Hbase : ∀ k, 0 ≤ k < Nsend_ →
            absBase (nodeAt wiped k) = absBase (nodeAt sendNodes k) ∧
            sign (nodeAt wiped k) = sign (nodeAt sendNodes k)).
  { intros k Hk. rewrite Hget. destruct (_ && _) eqn:E; [done|lia]. }
  assert (Hgs : ∀ n, 0 ≤ n < Nsend_ → groupStart wiped 0 n = groupStart sendNodes 0 n).
  { intros n Hn. unfold groupStart. destruct (n =? 0) eqn:E; [done|]. cbn [orb].
    destruct (Hbase n Hn) as [-> _]. destruct (Hbase (n - 1) ltac:(lia)) as [-> _]. done. }
  split; apply evCount_ext; intros n Hn; rewrite Hgs by lia; [done|].
  unfold positive. by destruct (Hbase n Hn) as [_ ->].
Qed.

(** The groups that start in a message are the same for the process that
    sends it and for the one that has put it into its list. *)
Lemma recvEntry_count (nodesA pre msg post : list parallelNode_t) :
  (∀ k, 0 ≤ k < zlen (pre ++ msg ++ post) →
     absBase (nodeAt nodesA k) = absBase (nodeAt (pre ++ msg ++ post) k) ∧
     sign (nodeAt nodesA k) = sign (nodeAt (pre ++ msg ++ post) k)) →
  evCount (recvEntry (zlen pre) nodesA) (zlen pre) (zlen pre + zlen msg)
  = evCount (groupStart msg 0) 0 (zlen msg) ∧
  evCount (λ n, recvEntry (zlen pre) nodesA n && positive nodesA n)
          (zlen pre) (zlen pre + zlen msg)
  = evCount (λ n, groupStart msg 0 n && positive msg n) 0 (zlen msg).
Proof.
  intros Hsame.
  pose proof (zlen_nonneg' pre) as Hp. pose proof (zlen_nonneg' msg) as Hm.
  pose proof (zlen_nonneg' post) as Hq.
  assert (Hat : ∀ n, zlen pre ≤ n < zlen pre + zlen msg →
            absBase (nodeAt nodesA n) = absBase (nodeAt msg (n - zlen pre)) ∧
            sign (nodeAt nodesA n) = sign (nodeAt msg (n - zlen pre))).
  { intros n Hn. destruct (Hsame n) as [-> ->]; [rewrite !zlen_app; lia|].
    rewrite zget_app_r, zget_app_l by lia. done. }
  assert (Hgs : ∀ n, zlen pre ≤ n < zlen pre + zlen msg →
            recvEntry (zlen pre) nodesA n = groupStart msg 0 (n - zlen pre)).
  { intros n Hn. unfold recvEntry, groupStart.
    destruct (Z.eq_dec n (zlen pre)) as [->|Hne].
    - rewrite Z.eqb_refl, Z.sub_diag. done.
    - destruct (n =? zlen pre) eqn:E1; [lia|]. destruct (n - zlen pre =? 0) eqn:E2; [lia|].
      cbn [orb]. destruct (Hat n Hn) as [-> _]. destruct (Hat (n - 1) ltac:(lia)) as [-> _].
      by replace (n - 1 - zlen pre) with (n - zlen pre - 1) by lia. }
  assert (Hshift : ∀ c : Z → bool,
            evCount (λ n, c (n - zlen pre)) (zlen pre) (zlen pre + zlen msg)
            = evCount c 0 (zlen msg)).
  { intros c.
    transitivity (evCount (λ n, c (n - zlen pre)) (0 + zlen pre) (zlen msg + zlen pre));
      [f_equal; lia|].
    rewrite <- (evCount_shift (λ n, c (n - zlen pre)) (zlen pre) 0 (zlen msg)).
    apply evCount_ext. intros n Hn. by replace (n + zlen pre - zlen pre) with n by lia. }
  split.
  - rewrite (evCount_ext _ (λ n, groupStart msg 0 (n - zlen pre))) by done.
    apply (Hshift (groupStart msg 0)).
  - rewrite (evCount_ext _ (λ n, groupStart msg 0 (n - zlen pre)
                                  && positive msg (n - zlen pre))).
    2:{ intros n Hn. rewrite Hgs by done. unfold positive.
        by destruct (Hat n Hn) as [_ ->]. }
    apply (Hshift (λ n, groupStart msg 0 n && positive msg n)).
Qed.

Section RoundColumns.
Context `{StdSort}.
Variables (comm_rank size NhaloP Nhalo : Z).
Hypothesis halo_ok : 0 ≤ NhaloP ≤ Nhalo.

Lemma levelRound_columns m st :
  sentMessage (fst m) → sentMessage (snd m) → stateOk Nhalo st →
  zlen (b_levelsN st) = b_Nlevels st → zlen (b_levelsT st) = b_Nlevels st →
  let st' := levelRound comm_rank size NhaloP Nhalo m st in
  csrSafe (gather (zget level0 (b_levelsN st') (b_Nlevels st))) ∧
  csrSafe (gather (zget level0 (b_levelsT st') (b_Nlevels st))).
Proof.
  intros Hm0 Hm1 (HN & Hext & Hids & Hg & Hs) HzN HzT.
  destruct (sentMessage_spec _ Hm0) as (Hs0 & Hw0 & He0).
  destruct (sentMessage_spec _ Hm1) as (Hs1 & Hw1 & He1).
  destruct (sentMessage_counts _ Hm0) as (HcT0 & HcN0).
  destruct (sentMessage_counts _ Hm1) as (HcT1 & HcN1).
  destruct (levelSend_spec (λ a, 0 ≤ newId a) comm_rank st HN) as [Hkeep _].
  { eapply List.Forall_impl; [|exact Hids]. intros a [? _]. lia. }
  destruct (levelSend_spec (λ a, a ∈ b_nodes st) comm_rank st HN) as [Hsub _].
  { by apply list.Forall_forall. }
  destruct (levelSend_spec (idInRange (b_NhaloExtN st) (b_NhaloExtT st)) comm_rank st HN
              Hids) as [Hkids _].
  unfold levelRound, recvCount.
  set (sp := levelSend comm_rank st) in *.
  cbv beta zeta iota.
  set (c0 := 0 <? s_Nmsg sp). set (c1 := s_Nmsg sp =? 2).
  set (keep := s_keep sp) in *.
  set (Nrecv0_ := if c0 then msg_Nsend m.1 else 0).
  set (Nrecv1_ := if c1 then msg_Nsend m.2 else 0).
  set (r0 := recvNodes Nrecv0_ (msg_nodes m.1)).
  set (r1 := recvNodes Nrecv1_ (msg_nodes m.2)).
  set (eT0 := if c0 then msg_NentriesT m.1 else 0).
  set (eT1 := if c1 then msg_NentriesT m.2 else 0).
  set (eN0 := if c0 then msg_NentriesN m.1 else 0).
  set (eN1 := if c1 then msg_NentriesN m.2 else 0).
  set (offset := zlen keep).
  set (N := offset + (Nrecv0_ + Nrecv1_)).
  assert (Hr0 : r0 = if c0 then msg_nodes m.1 else [])
    by (subst r0 Nrecv0_; by apply recvNodes_cond).
  assert (Hr1 : r1 = if c1 then msg_nodes m.2 else [])
    by (subst r1 Nrecv1_; by apply recvNodes_cond).
  assert (Hl0 : zlen r0 = Nrecv0_) by (rewrite Hr0; subst Nrecv0_; by destruct c0).
  assert (Hl1 : zlen r1 = Nrecv1_) by (rewrite Hr1; subst Nrecv1_; by destruct c1).
  assert (Hrecv : Forall (λ a, newId a = -1) (r0 ++ r1)).
  { rewrite Hr0, Hr1. apply Forall_app. by destruct c0, c1. }
  pose proof (zlen_nonneg' keep) as Hoff. pose proof (zlen_nonneg' r0) as Hn0.
  pose proof (zlen_nonneg' r1) as Hn1.
  assert (Hlen : zlen (keep ++ r0 ++ r1) = N) by (rewrite !zlen_app; lia).
  assert (Hlow : Forall (λ a, -1 ≤ newId a) (keep ++ r0 ++ r1)).
  { apply Forall_app. split.
    - eapply List.Forall_impl; [|exact Hkeep]. cbv beta. intros; lia.
    - eapply List.Forall_impl; [|exact Hrecv]. cbv beta. intros; lia. }
  assert (Hhalo : 0 ≤ Nhalo) by lia.
  destruct (renumber_spec Nhalo N (keep ++ r0 ++ r1) Hhalo (eq_sym Hlen) Hlow)
    as (HaN & HaE & HaI).
  pose proof (renumber_fields Nhalo N (keep ++ r0 ++ r1) Hhalo (eq_sym Hlen) Hlow)
    as Hfields.
  pose proof (renumber_indexMap Nhalo N (keep ++ r0 ++ r1) Hhalo (eq_sym Hlen) Hlow)
    as Hmap.
  set (a := renumber Nhalo N (keep ++ r0 ++ r1)) in *. cbv zeta in Hmap.
  assert (Hsame : ∀ k, 0 ≤ k < zlen (keep ++ r0 ++ r1) →
            absBase (nodeAt (as_nodes a) k) = absBase (nodeAt (keep ++ r0 ++ r1) k) ∧
            sign (nodeAt (as_nodes a) k) = sign (nodeAt (keep ++ r0 ++ r1) k)).
  { intros k Hk. destruct (Hfields k ltac:(lia)) as (_ & Hsg & Hb & _).
    unfold absBase. by rewrite Hsg, Hb. }
  (* the entries received are as many as the messages say *)
  destruct (recvEntry_count (as_nodes a) keep r0 r1 Hsame) as [HrT0 HrN0].
  fold offset in HrT0, HrN0. rewrite Hl0 in HrT0, HrN0.
  assert (HeT0 : evCount (groupStart r0 0) 0 Nrecv0_ = eT0).
  { rewrite Hr0. subst Nrecv0_ eT0. destruct c0; [done|]. by apply evCount_nil. }
  assert (HeN0 : evCount (λ n, groupStart r0 0 n && positive r0 n) 0 Nrecv0_ = eN0).
  { rewrite Hr0. subst Nrecv0_ eN0. destruct c0; [done|]. by apply evCount_nil. }
  destruct (recvEntry_count (as_nodes a) (keep ++ r0) r1 []) as [HrT1 HrN1].
  { rewrite app_nil_r, <- app_assoc. exact Hsame. }
  rewrite zlen_app, Hl0, Hl1 in HrT1, HrN1. fold offset in HrT1, HrN1.
  replace (offset + Nrecv0_ + Nrecv1_) with N in HrT1, HrN1 by lia.
  assert (HeT1 : evCount (groupStart r1 0) 0 Nrecv1_ = eT1).
  { rewrite Hr1. subst Nrecv1_ eT1. destruct c1; [done|]. by apply evCount_nil. }
  assert (HeN1 : evCount (λ n, groupStart r1 0 n && positive r1 n) 0 Nrecv1_ = eN1).
  { rewrite Hr1. subst Nrecv1_ eN1. destruct c1; [done|]. by apply evCount_nil. }
  rewrite HeT0 in HrT0. rewrite HeN0 in HrN0. rewrite HeT1 in HrT1. rewrite HeN1 in HrN1.
  assert (0 ≤ eN0 ∧ 0 ≤ eT0 ∧ 0 ≤ eN1 ∧ 0 ≤ eT1) as (HpN0 & HpT0 & HpN1 & HpT1).
  { subst eN0 eT0 eN1 eT1. destruct c0, c1; lia. }
  (* the rows of the extended halo gather the row they had before *)
  assert (Hold : ∀ n, 0 ≤ n < offset → localEntry Nhalo (as_nodes a) n = true →
            0 ≤ oldRow Nhalo (as_nodes a) (as_indexMap a) n < b_NhaloExtT st ∧
            (positive (as_nodes a) n = true →
             oldRow Nhalo (as_nodes a) (as_indexMap a) n < b_NhaloExtN st)).
  { intros n Hn [_ Hge]%andb_true_iff. unfold oldRow, rowOf, positive.
    destruct (Hmap n ltac:(lia) ltac:(lia)) as (j & Hj & Hb & Hmax & ->).
    destruct (Hfields n ltac:(lia)) as (_ & -> & _).
    assert (Hkn : nodeAt (keep ++ r0 ++ r1) n = nodeAt keep n)
      by (by rewrite zget_app_l by (fold offset; lia)).
    pose proof (Forall_zget _ node0 _ n Hkids ltac:(fold offset; lia)) as [Hrn Hpn].
    pose proof (Forall_zget _ node0 _ n Hsub ltac:(fold offset; lia)) as Hin.
    cbv beta in Hin.
    specialize (Hmax n ltac:(lia) eq_refl). rewrite Hkn in Hmax, Hb |- *.
    assert (Hjk : j < offset).
    { destruct (Z_lt_le_dec j offset) as [|Hge']; [done|]. exfalso.
      assert (nodeAt (keep ++ r0 ++ r1) j ∈ r0 ++ r1) as Hjr.
      { rewrite zget_app_r by (fold offset; lia). apply zget_In.
        rewrite zlen_app. fold offset. lia. }
      rewrite list.Forall_forall in Hrecv. apply Hrecv in Hjr. lia. }
    rewrite zget_app_l in Hb, Hmax |- * by (fold offset; lia).
    pose proof (Forall_zget _ node0 _ j Hsub ltac:(fold offset; lia)) as Hinj.
    cbv beta in Hinj.
    assert (newId (nodeAt keep j) = newId (nodeAt keep n)) as -> by (by apply Hg).
    split; [lia|]. intros Hp. apply Hpn. lia. }
  match goal with
  | |- context [buildGather ?f ?a1 ?a2 ?a3 ?a4 ?a5 ?a6 ?a7 ?a8 ?a9 ?b1 ?b2 ?b3 ?b4] =>
      destruct (buildGather_rows f a1 a2 a3 a4 a5 a6 a7 a8 a9 b1 b2 b3 b4
                  halo_ok HaE Hoff ltac:(lia) ltac:(lia) (eq_sym HaN) HaI)
        as (HcsrN & HcsrT & HnzN & HnzT & HendN & HlN & HlT);
      destruct (buildGather_dims f a1 a2 a3 a4 a5 a6 a7 a8 a9 b1 b2 b3 b4)
        as (HdN & HdT & _);
      destruct (buildGather f a1 a2 a3 a4 a5 a6 a7 a8 a9 b1 b2 b3 b4) as [gatherN gatherT]
  end.
  cbn [fst snd] in *.
  injection HdN as HdN1 HdN2 HdN3. injection HdT as HdT1 HdT2 HdT3.
  destruct (shrink comm_rank (b_np st, b_np_offset st)) as [np' off'].
  cbn [b_levelsN b_levelsT].
  generalize dependent (b_Nlevels st). intros ? <- HzT.
  rewrite zget_snoc, <- HzT, zget_snoc. cbn [gather].
  assert (HR : 0 ≤ as_NhaloExtT a) by lia.
  split.
  - unfold csrSafe. rewrite HdN2, HdN3, HlN, HnzN.
    split; [lia|]. split; [apply HcsrN|]. split; [|split; [done|split; [done|]]].
    + intros i Hi. apply (csrOf_mono _ _ _ _ i HcsrN). lia.
    + apply (csrOf_cols _ _ _ _ _ HR HcsrN). unfold valuesN.
      rewrite HrN0, HrN1.
      apply Forall_app; split; [apply Forall_app; split; [apply Forall_app; split|]|].
      * apply Forall_seqZ. intros i Hi. destruct (b_np st =? size); lia.
      * apply evRows_Forall. intros n Hn [Hloc Hpos]%andb_true_iff.
        destruct (Hold n Hn Hloc) as [? Hp]. specialize (Hp Hpos). lia.
      * apply Forall_seqZ. intros i Hi. lia.
      * apply Forall_seqZ. intros i Hi. lia.
  - unfold csrSafe. rewrite HdT2, HdT3, HlT, HnzT.
    split; [lia|]. split; [apply HcsrT|]. split; [|split; [apply HcsrT|split; [done|]]].
    + intros i Hi. apply (csrOf_mono _ _ _ _ i HcsrT). lia.
    + apply (csrOf_cols _ _ _ _ _ HR HcsrT). unfold valuesT.
      rewrite HrT0, HrT1.
      apply Forall_app; split; [apply Forall_app; split; [apply Forall_app; split|]|].
      * apply Forall_seqZ. intros i Hi. lia.
      * apply evRows_Forall. intros n Hn Hloc.
        destruct (Hold n Hn Hloc) as [? _]. lia.
      * apply Forall_seqZ. intros i Hi. lia.
      * apply Forall_seqZ. intros i Hi. lia.
Qed.
End RoundColumns.


(** ** The operators of a schedule *)

(** X17: the two operators a round builds (lines 502-637) are in
    compressed-row form and hold, row by row and in this order: the row's
    own number for the rows of the halo (of the owned part of the halo for
    the forward operator of the first round); for a row of the extended
    halo whose group has a descriptor that stays, the entry of [indexMap]
    of the row; and for every group that starts in a message, the next
    slot after [recvOffset], the slots of the second message following
    those of the first.  The forward operator has the entries of the
    descriptors of positive sign only.  The row starts begin at 0 and grow
    by the number of entries of the row, [nnz] is the length of [colIds],
    and the rows of the forward operator from [NhaloExtN] on are empty. *)
Theorem gather_rows first NhaloP Nhalo NhaloExtN NhaloExtT offset Nrecv0_ N
    nodes indexMap recvOffsetN recvOffsetT NcolsN NcolsT :
  0 ≤ NhaloP ≤ Nhalo → Nhalo ≤ NhaloExtN ≤ NhaloExtT →
  0 ≤ offset → 0 ≤ Nrecv0_ → offset + Nrecv0_ ≤ N → N = zlen nodes →
  Forall (idInRange NhaloExtN NhaloExtT) nodes →
  let g := buildGather first NhaloP Nhalo NhaloExtN NhaloExtT offset Nrecv0_ N nodes
             indexMap recvOffsetN recvOffsetT NcolsN NcolsT in
  let idRows := if first then NhaloP else Nhalo in
  csrOf NhaloExtT (entriesN idRows Nhalo offset Nrecv0_ N nodes)
        (valuesN idRows Nhalo offset Nrecv0_ N nodes indexMap recvOffsetN) (fst g) ∧
  csrOf NhaloExtT (entriesT Nhalo offset Nrecv0_ N nodes)
        (valuesT Nhalo offset Nrecv0_ N nodes indexMap recvOffsetT) (snd g) ∧
  nnzT (fst g) = zlen (colIdsT (fst g)) ∧ nnzT (snd g) = zlen (colIdsT (snd g)) ∧
  zget 0 (rowStartsT (fst g)) NhaloExtN = zlen (colIdsT (fst g)) ∧
  zlen (rowStartsT (fst g)) = NhaloExtT + 1 ∧ zlen (rowStartsT (snd g)) = NhaloExtT + 1.
Proof.
  intros HP HE Hoff Hr0 HN Hlen Hids.
  exact (buildGather_rows first NhaloP Nhalo NhaloExtN NhaloExtT offset Nrecv0_ N nodes
           indexMap recvOffsetN recvOffsetT NcolsN NcolsT HP HE Hoff Hr0 HN Hlen Hids).
Qed.

Lemma gather_rows_witness :
  let nodes := [mkNode 0 0 2 7 1; mkNode 1 1 (-2) (-9) 0] in
  let g := buildGather true 1 1 1 2 1 1 2 nodes [-1] 1 1 1 2 in
  csrOf 2 (entriesN 1 1 1 1 2 nodes) (valuesN 1 1 1 1 2 nodes [-1] 1) (fst g) ∧
  csrOf 2 (entriesT 1 1 1 2 nodes) (valuesT 1 1 1 2 nodes [-1] 1) (snd g) ∧
  nnzT (fst g) = zlen (colIdsT (fst g)) ∧ nnzT (snd g) = zlen (colIdsT (snd g)) ∧
  zget 0 (rowStartsT (fst g)) 1 = zlen (colIdsT (fst g)) ∧
  zlen (rowStartsT (fst g)) = 2 + 1 ∧ zlen (rowStartsT (snd g)) = 2 + 1.
Proof.
  apply (gather_rows true 1 1 1 2 1 1 2 [mkNode 0 0 2 7 1; mkNode 1 1 (-2) (-9) 0] [-1]
           1 1 1 2).
  - lia.
  - lia.
  - lia.
  - lia.
  - lia.
  - reflexivity.
  - repeat constructor; simpl; lia.
Defined.

(** X18: the operators of a constructed schedule can be run.  When the
    caller's descriptors group the halo and the messages are ones that
    processes have sent, every operator of both schedules has row starts
    that begin at 0, do not decrease and end at [nnz], which is the length
    of [colIds], and every column is an entry of the buffer the operator
    reads: [0 <= colIds[j] < Ncols], where [Ncols] is what the level holds
    once its messages have arrived. *)
Theorem gather_columns_safe `{StdSort} comm_rank size gpu Dfloat sharedNodes gatherHalo
    oracle :
  1 ≤ size → 0 ≤ comm_rank < size → 0 ≤ NrowsN gatherHalo ≤ NrowsT gatherHalo →
  wfShared (NrowsT gatherHalo) sharedNodes → sentMessages oracle →
  ∃ x,
    construct comm_rank size gpu Dfloat (zlen sharedNodes) sharedNodes gatherHalo oracle
      = Some x ∧
    ∀ l, 0 ≤ l < cr.Nlevels x →
      csrSafe (gather (zget level0 (cr.levelsN x) l)) ∧
      csrSafe (gather (zget level0 (cr.levelsT x) l)).
Proof.
  intros Hsize Hrank Hhalo Hwf Hsent.
  apply (construct_levels_have comm_rank size gpu Dfloat sharedNodes gatherHalo oracle
           Hsize Hrank Hhalo Hwf Hsent
           (λ lN lT, csrSafe (gather lN) ∧ csrSafe (gather lT))).
  intros st m [Hr Hs] Hm0 Hm1 _.
  destruct Hr as (_ & _ & _ & _ & _ & _ & _ & HzN & HzT & _).
  by apply levelRound_columns.
Qed.

Lemma gather_columns_safe_witness :
  ∃ x,
    construct 0 2 false Double (zlen shared0) shared0 gatherHalo1 peerMessages = Some x ∧
    ∀ l, 0 ≤ l < cr.Nlevels x →
      csrSafe (gather (zget level0 (cr.levelsN x) l)) ∧
      csrSafe (gather (zget level0 (cr.levelsT x) l)).
Proof.
  apply (gather_columns_safe (H:=insertionStdSort) 0 2 false Double shared0 gatherHalo1
           peerMessages).
  - lia.
  - lia.
  - simpl. lia.
  - split; [|split].
    + repeat constructor; simpl; lia.
    + intros a b ->%list_elem_of_singleton ->%list_elem_of_singleton. done.
    + intros n Hn. exists (mkNode 0 0 2 7 1). split; [by constructor|simpl in *; lia].
  - intros l. split.
    + exists 1, peerState. reflexivity.
    + exists 0, (mkBuild 1 0 0 0 [] 0 0 0 [] []). reflexivity.
Defined.

(** X19: [indexMap] leads from a new row of the extended halo back to the
    old one.  For a descriptor that the renumbering gives a row at or past
    [Nhalo], the entry of [indexMap] of this row is the largest [newId]
    that the descriptors of its group had when the renumbering started. *)
Theorem index_map_old_ids `{StdSort} Nhalo N nodes k :
  0 ≤ Nhalo → N = zlen nodes → Forall (λ a, -1 ≤ newId a) nodes → 0 ≤ k < N →
  let a := renumber Nhalo N nodes in
  Nhalo ≤ newId (nodeAt (as_nodes a) k) →
  ∃ j, 0 ≤ j < N ∧ absBase (nodeAt nodes j) = absBase (nodeAt nodes k) ∧
       (∀ m, 0 ≤ m < N → absBase (nodeAt nodes m) = absBase (nodeAt nodes k) →
             newId (nodeAt nodes m) ≤ newId (nodeAt nodes j)) ∧
       zget 0 (as_indexMap a) (newId (nodeAt (as_nodes a) k) - Nhalo)
       = newId (nodeAt nodes j).
Proof.
  intros Hhalo HN Hlow Hk. by apply renumber_indexMap.
Qed.

Lemma index_map_old_ids_witness :
  let a := renumber 1 4 nodes5 in
  ∃ j, 0 ≤ j < 4 ∧ absBase (nodeAt nodes5 j) = absBase (nodeAt nodes5 2) ∧
       (∀ m, 0 ≤ m < 4 → absBase (nodeAt nodes5 m) = absBase (nodeAt nodes5 2) →
             newId (nodeAt nodes5 m) ≤ newId (nodeAt nodes5 j)) ∧
       zget 0 (as_indexMap a) (newId (nodeAt (as_nodes a) 2) - 1)
       = newId (nodeAt nodes5 j).
Proof.
  apply (index_map_old_ids (H:=insertionStdSort) 1 4 nodes5 2).
  - lia.
  - reflexivity.
  - repeat constructor; simpl; lia.
  - lia.
  - vm_compute. discriminate.
Defined.
